(** * MolViewSpec tree interpreter: a shallow embedding of the loading helpers

    The development follows the TypeScript sources of the MolViewSpec
    front end:

    - [helpers/utils.ts]: object and array utilities, [MultiMap] and
      [NumberMap], canonical JSON strings, distinct values, string hashes
      and colour decoding;
    - the loading helpers ([loadTree], [collectAnnotationReferences],
      [collectAnnotationTooltips], [collectInlineTooltips],
      [colorThemeForNode], [labelFromXProps], [makeNearestReprMap],
      [transformFromRotationTranslation], [transformProps]);
    - the selector module ([ElementSet.fromSelector], [ElementSet.has]).

    JavaScript values are embedded as follows.  [undefined] is [None] of an
    [option]; strings are [string] (one character per code unit, code units
    below 256); numbers that are indices or counts are [Z] or [nat], numbers
    that enter floating point arithmetic are binary64 [float]s (integer-valued
    ones are [Z] with the rounding written out); objects used as records are
    lists of their own properties in the order in which JavaScript lists them;
    [Map]s keyed by node identity are [gmap]s keyed by the node's
    reference. *)

From Stdlib Require Import ZArith String Ascii List Bool Lia Floats.
From Stdlib Require Import Sorting.Sorted Sorting.Permutation DecimalString.
From stdpp Require Import gmap strings list sorting.
Import ListNotations.

Local Open Scope Z_scope.

Set Default Proof Using "Type".

(* ===================================================================== *)
(** * Part I: the model *)
(* ===================================================================== *)

(** ** JavaScript values *)

(** The type [Json] of [helpers/utils.ts]:
    [string | number | boolean | null | Json[] | { [key: string]: Json | undefined }].
    An object lists its own properties in the order of JavaScript: the keys
    that are array indices first, in ascending order, then the other keys in
    the order of their creation.  A property whose value is [undefined]
    carries [None]; the keys are pairwise distinct.  Only integer-valued
    numbers are represented (the numeric parameter the annotation specs read
    is a block index). *)
#[local] Unset Elimination Schemes.
Inductive Json : Type :=
| JNull : Json
| JBool (b : bool) : Json
| JNum (n : Z) : Json
| JStr (s : string) : Json
| JArr (xs : list Json) : Json
| JObj (fields : list (string * option Json)) : Json.
#[local] Set Elimination Schemes.

(** A JavaScript object used as a record. *)
Definition Obj (V : Type) : Type := list (string * option V).

(** Property read [obj[key]] among the own properties: [undefined] when the
    key is missing or bound to [undefined].  (The keys read this way are own
    keys or names of parameters, none of them a member of
    [Object.prototype].) *)
Fixpoint get_prop {V : Type} (obj : Obj V) (key : string) : option V :=
  match obj with
  | [] => None
  | (k, v) :: rest => if String.eqb k key then v else get_prop rest key
  end.

(** [Object.keys(obj)]. *)
Definition Object_keys {V : Type} (obj : Obj V) : list string := List.map fst obj.

(** [Object.hasOwn(obj, key)]. *)
Definition hasOwn {V : Type} (obj : Obj V) (key : string) : bool :=
  List.existsb (String.eqb key) (Object_keys obj).

(** [delete obj[key]]. *)
Definition delete_prop {V : Type} (obj : Obj V) (key : string) : Obj V :=
  List.filter (fun kv => negb (String.eqb (fst kv) key)) obj.

(** The values of a type of array elements that are [undefined].  A number
    never is; of an optional value, [None] is. *)
Class Undefinable (T : Type) : Type := is_undefined : T -> bool.

#[global] Instance number_defined : Undefinable Z := fun _ => false.
#[global] Instance option_undefined {A : Type} : Undefinable (option A) :=
  fun x => match x with None => true | Some _ => false end.

(** The outcome of a function that returns a value or throws. *)
Inductive result (A E : Type) : Type :=
| Ok (value : A)
| Throw (error : E).
Arguments Ok {A E} value.
Arguments Throw {A E} error.

(** [throw_if c with e ;; k]: [if (c) throw e; k]. *)
Notation "'throw_if' c 'with' e ;; k" := (if c then Throw e else k)
  (at level 10, c at level 99, e at level 99, k at level 200).

(** The double quote character (written by its decimal code). *)
Definition dquote : ascii := "034"%char.

(** Code unit of a character, [String.prototype.charCodeAt]. *)
Definition charCode (c : ascii) : Z := Z.of_N (N_of_ascii c).

Definition hex_digit (d : Z) : ascii :=
  if d <? 10 then ascii_of_N (Z.to_N (48 + d)) else ascii_of_N (Z.to_N (87 + d)).

(** [Number.prototype.toString(16)] on a non-negative integer; [fuel] bounds
    the number of digits. *)
Fixpoint toString16_aux (fuel : nat) (n : Z) (acc : string) : string :=
  match fuel with
  | O => acc
  | S fuel' =>
      let acc' := String (hex_digit (n mod 16)) acc in
      if n / 16 =? 0 then acc' else toString16_aux fuel' (n / 16) acc'
  end.

Definition toString16 (n : Z) : string := toString16_aux 16 n "".

(** [String.prototype.padStart(len, fill)] for a one-character [fill]. *)
Definition padStart (s : string) (len : nat) (fill : ascii) : string :=
  String.concat "" (List.repeat (String fill "") (len - String.length s)) +:+ s.

(** Decimal rendering of an integer-valued number, as [JSON.stringify] and
    [String(n)] print it. *)
Definition number_to_string (n : Z) : string := NilZero.string_of_int (Z.to_int n).

(** [QuoteJSONString] of ECMA-262: the characters that [JSON.stringify]
    escapes inside a string literal. *)
Definition escape_char (c : ascii) : string :=
  let n := charCode c in
  if n =? 34 then String "\" (String dquote "")
  else if n =? 92 then "\\"
  else if n =? 8 then "\b"
  else if n =? 12 then "\f"
  else if n =? 10 then "\n"
  else if n =? 13 then "\r"
  else if n =? 9 then "\t"
  else if n <? 32 then "\u00" +:+ String (hex_digit (n / 16)) (String (hex_digit (n mod 16)) "")
  else String c "".

Fixpoint escape_string (s : string) : string :=
  match s with
  | EmptyString => ""
  | String c rest => escape_char c +:+ escape_string rest
  end.

Definition quote (s : string) : string :=
  String dquote (escape_string s +:+ String dquote "").

(** ** Assignment to a property *)

Definition is_digit (c : ascii) : bool :=
  let n := charCode c in (48 <=? n) && (n <=? 57).

(** The value of a string of decimal digits. *)
Fixpoint digits_value (acc : Z) (s : string) : option Z :=
  match s with
  | EmptyString => Some acc
  | String c rest =>
      if is_digit c then digits_value (acc * 10 + (charCode c - 48)) rest else None
  end.

(** An array index: a key that is the decimal numeral, as [String(n)] prints
    it, of an integer [n] from 0 to [2^32 - 2]. *)
Definition array_index (key : string) : option Z :=
  match key with
  | EmptyString => None
  | _ =>
      match digits_value 0 key with
      | Some n =>
          if String.eqb (number_to_string n) key && (n <? 2 ^ 32 - 1) then Some n else None
      | None => None
      end
  end.

(** The value of an own property changes in place. *)
Fixpoint update_prop {V : Type} (obj : Obj V) (key : string) (value : option V) : Obj V :=
  match obj with
  | [] => []
  | (k, v) :: rest =>
      if String.eqb k key then (k, value) :: rest else (k, v) :: update_prop rest key value
  end.

(** A new property whose key is the array index [n] goes before the first
    property that is no array index or a greater one. *)
Fixpoint insert_index {V : Type} (n : Z) (key : string) (value : option V) (obj : Obj V)
    : Obj V :=
  match obj with
  | [] => [(key, value)]
  | (k, v) :: rest =>
      match array_index k with
      | Some m =>
          if m <? n then (k, v) :: insert_index n key value rest else (key, value) :: obj
      | None => (key, value) :: obj
      end
  end.

(** A new property: an array index goes to its place among the array
    indices, any other key goes last. *)
Definition define_prop {V : Type} (obj : Obj V) (key : string) (value : option V) : Obj V :=
  match array_index key with
  | Some n => insert_index n key value obj
  | None => obj ++ [(key, value)]
  end.

(** Assignment [obj[key] = value] where [obj] inherits no setter for [key]. *)
Definition set_prop {V : Type} (obj : Obj V) (key : string) (value : option V) : Obj V :=
  if hasOwn obj key then update_prop obj key value else define_prop obj key value.

(** An object that starts as the literal [{}] and takes assignments: its own
    properties, and whether it still inherits the accessor [__proto__] of
    [Object.prototype]. *)
Record Built (V : Type) : Type := mkBuilt {
  properties : Obj V;
  inherits_proto_accessor : bool
}.
Arguments mkBuilt {V} properties inherits_proto_accessor.
Arguments properties {V} b.
Arguments inherits_proto_accessor {V} b.

Definition empty_object {V : Type} : Built V := mkBuilt [] true.

Section Assign.

Context {V : Type}.

(** [keeps_accessor value]: once [value] has been handed to the accessor
    [__proto__], does the object still inherit that accessor?  The accessor
    ignores a value that is neither an object nor [null]; [null] leaves the
    object without prototype; an object becomes the prototype, and hides the
    accessor when it has a property '__proto__' of its own or does not
    inherit from [Object.prototype] itself. *)
Variable keeps_accessor : option V -> bool.

(** Assignment [obj[key] = value] on such an object.  At the key '__proto__'
    that is no own property, the accessor of [Object.prototype], while it is
    inherited, takes the value and creates no property.  Every other
    assignment sets an own property: the values are data, so that no other
    setter is inherited. *)
Definition assign (obj : Built V) (key : string) (value : option V) : Built V :=
  if String.eqb key "__proto__" && negb (hasOwn (properties obj) key)
     && inherits_proto_accessor obj
  then mkBuilt (properties obj) (keeps_accessor value)
  else mkBuilt (set_prop (properties obj) key value) (inherits_proto_accessor obj).

End Assign.

(** [keeps_accessor] for the values of [Json]. *)
Definition Json_keeps_accessor (value : option Json) : bool :=
  match value with
  | Some JNull => false
  | Some (JObj fields) => negb (hasOwn fields "__proto__")
  | _ => true
  end.

(** ** helpers/utils.ts *)

Module Utils.

Section Records.

Context {V : Type}.

(** How the values behave as prototypes; see [assign]. *)
Variable keeps_accessor : option V -> bool.

(** [pickObjectKeys]: an object with keys [keys] and their values same as in
    [obj].  The functions of this section return the own properties of the
    object they build. *)
Definition pickObjectKeys (obj : Obj V) (keys : list string) : Obj V :=
  properties
    (List.fold_left
       (fun result key =>
          if hasOwn obj key then assign keeps_accessor result key (get_prop obj key)
          else result)
       keys empty_object).

(** [omitObjectKeys]: an object same as [obj] but without keys [omitKeys].
    The copy [{ ...obj }] has the own properties of [obj] in their order. *)
Definition omitObjectKeys (obj : Obj V) (omitKeys : list string) : Obj V :=
  List.fold_left (fun result key => delete_prop result key) omitKeys obj.

(** The loop of [objectFromKeysAndValues], from index [i] on; [values[i]] is
    [undefined] past the end of [values]. *)
Fixpoint objectFromKeysAndValues_from (keys : list string) (i : nat)
    (values : list (option V)) (obj : Built V) : Built V :=
  match keys with
  | [] => obj
  | key :: keys' =>
      objectFromKeysAndValues_from keys' (S i) values
        (assign keeps_accessor obj key (mjoin (values !! i)))
  end.

(** [objectFromKeysAndValues]: an object from keys and values (first key maps
    to first value etc.). *)
Definition objectFromKeysAndValues (keys : list string) (values : list (option V)) : Obj V :=
  properties (objectFromKeysAndValues_from keys 0 values empty_object).

(** [mapArrToObj]: the Pythonic [{k: getValue(k) for k in array}]. *)
Definition mapArrToObj (array : list string) (getValue : string -> option V) : Obj V :=
  properties
    (List.fold_left (fun result key => assign keeps_accessor result key (getValue key))
       array empty_object).

(** [mapObjToObj]: the Pythonic [{k: getValue(k, v) for k, v in obj.items()}].
    The loop [for (const key in obj)] visits the own keys of [obj], which
    inherits no enumerable property. *)
Definition mapObjToObj {VIn : Type} (obj : Obj VIn)
    (getValue : string -> option VIn -> option V) : Obj V :=
  properties
    (List.fold_left
       (fun result key => assign keeps_accessor result key (getValue key (get_prop obj key)))
       (Object_keys obj) empty_object).

End Records.

(** [isReallyObject]: a good old object, not an array nor [null]. *)
Definition isReallyObject (v : Json) : bool :=
  match v with JObj _ => true | _ => false end.

(** [Array.prototype.sort()] on strings: ascending by code units. *)
Fixpoint insert_sorted (k : string) (ks : list string) : list string :=
  match ks with
  | [] => [k]
  | k' :: rest => if String.leb k k' then k :: ks else k' :: insert_sorted k rest
  end.

Definition sort_strings (ks : list string) : list string :=
  List.fold_right insert_sorted [] ks.

(** [sortObjectKeys]: a copy of [obj] with sorted keys and without the keys
    whose value is [undefined]; here, its own properties.  The keys of
    [Object.keys(obj)] are distinct: the one assignment at the key
    '__proto__', if [obj] has such a property, goes to the accessor of
    [Object.prototype] and creates no property. *)
Definition sortObjectKeys {V : Type} (obj : Obj V) : Obj V :=
  List.fold_left
    (fun result key =>
       match get_prop obj key with
       | Some value =>
           if String.eqb key "__proto__" then result else set_prop result key (Some value)
       | None => result
       end)
    (sort_strings (Object_keys obj)) [].

(** The members [key:value] that [JSON.stringify] prints for an object: those
    of the own properties whose value is not [undefined]. *)
Definition print_members (printed : Obj string) : list string :=
  List.flat_map
    (fun kv => match snd kv with
               | Some value => [quote (fst kv) +:+ ":" +:+ value]
               | None => []
               end)
    printed.

(** [canonicalJsonString]: [JSON.stringify] with the replacer that sends every
    value that [isReallyObject] to [sortObjectKeys] of itself and leaves the
    others.  [JSON.stringify] applies the replacer to a value before it
    descends into it, so every nested object is printed as its sorted copy.
    Below, the values of the properties are printed first and the copy is
    made then, which gives the same string: the copy does not depend on the
    values but for their being [undefined]. *)
Fixpoint canonicalJsonString (obj : Json) : string :=
  match obj with
  | JNull => "null"
  | JBool b => if b then "true" else "false"
  | JNum n => number_to_string n
  | JStr s => quote s
  | JArr xs => "[" +:+ String.concat "," (List.map canonicalJsonString xs) +:+ "]"
  | JObj fields =>
      let printed : Obj string :=
        List.map (fun kv => (fst kv, option_map canonicalJsonString (snd kv))) fields in
      "{" +:+ String.concat "," (print_members (sortObjectKeys printed)) +:+ "}"
  end.

(** [distinct]: all distinct values from [values], the first of each group
    of values with one canonical string.  [seen] is the [Set] of the strings
    met so far. *)
Definition distinct_step (st : gset string * list Json) (value : Json)
    : gset string * list Json :=
  let '(seen, result) := st in
  let key := canonicalJsonString value in
  if bool_decide (key ∈ seen) then (seen, result)
  else ({[key]} ∪ seen, result ++ [value]).

Definition distinct (values : list Json) : list Json :=
  snd (List.fold_left distinct_step values (∅, [])).

(** [isDefined]: neither [undefined] nor [null]. *)
Definition isDefined (value : option Json) : bool :=
  match value with
  | None | Some JNull => false
  | Some _ => true
  end.

(** [isAnyDefined]: is at least one of [values] neither [undefined] nor
    [null]? *)
Definition isAnyDefined (values : list (option Json)) : bool :=
  List.existsb (fun v => isDefined v) values.

(** [filterDefined]: all original elements except [undefined] and [null]. *)
Definition filterDefined (elements : list (option Json)) : list (option Json) :=
  List.filter
    (fun x => match x with
              | None => false
              | Some JNull => false
              | Some _ => true
              end)
    elements.

(** Wrap-around of the bitwise operators: [x | 0] is [ToInt32 x] and
    [x >>> 0] is [ToUint32 x]. *)
Definition ToInt32 (x : Z) : Z := (x + 2 ^ 31) mod 2 ^ 32 - 2 ^ 31.
Definition ToUint32 (x : Z) : Z := x mod 2 ^ 32.

(** [hashString] of the host library ([molstar/lib/mol-data/util]):
    [for (i = 0; i < l; i++) h = (h << 5) - h + s.charCodeAt(i++) | 0],
    whose double increment reads the characters at even positions only.  The
    example in the comment of [stringHash] below fixes this reading. *)
Fixpoint hashString_from (h : Z) (s : string) : Z :=
  match s with
  | EmptyString => h
  | String c rest =>
      let h' := ToInt32 (ToInt32 (Z.shiftl h 5) - h + charCode c) in
      match rest with
      | EmptyString => h'
      | String _ rest' => hashString_from h' rest'
      end
  end.

Definition hashString (s : string) : Z := hashString_from 0 s.

(** [stringHash]: an 8-hex-character hash of the input string,
    e.g. 'spanish inquisition' -> 'bd65e59a'. *)
Definition stringHash (input : string) : string :=
  let uint32hash := ToUint32 (hashString input) in
  padStart (toString16 uint32hash) 8 "0"%char.

(** Colours are numbers [0xRRGGBB] (the host library's [Color]). *)
Definition Color : Type := Z.

Definition is_hex_digit (c : ascii) : bool :=
  let n := charCode c in
  ((48 <=? n) && (n <=? 57)) || ((65 <=? n) && (n <=? 70)) || ((97 <=? n) && (n <=? 102)).

Definition hex_value (c : ascii) : Z :=
  let n := charCode c in
  if n <=? 57 then n - 48 else if n <=? 70 then n - 55 else n - 87.

(** [hexColorRegex = /^#([0-9A-F]{3}){1,2}$/i]: a hash sign followed by three
    or six hexadecimal digits, upper or lower case, and nothing else. *)
Definition hexColorRegex_test (str : string) : bool :=
  match str with
  | String "#" digits =>
      List.forallb is_hex_digit (list_ascii_of_string digits)
      && ((String.length digits =? 3)%nat || (String.length digits =? 6)%nat)
  | _ => false
  end.

(** [isHexColorString]; the argument is a string already, so the [typeof]
    test holds. *)
Definition isHexColorString (str : string) : bool := hexColorRegex_test str.

(** [HexColor(str)]: the string itself when it is a hexadecimal colour
    string, an error otherwise. *)
Definition HexColor (str : string) : result string string :=
  throw_if negb (isHexColorString str)
    with "ValueError: " +:+ String dquote str
         +:+ String dquote " is not a valid hex color string" ;;
  Ok str.

(** [parseInt] on hexadecimal digits: the value of the longest prefix of
    digits, [NaN] (here [None]) when there is none. *)
Fixpoint parse_hex_prefix (acc : option Z) (s : string) : option Z :=
  match s with
  | EmptyString => acc
  | String c rest =>
      if is_hex_digit c
      then parse_hex_prefix (Some (default 0 acc * 16 + hex_value c)) rest
      else acc
  end.

(** [Color.fromHexStyle] of the host library:
    [parseInt(s.replace('#', '0x'))].  [None] stands for [NaN].  Strings
    without the leading hash sign never reach it from [decodeColor]. *)
Definition Color_fromHexStyle (s : string) : option Color :=
  match s with
  | String "#" digits => parse_hex_prefix None digits
  | _ => None
  end.

Definition lower_char (c : ascii) : ascii :=
  let n := charCode c in
  if (65 <=? n) && (n <=? 90) then ascii_of_N (Z.to_N (n + 32)) else c.

(** [String.prototype.toLowerCase] on the code units below 128. *)
Fixpoint toLowerCase (s : string) : string :=
  match s with
  | EmptyString => EmptyString
  | String c rest => String (lower_char c) (toLowerCase rest)
  end.

(** The members of [Object.prototype], which every object literal
    inherits. *)
Definition Object_prototype_members : list string :=
  ["constructor"; "__defineGetter__"; "__defineSetter__"; "hasOwnProperty";
   "__lookupGetter__"; "__lookupSetter__"; "isPrototypeOf"; "propertyIsEnumerable";
   "toString"; "valueOf"; "__proto__"; "toLocaleString"].

(** What [decodeColor] returns at run time.  Its declared type is
    [Color | undefined], but the table [ColorNames] is an object literal, and
    the read [ColorNames[key]] at a key that names no colour finds the member
    of [Object.prototype] of that name, if there is one: a function, or for
    '__proto__' the prototype itself. *)
Inductive DecodedColor : Type :=
| color_number (value : Color)
| inherited_member (name : string).

Section DecodeColor.

(** The table [ColorNames] of the host library: its own properties. *)
Variable ColorNames : string -> option Color.

(** The property read [ColorNames[key]]: the own property, else the
    inherited one. *)
Definition ColorNames_get (key : string) : option DecodedColor :=
  match ColorNames key with
  | Some value => Some (color_number value)
  | None =>
      if List.existsb (String.eqb key) Object_prototype_members
      then Some (inherited_member key)
      else None
  end.

(** [decodeColor]: X11 colour name or hex code to [Color], [undefined] if the
    string cannot be converted. *)
Definition decodeColor (colorString : option string) : option DecodedColor :=
  match colorString with
  | None => None
  | Some colorString =>
      let isHex := isHexColorString colorString in
      let colorString :=
        match colorString with
        | String _ (String c1 (String c2 (String c3 EmptyString))) =>
            if isHex
            then (* convert short form to full form (#f0f -> #ff00ff) *)
              String "#" (String c1 (String c1 (String c2 (String c2 (String c3 (String c3 ""))))))
            else colorString
        | _ => colorString
        end in
      match (if isHex then Color_fromHexStyle colorString else None) with
      | Some result => Some (color_number result)
      | None => ColorNames_get (toLowerCase colorString)
      end
  end.

End DecodeColor.

(** The value of an arithmetic operation on integer-valued numbers whose
    exact result is the integer [z]: the binary64 number nearest to [z], the
    one with an even significand of two nearest ones.  An integer up to
    [2^53] in absolute value is a binary64 number itself; beyond, the binary64
    numbers are the multiples of the unit in the last place for 53 binary
    digits.  (A result beyond the largest binary64 number is [Infinity] for
    the host and stays a large integer here.) *)
Definition round_binary64 (z : Z) : Z :=
  let m := Z.abs z in
  if m <=? 2 ^ 53 then z
  else
    let ulp := 2 ^ (Z.log2 m - 52) in
    let q := m / ulp in
    let r := m mod ulp in
    let q := if (2 * r <? ulp) || ((2 * r =? ulp) && Z.even q) then q else q + 1 in
    Z.sgn z * (q * ulp).

(** [Array(length)]: the host refuses a length above [2^32 - 1]. *)
Definition max_array_length : Z := 2 ^ 32 - 1.

(** [range(start, end)]: the integers from [start, end) if [end] is given, from
    [0, start) if it is omitted.  The arguments are integer-valued numbers;
    the difference [end - start] and the sums [start + i] are binary64
    operations.  A length that the array constructor refuses is one above
    [2^32 - 1] ([Infinity] included). *)
Definition range (start : Z) (end_ : option Z) : result (list Z) string :=
  let '(start, end_) :=
    match end_ with
    | None => (0, start)
    | Some end_ => (start, end_)
    end in
  let length := Z.max (round_binary64 (end_ - start)) 0 in
  throw_if max_array_length <? length with "RangeError: Invalid array length" ;;
  Ok (List.map (fun i => round_binary64 (start + Z.of_nat i)) (List.seq 0 (Z.to_nat length))).

(** The checks of [sortIfNeeded]: is there an adjacent pair with
    [compareFn(array[i - 1], array[i]) > 0]? *)
Fixpoint has_descent {T : Type} (compareFn : T -> T -> Z) (array : list T) : bool :=
  match array with
  | a :: (b :: _) as rest => (0 <? compareFn a b) || has_descent compareFn rest
  | _ => false
  end.

(** [Array.prototype.sort(compareFn)].  The elements that are [undefined]
    are not handed to [compareFn]: they go last.  The others are sorted by
    [compareFn]; the sort is stable, written here as an insertion sort, which
    for a consistent [compareFn] gives the order every stable sort gives. *)
Fixpoint sort_insert {T : Type} (compareFn : T -> T -> Z) (x : T) (sorted : list T) : list T :=
  match sorted with
  | [] => [x]
  | y :: rest =>
      if 0 <? compareFn x y then y :: sort_insert compareFn x rest else x :: sorted
  end.

Definition Array_sort {T : Type} `{Undefinable T} (compareFn : T -> T -> Z) (array : list T)
    : list T :=
  List.fold_right (sort_insert compareFn) []
    (List.filter (fun x => negb (is_undefined x)) array)
  ++ List.filter is_undefined array.

(** [sortIfNeeded]: check whether [array] is sorted, sort if not.  The check
    hands every element to [compareFn], an [undefined] one too. *)
Definition sortIfNeeded {T : Type} `{Undefinable T} (array : list T) (compareFn : T -> T -> Z)
    : list T :=
  if has_descent compareFn array then Array_sort compareFn array else array.

(** *** Arrays in the store

    [extend] writes into its first argument, which may be the very array it
    reads from; arrays therefore live in a store, addressed by reference. *)
Section Arrays.

Context {T : Type}.

(** The value [undefined] of the element type: what a hole of an array
    reads as. *)
Variable undefined : T.

(** [a[i]]. *)
Definition array_get (a : list T) (i : nat) : T := default undefined (a !! i).

(** [a[i] = v]; a write past the end grows the array. *)
Definition array_set (a : list T) (i : nat) (v : T) : list T :=
  if decide (i < length a)%nat then <[i := v]> a
  else a ++ replicate (i - length a) undefined ++ [v].

(** [a.length = n]. *)
Definition array_set_length (a : list T) (n : nat) : list T :=
  take n a ++ replicate (n - length a) undefined.




(** [a[i]] for an integer [i]: an array has no element at a negative
    index. *)
Definition array_at (a : list T) (i : Z) : T :=
  if i <? 0 then undefined else array_get a (Z.to_nat i).

(** The position an index of [Array.prototype.slice] stands for: a negative
    index counts from the end, and every index is clamped to the array. *)
Definition relative_index (n : nat) (i : Z) : nat :=
  if i <? 0 then Z.to_nat (Z.max (Z.of_nat n + i) 0) else Z.to_nat (Z.min i (Z.of_nat n)).

(** [array.slice(start, end)]. *)
Definition Array_slice (array : list T) (start end_ : Z) : list T :=
  let k := relative_index (length array) start in
  let final := relative_index (length array) end_ in
  take (final - k) (drop k array).

(** [array.findIndex(predicate)], counted from [i]: the index of the first
    element that fulfils the predicate, [-1] when there is none. *)
Fixpoint findIndex_from (predicate : T -> bool) (array : list T) (i : Z) : Z :=
  match array with
  | [] => -1
  | x :: rest => if predicate x then i else findIndex_from predicate rest (i + 1)
  end.

Definition Array_findIndex (array : list T) (predicate : T -> bool) : Z :=
  findIndex_from predicate array 0.

(** The loop [while (stop < n && whilePredicate(array[stop])) stop++], with
    at most [fuel] iterations. *)
Fixpoint advance_while (fuel : nat) (array : list T) (whilePredicate : T -> bool)
    (stop : Z) : Z :=
  match fuel with
  | O => stop
  | S fuel' =>
      if (stop <? Z.of_nat (length array)) && whilePredicate (array_at array stop)
      then advance_while fuel' array whilePredicate (stop + 1)
      else stop
  end.

(** The loop leaves at [stop = n] at the latest: [n - stop] iterations are
    enough. *)
Definition while_fuel (array : list T) (stop : Z) : nat :=
  Z.to_nat (Z.of_nat (length array) - stop).

(** [takeFromWhile]: the slice of [array] starting at the first element
    fulfilling [fromPredicate] up to the last element thenceforward
    fulfilling [whilePredicate]. *)
Definition takeFromWhile (array : list T) (fromPredicate whilePredicate : T -> bool) : list T :=
  let start := Array_findIndex array fromPredicate in
  if start <? 0 then [] (* no elements fulfil fromPredicate *)
  else
    let stop := advance_while (while_fuel array start) array whilePredicate start in
    Array_slice array start stop.

(** [takeWhile]: the slice of [array] starting at [fromIndex] up to the last
    element thenceforward fulfilling [whilePredicate]. *)
Definition takeWhile (array : list T) (whilePredicate : T -> bool) (fromIndex : Z) : list T :=
  let stop := advance_while (while_fuel array fromIndex) array whilePredicate fromIndex in
  Array_slice array fromIndex stop.

(** The loop of [filterInPlace], with [todo] iterations left: the elements
    kept are written to the front of the array they are read from. *)
Fixpoint filterInPlace_loop (predicate : T -> bool) (todo : nat) (iSrc iDest : nat)
    (array : list T) : nat * list T :=
  match todo with
  | O => (iDest, array)
  | S todo' =>
      if predicate (array_get array iSrc)
      then filterInPlace_loop predicate todo' (S iSrc) (S iDest)
             (array_set array iDest (array_get array iSrc))
      else filterInPlace_loop predicate todo' (S iSrc) iDest array
  end.

(** [filterInPlace]: remove all elements from the array which do not fulfil
    [predicate]; the modified array itself is returned. *)
Definition filterInPlace (array : list T) (predicate : T -> bool) : list T :=
  let n := length array in
  let '(iDest, array) := filterInPlace_loop predicate n 0 0 array in
  array_set_length array iDest.

End Arrays.

(** [MultiMap]: a map where values are arrays. *)
Module MultiMap.
Section WithKeys.
Context {K : Type} `{Countable K} {V : Type}.

(** [add(key, value)]: append value to a key (handles missing keys). *)
Definition add (this : gmap K (list V)) (key : K) (value : V) : gmap K (list V) :=
  let this := if bool_decide (is_Some (this !! key)) then this else <[key := []]> this in
  <[key := default [] (this !! key) ++ [value]]> this.

End WithKeys.
End MultiMap.

(** [NumberMap]: a [Map] where keys are integers and most keys are expected
    to be from the interval [[0, limit)]; these are kept in an array, the
    others in a [Map]. *)
Module NumberMap.
Section WithValues.
Context {V : Type}.

Record t : Type := mkNumberMap {
  limit : Z;
  array : list (option V);
  map : gmap Z V
}.

(** The constructor: [new Array(limit)] is an array of [limit] holes, and is
    refused for a negative [limit] or one above [2^32 - 1]. *)
Definition new (limit : Z) : result t string :=
  throw_if (limit <? 0) || (max_array_length <? limit)
    with "RangeError: Invalid array length" ;;
  Ok (mkNumberMap limit (replicate (Z.to_nat limit) None) ∅).

Definition get (this : t) (key : Z) : option V :=
  if (0 <=? key) && (key <? limit this) then array_get None (array this) (Z.to_nat key)
  else map this !! key.

Definition set (this : t) (key : Z) (value : V) : t :=
  if (0 <=? key) && (key <? limit this)
  then mkNumberMap (limit this) (array_set None (array this) (Z.to_nat key) (Some value))
         (map this)
  else mkNumberMap (limit this) (array this) (<[key := value]> (map this)).

End WithValues.
Arguments t : clear implicits.
End NumberMap.

End Utils.

(** ** The tree model *)

(** A node of a tree: its [kind], its [params] and its children in document
    order.  Nodes are JavaScript objects, looked up in [Map]s by identity:
    [ref] is that identity (the address of the object), so two nodes with
    equal kind, parameters and children at two places of a tree are two
    nodes with two references. *)
#[local] Unset Elimination Schemes.
Inductive Node : Type :=
  mkNode { ref : nat; kind : string; params : Obj Json; children : list Node }.
#[local] Set Elimination Schemes.

(** Induction on trees: a property holds of every node if it holds of a node
    whenever it holds of its children. *)
Fixpoint Node_ind (P : Node -> Prop)
    (step : forall r k p cs, Forall P cs -> P (mkNode r k p cs)) (t : Node) : P t :=
  match t with
  | mkNode r k p cs =>
      step r k p cs
        ((fix children_ok (cs : list Node) : Forall P cs :=
            match cs with
            | [] => @List.Forall_nil Node P
            | c :: cs' => @List.Forall_cons Node P c cs' (Node_ind P step c) (children_ok cs')
            end) cs)
  end.

(** [getChildren(node)]: a node without [children] has none. *)
Definition getChildren (node : Node) : list Node := children node.

(** All nodes of a tree, in document order (a node before its children, the
    children from first to last). *)
Fixpoint nodes (t : Node) : list Node :=
  match t with
  | mkNode _ _ _ cs => t :: List.flat_map nodes cs
  end.

(** The references of the nodes of a tree are pairwise distinct: every node
    is an object of its own. *)
Definition distinct_refs (t : Node) : Prop := List.NoDup (List.map ref (nodes t)).

(** *** Exceptions

    A callback of a traversal may throw; the traversal then stops, and what
    the callbacks did so far stays done. *)
Inductive outcome (S : Type) : Type :=
| Done (s : S)
| Thrown (s : S) (error : string).
Arguments Done {S} s.
Arguments Thrown {S} s error.

Definition and_then {S : Type} (o : outcome S) (k : S -> outcome S) : outcome S :=
  match o with
  | Done s => k s
  | Thrown s e => Thrown s e
  end.

Notation "o >>= k" := (and_then o k) (at level 50, left associativity).

(** The state a traversal ended in, whether it completed or threw. *)
Definition final_state {S : Type} (o : outcome S) : S :=
  match o with Done s | Thrown s _ => s end.

Section Dfs.

Context {S : Type}.

(** A callback of [dfs]: it receives the node and its parent ([undefined] for
    the root) and acts on the state of the run. *)
Definition visitor : Type := Node -> option Node -> S -> outcome S.

Definition call_visitor (f : option visitor) (node : Node) (parent : option Node)
    (s : S) : outcome S :=
  match f with
  | Some f => f node parent s
  | None => Done s
  end.

(** Modelled from the spec: [dfs] of [tree/generic/tree-utils] is not among the
    sources.  Section 4.1: [dfs(tree, preVisit?, postVisit?)] visits every node
    exactly once in document order (children before later siblings, current
    node before its children for [preVisit], after for [postVisit]),
    providing each callback the node and its immediate parent ([undefined]
    for the root). *)
Fixpoint dfs_from (preVisit postVisit : option visitor) (node : Node)
    (parent : option Node) (s : S) : outcome S :=
  match node with
  | mkNode _ _ _ cs =>
      call_visitor preVisit node parent s >>= fun s1 =>
      (fix visit_children (cs : list Node) (s : S) : outcome S :=
         match cs with
         | [] => Done s
         | c :: cs' => dfs_from preVisit postVisit c (Some node) s >>= visit_children cs'
         end) cs s1 >>= fun s2 =>
      call_visitor postVisit node parent s2
  end.

Definition dfs (root : Node) (preVisit postVisit : option visitor) (s : S) : outcome S :=
  dfs_from preVisit postVisit root None s.

(** A callback that cannot throw. *)
Definition pure_visitor (f : Node -> option Node -> S -> S) : visitor :=
  fun node parent s => Done (f node parent s).

End Dfs.

(** The visits of a pre-order walk: each node with its parent. *)
Fixpoint visits_pre (node : Node) (parent : option Node) : list (Node * option Node) :=
  match node with
  | mkNode _ _ _ cs =>
      (node, parent) :: List.flat_map (fun c => visits_pre c (Some node)) cs
  end.

(** The visits of a post-order walk. *)
Fixpoint visits_post (node : Node) (parent : option Node) : list (Node * option Node) :=
  match node with
  | mkNode _ _ _ cs =>
      List.flat_map (fun c => visits_post c (Some node)) cs ++ [(node, parent)]
  end.

(** Running a callback over a list of visits, up to the first exception. *)
Fixpoint run_visits {S : Type} (f : @visitor S) (vs : list (Node * option Node))
    (s : S) : outcome S :=
  match vs with
  | [] => Done s
  | (n, p) :: vs' => f n p s >>= run_visits f vs'
  end.

(** ** Loading a tree: [loadTree] *)

Section LoadTree.

(** [StateBuilder.Root], [StateObjectSelector] and the loading context
    [TContext] of the host. *)
Context {U Sel C : Type}.

(** What an action does: it applies changes within [update], may modify the
    context, and returns the selector of the loaded node or [undefined]; or
    it throws. *)
Inductive action_result : Type :=
| Returned (update : U) (context : C) (msNode : option Sel)
| Raised (update : U) (context : C) (error : string).

(** [LoadingAction]: [(update, msParent, node, context) => StateObjectSelector | undefined]. *)
Definition LoadingAction : Type := U -> Sel -> Node -> C -> action_result.

(** [LoadingActions]: the action registered for a kind, if any. *)
Definition LoadingActions : Type := string -> option LoadingAction.

(** What a run of [loadTree] does that can be observed from outside: the
    calls of actions and the warnings on the console, in order. *)
Inductive event : Type :=
| ActionCalled (node : nat) (msParent : Sel)
| Warned (node : nat) (message : string).

Record load_state : Type := mkLoadState {
  mapping : gmap nat (option Sel);
  update : U;
  context : C;
  trace : list event
}.

(** [mapping.get(node)]: [undefined] when the node has no entry, or an entry
    holding [undefined]. *)
Definition mapping_get (mapping : gmap nat (option Sel)) (node : Node) : option Sel :=
  match mapping !! ref node with
  | Some msNode => msNode
  | None => None
  end.

(** [parent ? mapping.get(parent) : msRoot]. *)
Definition msParent_of (mapping : gmap nat (option Sel)) (msRoot : Sel)
    (parent : option Node) : option Sel :=
  match parent with
  | Some parent => mapping_get mapping parent
  | None => Some msRoot
  end.

Definition no_target_message (node : Node) : string :=
  "No target found for this " +:+ String dquote (kind node +:+ String dquote " node").

(** The callback [loadTree] hands to [dfs]. *)
Definition load_node (loadingActions : LoadingActions) (msRoot : Sel) : @visitor load_state :=
  fun node parent st =>
    match loadingActions (kind node) with
    | Some action =>
        match msParent_of (mapping st) msRoot parent with
        | Some msParent =>
            let called := trace st ++ [ActionCalled (ref node) msParent] in
            match action (update st) msParent node (context st) with
            | Returned update' context' msNode =>
                Done (mkLoadState (<[ref node := msNode]> (mapping st)) update' context' called)
            | Raised update' context' error =>
                Thrown (mkLoadState (mapping st) update' context' called) error
            end
        | None =>
            Done (mkLoadState (mapping st) (update st) (context st)
                    (trace st ++ [Warned (ref node) (no_target_message node)]))
        end
    | None => Done st
    end.

(** The host: the selector of the root of the state tree under construction,
    the deletion of all its children, and the commit. *)
Variable toRoot_selector : U -> Sel.
Variable delete_children : U -> Sel -> U.
Variable commit : U -> U.

(** [loadTree]: load a tree by applying loading actions in DFS order and then
    committing at once.  [built] is [plugin.build()]. *)
Definition loadTree (built : U) (tree : Node) (loadingActions : LoadingActions)
    (ctx : C) (deletePrevious : bool) : outcome load_state :=
  let msRoot := toRoot_selector built in
  let cleared := if deletePrevious then delete_children built msRoot else built in
  dfs tree (Some (load_node loadingActions msRoot)) None (mkLoadState ∅ cleared ctx [])
  >>= fun st => Done (mkLoadState (mapping st) (commit (update st)) (context st) (trace st)).

End LoadTree.

(** ** Transforms: [transformFromRotationTranslation] *)

(** The linear algebra of the host library ([mol-math/linear-algebra]):
    matrices are arrays of numbers in column-major order. *)
Module Vec3.
Definition zero : list float := [0; 0; 0]%float.
(** [Vec3.fromArray(v, array, offset)]. *)
Definition fromArray (v : list float) (array : list float) (offset : nat) : list float :=
  List.map (fun i => List.nth (offset + i) array nan) (List.seq 0 3).
End Vec3.

Module Mat3.
Definition zero : list float := [0; 0; 0; 0; 0; 0; 0; 0; 0]%float.
(** [Mat3.fromArray(a, array, offset)]. *)
Definition fromArray (a : list float) (array : list float) (offset : nat) : list float :=
  List.map (fun i => List.nth (offset + i) array nan) (List.seq 0 9).
End Mat3.

Module Mat4.
#[local] Set Warnings "-inexact-float".
Definition EPSILON : float := 0.000001%float.
#[local] Set Warnings "inexact-float".

(** [equalEps(a, b, eps)]: [Math.abs(a - b) <= eps]. *)
Definition equalEps (a b eps : float) : bool := PrimFloat.leb (PrimFloat.abs (a - b)) eps.

Definition identity : list float :=
  [1; 0; 0; 0;  0; 1; 0; 0;  0; 0; 1; 0;  0; 0; 0; 1]%float.

Definition at_ (m : list float) (i : nat) : float := List.nth i m nan.

(** [Mat4.fromMat3(out, a)]: the upper left 3x3 block of [out] becomes [a]. *)
Definition fromMat3 (out a : list float) : list float :=
  <[10%nat := at_ a 8]> (<[9%nat := at_ a 7]> (<[8%nat := at_ a 6]>
  (<[6%nat := at_ a 5]> (<[5%nat := at_ a 4]> (<[4%nat := at_ a 3]>
  (<[2%nat := at_ a 2]> (<[1%nat := at_ a 1]> (<[0%nat := at_ a 0]> out)))))))).

(** [Mat4.setTranslation(out, v)]. *)
Definition setTranslation (out v : list float) : list float :=
  <[14%nat := at_ v 2]> (<[13%nat := at_ v 1]> (<[12%nat := at_ v 0]> out)).

(** [Mat4.isRotationAndTranslation(a)], as the library implements it: the
    entries a[3], a[7], a[11], a[15] are (0, 0, 0, 1) and the determinant of
    the 3x3 block is 1 in absolute value, each up to [EPSILON]. *)
Definition isRotationAndTranslation (a : list float) : bool :=
  let a00 := at_ a 0 in let a01 := at_ a 1 in let a02 := at_ a 2 in let a03 := at_ a 3 in
  let a10 := at_ a 4 in let a11 := at_ a 5 in let a12 := at_ a 6 in let a13 := at_ a 7 in
  let a20 := at_ a 8 in let a21 := at_ a 9 in let a22 := at_ a 10 in let a23 := at_ a 11 in
  let a33 := at_ a 15 in
  if negb (equalEps a33 1 EPSILON) || negb (equalEps a03 0 EPSILON)
     || negb (equalEps a13 0 EPSILON) || negb (equalEps a23 0 EPSILON)
  then false
  else
    let det3x3 :=
      PrimFloat.abs (a00 * (a11 * a22 - a12 * a21) - a01 * (a10 * a22 - a12 * a20)
                     + a02 * (a10 * a21 - a11 * a20))%float in
    if negb (equalEps det3x3 1 EPSILON) then false else true.
End Mat4.

(** An [Error] of [transformFromRotationTranslation]: the text of its message
    up to the interpolated array, and that array. *)
Record TransformError : Type := mkTransformError {
  message : string;
  found : option (list float)
}.

(** [a && a.length !== n]: an array, of any length, is truthy; [null] and
    [undefined] (here [None]) are not. *)
Definition present_and_length_not (a : option (list float)) (n : nat) : bool :=
  match a with
  | Some xs => negb (length xs =? n)%nat
  | None => false
  end.

Section Transform.

(** The validity test of the host library, [Mat4.isRotationAndTranslation]:
    is the matrix a rotation followed by a translation? *)
Variable isRotationAndTranslation : list float -> bool.

(** [transformFromRotationTranslation]: a 4x4 matrix representing a rotation
    followed by a translation. *)
Definition transformFromRotationTranslation (rotation translation : option (list float))
    : result (list float) TransformError :=
  throw_if present_and_length_not rotation 9
    with mkTransformError
           "'rotation' param for 'transform' node must be array of 9 elements, found "
           rotation ;;
  throw_if present_and_length_not translation 3
    with mkTransformError
           "'translation' param for 'transform' node must be array of 3 elements, found "
           translation ;;
  let T := Mat4.identity in
  let T := match rotation with
           | Some r => Mat4.fromMat3 T (Mat3.fromArray Mat3.zero r 0)
           | None => T
           end in
  let T := match translation with
           | Some t => Mat4.setTranslation T (Vec3.fromArray Vec3.zero t 0)
           | None => T
           end in
  throw_if negb (isRotationAndTranslation T)
    with mkTransformError
           "'rotation' param for 'transform' is not a valid rotation matrix: "
           rotation ;;
  Ok T.

End Transform.

(** *** [transformProps] *)

Section TransformProps.

Variable isRotationAndTranslation : list float -> bool.

(** A parameter declared as [number[] | null | undefined], read as such
    ([None] when it is missing, [undefined] or [null]).  [Json] holds the
    integer-valued numbers only, so the reading of the numbers is the
    host's. *)
Variable number_array_param : Obj Json -> string -> option (list float).

(** The loop of [transformProps] over the transform nodes; the value pushed,
    [{ transform: { name: 'matrix', params: { data: matrix } } }], is given
    by its matrix. *)
Fixpoint transformProps_loop (transforms : list Node) (props : list (list float))
    : result (list (list float)) TransformError :=
  match transforms with
  | [] => Ok props
  | transform :: rest =>
      let rotation := number_array_param (params transform) "rotation" in
      let translation := number_array_param (params transform) "translation" in
      match transformFromRotationTranslation isRotationAndTranslation rotation translation with
      | Ok matrix => transformProps_loop rest (props ++ [matrix])
      | Throw e => Throw e
      end
  end.

(** [transformProps]: the props for the transformers from all 'transform'
    nodes applied to a 'structure' node. *)
Definition transformProps (node : Node) : result (list (list float)) TransformError :=
  let transforms := List.filter (fun c => String.eqb (kind c) "transform") (getChildren node) in
  transformProps_loop transforms [].

End TransformProps.

(** ** Annotation references: [collectAnnotationReferences] *)

Definition AnnotationFromUriKinds : list string :=
  ["color_from_uri"; "component_from_uri"; "label_from_uri"; "tooltip_from_uri"].

Definition AnnotationFromSourceKinds : list string :=
  ["color_from_source"; "component_from_source"; "label_from_source"; "tooltip_from_source"].

(** [Set.prototype.has] on a set of strings. *)
Definition Set_has (set : list string) (x : string) : bool :=
  List.existsb (String.eqb x) set.

(** [AnnotationSpec]: the properties [source], [schema], [cifBlock] and
    [cifCategory] of the object, in that order, and its [id]. *)
Record AnnotationSpec : Type := mkAnnotationSpec {
  spec_props : Obj Json;
  id : string
}.

(** [MolstarLoadingContext], by the two properties the helpers read and
    write; each may be [undefined]. *)
Record MolstarLoadingContext : Type := mkContext {
  annotationMap : option (gmap nat string);
  nearestReprMap : option (gmap nat Node)
}.

(** [value ?? fallback]. *)
Definition nullish_or (value : option Json) (fallback : option Json) : option Json :=
  match value with
  | None | Some JNull => fallback
  | Some _ => value
  end.

(** [blockSpec(header, index)]. *)
Definition blockSpec (header index : option Json) : Json :=
  if Utils.isDefined header
  then JObj [("name", Some (JStr "header")); ("params", Some (JObj [("header", header)]))]
  else JObj [("name", Some (JStr "index"));
             ("params", Some (JObj [("index", nullish_or index (Some (JNum 0)))]))].

(** The candidate spec of a node, [undefined] for the kinds that refer to no
    annotation. *)
Definition spec_of_node (node : Node) : option (Obj Json) :=
  let p := params node in
  if Set_has AnnotationFromUriKinds (kind node) then
    Some [("source", Some (JObj [("name", Some (JStr "url"));
                                 ("params", Some (JObj [("url", get_prop p "uri");
                                                        ("format", get_prop p "format")]))]));
          ("schema", get_prop p "schema");
          ("cifBlock", Some (blockSpec (get_prop p "block_header") (get_prop p "block_index")));
          ("cifCategory", nullish_or (get_prop p "category_name") None)]
  else if Set_has AnnotationFromSourceKinds (kind node) then
    Some [("source", Some (JObj [("name", Some (JStr "source-cif"));
                                 ("params", Some (JObj []))]));
          ("schema", get_prop p "schema");
          ("cifBlock", Some (blockSpec (get_prop p "block_header") (get_prop p "block_index")));
          ("cifCategory", nullish_or (get_prop p "category_name") None)]
  else None.

(** The object [distinctSpecs]: canonical string to spec, in insertion order.
    Every key is a canonical string of an object, starts with a brace and is
    no array index, so [Object.values] lists the values in insertion order. *)
Abbreviation SpecRegistry := (list (string * AnnotationSpec)).

Fixpoint registry_get (distinctSpecs : SpecRegistry) (key : string) : option AnnotationSpec :=
  match distinctSpecs with
  | [] => None
  | (k, v) :: rest => if String.eqb k key then Some v else registry_get rest key
  end.

(** [distinctSpecs[key] ??= value]. *)
Definition registry_default (distinctSpecs : SpecRegistry) (key : string)
    (value : AnnotationSpec) : SpecRegistry :=
  match registry_get distinctSpecs key with
  | Some _ => distinctSpecs
  | None => distinctSpecs ++ [(key, value)]
  end.

Definition Object_values (distinctSpecs : SpecRegistry) : list AnnotationSpec :=
  List.map snd distinctSpecs.

(** The key of a spec in the registry. *)
Definition spec_key (spec : Obj Json) : string := Utils.canonicalJsonString (JObj spec).

(** The callback of the walk of [collectAnnotationReferences]. *)
Definition collect_node (node : Node) (parent : option Node)
    (st : SpecRegistry * MolstarLoadingContext) : SpecRegistry * MolstarLoadingContext :=
  let '(distinctSpecs, context) := st in
  match spec_of_node node with
  | Some spec =>
      let key := spec_key spec in
      let distinctSpecs :=
        registry_default distinctSpecs key (mkAnnotationSpec spec (Utils.stringHash key)) in
      let annotationId :=
        match registry_get distinctSpecs key with
        | Some found => id found
        | None => ""
        end in
      (distinctSpecs,
       mkContext (Some (<[ref node := annotationId]> (default ∅ (annotationMap context))))
                 (nearestReprMap context))
  | None => st
  end.

(** [collectAnnotationReferences]: the distinct annotation specs of all nodes
    of [tree], and the context with [annotationMap[node]] set to the
    respective annotation ids. *)
Definition collectAnnotationReferences (tree : Node) (context : MolstarLoadingContext)
    : list AnnotationSpec * MolstarLoadingContext :=
  let '(distinctSpecs, context) :=
    final_state (dfs tree (Some (pure_visitor collect_node)) None ([], context)) in
  (Object_values distinctSpecs, context).

(** *** [collectAnnotationTooltips] *)

(** [context.annotationMap?.get(node)]. *)
Definition annotationMap_get (context : MolstarLoadingContext) (node : Node) : option string :=
  match annotationMap context with
  | Some map => map !! ref node
  | None => None
  end.

(** The callback of the walk of [collectAnnotationTooltips]; a tooltip is
    the object [{ annotationId, fieldName }]. *)
Definition collect_annotation_tooltip (context : MolstarLoadingContext) (node : Node)
    (parent : option Node) (annotationTooltips : list Json) : list Json :=
  if String.eqb (kind node) "tooltip_from_uri" || String.eqb (kind node) "tooltip_from_source"
  then
    match annotationMap_get context node with
    | Some annotationId =>
        if negb (String.eqb annotationId "")
        then annotationTooltips
               ++ [JObj [("annotationId", Some (JStr annotationId));
                         ("fieldName", get_prop (params node) "field_name")]]
        else annotationTooltips
    | None => annotationTooltips
    end
  else annotationTooltips.

(** [collectAnnotationTooltips]: the annotation tooltips from all nodes in
    [tree], mapped to annotation ids. *)
Definition collectAnnotationTooltips (tree : Node) (context : MolstarLoadingContext)
    : list Json :=
  Utils.distinct
    (final_state
       (dfs tree (Some (pure_visitor (collect_annotation_tooltip context))) None [])).

(** ** Nearest representations: [makeNearestReprMap] *)

(** The callback of the walk up (a post-order walk). *)
Definition propagate_up (node : Node) (parent : option Node) (map : gmap nat Node)
    : gmap nat Node :=
  let map := if String.eqb (kind node) "representation" then <[ref node := node]> map else map in
  match parent, map !! ref node with
  | Some parent, Some repr =>
      if negb (String.eqb (kind node) "structure")
         && negb (bool_decide (is_Some (map !! ref parent)))
      then (* do not propagate above the lowest structure node *)
        <[ref parent := repr]> map
      else map
  | _, _ => map
  end.

(** The callback of the walk down (a pre-order walk). *)
Definition propagate_down (node : Node) (parent : option Node) (map : gmap nat Node)
    : gmap nat Node :=
  match parent with
  | Some parent =>
      match map !! ref parent with
      | Some repr => <[ref node := repr]> map
      | None => map
      end
  | None => map
  end.

(** The map after the first of the two walks. *)
Definition nearestReprMap_up (root : Node) : gmap nat Node :=
  final_state (dfs root None (Some (pure_visitor propagate_up)) ∅).

(** [makeNearestReprMap]: a mapping of nearest representation nodes for each
    node in the tree. *)
Definition makeNearestReprMap (root : Node) : gmap nat Node :=
  final_state (dfs root (Some (pure_visitor propagate_down)) None (nearestReprMap_up root)).

(** ** Selectors and element sets (the selector module) *)

Section Selector.

(** [Expression], [StructureElement.Bundle], script and annotation field
    values of the host library. *)
Context {Expression Bundle Script FieldValues : Type}.

(** [Selector]: parameter values for specifying a part of structure, a value
    [{ name, params }] with one of five names. *)
Inductive Selector : Type :=
| SelStatic (params : string)
| SelExpression (params : Expression)
| SelBundle (params : Bundle)
| SelScript (params : Script)
| SelAnnotation (annotationId fieldName : string) (fieldValues : FieldValues).

(** [SelectorAll]: the selector of the whole structure. *)
Definition SelectorAll : Selector := SelStatic "all".

(** [isSelectorAll]. *)
Definition isSelectorAll (props : Selector) : bool :=
  match props with
  | SelStatic params => String.eqb params "all"
  | _ => false
  end.

End Selector.

Arguments Selector : clear implicits.

(** A unit of a structure, by what the element set reads of it: the id of
    its model and its element indices. *)
Record StructureUnit : Type := mkUnit {
  model_id : string;
  elements : list Z
}.

(** A [Structure], by its [units]. *)
Definition Structure : Type := list StructureUnit.

(** [StructureElement.Location], by [location.unit.model.id] and
    [location.element]. *)
Record Location : Type := mkLocation {
  location_model_id : string;
  location_element : Z
}.

Module SortedArray.

(** [SortedArray.ofSortedArray] of the host library: the array itself, taken
    to be sorted. *)
Definition ofSortedArray (xs : list Z) : list Z := xs.

(** Binary search for [value] among [xs[lo .. hi - 1]]. *)
Fixpoint binarySearch (fuel : nat) (xs : list Z) (value : Z) (lo hi : nat) : bool :=
  match fuel with
  | O => false
  | S fuel' =>
      if (hi <=? lo)%nat then false
      else
        let mid := ((lo + hi) / 2)%nat in
        let v := List.nth mid xs 0 in
        if value <? v then binarySearch fuel' xs value lo mid
        else if v <? value then binarySearch fuel' xs value (S mid) hi
        else true
  end.

(** [SortedArray.has] of the host library: membership by binary search. *)
Definition has (xs : list Z) (x : Z) : bool :=
  binarySearch (S (length xs)) xs x 0 (length xs).

End SortedArray.

Module ElementSet.

Section WithHost.

Context {Expression Bundle Script FieldValues : Type}.

Local Abbreviation Selector := (Selector Expression Bundle Script FieldValues).

(** The component builders of the host: [createStructureComponent] and
    [createAnnotationStructureComponent] return a state object; its [data]
    when it is a structure object, [None] otherwise. *)
Variable createStructureComponent : Structure -> Selector -> option Structure.
Variable createAnnotationStructureComponent :
  Structure -> string -> string -> FieldValues -> option Structure.

(** [Structure.Empty]. *)
Definition Structure_Empty : Structure := [].

(** [substructureFromSelector]. *)
Definition substructureFromSelector (structure : Structure) (selector : Selector) : Structure :=
  let pso :=
    match selector with
    | SelAnnotation annotationId fieldName fieldValues =>
        createAnnotationStructureComponent structure annotationId fieldName fieldValues
    | _ => createStructureComponent structure selector
    end in
  match pso with
  | Some data => data
  | None => Structure_Empty
  end.

(** The first loop of [fromSelector]:
    [extend(arrays[unit.model.id] ??= [], unit.elements)] for each unit.  The
    array extended is a fresh one of [arrays], so [extend] appends. *)
Definition collect_unit (arrays : gmap string (list Z)) (unit : StructureUnit)
    : gmap string (list Z) :=
  <[model_id unit := default [] (arrays !! model_id unit) ++ elements unit]> arrays.

Definition compare_numbers (a b : Z) : Z := a - b.

(** [ElementSet.fromSelector]: an [ElementSet] from the substructure of
    [structure] defined by [selector]. *)
Definition fromSelector (structure : option Structure) (selector : Selector)
    : gmap string (list Z) :=
  match structure with
  | None => ∅
  | Some structure =>
      let selection := substructureFromSelector structure selector in
      let arrays := List.fold_left collect_unit selection ∅ in
      (fun array => SortedArray.ofSortedArray (Utils.sortIfNeeded array compare_numbers))
        <$> arrays
  end.

(** [ElementSet.has]: does the element set contain the location? *)
Definition has (set : gmap string (list Z)) (location : Location) : bool :=
  match set !! location_model_id location with
  | Some array => SortedArray.has array (location_element location)
  | None => false
  end.

End WithHost.

End ElementSet.

(** ** Colour themes: [colorThemeForNode] *)

Section ColorTheme.

Context {Expression Bundle Script FieldValues : Type}.

Local Abbreviation Selector := (Selector Expression Bundle Script FieldValues).

(** From the host library and the modules of defaults and selections: the
    table of colour names, the default colour, the colour [NoColor], and the
    translation of selector rows to expressions. *)
Variable ColorNames : string -> option Utils.Color.
Variable DefaultColor : string.
Variable NoColor : Utils.Color.
Variable rowToExpression : Json -> Expression.
Variable rowsToExpression : list Json -> Expression.

(** The value of the [colorTheme] property: [{ name, params }] with the name
    'uniform', the name of the annotation colour theme or the name of the
    multilayer colour theme. *)
#[local] Unset Elimination Schemes.
Inductive ColorTheme : Type :=
| Uniform (value : option Utils.DecodedColor)
| AnnotationColor (annotationId : string) (fieldName : option string) (background : Utils.Color)
| Multilayer (layers : list (ColorTheme * Selector)).
#[local] Set Elimination Schemes.

(** A parameter declared as a string, read as such. *)
Definition string_param (p : Obj Json) (key : string) : option string :=
  match get_prop p key with
  | Some (JStr s) => Some s
  | _ => None
  end.

(** [componentPropsFromSelector]: the [type] of a structure component from a
    selector of the tree. *)
Definition componentPropsFromSelector (selector : option Json) : Selector :=
  match selector with
  | None => SelectorAll
  | Some (JStr name) => SelStatic name
  | Some (JArr rows) => SelExpression (rowsToExpression rows)
  | Some row => SelExpression (rowToExpression row)
  end.

Definition is_color_kind (c : Node) : bool :=
  String.eqb (kind c) "color" || String.eqb (kind c) "color_from_uri"
  || String.eqb (kind c) "color_from_source".

(** [appliesColorToWholeRepr]. *)
Definition appliesColorToWholeRepr (node : Node) : bool :=
  if String.eqb (kind node) "color" then
    negb (Utils.isDefined (get_prop (params node) "selector"))
    || match get_prop (params node) "selector" with
       | Some (JStr s) => String.eqb s "all"
       | _ => false
       end
  else true.

(** The second half of [colorThemeForNode], reached by every node that is no
    representation (and by [undefined]). *)
Definition color_theme_of_color_node (node : option Node) (context : MolstarLoadingContext)
    : ColorTheme :=
  let annotationId : option string :=
    match node with
    | Some n =>
        if String.eqb (kind n) "color_from_uri" || String.eqb (kind n) "color_from_source"
        then match annotationMap context with
             | Some map => map !! ref n
             | None => None
             end
        else None
    | None => None
    end in
  let fieldName : option string :=
    match node with
    | Some n =>
        if String.eqb (kind n) "color_from_uri" || String.eqb (kind n) "color_from_source"
        then string_param (params n) "field_name"
        else None
    | None => None
    end in
  let color : option string :=
    match node with
    | Some n => if String.eqb (kind n) "color" then string_param (params n) "color" else None
    | None => None
    end in
  match annotationId with
  | Some annotationId' =>
      if negb (String.eqb annotationId' "")
      then AnnotationColor annotationId' fieldName NoColor
      else Uniform (Utils.decodeColor ColorNames color)
  | None => Uniform (Utils.decodeColor ColorNames color)
  end.

(** [colorThemeForNode] on a node.  The recursive calls of the source are on
    the colour children of a representation; here the theme of every child is
    computed where the children are listed, and read where the source
    calls. *)
Fixpoint colorThemeForNode_at (node : Node) (context : MolstarLoadingContext) : ColorTheme :=
  match node with
  | mkNode _ k _ cs =>
      if String.eqb k "representation" then
        let themed := List.map (fun c => (c, colorThemeForNode_at c context)) cs in
        let children := List.filter (fun ct => is_color_kind (fst ct)) themed in
        match children with
        | [] => Uniform (Utils.decodeColor ColorNames (Some DefaultColor))
        | first :: others =>
            if (length children =? 1)%nat && appliesColorToWholeRepr (fst first)
            then snd first
            else
              Multilayer
                (List.map
                   (fun ct =>
                      (snd ct,
                       componentPropsFromSelector
                         (if String.eqb (kind (fst ct)) "color"
                          then get_prop (params (fst ct)) "selector"
                          else None)))
                   children)
        end
      else color_theme_of_color_node (Some node) context
  end.

(** [colorThemeForNode]: the value for the [colorTheme] property of a
    representation, from the colour nodes below it. *)
Definition colorThemeForNode (node : option Node) (context : MolstarLoadingContext)
    : ColorTheme :=
  match node with
  | Some n => colorThemeForNode_at n context
  | None => color_theme_of_color_node None context
  end.

(** The props [labelFromXProps] returns: the parameters of the label
    representation and the colour theme. *)
Record LabelProps : Type := mkLabelProps {
  label_annotationId : option string;
  label_fieldName : option Json;
  label_colorTheme : ColorTheme
}.

(** [labelFromXProps]: the props for the representation of a label_from_*
    node. *)
Definition labelFromXProps (node : Node) (context : MolstarLoadingContext) : LabelProps :=
  let annotationId := annotationMap_get context node in
  let fieldName := get_prop (params node) "field_name" in
  let nearestReprNode :=
    match nearestReprMap context with
    | Some map => map !! ref node
    | None => None
    end in
  mkLabelProps annotationId fieldName (colorThemeForNode nearestReprNode context).

End ColorTheme.

(** ** Tooltips and annotation components *)

(** The [fieldValues] of an annotation component: the selected values, each
    wrapped as [{ value: v }], or all. *)
Inductive AnnotationFieldValues : Type :=
| FieldValuesSelected (params : list Json)
| FieldValuesAll.

(** The props [componentFromXProps] returns. *)
Record AnnotationStructureComponentProps : Type := mkComponentProps {
  component_annotationId : option string;
  component_fieldName : option string;
  component_fieldValues : AnnotationFieldValues;
  component_nullIfEmpty : bool
}.

(** [componentFromXProps]: the props for the annotation component of a
    component_from_* node.  [field_values] is declared as an array of strings
    that may be missing or [null]; an array, even an empty one, is truthy. *)
Definition componentFromXProps (node : Node) (context : MolstarLoadingContext)
    : AnnotationStructureComponentProps :=
  let annotationId := annotationMap_get context node in
  let field_name := string_param (params node) "field_name" in
  let field_values := get_prop (params node) "field_values" in
  mkComponentProps annotationId field_name
    match field_values with
    | Some (JArr values) => FieldValuesSelected values
    | _ => FieldValuesAll
    end
    false.

Section InlineTooltips.

Context {Expression Bundle Script : Type}.

Local Abbreviation Selector := (Selector Expression Bundle Script AnnotationFieldValues).

Variable rowToExpression : Json -> Expression.
Variable rowsToExpression : list Json -> Expression.

(** An inline tooltip: [{ text, selector }]. *)
Record InlineTooltip : Type := mkInlineTooltip {
  tooltip_text : option string;
  tooltip_selector : Selector
}.

(** The callback of the walk of [collectInlineTooltips]. *)
Definition collect_inline_tooltip (context : MolstarLoadingContext) (node : Node)
    (parent : option Node) (inlineTooltips : list InlineTooltip) : list InlineTooltip :=
  if String.eqb (kind node) "tooltip" then
    match parent with
    | Some parent =>
        if String.eqb (kind parent) "component" then
          inlineTooltips
            ++ [mkInlineTooltip (string_param (params node) "text")
                  (componentPropsFromSelector rowToExpression rowsToExpression
                     (get_prop (params parent) "selector"))]
        else if String.eqb (kind parent) "component_from_uri"
                || String.eqb (kind parent) "component_from_source" then
          let p := componentFromXProps parent context in
          match component_annotationId p, component_fieldName p with
          | Some annotationId, Some fieldName =>
              inlineTooltips
                ++ [mkInlineTooltip (string_param (params node) "text")
                      (SelAnnotation annotationId fieldName (component_fieldValues p))]
          | _, _ => inlineTooltips
          end
        else inlineTooltips
    | None => inlineTooltips
    end
  else inlineTooltips.

(** [collectInlineTooltips]: the inline tooltips from all nodes in [tree]. *)
Definition collectInlineTooltips (tree : Node) (context : MolstarLoadingContext)
    : list InlineTooltip :=
  final_state (dfs tree (Some (pure_visitor (collect_inline_tooltip context))) None []).

End InlineTooltips.

(** ** Notions of the statements, and sample inputs *)

(** A few entries of the table of X11 colour names. *)
Definition sample_ColorNames (name : string) : option Utils.Color :=
  if String.eqb name "red" then Some 0xff0000
  else if String.eqb name "blue" then Some 0x0000ff
  else if String.eqb name "white" then Some 0xffffff
  else None.

(** A representation with one colour child that applies to all of it, one
    with two selector-scoped colour children, and a colour node with a
    string that names no colour. *)
Definition sample_color_red : Node :=
  mkNode 7 "color" [("selector", Some (JStr "all")); ("color", Some (JStr "red"))] [].

Definition sample_representation : Node :=
  mkNode 6 "representation" [("type", Some (JStr "cartoon"))] [sample_color_red].

Definition sample_color_protein : Node :=
  mkNode 8 "color" [("selector", Some (JStr "protein")); ("color", Some (JStr "blue"))] [].

Definition sample_color_ligand : Node :=
  mkNode 9 "color" [("selector", Some (JStr "ligand")); ("color", Some (JStr "#f0f"))] [].

Definition sample_representation_layered : Node :=
  mkNode 10 "representation" [("type", Some (JStr "cartoon"))]
    [sample_color_protein; sample_color_ligand].




Definition empty_context : MolstarLoadingContext := mkContext None None.

(** A host whose expressions carry no information. *)
Definition sample_colorThemeForNode : option Node → MolstarLoadingContext
    → ColorTheme (Expression := unit) (Bundle := unit) (Script := unit) (FieldValues := unit) :=
  colorThemeForNode sample_ColorNames "white" 0 (fun _ => tt) (fun _ => tt).

(** The matrix [transformFromRotationTranslation] assembles before it
    validates it. *)
Definition assembled_matrix (rotation translation : option (list float)) : list float :=
  let T := Mat4.identity in
  let T := match rotation with
           | Some r => Mat4.fromMat3 T (Mat3.fromArray Mat3.zero r 0)
           | None => T
           end in
  match translation with
  | Some t => Mat4.setTranslation T (Vec3.fromArray Vec3.zero t 0)
  | None => T
  end.

(** An error names a parameter when its message starts with the quoted name
    of the parameter, as in ['rotation' param ...]. *)
Definition names_param (e : TransformError) (param : string) : bool :=
  String.prefix ("'" +:+ param +:+ "' param") (message e).

(** An argument is well-sized when it is absent or has [n] elements. *)
Definition absent_or_length (a : option (list float)) (n : nat) : Prop :=
  match a with
  | Some xs => length xs = n
  | None => True
  end.

Definition identity_rotation : list float := [1; 0; 0; 0; 1; 0; 0; 0; 1]%float.

(** The identity rotation followed by the translation (1, 2, 3). *)
Definition translation_by_1_2_3 : list float :=
  [1; 0; 0; 0;  0; 1; 0; 0;  0; 0; 1; 0;  1; 2; 3; 1]%float.

Definition rotation_of_eight : list float := [1; 0; 0; 0; 1; 0; 0; 0]%float.
Definition rotation_of_ones : list float := [1; 1; 1; 1; 1; 1; 1; 1; 1]%float.

(** The determinant of the 3x3 matrix given by nine numbers. *)
Definition determinant (r : list float) : float :=
  let r0 := Mat4.at_ r 0 in let r1 := Mat4.at_ r 1 in let r2 := Mat4.at_ r 2 in
  let r3 := Mat4.at_ r 3 in let r4 := Mat4.at_ r 4 in let r5 := Mat4.at_ r 5 in
  let r6 := Mat4.at_ r 6 in let r7 := Mat4.at_ r 7 in let r8 := Mat4.at_ r 8 in
  (r0 * (r4 * r8 - r5 * r7) - r1 * (r3 * r8 - r5 * r6) + r2 * (r3 * r7 - r4 * r6))%float.

(** The determinant of the rotation is 1 or -1, up to [Mat4.EPSILON]; without
    a rotation the block is the identity. *)
Definition unit_determinant (rotation : option (list float)) : bool :=
  match rotation with
  | Some r => Mat4.equalEps (PrimFloat.abs (determinant r)) 1 Mat4.EPSILON
  | None => true
  end.

(** The scalar product of the columns [i] and [j] of a 3x3 matrix. *)
Definition column_product (r : list float) (i j : nat) : float :=
  (Mat4.at_ r (3 * i) * Mat4.at_ r (3 * j)
   + Mat4.at_ r (3 * i + 1) * Mat4.at_ r (3 * j + 1)
   + Mat4.at_ r (3 * i + 2) * Mat4.at_ r (3 * j + 2))%float.

(** A rigid rotation: the columns are orthonormal and the determinant is +1,
    each up to [Mat4.EPSILON]. *)
Definition rigid_rotation (r : list float) : bool :=
  List.forallb
    (fun ij : nat * nat =>
       Mat4.equalEps (column_product r ij.1 ij.2) (if (ij.1 =? ij.2)%nat then 1 else 0)
         Mat4.EPSILON)
    [(0, 0); (0, 1); (0, 2); (1, 1); (1, 2); (2, 2)]%nat
  && Mat4.equalEps (determinant r) 1 Mat4.EPSILON.

(** A scaling by 2, 1/2 and 1 along the axes, and the mirror image in the
    plane of the first two axes. *)
Definition scaling_2_half_1 : list float := [2; 0; 0; 0; 0.5; 0; 0; 0; 1]%float.
Definition mirror_third_axis : list float := [1; 0; 0; 0; 1; 0; 0; 0; -1]%float.

(** The quarter turn about the third axis. *)
Definition quarter_turn : list float := [0; 1; 0; -1; 0; 0; 0; 0; 1]%float.

(** The element indices of the units of model [m], in the order of the
    units. *)
Definition elements_of_model (m : string) (units : Structure) : list Z :=
  List.flat_map (fun u => if String.eqb (model_id u) m then elements u else []) units.

(** Is a unit of model [m] among the units? *)
Definition has_model (m : string) (units : Structure) : bool :=
  List.existsb (fun u => String.eqb (model_id u) m) units.

(** A host whose component builder returns the whole structure, as it does
    for the static selector 'all'. *)
Definition whole_structure : Structure → Selector unit unit unit unit → option Structure :=
  fun structure _ => Some structure.

Definition no_annotation_component
    : Structure → string → string → unit → option Structure :=
  fun _ _ _ _ => None.

(** Two units of one model with the same elements, as the symmetry copies of
    a chain in an assembly are. *)
Definition two_copies : Structure := [mkUnit "m" [0; 1]; mkUnit "m" [0; 1]].

(** Two units of one model with separate elements, out of order. *)
Definition two_chains : Structure := [mkUnit "m" [5; 7]; mkUnit "m" [1; 2]].

Fixpoint strictly_increasing (xs : list Z) : bool :=
  match xs with
  | a :: (b :: _) as rest => (a <? b) && strictly_increasing rest
  | _ => true
  end.

(** The first defined value of a list. *)
Fixpoint first_some {A : Type} (os : list (option A)) : option A :=
  match os with
  | [] => None
  | Some a :: _ => Some a
  | None :: rest => first_some rest
  end.

(** The representation the walk up leaves at a node: the node itself when it
    is a representation, else what its first child in document order that is
    no structure node and has one hands up. *)
Fixpoint nearest_below (n : Node) : option Node :=
  match n with
  | mkNode _ k _ cs =>
      if String.eqb k "representation" then Some n
      else first_some
             (List.map (fun c => if String.eqb (kind c) "structure" then None
                                 else nearest_below c) cs)
  end.

(** [reaches_within_structure n r]: the representation [r] is [n] itself or
    lies below [n], and no node strictly below [n] on the way down to [r] is a
    structure node. *)
Inductive reaches_within_structure : Node → Node → Prop :=
| reaches_here (n : Node) :
    kind n = "representation" → reaches_within_structure n n
| reaches_child (n c r : Node) :
    In c (getChildren n) → kind c ≠ "structure" →
    reaches_within_structure c r → reaches_within_structure n r.

(** The number of levels from a node down to a node below it, along the
    first way found; [None] when there is none. *)
Fixpoint depth_below (target : nat) (n : Node) : option nat :=
  match n with
  | mkNode r _ _ cs =>
      if (r =? target)%nat then Some O
      else option_map S (first_some (List.map (depth_below target) cs))
  end.

(** The walk up as a fold over the post-order visits. *)
Definition up_fold (vs : list (Node * option Node)) (m : gmap nat Node) : gmap nat Node :=
  List.fold_left (fun m v => propagate_up v.1 v.2 m) vs m.

(** The example tree of the repository, first download: root, download,
    parse, structure, component, representation, colour. *)
Definition example_color : Node :=
  mkNode 6 "color" [("selector", Some (JStr "all")); ("color", Some (JStr "red"))] [].
Definition example_representation : Node :=
  mkNode 5 "representation" [("type", Some (JStr "cartoon"))] [example_color].
Definition example_component : Node :=
  mkNode 4 "component" [("selector", Some (JStr "all"))] [example_representation].
Definition example_structure : Node :=
  mkNode 3 "structure" [("type", Some (JStr "model"))] [example_component].
Definition example_parse : Node :=
  mkNode 2 "parse" [("format", Some (JStr "mmcif"))] [example_structure].
Definition example_download : Node :=
  mkNode 1 "download"
    [("url", Some (JStr "https://www.ebi.ac.uk/pdbe/entry-files/download/4hhb_updated.cif"))]
    [example_parse].
Definition example_root : Node := mkNode 0 "root" [] [example_download].

(** A structure whose first component holds its representation one level
    deeper than the second component does. *)
Definition deep_representation : Node := mkNode 14 "representation" [] [].
Definition inner_component : Node := mkNode 13 "component" [] [deep_representation].
Definition first_component : Node := mkNode 12 "component" [] [inner_component].
Definition near_representation : Node := mkNode 16 "representation" [] [].
Definition second_component : Node := mkNode 15 "component" [] [near_representation].
Definition uneven_structure : Node :=
  mkNode 11 "structure" [] [first_component; second_component].
Definition uneven_root : Node := mkNode 10 "root" [] [uneven_structure].

(** A host for [loadTree] that counts the actions applied: selectors are
    numbers, the root selector is 0, and the actions for 'root' and
    'download' are the only ones registered. *)
Definition sample_actions : @LoadingActions nat nat unit :=
  fun kind =>
    if String.eqb kind "root" then
      Some (fun update msParent node context => Returned update context (Some msParent))
    else if String.eqb kind "download" then
      Some (fun update msParent node context =>
              Returned (S update) context (Some (100 + ref node)%nat))
    else None.

Definition sample_loadTree (tree : Node) : outcome (@load_state nat nat unit) :=
  loadTree (fun _ => 0%nat) (fun update _ => update) (fun update => update)
    0%nat tree sample_actions tt true.

(** A tree with a node of a kind that has no action, above a download
    node. *)
Definition orphan_download : Node := mkNode 2 "download" [] [].
Definition unknown_node : Node := mkNode 1 "mystery" [] [orphan_download].
Definition unknown_root : Node := mkNode 0 "root" [] [unknown_node].

(** The key under which a node registers its annotation spec, if it refers
    to an annotation. *)
Definition node_key (n : Node) : option string := spec_key <$> spec_of_node n.

(** The position of the first occurrence of [x] in [l] (the length of [l]
    when there is none). *)
Fixpoint first_index {A : Type} `{EqDecision A} (x : A) (l : list A) : nat :=
  match l with
  | [] => O
  | y :: l' => if decide (y = x) then O else S (first_index x l')
  end.

(** The position, in the document order of [tree], of the first node whose
    annotation spec has the canonical string of [a]. *)
Definition first_visit (tree : Node) (a : AnnotationSpec) : nat :=
  first_index (Some (spec_key (spec_props a))) (List.map node_key (nodes tree)).

(** The parameters an annotation spec is made of. *)
Definition annotation_fields : list string :=
  ["uri"; "format"; "schema"; "block_header"; "block_index"; "category_name"].

(** Two nodes with the same kind of annotation source (both from a URI or
    both from the structure's own source) and the same value, or [undefined],
    for each of the parameters of an annotation spec.  Values are read by
    key, so neither the order of the keys nor the presence of keys bound to
    [undefined] matters. *)
Definition same_annotation_params (n1 n2 : Node) : Prop :=
  Set_has AnnotationFromUriKinds (kind n1) = Set_has AnnotationFromUriKinds (kind n2)
  ∧ Set_has AnnotationFromSourceKinds (kind n1) = Set_has AnnotationFromSourceKinds (kind n2)
  ∧ Forall (fun key => get_prop (params n1) key = get_prop (params n2) key) annotation_fields.

(** The walk of [collectAnnotationReferences] over a list of nodes. *)
Definition collect_fold (ns : list Node) (st : SpecRegistry * MolstarLoadingContext)
    : SpecRegistry * MolstarLoadingContext :=
  List.fold_left (fun st n => collect_node n None st) ns st.

(** A tree with three nodes that refer to annotations: the first and the
    third give the same parameters, in another key order and with a key
    bound to [undefined]; the second refers to the structure's own source. *)
Definition annotated_color : Node :=
  mkNode 21 "color_from_uri"
    [("uri", Some (JStr "https://example.org/annotations.cif"));
     ("format", Some (JStr "cif")); ("schema", Some (JStr "residue"));
     ("field_name", Some (JStr "color"))] [].
Definition annotated_tooltip : Node :=
  mkNode 22 "tooltip_from_source"
    [("schema", Some (JStr "atom")); ("block_index", Some (JNum 1));
     ("field_name", Some (JStr "tooltip"))] [].
Definition annotated_label : Node :=
  mkNode 23 "label_from_uri"
    [("block_header", None); ("schema", Some (JStr "residue"));
     ("format", Some (JStr "cif"));
     ("uri", Some (JStr "https://example.org/annotations.cif"))] [].
Definition annotated_root : Node :=
  mkNode 20 "root" [] [annotated_color; annotated_tooltip; annotated_label].

(** Two nodes whose annotations differ in the category name. *)
Definition category_a : Node :=
  mkNode 31 "color_from_source" [("category_name", Some (JStr "charges_a"))] [].
Definition category_b : Node :=
  mkNode 32 "color_from_source" [("category_name", Some (JStr "charges_b"))] [].
Definition categories_root : Node := mkNode 30 "root" [] [category_a; category_b].

Definition annotated_specs : list AnnotationSpec :=
  (collectAnnotationReferences annotated_root empty_context).1.

Definition no_spec : AnnotationSpec := mkAnnotationSpec [] "".

(** The selector parameter the source hands to [componentPropsFromSelector]
    for a colour child [c]: [c.kind === 'color' ? c.params.selector : undefined]. *)
Definition selector_param (c : Node) : option Json :=
  if String.eqb (kind c) "color" then get_prop (params c) "selector" else None.

(** What the representation handed up by the children of a node is. *)
Definition handed_up (c : Node) : option Node :=
  if String.eqb (kind c) "structure" then None else nearest_below c.

(** The effect of the walk up on the subtree at [t], visited with [parent],
    from a map that has no entry for the nodes of the subtree. *)
Definition up_subtree_spec (t : Node) : Prop :=
  ∀ (parent : option Node) (m : gmap nat Node),
    List.NoDup (List.map ref (nodes t)) →
    (∀ n, In n (nodes t) → m !! ref n = None) →
    (∀ q, parent = Some q → ¬ In (ref q) (List.map ref (nodes t))) →
    let m' := up_fold (visits_post t parent) m in
    (∀ n, In n (nodes t) → m' !! ref n = nearest_below n)
    ∧ (∀ k, ¬ In k (List.map ref (nodes t)) → (∀ q, parent = Some q → k ≠ ref q) →
            m' !! k = m !! k)
    ∧ (∀ q, parent = Some q →
            m' !! ref q = match m !! ref q with
                          | Some r => Some r
                          | None => handed_up t
                          end).

(** What holds of the registry after the walk has passed the nodes [ns]:
    every entry is filed under the canonical string of its spec, carries the
    hash of that string as its id, and holds the spec of the first node with
    that string; every string met is registered; and the entries are in the
    order in which their strings were first met. *)
Definition registry_invariant (ns : list Node) (reg : SpecRegistry) : Prop :=
  let K := List.map node_key ns in
  (∀ k a, In (k, a) reg →
     k = spec_key (spec_props a) ∧ id a = Utils.stringHash k ∧ In (Some k) K
     ∧ ∃ n, ns !! first_index (Some k) K = Some n ∧ spec_of_node n = Some (spec_props a))
  ∧ (∀ k, In (Some k) K → is_Some (registry_get reg k))
  ∧ (∀ (i j : nat) ka a kb b,
       reg !! i = Some (ka, a) → reg !! j = Some (kb, b) → (i < j)%nat →
       (first_index (Some ka) K < first_index (Some kb) K)%nat).

Section LoadTreeNotions.

Context {U Sel C : Type}.
Variable toRoot_selector : U → Sel.
Variable delete_children : U → Sel → U.
Variable loadingActions : @LoadingActions U Sel C.

Implicit Types (st : @load_state U Sel C).

(** A visit that set an entry or called an action: the kind of its node has
    an action, and its parent, if any, has an entry. *)
Definition loaded_visit (seen : list (Node * option Node)) st (k : nat) : Prop :=
  ∃ n p, In (n, p) seen ∧ ref n = k ∧ is_Some (loadingActions (kind n))
         ∧ ∀ q, p = Some q → is_Some (mapping st !! ref q).

Definition load_invariant (seen : list (Node * option Node)) st : Prop :=
  (∀ k, is_Some (mapping st !! k) → loaded_visit seen st k)
  ∧ (∀ k msParent, In (ActionCalled k msParent) (trace st) → loaded_visit seen st k)
  ∧ (∀ n q, In (n, Some q) seen → is_Some (loadingActions (kind n)) →
       is_Some (mapping st !! ref q)
       ∨ In (Warned (ref n) (no_target_message n)) (trace st)).

(** The walk of [loadTree] from its initial state. *)
Definition load_walk (built : U) (tree : Node) (ctx : C) (deletePrevious : bool)
    : outcome (@load_state U Sel C) :=
  run_visits (load_node loadingActions (toRoot_selector built)) (visits_pre tree None)
    (mkLoadState ∅
       (if deletePrevious then delete_children built (toRoot_selector built) else built)
       ctx []).

End LoadTreeNotions.


(** Is [key] bound to a value other than [undefined]?  [sortObjectKeys] keeps
    the keys that are. *)
Definition bound (V : Type) (obj : Obj V) (key : string) : bool :=
  match get_prop obj key with Some _ => true | None => false end.

(** The keys for which [sortObjectKeys] sets an own property of its result:
    all those but '__proto__'. *)
Definition kept (V : Type) (obj : Obj V) (key : string) : bool :=
  bound V obj key && negb (String.eqb key "__proto__").

(** The string of [n] letters a, and the node that names it as the category
    of its annotation. *)
Fixpoint letters (n : nat) : string :=
  match n with
  | O => ""
  | S n' => String "a" (letters n')
  end.

Definition node_of_category (category : string) : Node :=
  mkNode 0 "color_from_source" [("category_name", Some (JStr category))] [].

(** ** Further notions of the statements *)

(** Is the key an array index? *)
Definition is_index (key : string) : bool :=
  match array_index key with Some _ => true | None => false end.

(** The keys of a list that are no array indices, in their order. *)
Definition name_keys (keys : list string) : list string :=
  List.filter (fun key => negb (is_index key)) keys.

(** The order in which an object lists its keys: the array indices first,
    from [lower] on and in ascending order of their numbers, then the other
    keys. *)
Fixpoint ordered_from (lower : Z) (keys : list string) : bool :=
  match keys with
  | [] => true
  | key :: rest =>
      match array_index key with
      | Some n => (lower <=? n) && ordered_from (n + 1) rest
      | None => List.forallb (fun k => negb (is_index k)) rest
      end
  end.

Definition indices_first (keys : list string) : Prop := ordered_from 0 keys = true.

(** A series of assignments [obj[key] = value] where no setter is
    inherited. *)
Definition set_all {V : Type} (assignments : list (string * option V)) (obj : Obj V) : Obj V :=
  List.fold_left (fun obj kv => set_prop obj kv.1 kv.2) assignments obj.

(** A series of assignments to an object that started as a literal. *)
Definition assign_all {V : Type} (keeps_accessor : option V → bool)
    (assignments : list (string * option V)) (obj : Built V) : Built V :=
  List.fold_left (fun obj kv => assign keeps_accessor obj kv.1 kv.2) assignments obj.

(** The assignments that create or change an own property of an object
    literal when no key comes twice: all but the one at '__proto__'. *)
Definition own_assignments {V : Type} (assignments : list (string * option V))
    : list (string * option V) :=
  List.filter (fun kv => negb (String.eqb kv.1 "__proto__")) assignments.

(** The keys of a list but '__proto__'. *)
Definition own_keys (keys : list string) : list string :=
  List.filter (fun key => negb (String.eqb key "__proto__")) keys.

(** The assignments of the loop of [objectFromKeysAndValues], from index [i]
    on. *)
Fixpoint zipped_from {V : Type} (keys : list string) (i : nat) (values : list (option V))
    : list (string * option V) :=
  match keys with
  | [] => []
  | key :: keys' => (key, mjoin (values !! i)) :: zipped_from keys' (S i) values
  end.

(** The order a comparison function stands for: [a] may come before [b]. *)
Definition in_order {T : Type} (compareFn : T → T → Z) (a b : T) : Prop :=
  compareFn a b ≤ 0.

(** An element that is not [undefined]. *)
Definition defined {T : Type} `{Undefinable T} (x : T) : Prop := is_undefined x = false.

(** A consistent comparison function, as ECMA-262 asks of the argument of
    [Array.prototype.sort]: on the values it is handed, which are the defined
    ones, "equal" is an equivalence and "less" and "greater" are
    transitive. *)
Record consistent_comparator {T : Type} `{Undefinable T} (compareFn : T → T → Z) : Prop := {
  comparator_refl : ∀ a, defined a → compareFn a a = 0;
  comparator_sym : ∀ a b, defined a → defined b → compareFn a b = 0 → compareFn b a = 0;
  comparator_trans_eq : ∀ a b c, defined a → defined b → defined c →
    compareFn a b = 0 → compareFn b c = 0 → compareFn a c = 0;
  comparator_trans_lt : ∀ a b c, defined a → defined b → defined c →
    compareFn a b < 0 → compareFn b c < 0 → compareFn a c < 0;
  comparator_trans_gt : ∀ a b c, defined a → defined b → defined c →
    0 < compareFn a b → 0 < compareFn b c → 0 < compareFn a c
}.

(** The comparison of optional numbers by their difference; it is 0 where a
    number is missing (the difference is [NaN], which [Array.prototype.sort]
    and the test [> 0] take as 0). *)
Definition compare_optional (a b : option Z) : Z :=
  match a, b with
  | Some x, Some y => x - y
  | _, _ => 0
  end.

(** The values appended to [key] by a series of calls of [MultiMap.add]. *)
Definition values_added {K V : Type} `{EqDecision K} (calls : list (K * V)) (key : K) : list V :=
  List.map snd (List.filter (fun kv => bool_decide (kv.1 = key)) calls).

(** The values of [values] that [distinct] keeps when the canonical strings
    in [seen] were met before. *)
Fixpoint distinct_from (seen : gset string) (values : list Json) : list Json :=
  match values with
  | [] => []
  | value :: rest =>
      let key := Utils.canonicalJsonString value in
      if bool_decide (key ∈ seen) then distinct_from seen rest
      else value :: distinct_from ({[key]} ∪ seen) rest
  end.

(** The canonical strings of a list of values. *)
Definition canonical_strings (values : list Json) : list string :=
  List.map Utils.canonicalJsonString values.

(** A digit of a lower-case hexadecimal numeral. *)
Definition lower_hex_digit (c : ascii) : bool :=
  List.existsb (Ascii.eqb c) (list_ascii_of_string "0123456789abcdef").

(** The characters of a string at the positions 0, 2, 4, ... *)
Fixpoint evens (s : string) : string :=
  match s with
  | EmptyString => EmptyString
  | String c rest =>
      String c (match rest with
                | EmptyString => EmptyString
                | String _ rest' => evens rest'
                end)
  end.

(** One round of [hashString] on every character of a string. *)
Fixpoint hash_every (h : Z) (s : string) : Z :=
  match s with
  | EmptyString => h
  | String c rest =>
      hash_every (Utils.ToInt32 (Utils.ToInt32 (Z.shiftl h 5) - h + charCode c)) rest
  end.

(** The value of a hexadecimal numeral of six digits. *)
Definition hex6_value (d1 d2 d3 d4 d5 d6 : ascii) : Z :=
  ((((Utils.hex_value d1 * 16 + Utils.hex_value d2) * 16 + Utils.hex_value d3) * 16
    + Utils.hex_value d4) * 16 + Utils.hex_value d5) * 16 + Utils.hex_value d6.

(** The walk down of [makeNearestReprMap] as a fold over the pre-order
    visits. *)
Definition down_fold (vs : list (Node * option Node)) (m : gmap nat Node) : gmap nat Node :=
  List.fold_left (fun m v => propagate_down v.1 v.2 m) vs m.

(** The references of the nodes visited. *)
Definition visited_refs (vs : list (Node * option Node)) : list nat :=
  List.map (fun v => ref v.1) vs.

(** In a list of visits every parent is visited before its children. *)
Definition parents_first (vs : list (Node * option Node)) : Prop :=
  ∀ before n q after, vs = before ++ (n, Some q) :: after → In q (List.map fst before).

Section LoadTreeMoreNotions.

Context {U Sel C : Type}.

(** The action registered for the kind of a node returns a selector
    whenever it is called on the node. *)
Definition always_loads (loadingActions : @LoadingActions U Sel C) (n : Node) : Prop :=
  ∃ action, loadingActions (kind n) = Some action
    ∧ ∀ u msParent c, ∃ u' c' msNode, action u msParent n c = Returned u' c' (Some msNode).

(** An event that is the call of an action on a given node. *)
Definition is_call_on (e : @event Sel) (n : Node) : Prop :=
  ∃ msParent, e = ActionCalled (ref n) msParent.

(** What holds during a run in which every action returns a selector, after
    the visits [seen]: an action was called at every visit, in order; every
    node visited has a selector; and the action of a node was called with
    the selector of its parent, or with the root selector. *)
Definition loading_invariant (msRoot : Sel) (seen : list (Node * option Node))
    (st : @load_state U Sel C) : Prop :=
  Forall2 is_call_on (trace st) (List.map fst seen)
  ∧ (∀ n p, In (n, p) seen → ∃ msNode, mapping st !! ref n = Some (Some msNode))
  ∧ (∀ n q, In (n, Some q) seen →
       ∃ msParent, mapping st !! ref q = Some (Some msParent)
                   ∧ In (ActionCalled (ref n) msParent) (trace st))
  ∧ (∀ n, In (n, None) seen → In (ActionCalled (ref n) msRoot) (trace st)).

End LoadTreeMoreNotions.

(** A tree whose kinds all have an action in [sample_actions]. *)
Definition loaded_download : Node := mkNode 1 "download" [] [].
Definition loaded_root : Node := mkNode 0 "root" [] [loaded_download].

(** A host whose action for 'download' throws. *)
Definition failing_actions : @LoadingActions nat nat unit :=
  fun kind =>
    if String.eqb kind "root" then
      Some (fun update msParent node context => Returned update context (Some msParent))
    else if String.eqb kind "download" then
      Some (fun update msParent node context => Raised (S update) context "download failed")
    else None.

Definition failing_loadTree (tree : Node) : outcome (@load_state nat nat unit) :=
  loadTree (fun _ => 0%nat) (fun update _ => update) (fun update => (100 + update)%nat)
    0%nat tree failing_actions tt true.

(** Is a node a tooltip that refers to an annotation? *)
Definition is_annotation_tooltip (n : Node) : bool :=
  String.eqb (kind n) "tooltip_from_uri" || String.eqb (kind n) "tooltip_from_source".

(** The tooltip [{ annotationId, fieldName }] of a node. *)
Definition tooltip_entry (annotationId : string) (n : Node) : Json :=
  JObj [("annotationId", Some (JStr annotationId));
        ("fieldName", get_prop (params n) "field_name")].

(** What the walk of [collectAnnotationTooltips] pushes at a node. *)
Definition pushed_tooltips (context : MolstarLoadingContext) (n : Node) : list Json :=
  collect_annotation_tooltip context n None [].

(** A tree with two tooltips that refer to the same annotation and the same
    field, and one that refers to another field. *)
Definition tooltip_a : Node :=
  mkNode 41 "tooltip_from_source"
    [("schema", Some (JStr "atom")); ("field_name", Some (JStr "tooltip"))] [].
Definition tooltip_b : Node :=
  mkNode 42 "tooltip_from_source"
    [("field_name", Some (JStr "tooltip")); ("schema", Some (JStr "atom"))] [].
Definition tooltip_c : Node :=
  mkNode 43 "tooltip_from_source"
    [("schema", Some (JStr "atom")); ("field_name", Some (JStr "note"))] [].
Definition tooltips_root : Node := mkNode 40 "structure" [] [tooltip_a; tooltip_b; tooltip_c].

(** A representation coloured by an annotation, in a tree of its own. *)
Definition colored_by_annotation : Node :=
  mkNode 52 "color_from_uri"
    [("uri", Some (JStr "https://example.org/annotations.cif"));
     ("format", Some (JStr "cif")); ("schema", Some (JStr "residue"));
     ("field_name", Some (JStr "color"))] [].
Definition annotated_representation : Node :=
  mkNode 51 "representation" [("type", Some (JStr "cartoon"))] [colored_by_annotation].
Definition annotated_label_node : Node :=
  mkNode 53 "label_from_uri"
    [("uri", Some (JStr "https://example.org/annotations.cif"));
     ("format", Some (JStr "cif")); ("schema", Some (JStr "residue"));
     ("field_name", Some (JStr "label"))] [].
Definition annotated_component : Node :=
  mkNode 50 "component" [] [annotated_representation; annotated_label_node].

(** The transform nodes among the children of a node. *)
Definition transform_children (node : Node) : list Node :=
  List.filter (fun c => String.eqb (kind c) "transform") (getChildren node).

(** A reader of arrays of integer-valued numbers (none of whose entries needs
    rounding), and a structure with one transform. *)
Definition sample_number_array_param (p : Obj Json) (key : string) : option (list float) :=
  match get_prop p key with
  | Some (JArr xs) =>
      Some (List.map (fun x => match x with
                               | JNum 0 => 0%float
                               | JNum 1 => 1%float
                               | JNum 2 => 2%float
                               | JNum 3 => 3%float
                               | _ => nan
                               end) xs)
  | _ => None
  end.

Definition sample_transform : Node :=
  mkNode 61 "transform"
    [("rotation", Some (JArr [JNum 1; JNum 0; JNum 0; JNum 0; JNum 1; JNum 0;
                              JNum 0; JNum 0; JNum 1]));
     ("translation", Some (JArr [JNum 1; JNum 2; JNum 3]))] [].
Definition transformed_structure : Node :=
  mkNode 60 "structure" [("type", Some (JStr "model"))]
    [sample_transform; mkNode 62 "component" [] []].

(** The inline tooltip a tooltip node gives under a component node. *)
Definition tooltip_under_component {Expression Bundle Script : Type}
    (rowToExpression : Json → Expression) (rowsToExpression : list Json → Expression)
    (node parent : Node) : @InlineTooltip Expression Bundle Script :=
  mkInlineTooltip (string_param (params node) "text")
    (componentPropsFromSelector rowToExpression rowsToExpression
       (get_prop (params parent) "selector")).

(** Is a node a component defined by an annotation? *)
Definition is_annotation_component (n : Node) : bool :=
  String.eqb (kind n) "component_from_uri" || String.eqb (kind n) "component_from_source".

(** What the walk of [collectInlineTooltips] pushes at a visit. *)
Definition pushed_inline {Expression Bundle Script : Type}
    (rowToExpression : Json → Expression) (rowsToExpression : list Json → Expression)
    (context : MolstarLoadingContext) (v : Node * option Node)
    : list (@InlineTooltip Expression Bundle Script) :=
  collect_inline_tooltip rowToExpression rowsToExpression context v.1 v.2 [].

(** A component with a tooltip, and a tooltip out of place under a
    representation. *)
Definition inline_tooltip : Node := mkNode 72 "tooltip" [("text", Some (JStr "active site"))] [].
Definition stray_tooltip : Node := mkNode 74 "tooltip" [("text", Some (JStr "lost"))] [].
Definition tooltip_representation : Node := mkNode 73 "representation" [] [stray_tooltip].
Definition tooltip_component : Node :=
  mkNode 71 "component" [("selector", Some (JStr "ligand"))]
    [inline_tooltip; tooltip_representation].
Definition tooltip_structure : Node := mkNode 70 "structure" [] [tooltip_component].

(** The matrix of a transform node, or the error of its parameters. *)
Definition transform_matrix (isRotationAndTranslation : list float → bool)
    (number_array_param : Obj Json → string → option (list float)) (transform : Node)
    : result (list float) TransformError :=
  transformFromRotationTranslation isRotationAndTranslation
    (number_array_param (params transform) "rotation")
    (number_array_param (params transform) "translation").

(* ===================================================================== *)
(** * Part II: properties *)
(* ===================================================================== *)

(** ** Colour decoding *)

Example stringHash_documented_example :
  Utils.stringHash "spanish inquisition" = "bd65e59a".
Proof. vm_compute. reflexivity. Qed.

Example decodeColor_short_hex :
  Utils.decodeColor sample_ColorNames (Some "#f0f") = Some (Utils.color_number 0xff00ff).
Proof. reflexivity. Qed.

Example decodeColor_name_any_case :
  Utils.decodeColor sample_ColorNames (Some "Red") = Some (Utils.color_number 0xff0000).
Proof. reflexivity. Qed.





(** A string that is no hexadecimal colour is looked up, in lower case, in
    the table of colour names. *)
Lemma decodeColor_not_hex (ColorNames : string → option Utils.Color) (s : string) :
  Utils.isHexColorString s = false →
  Utils.decodeColor ColorNames (Some s) = Utils.ColorNames_get ColorNames (Utils.toLowerCase s).
Proof.
  intros Hhex. unfold Utils.decodeColor. rewrite Hhex.
  by destruct s as [|c0 [|c1 [|c2 [|c3 [|c4 rest]]]]].
Qed.



(** ** Colour themes *)

Section ColorThemeFacts.

Context {Expression Bundle Script FieldValues : Type}.
Variable ColorNames : string → option Utils.Color.
Variable DefaultColor : string.
Variable NoColor : Utils.Color.
Variable rowToExpression : Json → Expression.
Variable rowsToExpression : list Json → Expression.

Local Abbreviation Selector := (Selector Expression Bundle Script FieldValues).
Local Abbreviation colorThemeForNode :=
  (colorThemeForNode (Bundle := Bundle) (Script := Script) (FieldValues := FieldValues)
     ColorNames DefaultColor NoColor rowToExpression rowsToExpression).
Local Abbreviation colorThemeForNode_at :=
  (colorThemeForNode_at (Bundle := Bundle) (Script := Script) (FieldValues := FieldValues)
     ColorNames DefaultColor NoColor rowToExpression rowsToExpression).
Local Abbreviation color_theme_of_color_node :=
  (color_theme_of_color_node (Expression := Expression) (Bundle := Bundle) (Script := Script)
     (FieldValues := FieldValues) ColorNames NoColor).
Local Abbreviation componentPropsFromSelector :=
  (componentPropsFromSelector (Bundle := Bundle) (Script := Script)
     (FieldValues := FieldValues) rowToExpression rowsToExpression).

Lemma color_kind_not_representation (c : Node) :
  is_color_kind c = true → String.eqb (kind c) "representation" = false.
Proof.
  unfold is_color_kind. intros H.
  destruct (String.eqb_spec (kind c) "representation") as [E|]; [|done].
  rewrite E in H. discriminate H.
Qed.

(** On a colour node the function takes its second half. *)
Lemma colorThemeForNode_color_child (c : Node) (context : MolstarLoadingContext) :
  is_color_kind c = true →
  colorThemeForNode (Some c) context = color_theme_of_color_node (Some c) context.
Proof.
  intros H. apply color_kind_not_representation in H.
  destruct c as [r k p cs]. simpl in *. by rewrite H.
Qed.

Lemma filter_themed (context : MolstarLoadingContext) (cs : list Node) :
  List.filter (fun ct : Node * ColorTheme => is_color_kind (fst ct))
    (List.map (fun c => (c, colorThemeForNode_at c context)) cs)
  = List.map (fun c => (c, colorThemeForNode (Some c) context)) (List.filter is_color_kind cs).
Proof.
  induction cs as [|c cs IH]; simpl; [done|].
  destruct (is_color_kind c); simpl; by rewrite IH.
Qed.

(** The three cases of a representation node, by its colour children. *)
Lemma colorThemeForNode_representation_cases (node : Node) (context : MolstarLoadingContext) :
  kind node = "representation" →
  colorThemeForNode (Some node) context =
    match List.filter is_color_kind (getChildren node) with
    | [] => Uniform (Utils.decodeColor ColorNames (Some DefaultColor))
    | [c] =>
        if appliesColorToWholeRepr c then colorThemeForNode (Some c) context
        else Multilayer [(colorThemeForNode (Some c) context,
                          componentPropsFromSelector (selector_param c))]
    | cs =>
        Multilayer
          (List.map (fun c => (colorThemeForNode (Some c) context,
                               componentPropsFromSelector (selector_param c))) cs)
    end.
Proof.
  destruct node as [r k p cs]. simpl. intros ->. simpl.
  rewrite filter_themed.
  destruct (List.filter is_color_kind cs) as [|c [|c' rest]]; simpl.
  - done.
  - by destruct (appliesColorToWholeRepr c).
  - unfold selector_param. by rewrite List.map_map.
Qed.

(** [appliesColorToWholeRepr] holds of a uniform-colour child with no selector
    or with the selector 'all', and of every annotation-driven child. *)
Lemma appliesColorToWholeRepr_spec (c : Node) :
  appliesColorToWholeRepr c = true ↔
    (kind c = "color" ∧ (Utils.isDefined (get_prop (params c) "selector") = false
                         ∨ get_prop (params c) "selector" = Some (JStr "all")))
    ∨ kind c ≠ "color".
Proof.
  unfold appliesColorToWholeRepr.
  destruct (String.eqb_spec (kind c) "color") as [E|E].
  - split.
    + intros H. left. split; [done|].
      apply orb_prop in H as [H|H].
      * left. by apply negb_true_iff.
      * right. destruct (get_prop (params c) "selector") as [[| | |s| |]|]; try discriminate H.
        apply String.eqb_eq in H. by subst.
    + intros [[_ [H|H]]|H]; [| |done].
      * by rewrite H.
      * rewrite H. simpl. done.
  - split; [by right|done].
Qed.

(** C5: the colour theme of a representation node.  With no colour child it
    is the uniform theme of the default colour; with exactly one colour child
    that applies to the whole representation it is that child's own theme;
    otherwise it is the layered theme with one layer per colour child, in
    child order, each pairing the child's theme with the selection of the
    child's selector.  A child applies to the whole representation when it is
    a uniform-colour child without selector or with selector 'all', or an
    annotation-driven child. *)
Theorem colorThemeForNode_representation (node : Node) (context : MolstarLoadingContext) :
  kind node = "representation" →
  let children := List.filter is_color_kind (getChildren node) in
  let theme := colorThemeForNode (Some node) context in
  let layer := fun c => (colorThemeForNode (Some c) context,
                         componentPropsFromSelector (selector_param c)) in
  (children = [] → theme = Uniform (Utils.decodeColor ColorNames (Some DefaultColor)))
  ∧ (∀ c, children = [c] → appliesColorToWholeRepr c = true →
          theme = colorThemeForNode (Some c) context)
  ∧ (children ≠ [] → (∀ c, children = [c] → appliesColorToWholeRepr c = false) →
     theme = Multilayer (List.map layer children))
  ∧ (∀ c, In c children →
       (appliesColorToWholeRepr c = true ↔
          (kind c = "color"
           ∧ (Utils.isDefined (get_prop (params c) "selector") = false
              ∨ get_prop (params c) "selector" = Some (JStr "all")))
          ∨ kind c = "color_from_uri" ∨ kind c = "color_from_source")).
Proof.
  intros Hkind children theme layer. subst theme.
  rewrite (colorThemeForNode_representation_cases node context Hkind).
  fold children. split; [|split; [|split]].
  - by intros ->.
  - intros c -> Happlies. by rewrite Happlies.
  - intros Hne Hscoped. destruct children as [|c [|c' rest]]; [done| |done].
    by rewrite (Hscoped c eq_refl).
  - intros c Hin. split.
    + intros H. apply appliesColorToWholeRepr_spec in H as [H|H]; [by left|].
      right. apply List.filter_In in Hin as [_ Hc]. unfold is_color_kind in Hc.
      apply orb_prop in Hc as [Hc|Hc]; [apply orb_prop in Hc as [Hc|Hc]|].
      * apply String.eqb_eq in Hc. done.
      * left. by apply String.eqb_eq.
      * right. by apply String.eqb_eq.
    + intros H. apply appliesColorToWholeRepr_spec.
      destruct H as [H|[H|H]]; [by left| |]; right; rewrite H; done.
Qed.


End ColorThemeFacts.

Lemma colorThemeForNode_representation_witness :
  sample_colorThemeForNode (Some sample_representation) empty_context
  = Uniform (Some (Utils.color_number 0xff0000))
  ∧ sample_colorThemeForNode (Some sample_representation_layered) empty_context
    = Multilayer [(Uniform (Some (Utils.color_number 0x0000ff)), SelStatic "protein");
                  (Uniform (Some (Utils.color_number 0xff00ff)), SelStatic "ligand")].
Proof.
  split.
  - destruct (colorThemeForNode_representation (Bundle := unit) (Script := unit)
                (FieldValues := unit) sample_ColorNames "white" 0 (fun _ => tt) (fun _ => tt)
                sample_representation empty_context eq_refl) as (_ & Hone & _).
    exact (Hone sample_color_red eq_refl eq_refl).
  - destruct (colorThemeForNode_representation (Bundle := unit) (Script := unit)
                (FieldValues := unit) sample_ColorNames "white" 0 (fun _ => tt) (fun _ => tt)
                sample_representation_layered empty_context eq_refl) as (_ & _ & Hmany & _).
    apply Hmany; [discriminate|]. intros c Hc. discriminate Hc.
Defined.



(** ** Transforms *)

Section TransformFacts.

Variable isRotationAndTranslation : list float → bool.

Local Abbreviation transform := (transformFromRotationTranslation isRotationAndTranslation).

Lemma present_and_length_not_false (a : option (list float)) (n : nat) :
  absent_or_length a n → present_and_length_not a n = false.
Proof.
  destruct a as [xs|]; simpl; [|done].
  intros ->. by rewrite Nat.eqb_refl.
Qed.

Lemma present_and_length_not_true (xs : list float) (n : nat) :
  length xs ≠ n → present_and_length_not (Some xs) n = true.
Proof.
  intros Hlen. simpl. apply negb_true_iff. by apply Nat.eqb_neq.
Qed.

(** With well-sized arguments the outcome is decided by the validity test on
    the assembled matrix. *)
Lemma transform_well_sized (rotation translation : option (list float)) :
  absent_or_length rotation 9 → absent_or_length translation 3 →
  transform rotation translation =
    if isRotationAndTranslation (assembled_matrix rotation translation)
    then Ok (assembled_matrix rotation translation)
    else Throw (mkTransformError
                  "'rotation' param for 'transform' is not a valid rotation matrix: "
                  rotation).
Proof.
  intros Hr Ht. unfold transformFromRotationTranslation.
  rewrite (present_and_length_not_false _ _ Hr), (present_and_length_not_false _ _ Ht).
  fold (assembled_matrix rotation translation).
  by destruct (isRotationAndTranslation _).
Qed.

End TransformFacts.

(** The test of the library on an assembled matrix: the entries at 3, 7, 11
    and 15 are those of the identity, which neither the rotation nor the
    translation overwrites, so the determinant of the rotation decides. *)
Lemma isRotationAndTranslation_assembled (rotation translation : option (list float)) :
  absent_or_length rotation 9 → absent_or_length translation 3 →
  Mat4.isRotationAndTranslation (assembled_matrix rotation translation)
  = unit_determinant rotation.
Proof.
  intros Hr Ht.
  assert (Hif : ∀ b : bool, (if negb b then false else true) = b) by (intros []; reflexivity).
  destruct rotation as [r|]; [|destruct translation as [t|]].
  - do 9 (destruct r as [|? r]; [discriminate Hr|]). destruct r; [|discriminate Hr].
    destruct translation as [t|].
    + do 3 (destruct t as [|? t]; [discriminate Ht|]). destruct t; [|discriminate Ht].
      apply Hif.
    + apply Hif.
  - do 3 (destruct t as [|? t]; [discriminate Ht|]). destruct t; [|discriminate Ht].
    reflexivity.
  - reflexivity.
Qed.

(** C4: [transformFromRotationTranslation] throws an error naming 'rotation'
    when the rotation is present with a length other than 9, and an error
    naming 'translation' when the rotation is well-sized and the translation
    is present with a length other than 3, whatever the validity test.  With
    well-sized arguments it returns the assembled matrix when the test
    accepts it and throws an error naming 'rotation' otherwise.  The test of
    the library accepts the assembled matrix exactly when the determinant of
    the rotation is 1 or -1 up to 1e-6; the translation plays no part.  So
    the identity rotation with the translation (1, 2, 3) gives the matrix
    with the identity block and that translation, and a rotation of ones is
    refused. *)
Theorem transformFromRotationTranslation_validation :
  (∀ test rotation translation,
     length rotation ≠ 9%nat →
     ∃ e, transformFromRotationTranslation test (Some rotation) translation = Throw e
          ∧ names_param e "rotation" = true)
  ∧ (∀ test rotation translation,
       absent_or_length rotation 9 → length translation ≠ 3%nat →
       ∃ e, transformFromRotationTranslation test rotation (Some translation) = Throw e
            ∧ names_param e "translation" = true)
  ∧ (∀ test rotation translation,
       absent_or_length rotation 9 → absent_or_length translation 3 →
       (test (assembled_matrix rotation translation) = true →
        transformFromRotationTranslation test rotation translation
        = Ok (assembled_matrix rotation translation))
       ∧ (test (assembled_matrix rotation translation) = false →
          ∃ e, transformFromRotationTranslation test rotation translation = Throw e
               ∧ names_param e "rotation" = true))
  ∧ (∀ rotation translation,
       absent_or_length rotation 9 → absent_or_length translation 3 →
       Mat4.isRotationAndTranslation (assembled_matrix rotation translation)
       = unit_determinant rotation)
  ∧ transformFromRotationTranslation Mat4.isRotationAndTranslation
      (Some identity_rotation) (Some [1; 2; 3]%float)
    = Ok translation_by_1_2_3
  ∧ ∃ e, transformFromRotationTranslation Mat4.isRotationAndTranslation
           (Some rotation_of_ones) None = Throw e
         ∧ names_param e "rotation" = true.
Proof.
  split; [|split; [|split; [|split; [|split]]]].
  - intros test rotation translation Hlen. unfold transformFromRotationTranslation.
    rewrite (present_and_length_not_true _ _ Hlen). eexists. split; reflexivity.
  - intros test rotation translation Hr Hlen. unfold transformFromRotationTranslation.
    rewrite (present_and_length_not_false _ _ Hr), (present_and_length_not_true _ _ Hlen).
    eexists. split; reflexivity.
  - intros test rotation translation Hr Ht. rewrite (transform_well_sized _ _ _ Hr Ht).
    split; intros ->; [reflexivity|]. eexists. split; reflexivity.
  - apply isRotationAndTranslation_assembled.
  - vm_compute. reflexivity.
  - eexists. split; vm_compute; reflexivity.
Qed.

(** A rotation of eight numbers is refused for its length; the quarter turn
    about the third axis is accepted by the test of the library, its
    determinant being 1. *)
Lemma transformFromRotationTranslation_validation_witness :
  (∃ e, transformFromRotationTranslation Mat4.isRotationAndTranslation
          (Some rotation_of_eight) (Some [1; 2; 3]%float) = Throw e
        ∧ names_param e "rotation" = true)
  ∧ (∃ e, transformFromRotationTranslation Mat4.isRotationAndTranslation
            (Some identity_rotation) (Some [1; 2]%float) = Throw e
          ∧ names_param e "translation" = true)
  ∧ transformFromRotationTranslation Mat4.isRotationAndTranslation
      (Some quarter_turn) (Some [1; 2; 3]%float)
    = Ok [0; 1; 0; 0;  -1; 0; 0; 0;  0; 0; 1; 0;  1; 2; 3; 1]%float
  ∧ Mat4.isRotationAndTranslation (assembled_matrix (Some quarter_turn) None)
    = unit_determinant (Some quarter_turn).
Proof.
  destruct transformFromRotationTranslation_validation
    as (Hrotation & Htranslation & Htest & Hdeterminant & _).
  split; [|split; [|split]].
  - apply Hrotation. simpl. lia.
  - apply Htranslation; [reflexivity | simpl; lia].
  - apply (Htest Mat4.isRotationAndTranslation); [reflexivity | reflexivity |].
    vm_compute. reflexivity.
  - apply Hdeterminant; reflexivity.
Defined.

(** C4, as stated, fails on matrices that are no rigid rotation and have a
    determinant of 1 or -1: the scaling by 2, 1/2 and 1, whose columns are
    not of unit length, and the mirror image in a plane, whose determinant is
    -1, are both accepted and returned. *)
Lemma transformFromRotationTranslation_accepts_scaling :
  rigid_rotation scaling_2_half_1 = false
  ∧ transformFromRotationTranslation Mat4.isRotationAndTranslation
      (Some scaling_2_half_1) None
    = Ok [2; 0; 0; 0;  0; 0.5; 0; 0;  0; 0; 1; 0;  0; 0; 0; 1]%float
  ∧ rigid_rotation mirror_third_axis = false
  ∧ transformFromRotationTranslation Mat4.isRotationAndTranslation
      (Some mirror_third_axis) None
    = Ok [1; 0; 0; 0;  0; 1; 0; 0;  0; 0; -1; 0;  0; 0; 0; 1]%float.
Proof. repeat split; vm_compute; reflexivity. Qed.

(** ** Arrays: [extend] *)

Section ExtendFacts.

Context {T : Type} (undefined : T).

Implicit Types (h : gmap nat (list T)) (d s : list T).






End ExtendFacts.


(** ** Sorting *)

Section SortFacts.

Lemma compare_numbers_pos (a b : Z) :
  (0 <? ElementSet.compare_numbers a b) = (b <? a).
Proof. unfold ElementSet.compare_numbers. destruct (Z.ltb_spec b a); lia. Qed.

Lemma sort_insert_perm (x : Z) (l : list Z) :
  Permutation (Utils.sort_insert ElementSet.compare_numbers x l) (x :: l).
Proof.
  induction l as [|y l IH]; simpl; [done|].
  destruct (0 <? _); [|done].
  rewrite IH. apply perm_swap.
Qed.

(** No number is [undefined]: all of them are sorted. *)
Lemma Array_sort_numbers (l : list Z) :
  Utils.Array_sort ElementSet.compare_numbers l
  = List.fold_right (Utils.sort_insert ElementSet.compare_numbers) [] l.
Proof.
  unfold Utils.Array_sort.
  assert (Hall : List.filter (fun x : Z => negb (is_undefined x)) l = l).
  { induction l as [|x l IH]; [done|].
    change (x :: List.filter (fun x : Z => negb (is_undefined x)) l = x :: l).
    f_equal. exact IH. }
  assert (Hnone : List.filter (is_undefined (T := Z)) l = []).
  { clear. induction l as [|x l IH]; simpl; done. }
  rewrite Hall, Hnone. apply app_nil_r.
Qed.

Lemma Array_sort_perm (l : list Z) :
  Permutation (Utils.Array_sort ElementSet.compare_numbers l) l.
Proof.
  rewrite Array_sort_numbers.
  induction l as [|x l IH]; simpl; [done|].
  rewrite sort_insert_perm. by constructor.
Qed.

Lemma sort_insert_sorted (x : Z) (l : list Z) :
  Sorted Z.le l → Sorted Z.le (Utils.sort_insert ElementSet.compare_numbers x l).
Proof.
  induction l as [|y l IH]; intros Hs; simpl.
  - by repeat constructor.
  - rewrite compare_numbers_pos. destruct (Z.ltb_spec y x) as [Hlt|Hge].
    + apply Sorted_inv in Hs as [Hs Hhd]. constructor; [by apply IH|].
      destruct l as [|z l]; simpl.
      * constructor. lia.
      * rewrite compare_numbers_pos. destruct (Z.ltb_spec z x); constructor; [|lia].
        by inversion Hhd.
    + constructor; [done|]. by constructor.
Qed.

Lemma Array_sort_sorted (l : list Z) :
  Sorted Z.le (Utils.Array_sort ElementSet.compare_numbers l).
Proof.
  rewrite Array_sort_numbers.
  induction l as [|x l IH]; [constructor|].
  simpl. by apply sort_insert_sorted.
Qed.

Lemma has_descent_false_sorted (l : list Z) :
  Utils.has_descent ElementSet.compare_numbers l = false → Sorted Z.le l.
Proof.
  induction l as [|a [|b l] IH]; intros H.
  - constructor.
  - by repeat constructor.
  - simpl in H. apply orb_false_elim in H as [Hab Hrest].
    rewrite compare_numbers_pos in Hab. apply Z.ltb_ge in Hab.
    constructor; [by apply IH|by constructor].
Qed.

Lemma sortIfNeeded_sorted (l : list Z) :
  Sorted Z.le (Utils.sortIfNeeded l ElementSet.compare_numbers).
Proof.
  unfold Utils.sortIfNeeded.
  destruct (Utils.has_descent _ l) eqn:E.
  - apply Array_sort_sorted.
  - by apply has_descent_false_sorted.
Qed.

Lemma sortIfNeeded_perm (l : list Z) :
  Permutation (Utils.sortIfNeeded l ElementSet.compare_numbers) l.
Proof.
  unfold Utils.sortIfNeeded. destruct (Utils.has_descent _ l); [apply Array_sort_perm|done].
Qed.

Lemma sorted_le_strongly (l : list Z) : Sorted Z.le l → StronglySorted Z.le l.
Proof. apply Sorted_StronglySorted. intros x y z. lia. Qed.

(** A sorted sequence without repetition increases strictly. *)
Lemma sorted_nodup_strict (l : list Z) :
  Sorted Z.le l → List.NoDup l → StronglySorted Z.lt l.
Proof.
  intros Hs%sorted_le_strongly. induction Hs as [|a l Hs IH Hall]; intros Hnd.
  - constructor.
  - apply List.NoDup_cons_iff in Hnd as [Hnotin Hnd]. constructor; [by apply IH|].
    rewrite List.Forall_forall in Hall |- *. intros x Hx.
    specialize (Hall x Hx). assert (a ≠ x) by (intros ->; done). lia.
Qed.

Lemma strictly_sorted_nodup (l : list Z) : StronglySorted Z.lt l → List.NoDup l.
Proof.
  induction 1 as [|a l Hs IH Hall]; constructor; [|done].
  intros Hin. rewrite List.Forall_forall in Hall. specialize (Hall a Hin). lia.
Qed.

(** In a sorted array the elements grow with the index. *)
Lemma sorted_nth_mono (l : list Z) (i j : nat) :
  Sorted Z.le l → (i ≤ j < length l)%nat → List.nth i l 0 ≤ List.nth j l 0.
Proof.
  intros Hs%sorted_le_strongly. revert i j.
  induction Hs as [|a l Hs IH Hall]; intros i j Hij; simpl in *; [lia|].
  destruct i as [|i], j as [|j]; try lia.
  - rewrite List.Forall_forall in Hall. apply Hall. apply List.nth_In. lia.
  - apply IH. lia.
Qed.

End SortFacts.

(** ** Binary search *)

Lemma binarySearch_spec (fuel : nat) (xs : list Z) (value : Z) (lo hi : nat) :
  Sorted Z.le xs → (hi ≤ length xs)%nat → (hi - lo < fuel)%nat →
  SortedArray.binarySearch fuel xs value lo hi = true
  ↔ ∃ k, (lo ≤ k < hi)%nat ∧ List.nth k xs 0 = value.
Proof.
  intros Hs. revert lo hi. induction fuel as [|fuel IH]; intros lo hi Hhi Hfuel; [lia|].
  cbn [SortedArray.binarySearch]. destruct (Nat.leb_spec hi lo) as [Hle|Hlt].
  { split; [done|]. intros (k & Hk & _). lia. }
  set (mid := ((lo + hi) / 2)%nat).
  assert (Hmid : (lo ≤ mid < hi)%nat).
  { pose proof (Nat.div_mod_eq (lo + hi) 2) as Hdiv.
    pose proof (Nat.mod_upper_bound (lo + hi) 2 ltac:(lia)) as Hmod.
    fold mid in Hdiv. lia. }
  destruct (Z.ltb_spec value (List.nth mid xs 0)) as [Hless|Hnotless].
  - rewrite IH by lia. split; intros (k & Hk & Hv).
    + exists k. split; [lia|done].
    + exists k. split; [|done].
      destruct (Nat.lt_ge_cases k mid) as [|Hge]; [lia|].
      pose proof (sorted_nth_mono xs mid k Hs ltac:(lia)). lia.
  - destruct (Z.ltb_spec (List.nth mid xs 0) value) as [Hmore|Hnotmore].
    + rewrite IH by lia. split; intros (k & Hk & Hv).
      * exists k. split; [lia|done].
      * exists k. split; [|done].
        destruct (Nat.lt_ge_cases mid k) as [|Hge]; [lia|].
        pose proof (sorted_nth_mono xs k mid Hs ltac:(lia)). lia.
    + split; [|done]. intros _. exists mid. split; [done|lia].
Qed.

(** On a sorted array [SortedArray.has] is membership. *)
Lemma SortedArray_has_spec (xs : list Z) (x : Z) :
  Sorted Z.le xs → SortedArray.has xs x = true ↔ In x xs.
Proof.
  intros Hs. unfold SortedArray.has. rewrite binarySearch_spec by (done || lia).
  split.
  - intros (k & Hk & <-). apply List.nth_In. lia.
  - intros Hin. destruct (List.In_nth xs x 0 Hin) as (k & Hk & Hnth).
    exists k. split; [lia|done].
Qed.

(** ** Element sets *)

Section ElementSetFacts.

Context {Expression Bundle Script FieldValues : Type}.

Local Abbreviation Selector := (Selector Expression Bundle Script FieldValues).

Variable createStructureComponent : Structure → Selector → option Structure.
Variable createAnnotationStructureComponent :
  Structure → string → string → FieldValues → option Structure.

Local Abbreviation fromSelector :=
  (ElementSet.fromSelector createStructureComponent createAnnotationStructureComponent).
Local Abbreviation substructureFromSelector :=
  (ElementSet.substructureFromSelector createStructureComponent
     createAnnotationStructureComponent).

(** The arrays after the first loop: the elements of the units of each
    model, in the order of the units. *)
Lemma collect_units_lookup (units : Structure) (arrays : gmap string (list Z)) (m : string) :
  List.fold_left ElementSet.collect_unit units arrays !! m =
    match arrays !! m with
    | Some a => Some (a ++ elements_of_model m units)
    | None => if has_model m units then Some (elements_of_model m units) else None
    end.
Proof.
  revert arrays. induction units as [|u units IH]; intros arrays; simpl.
  - destruct (arrays !! m); [by rewrite app_nil_r|done].
  - rewrite IH. unfold ElementSet.collect_unit.
    destruct (String.eqb_spec (model_id u) m) as [->|Hne].
    + rewrite lookup_insert_eq. destruct (arrays !! m); simpl; [by rewrite <- app_assoc|done].
    + rewrite lookup_insert_ne by done. by destruct (arrays !! m).
Qed.

Lemma fromSelector_lookup (structure : Structure) (selector : Selector) (m : string) :
  fromSelector (Some structure) selector !! m =
    let selection := substructureFromSelector structure selector in
    if has_model m selection
    then Some (Utils.sortIfNeeded (elements_of_model m selection) ElementSet.compare_numbers)
    else None.
Proof.
  unfold ElementSet.fromSelector. rewrite lookup_fmap, collect_units_lookup, lookup_empty.
  simpl. by destruct (has_model m _).
Qed.

Lemma in_elements_of_model (m : string) (units : Structure) (x : Z) :
  In x (elements_of_model m units) ↔ ∃ u, In u units ∧ model_id u = m ∧ In x (elements u).
Proof.
  unfold elements_of_model. rewrite List.in_flat_map. split.
  - intros (u & Hu & Hx). destruct (String.eqb_spec (model_id u) m); [|done]. by exists u.
  - intros (u & Hu & Hm & Hx). exists u. split; [done|].
    by rewrite (proj2 (String.eqb_eq _ _) Hm).
Qed.

(** C6, as the code has it: the element set maps each model of the selection
    to the sorted sequence of the element indices of its units, a
    rearrangement of them that never decreases and that increases strictly
    when no index occurs twice among the units of the model; and
    [ElementSet.has] is true of exactly the locations whose model id and
    element index are recorded in the set. *)
Theorem fromSelector_sorted_has_exact (structure : Structure) (selector : Selector) :
  let selection := substructureFromSelector structure selector in
  let set := fromSelector (Some structure) selector in
  (∀ m array, set !! m = Some array →
     Sorted Z.le array
     ∧ Permutation array (elements_of_model m selection)
     ∧ (List.NoDup (elements_of_model m selection) → StronglySorted Z.lt array))
  ∧ (∀ location,
       ElementSet.has set location = true
       ↔ ∃ array, set !! location_model_id location = Some array
                  ∧ In (location_element location) array)
  ∧ (∀ location,
       ElementSet.has set location = true
       ↔ ∃ u, In u selection ∧ model_id u = location_model_id location
              ∧ In (location_element location) (elements u)).
Proof.
  intros selection set.
  assert (Hset : ∀ m array, set !! m = Some array →
            array = Utils.sortIfNeeded (elements_of_model m selection)
                      ElementSet.compare_numbers).
  { intros m array. subst set. rewrite fromSelector_lookup. fold selection. simpl.
    destruct (has_model m selection); congruence. }
  assert (Hhas : ∀ location,
            ElementSet.has set location = true
            ↔ ∃ array, set !! location_model_id location = Some array
                       ∧ In (location_element location) array).
  { intros location. unfold ElementSet.has.
    destruct (set !! location_model_id location) as [array|] eqn:E.
    - rewrite SortedArray_has_spec.
      + split; [by exists array|]. by intros (array' & [= <-] & Hin).
      + rewrite (Hset _ _ E). apply sortIfNeeded_sorted.
    - split; [done|]. by intros (array & [=] & _). }
  split; [|split; [done|]].
  - intros m array Harray. rewrite (Hset m array Harray).
    split; [apply sortIfNeeded_sorted|]. split; [apply sortIfNeeded_perm|].
    intros Hnd. apply sorted_nodup_strict; [apply sortIfNeeded_sorted|].
    eapply Permutation_NoDup; [|exact Hnd]. symmetry. apply sortIfNeeded_perm.
  - intros location. rewrite Hhas, <- in_elements_of_model. split.
    + intros (array & Harray & Hin). rewrite (Hset _ _ Harray) in Hin.
      by rewrite sortIfNeeded_perm in Hin.
    + intros Hin. subst set. setoid_rewrite fromSelector_lookup. fold selection. simpl.
      assert (Hm : has_model (location_model_id location) selection = true).
      { apply in_elements_of_model in Hin as (u & Hu & Hm & _).
        unfold has_model. apply List.existsb_exists. exists u. split; [done|].
        by apply String.eqb_eq. }
      rewrite Hm. eexists. split; [done|]. by rewrite sortIfNeeded_perm.
Qed.

End ElementSetFacts.

(** C6, as stated, fails where two units of one model share element indices:
    the sequence recorded for the model repeats them, so it does not
    increase strictly. *)
Lemma fromSelector_repeats_shared_elements :
  ElementSet.fromSelector whole_structure no_annotation_component
    (Some two_copies) (SelStatic "all") !! "m" = Some [0; 0; 1; 1]
  ∧ strictly_increasing [0; 0; 1; 1] = false
  ∧ elements <$> two_copies = [[0; 1]; [0; 1]].
Proof. vm_compute. done. Qed.

Example fromSelector_sorts_separate_units :
  ElementSet.fromSelector whole_structure no_annotation_component
    (Some two_chains) (SelStatic "all") !! "m" = Some [1; 2; 5; 7].
Proof. vm_compute. done. Qed.

(** C7: without a structure, [ElementSet.fromSelector] returns the empty
    element set, whatever the selector: no error is raised, and no location
    is in the set.  A structure whose selection has no units gives the empty
    set as well. *)
Theorem fromSelector_undefined_structure {Expression Bundle Script FieldValues : Type}
    (createStructureComponent :
       Structure → Selector Expression Bundle Script FieldValues → option Structure)
    (createAnnotationStructureComponent :
       Structure → string → string → FieldValues → option Structure)
    (selector : Selector Expression Bundle Script FieldValues) :
  let fromSelector :=
    ElementSet.fromSelector createStructureComponent createAnnotationStructureComponent in
  fromSelector None selector = ∅
  ∧ (∀ location, ElementSet.has (fromSelector None selector) location = false)
  ∧ (∀ structure,
       ElementSet.substructureFromSelector createStructureComponent
         createAnnotationStructureComponent structure selector = [] →
       fromSelector (Some structure) selector = ∅).
Proof.
  split; [done|]. split; [done|].
  intros structure Hempty. unfold ElementSet.fromSelector. rewrite Hempty. simpl.
  apply fmap_empty.
Qed.

Lemma fromSelector_sorted_has_exact_witness :
  Sorted Z.le [1; 2; 5; 7]
  ∧ Permutation [1; 2; 5; 7] (elements_of_model "m" two_chains)
  ∧ (List.NoDup (elements_of_model "m" two_chains) → StronglySorted Z.lt [1; 2; 5; 7]).
Proof.
  apply (proj1 (fromSelector_sorted_has_exact whole_structure no_annotation_component
                  two_chains (SelStatic "all")) "m" [1; 2; 5; 7]).
  reflexivity.
Defined.

(** ** Traversals *)

Section DfsFacts.

Context {S : Type}.

Implicit Types (f : @visitor S) (vs : list (Node * option Node)).

Lemma and_then_assoc (o : outcome S) (k1 k2 : S → outcome S) :
  o >>= k1 >>= k2 = o >>= (fun s => k1 s >>= k2).
Proof. by destruct o. Qed.

Lemma run_visits_app f vs1 vs2 (s : S) :
  run_visits f (vs1 ++ vs2) s = run_visits f vs1 s >>= run_visits f vs2.
Proof.
  revert s. induction vs1 as [|[n p] vs1 IH]; intros s; simpl; [done|].
  rewrite and_then_assoc. destruct (f n p s) as [s'|s' e]; simpl; [apply IH|done].
Qed.

(** A walk with a [preVisit] callback only runs the callback over the
    pre-order visits. *)
Lemma dfs_pre_visits f (node : Node) (parent : option Node) (s : S) :
  dfs_from (Some f) None node parent s = run_visits f (visits_pre node parent) s.
Proof.
  revert parent s. induction node as [r k p cs IH] using Node_ind. intros parent s.
  cbn [dfs_from visits_pre run_visits call_visitor].
  destruct (f (mkNode r k p cs) parent s) as [s1|s1 e]; simpl; [|done].
  generalize (mkNode r k p cs) as node. intros node. revert s1.
  induction IH as [|c cs' Hc _ IHcs]; intros s1; simpl; [done|].
  rewrite run_visits_app, Hc.
  destruct (run_visits f (visits_pre c (Some node)) s1) as [s2|s2 e]; simpl; [|done].
  apply IHcs.
Qed.

(** A walk with a [postVisit] callback only runs the callback over the
    post-order visits. *)
Lemma dfs_post_visits f (node : Node) (parent : option Node) (s : S) :
  dfs_from None (Some f) node parent s = run_visits f (visits_post node parent) s.
Proof.
  revert parent s. induction node as [r k p cs IH] using Node_ind. intros parent s.
  cbn [dfs_from visits_post call_visitor and_then].
  rewrite run_visits_app. simpl.
  generalize (mkNode r k p cs) as node. intros node.
  assert (Hcs : ∀ s1,
    (fix visit_children (cs0 : list Node) (s0 : S) {struct cs0} : outcome S :=
       match cs0 with
       | [] => Done s0
       | c :: cs' => dfs_from None (Some f) c (Some node) s0 >>= visit_children cs'
       end) cs s1
    = run_visits f (List.flat_map (fun c => visits_post c (Some node)) cs) s1).
  { induction IH as [|c cs' Hc _ IHcs]; intros s1; simpl; [done|].
    rewrite run_visits_app, Hc.
    destruct (run_visits f (visits_post c (Some node)) s1) as [s2|s2 e]; simpl; [|done].
    apply IHcs. }
  rewrite Hcs.
  destruct (run_visits f _ s) as [s2|s2 e]; simpl; [|done].
  by destruct (f node parent s2).
Qed.

(** A callback that cannot throw folds over the visits. *)
Lemma run_visits_pure (g : Node → option Node → S → S) vs (s : S) :
  run_visits (pure_visitor g) vs s
  = Done (List.fold_left (fun s v => g v.1 v.2 s) vs s).
Proof.
  revert s. induction vs as [|[n p] vs IH]; intros s; simpl; [done|]. apply IH.
Qed.

End DfsFacts.

(** The visits of a walk pass every node of the tree, in document order. *)
Lemma visits_pre_nodes (t : Node) (parent : option Node) :
  List.map fst (visits_pre t parent) = nodes t.
Proof.
  revert parent. induction t as [r k p cs IH] using Node_ind. intros parent.
  cbn [visits_pre nodes List.map fst]. f_equal.
  generalize (Some (mkNode r k p cs)) as par. intros par.
  induction IH as [|c cs' Hc _ IHcs]; simpl; [done|].
  by rewrite List.map_app, Hc, IHcs.
Qed.

(** Every visit of a walk hands the callback a node together with its
    immediate parent: the parent given to the root, or a node of the tree of
    which the visited node is a child. *)
Lemma visits_pre_parent (t : Node) (parent : option Node) (n : Node) (p : option Node) :
  In (n, p) (visits_pre t parent) →
  (n = t ∧ p = parent) ∨ ∃ q, p = Some q ∧ In q (nodes t) ∧ In n (getChildren q).
Proof.
  revert parent n p. induction t as [r k ps cs IH] using Node_ind. intros parent n p.
  cbn [visits_pre]. intros [[= <- <-]|Hin]; [by left|]. right.
  apply List.in_flat_map in Hin as (c & Hc & Hin).
  rewrite List.Forall_forall in IH.
  destruct (IH c Hc _ _ _ Hin) as [[-> ->]|(q & -> & Hq & Hn)].
  - exists (mkNode r k ps cs). split; [done|]. split; [by left|done].
  - exists q. split; [done|]. split; [|done].
    cbn [nodes]. right. apply List.in_flat_map. by exists c.
Qed.

(** A child of a node of the tree is visited with that node as parent. *)
Lemma visits_pre_child (t : Node) (parent : option Node) (q c : Node) :
  In q (nodes t) → In c (getChildren q) → In (c, Some q) (visits_pre t parent).
Proof.
  revert parent. induction t as [r k ps cs IH] using Node_ind. intros parent.
  cbn [nodes visits_pre]. rewrite List.Forall_forall in IH.
  intros [<-|Hq] Hc.
  - right. apply List.in_flat_map. exists c. split; [done|].
    destruct c. by left.
  - right. apply List.in_flat_map in Hq as (c' & Hc' & Hq).
    apply List.in_flat_map. exists c'. split; [done|]. by apply IH.
Qed.

Lemma child_in_nodes (t q c : Node) :
  In q (nodes t) → In c (getChildren q) → In c (nodes t).
Proof.
  intros Hq Hc. rewrite <- (visits_pre_nodes t None).
  apply List.in_map_iff. exists (c, Some q). split; [done|]. by apply visits_pre_child.
Qed.

Lemma NoDup_app_disjoint {A : Type} (l1 l2 : list A) (x : A) :
  List.NoDup (l1 ++ l2) → In x l1 → In x l2 → False.
Proof.
  intros Hnd%NoDup_ListNoDup Hx1%list_elem_of_In Hx2%list_elem_of_In.
  apply NoDup_app in Hnd as (_ & Hdisj & _). by apply (Hdisj x).
Qed.

(** Where references are distinct, a reference names one node. *)
Lemma distinct_refs_inj (ns : list Node) (a b : Node) :
  List.NoDup (List.map ref ns) → In a ns → In b ns → ref a = ref b → a = b.
Proof.
  induction ns as [|n ns IH]; simpl; [done|].
  intros Hnd%List.NoDup_cons_iff [<-|Ha] [<-|Hb] Href; try done.
  - destruct Hnd as [Hnotin _]. exfalso. apply Hnotin. rewrite Href. by apply List.in_map.
  - destruct Hnd as [Hnotin _]. exfalso. apply Hnotin. rewrite <- Href. by apply List.in_map.
  - destruct Hnd as [_ Hnd]. by apply IH.
Qed.

(** Where references are distinct, a node is visited once, with its parent. *)
Lemma visits_pre_unique (t : Node) (n m : Node) (p q : option Node) :
  distinct_refs t →
  In (n, p) (visits_pre t None) → In (m, q) (visits_pre t None) → ref n = ref m →
  n = m ∧ p = q.
Proof.
  unfold distinct_refs. rewrite <- (visits_pre_nodes t None).
  generalize (visits_pre t None) as vs. intros vs.
  induction vs as [|[a pa] vs IH]; simpl; [done|].
  intros Hnd%List.NoDup_cons_iff [[= -> ->]|Hn] [[= -> ->]|Hm] Href; try done.
  - destruct Hnd as [Hnotin _]. exfalso. apply Hnotin. rewrite Href.
    rewrite List.map_map. apply (List.in_map (fun v => ref v.1) _ (m, q)). done.
  - destruct Hnd as [Hnotin _]. exfalso. apply Hnotin. rewrite <- Href.
    rewrite List.map_map. apply (List.in_map (fun v => ref v.1) _ (n, p)). done.
  - destruct Hnd as [_ Hnd]. by apply IH.
Qed.

(** Distinct references of a given tree, by computation. *)
Ltac solve_distinct_refs :=
  unfold distinct_refs; simpl;
  repeat (apply List.NoDup_cons; [simpl; intuition lia|]); apply List.NoDup_nil.

(** ** Nearest representations *)

Lemma nearestReprMap_up_fold (root : Node) :
  nearestReprMap_up root = up_fold (visits_post root None) ∅.
Proof.
  unfold nearestReprMap_up, dfs. by rewrite dfs_post_visits, run_visits_pure.
Qed.

Lemma up_fold_app (vs1 vs2 : list (Node * option Node)) (m : gmap nat Node) :
  up_fold (vs1 ++ vs2) m = up_fold vs2 (up_fold vs1 m).
Proof. unfold up_fold. apply List.fold_left_app. Qed.

Lemma nearest_below_unfold (r : nat) (k : string) (p : Obj Json) (cs : list Node) :
  nearest_below (mkNode r k p cs) =
    if String.eqb k "representation" then Some (mkNode r k p cs)
    else first_some (List.map handed_up cs).
Proof. reflexivity. Qed.

Lemma up_children_spec (par : Node) (cs : list Node) :
  Forall up_subtree_spec cs →
  ∀ m : gmap nat Node,
    List.NoDup (List.map ref (List.flat_map nodes cs)) →
    ¬ In (ref par) (List.map ref (List.flat_map nodes cs)) →
    (∀ n, In n (List.flat_map nodes cs) → m !! ref n = None) →
    let m' := up_fold (List.flat_map (fun c => visits_post c (Some par)) cs) m in
    (∀ n, In n (List.flat_map nodes cs) → m' !! ref n = nearest_below n)
    ∧ (∀ k, ¬ In k (List.map ref (List.flat_map nodes cs)) → k ≠ ref par →
            m' !! k = m !! k)
    ∧ m' !! ref par = match m !! ref par with
                      | Some r => Some r
                      | None => first_some (List.map handed_up cs)
                      end.
Proof.
  induction 1 as [|c cs Hc _ IH]; intros m Hnd Hpar Hfresh; simpl.
  - split; [done|]. split; [done|]. by destruct (m !! ref par).
  - simpl in Hnd, Hpar, Hfresh. rewrite List.map_app in Hnd, Hpar.
    rewrite up_fold_app.
    apply List.NoDup_app_remove_l in Hnd as Hnd2.
    apply List.NoDup_app_remove_r in Hnd as Hnd1.
    assert (Hdisj : ∀ a b, In a (nodes c) → In b (List.flat_map nodes cs) → ref a ≠ ref b).
    { intros a b Ha Hb Heq.
      apply (NoDup_app_disjoint _ _ (ref a) Hnd); [by apply List.in_map|].
      rewrite Heq. by apply List.in_map. }
    destruct (Hc (Some par) m Hnd1) as (Hc1 & Hc2 & Hc3).
    { intros n Hn. apply Hfresh. apply List.in_or_app. by left. }
    { intros q [= <-] Hin. apply Hpar. apply List.in_or_app. by left. }
    set (m1 := up_fold (visits_post c (Some par)) m) in *.
    destruct (IH m1 Hnd2) as (H1 & H2 & H3).
    { intros Hin. apply Hpar. apply List.in_or_app. by right. }
    { intros n Hn. rewrite Hc2.
      - apply Hfresh. apply List.in_or_app. by right.
      - intros (a & Ha & Hin)%List.in_map_iff. by apply (Hdisj a n).
      - intros q [= <-] Heq. apply Hpar. apply List.in_or_app. right.
        rewrite <- Heq. by apply List.in_map. }
    split; [|split].
    + intros n [Hn|Hn]%List.in_app_or; [|by apply H1].
      rewrite H2; [by apply Hc1| |].
      * intros (b & Hb & Hin)%List.in_map_iff. by apply (Hdisj n b).
      * intros Heq. apply Hpar. apply List.in_or_app. left.
        rewrite <- Heq. by apply List.in_map.
    + intros k Hk Hkpar. rewrite List.map_app in Hk. rewrite H2, Hc2; [done| | | |done].
      * intros Hin. apply Hk. apply List.in_or_app. by left.
      * by intros q [= <-].
      * intros Hin. apply Hk. apply List.in_or_app. by right.
    + rewrite H3, (Hc3 par eq_refl).
      destruct (m !! ref par); [done|]. by destruct (handed_up c).
Qed.

(** The three effects of one step of the walk up: on the entry of the node,
    on the entry of its parent, and on no other entry. *)
Lemma propagate_up_self (t : Node) (parent : option Node) (m : gmap nat Node) :
  (∀ q, parent = Some q → ref q ≠ ref t) →
  propagate_up t parent m !! ref t =
    if String.eqb (kind t) "representation" then Some t else m !! ref t.
Proof.
  intros Hq. unfold propagate_up.
  destruct (String.eqb (kind t) "representation"), parent as [q|];
    repeat case_match; simplify_map_eq; try done;
    rewrite lookup_insert_ne by (by apply Hq); by simplify_map_eq.
Qed.

Lemma propagate_up_other (t : Node) (parent : option Node) (m : gmap nat Node) (j : nat) :
  j ≠ ref t → (∀ q, parent = Some q → j ≠ ref q) →
  propagate_up t parent m !! j = m !! j.
Proof.
  intros Ht Hq. unfold propagate_up.
  destruct (String.eqb (kind t) "representation"), parent as [q|];
    repeat case_match; simplify_map_eq; try done;
    rewrite lookup_insert_ne by (by intros <-; apply (Hq q)); by simplify_map_eq.
Qed.

Lemma propagate_up_parent (t q : Node) (m : gmap nat Node) :
  ref q ≠ ref t →
  propagate_up t (Some q) m !! ref q =
    match m !! ref q with
    | Some r => Some r
    | None =>
        if String.eqb (kind t) "structure" then None
        else if String.eqb (kind t) "representation" then Some t else m !! ref t
    end.
Proof.
  intros Hq. unfold propagate_up.
  destruct (String.eqb (kind t) "representation") eqn:Hrepr,
           (String.eqb (kind t) "structure") eqn:Hstruct;
    repeat (case_match || case_bool_decide); simplify_map_eq; try done;
    try match goal with H : ¬ is_Some _ |- _ => exfalso; apply H; by eexists end;
    try match goal with H : is_Some _ |- _ => destruct H; congruence end.
Qed.

Lemma up_subtree (t : Node) : up_subtree_spec t.
Proof.
  induction t as [r k p cs IH] using Node_ind.
  intros parent m Hnd Hfresh Hparent. cbn [nodes visits_post] in *.
  set (t := mkNode r k p cs) in *.
  cbn [List.map] in Hnd, Hparent. change (ref t) with r in *.
  apply List.NoDup_cons_iff in Hnd as [Hr Hnd].
  rewrite up_fold_app.
  destruct (up_children_spec t cs IH m Hnd Hr) as (H1 & H2 & H3).
  { intros n Hn. apply Hfresh. by right. }
  set (m1 := up_fold (List.flat_map (fun c => visits_post c (Some t)) cs) m) in *.
  change (ref t) with r in *.
  assert (Hmr : m !! r = None) by exact (Hfresh t (or_introl eq_refl)).
  rewrite Hmr in H3.
  unfold up_fold. cbn [List.fold_left fst snd].
  assert (Hnear : nearest_below t
                  = if String.eqb k "representation" then Some t else m1 !! r).
  { subst t. rewrite nearest_below_unfold, H3. done. }
  assert (Hparent' : ∀ q, parent = Some q → ref q ≠ ref t).
  { intros q Hq Heq. apply (Hparent q Hq). by left. }
  split; [|split].
  - intros n [<-|Hn].
    + by rewrite propagate_up_self, Hnear.
    + rewrite propagate_up_other; [by apply H1| |].
      * intros Heq. apply Hr. change r with (ref t). rewrite <- Heq. by apply List.in_map.
      * intros q Hq Heq. apply (Hparent q Hq). right. rewrite <- Heq. by apply List.in_map.
  - intros j Hj Hjq. rewrite propagate_up_other; [|intros ->; apply Hj; by left|done].
    apply H2; [|intros ->; apply Hj; by left].
    intros Hin. apply Hj. by right.
  - intros q ->. rewrite propagate_up_parent by (by apply Hparent').
    rewrite H2.
    + destruct (m !! ref q); [done|]. unfold handed_up. change (kind t) with k.
      destruct (String.eqb k "structure"); [done|]. by rewrite Hnear.
    + intros Hin. apply (Hparent q eq_refl). by right.
    + by apply Hparent'.
Qed.

Lemma first_some_in {A : Type} (os : list (option A)) (a : A) :
  first_some os = Some a → In (Some a) os.
Proof.
  induction os as [|[b|] os IH]; simpl; [done| |].
  - intros [= ->]. by left.
  - intros H. right. by apply IH.
Qed.

(** The representation left at a node lies at or below it, with no structure
    node on the way down. *)
Lemma nearest_below_reaches (n r : Node) :
  nearest_below n = Some r → reaches_within_structure n r.
Proof.
  revert r. induction n as [rf k p cs IH] using Node_ind. intros r.
  rewrite nearest_below_unfold.
  destruct (String.eqb_spec k "representation") as [Hk|Hk].
  - intros [= <-]. by apply reaches_here.
  - intros Hfirst%first_some_in. apply List.in_map_iff in Hfirst as (c & Hc & Hin).
    unfold handed_up in Hc.
    destruct (String.eqb_spec (kind c) "structure") as [|Hstruct]; [done|].
    rewrite List.Forall_forall in IH.
    eapply reaches_child; [exact Hin|exact Hstruct|]. by apply IH.
Qed.

Lemma example_root_distinct_refs : distinct_refs example_root.
Proof. solve_distinct_refs. Qed.

(** C3, as the code has it: after the walk up, a representation maps to
    itself, and any other node maps to what its first child in document
    order that is no structure node and has a mapping maps to.  The mapped
    representation lies at or below the node with no structure node on the
    way down to it: a structure node hands nothing up to its parent, while it
    is itself given the mapping of its own children. *)
Theorem nearestReprMap_up_first_child (root n : Node) :
  distinct_refs root →
  In n (nodes root) →
  nearestReprMap_up root !! ref n = nearest_below n
  ∧ (∀ r, nearestReprMap_up root !! ref n = Some r → reaches_within_structure n r).
Proof.
  intros Hnd Hn.
  assert (Hlookup : nearestReprMap_up root !! ref n = nearest_below n).
  { rewrite nearestReprMap_up_fold.
    destruct (up_subtree root None ∅ Hnd) as (H & _); [done|done|]. by apply H. }
  split; [done|]. intros r Hr. rewrite Hlookup in Hr. by apply nearest_below_reaches.
Qed.

Lemma nearestReprMap_up_first_child_witness :
  nearestReprMap_up example_root !! ref example_structure = nearest_below example_structure
  ∧ (∀ r, nearestReprMap_up example_root !! ref example_structure = Some r →
          reaches_within_structure example_structure r).
Proof.
  apply nearestReprMap_up_first_child.
  - exact example_root_distinct_refs.
  - simpl. tauto.
Defined.

(** C3, as stated, fails twice.  On the example tree of the repository the
    walk up assigns the structure node the representation below it.  And
    where the first component of a structure holds its representation deeper
    than the second one does, the structure is assigned the deeper one. *)
Lemma nearestReprMap_up_assigns_structure :
  kind example_structure = "structure"
  ∧ nearestReprMap_up example_root !! ref example_structure = Some example_representation
  ∧ nearestReprMap_up uneven_root !! ref uneven_structure = Some deep_representation
  ∧ depth_below (ref deep_representation) uneven_structure = Some 3%nat
  ∧ depth_below (ref near_representation) uneven_structure = Some 2%nat.
Proof. vm_compute. done. Qed.

(** ** Loading a tree *)

(** An invariant of the visits done so far holds of the state a run ends in,
    and a run that does not throw does all visits. *)
Lemma run_visits_invariant {S : Type} (f : @visitor S)
    (I : list (Node * option Node) → S → Prop) (vs : list (Node * option Node)) (s0 : S) :
  I [] s0 →
  (∀ seen v s, I seen s → I (seen ++ [v]) (final_state (f v.1 v.2 s))) →
  ∃ seen rest, vs = seen ++ rest
               ∧ I seen (final_state (run_visits f vs s0))
               ∧ (∀ s, run_visits f vs s0 = Done s → rest = []).
Proof.
  intros Hinit Hstep.
  assert (Hgen : ∀ pre s, I pre s →
            ∃ seen rest, vs = seen ++ rest
                         ∧ I (pre ++ seen) (final_state (run_visits f vs s))
                         ∧ (∀ s', run_visits f vs s = Done s' → rest = [])).
  { induction vs as [|[n p] vs IH]; intros pre s Hpre.
    - exists [], []. rewrite (app_nil_r pre). split; [done|]. split; [done|]. done.
    - simpl. pose proof (Hstep pre (n, p) s Hpre) as Hnext. simpl in Hnext.
      destruct (f n p s) as [s'|s' e]; simpl in *.
      + destruct (IH _ _ Hnext) as (seen & rest & -> & Hseen & Hrest).
        exists ((n, p) :: seen), rest. rewrite <- app_assoc in Hseen.
        split; [done|]. split; [done|]. done.
      + exists [(n, p)], vs. split; [done|]. split; [done|]. done. }
  destruct (Hgen [] s0 Hinit) as (seen & rest & ? & ? & ?). by exists seen, rest.
Qed.

Section LoadTreeFacts.

Context {U Sel C : Type}.
Variable toRoot_selector : U → Sel.
Variable delete_children : U → Sel → U.
Variable commit : U → U.
Variable loadingActions : @LoadingActions U Sel C.
Variable msRoot : Sel.

Implicit Types (st : @load_state U Sel C) (v : Node * option Node).

Lemma loaded_visit_mono seen v st st' (k : nat) :
  (∀ j, is_Some (mapping st !! j) → is_Some (mapping st' !! j)) →
  loaded_visit loadingActions seen st k → loaded_visit loadingActions (seen ++ [v]) st' k.
Proof.
  intros Hmono (n & p & Hin & Href & Hact & Hpar).
  exists n, p. split; [apply List.in_or_app; by left|]. split; [done|]. split; [done|].
  intros q Hq. apply Hmono. by apply Hpar.
Qed.

Lemma msParent_of_entry (m : gmap nat (option Sel)) (q : Node) (msParent : Sel) :
  msParent_of m msRoot (Some q) = Some msParent → is_Some (m !! ref q).
Proof.
  unfold msParent_of, mapping_get. destruct (m !! ref q); [by eexists|done].
Qed.

Lemma load_node_invariant seen v st :
  load_invariant loadingActions seen st →
  load_invariant loadingActions (seen ++ [v])
    (final_state (load_node loadingActions msRoot v.1 v.2 st)).
Proof.
  destruct v as [n p]. intros (Hmap & Hcalls & Hwarn). cbn [fst snd]. unfold load_node.
  destruct (loadingActions (kind n)) as [action|] eqn:Haction.
  2:{ (* no action for this kind: nothing happens *)
      unfold load_invariant. cbn [final_state]. split; [|split].
      - intros k Hk. eapply loaded_visit_mono; [|by apply Hmap]. done.
      - intros k sel Hk. eapply loaded_visit_mono; [|by eapply Hcalls]. done.
      - intros n' q [Hin|[[= -> ->]|[]]]%List.in_app_or Hact.
        + by apply Hwarn.
        + rewrite Haction in Hact. by destruct Hact. }
  destruct (msParent_of (mapping st) msRoot p) as [msParent|] eqn:Hparent.
  2:{ (* the parent has no result: a warning *)
      unfold load_invariant. cbn [final_state mapping trace]. split; [|split].
      - intros k Hk. eapply loaded_visit_mono; [|by apply Hmap]. done.
      - intros k sel [Hk|[Hk|[]]]%List.in_app_or; [|done].
        eapply loaded_visit_mono; [|by eapply Hcalls]. done.
      - intros n' q [Hin|[[= -> ->]|[]]]%List.in_app_or Hact.
        + destruct (Hwarn n' q Hin Hact) as [?|?]; [by left|right].
          apply List.in_or_app. by left.
        + right. apply List.in_or_app. right. by left. }
  assert (Hthis : ∀ st', (∀ j, is_Some (mapping st !! j) → is_Some (mapping st' !! j)) →
            loaded_visit loadingActions (seen ++ [(n, p)]) st' (ref n)).
  { intros st' Hmono. exists n, p. split; [apply List.in_or_app; right; by left|].
    split; [done|]. split; [by eexists|].
    intros q ->. apply Hmono. by eapply msParent_of_entry. }
  destruct (action (update st) msParent n (context st)) as [u' c' msNode|u' c' e];
    unfold load_invariant; cbn [final_state mapping trace].
  - (* the action returned: a new entry *)
    assert (Hmono : ∀ j, is_Some (mapping st !! j) →
              is_Some (<[ref n := msNode]> (mapping st) !! j)).
    { intros j Hj. destruct (decide (ref n = j)) as [<-|Hne].
      - rewrite lookup_insert_eq. by eexists.
      - by rewrite lookup_insert_ne. }
    split; [|split].
    + intros k Hk. destruct (decide (ref n = k)) as [<-|Hne].
      * by apply Hthis.
      * rewrite lookup_insert_ne in Hk by done.
        eapply loaded_visit_mono; [|by apply Hmap]. done.
    + intros k sel [Hk|[[= <- <-]|[]]]%List.in_app_or.
      * eapply loaded_visit_mono; [|by eapply Hcalls]. done.
      * by apply Hthis.
    + intros n' q [Hin|[[= -> ->]|[]]]%List.in_app_or Hact.
      * destruct (Hwarn n' q Hin Hact) as [?|?]; [left; by apply Hmono|right].
        apply List.in_or_app. by left.
      * left. apply Hmono. by eapply msParent_of_entry.
  - (* the action threw: the call is on the trace, the mapping is as before *)
    split; [|split].
    + intros k Hk. eapply loaded_visit_mono; [|by apply Hmap]. done.
    + intros k sel [Hk|[[= <- <-]|[]]]%List.in_app_or.
      * eapply loaded_visit_mono; [|by eapply Hcalls]. done.
      * by apply Hthis.
    + intros n' q [Hin|[[= -> ->]|[]]]%List.in_app_or Hact.
      * destruct (Hwarn n' q Hin Hact) as [?|?]; [by left|right].
        apply List.in_or_app. by left.
      * left. by eapply msParent_of_entry.
Qed.

Lemma load_invariant_init (u : U) (c : C) :
  load_invariant loadingActions [] (mkLoadState ∅ u c []).
Proof.
  split; [|split]; simpl.
  - intros k [x Hx]. by rewrite lookup_empty in Hx.
  - by intros.
  - by intros.
Qed.

Lemma loadTree_walk (built : U) (tree : Node) (ctx : C) (deletePrevious : bool) :
  let run := loadTree toRoot_selector delete_children commit built tree loadingActions ctx
               deletePrevious in
  let walk := load_walk toRoot_selector delete_children loadingActions built tree ctx
                deletePrevious in
  mapping (final_state run) = mapping (final_state walk)
  ∧ trace (final_state run) = trace (final_state walk)
  ∧ ((∃ s, run = Done s) → ∃ s, walk = Done s).
Proof.
  unfold loadTree, load_walk, dfs. rewrite dfs_pre_visits.
  destruct (run_visits _ _ _) as [s|s e]; simpl.
  - split; [done|]. split; [done|]. intros _. by exists s.
  - split; [done|]. split; [done|]. by intros [s' ?].
Qed.

End LoadTreeFacts.

(** C1, as the code has it: a node whose kind has no registered action gets
    no entry in the node-to-result map, and its children do not fall back
    on the result of the node's parent.  A child looks up its immediate
    parent only; it gets no entry, no action is called on it, and, when its
    kind has a registered action and the walk reaches it, the warning that no
    target was found is logged. *)
Theorem loadTree_skips_below_unregistered {U Sel C : Type}
    (toRoot_selector : U → Sel) (delete_children : U → Sel → U) (commit : U → U)
    (built : U) (tree : Node) (loadingActions : @LoadingActions U Sel C) (ctx : C)
    (deletePrevious : bool) (node : Node) :
  distinct_refs tree →
  In node (nodes tree) →
  loadingActions (kind node) = None →
  let run := loadTree toRoot_selector delete_children commit built tree loadingActions ctx
               deletePrevious in
  let st := final_state run in
  mapping st !! ref node = None
  ∧ ∀ child, In child (getChildren node) →
      mapping st !! ref child = None
      ∧ (∀ msParent, ¬ In (ActionCalled (ref child) msParent) (trace st))
      ∧ (is_Some (loadingActions (kind child)) → (∃ s, run = Done s) →
         In (Warned (ref child) (no_target_message child)) (trace st)).
Proof.
  intros Hdistinct Hnode Hnone run st.
  destruct (loadTree_walk toRoot_selector delete_children commit loadingActions
              built tree ctx deletePrevious) as (Hmapping & Htrace & Hdone).
  fold run in Hmapping, Htrace, Hdone. fold st in Hmapping, Htrace.
  unfold load_walk in *.
  destruct (run_visits_invariant
              (load_node loadingActions (toRoot_selector built))
              (load_invariant loadingActions)
              (visits_pre tree None)
              (mkLoadState ∅
                 (if deletePrevious
                  then delete_children built (toRoot_selector built) else built) ctx []))
    as (seen & rest & Hvisits & (Hmap & Hcalls & Hwarn) & Hall).
  { apply load_invariant_init. }
  { intros seen v s. apply load_node_invariant. }
  set (w := final_state (run_visits _ _ _)) in *.
  rewrite Hmapping, Htrace. clear Hmapping Htrace.
  assert (Hseen : ∀ v, In v seen → In v (visits_pre tree None)).
  { intros v Hv. rewrite Hvisits. apply List.in_or_app. by left. }
  (* no visit of [node] loaded anything *)
  assert (Hnode_absent : mapping w !! ref node = None).
  { destruct (mapping w !! ref node) as [x|] eqn:E; [|done]. exfalso.
    destruct (Hmap (ref node) ltac:(by eexists)) as (n & p & Hin & Href & Hact & _).
    assert (n = node) as ->.
    { apply (distinct_refs_inj (nodes tree)); [done| |done|done].
      rewrite <- (visits_pre_nodes tree None).
      apply (List.in_map fst _ (n, p)). by apply Hseen. }
    rewrite Hnone in Hact. by destruct Hact. }
  split; [done|]. intros child Hchild.
  assert (Hvisit : In (child, Some node) (visits_pre tree None))
    by (by apply visits_pre_child).
  (* a visit that loaded [child] would have found an entry for [node] *)
  assert (Hnot_loaded : ¬ loaded_visit loadingActions seen w (ref child)).
  { intros (n & p & Hin & Href & _ & Hpar).
    destruct (visits_pre_unique tree n child p (Some node) Hdistinct (Hseen _ Hin) Hvisit Href)
      as [-> ->].
    destruct (Hpar node eq_refl) as [x Hx]. by rewrite Hnode_absent in Hx. }
  split; [|split].
  - destruct (mapping w !! ref child) as [x|] eqn:E; [|done]. exfalso.
    apply Hnot_loaded. apply Hmap. by eexists.
  - intros msParent Hcalled. apply Hnot_loaded. by eapply Hcalls.
  - intros Hact Hrun. destruct (Hdone Hrun) as [s Hs].
    rewrite (Hall s Hs), app_nil_r in Hvisits. subst seen.
    destruct (Hwarn child node Hvisit Hact) as [[x Hx]|Hw]; [|done].
    by rewrite Hnode_absent in Hx.
Qed.

Lemma unknown_root_distinct_refs : distinct_refs unknown_root.
Proof. solve_distinct_refs. Qed.

Lemma loadTree_skips_below_unregistered_witness :
  let st := final_state (sample_loadTree unknown_root) in
  mapping st !! ref unknown_node = None
  ∧ ∀ child, In child (getChildren unknown_node) →
      mapping st !! ref child = None
      ∧ (∀ msParent, ¬ In (ActionCalled (ref child) msParent) (trace st))
      ∧ (is_Some (sample_actions (kind child)) →
         (∃ s, sample_loadTree unknown_root = Done s) →
         In (Warned (ref child) (no_target_message child)) (trace st)).
Proof.
  apply (loadTree_skips_below_unregistered (fun _ => 0%nat) (fun update _ => update)
           (fun update => update) 0%nat unknown_root sample_actions tt true unknown_node).
  - exact unknown_root_distinct_refs.
  - simpl. tauto.
  - reflexivity.
Defined.

(** C1, as stated, fails on a download node below a node of a kind without
    action: the root has a result, the node between has no entry, and the
    download node neither takes the result of the root as its parent result
    nor is it processed; it is skipped with a warning. *)
Lemma loadTree_child_of_unregistered_not_processed :
  let st := final_state (sample_loadTree unknown_root) in
  sample_actions (kind unknown_node) = None
  ∧ is_Some (sample_actions (kind orphan_download))
  ∧ mapping st !! ref unknown_root = Some (Some 0%nat)
  ∧ mapping st !! ref unknown_node = None
  ∧ msParent_of (mapping st) 0%nat (Some unknown_node) = None
  ∧ mapping st !! ref orphan_download = None
  ∧ trace st = [ActionCalled (ref unknown_root) 0%nat;
                Warned (ref orphan_download) (no_target_message orphan_download)].
Proof. vm_compute. repeat split; by eexists. Qed.


(** ** Annotation references *)

#[local] Arguments Utils.canonicalJsonString : simpl never.
#[local] Arguments Utils.stringHash : simpl never.

Lemma collectAnnotationReferences_fold (tree : Node) (context : MolstarLoadingContext) :
  collectAnnotationReferences tree context =
    (Object_values (collect_fold (nodes tree) ([], context)).1,
     (collect_fold (nodes tree) ([], context)).2).
Proof.
  unfold collectAnnotationReferences, dfs. rewrite dfs_pre_visits, run_visits_pure.
  rewrite <- (visits_pre_nodes tree None). unfold collect_fold. simpl.
  generalize (visits_pre tree None) as vs. generalize (@nil (string * AnnotationSpec), context).
  intros st vs. revert st. induction vs as [|[n p] vs IH]; intros st; simpl.
  - by destruct st.
  - apply IH.
Qed.

Lemma collect_fold_snoc (ns : list Node) (n : Node) (st : SpecRegistry * MolstarLoadingContext) :
  collect_fold (ns ++ [n]) st = collect_node n None (collect_fold ns st).
Proof. unfold collect_fold. by rewrite List.fold_left_app. Qed.

(** *** First occurrences *)

Section FirstIndex.

Context {A : Type} `{EqDecision A}.

Implicit Types (x y : A) (l : list A).

Lemma first_index_lt x l : In x l → (first_index x l < length l)%nat.
Proof.
  induction l as [|y l IH]; simpl; [done|].
  intros Hin. destruct (decide (y = x)) as [|Hne]; [lia|].
  destruct Hin as [|Hin]; [done|]. specialize (IH Hin). lia.
Qed.

Lemma first_index_lookup x l : In x l → l !! first_index x l = Some x.
Proof.
  induction l as [|y l IH]; simpl; [done|].
  intros Hin. destruct (decide (y = x)) as [->|Hne]; [done|].
  destruct Hin as [|Hin]; [done|]. by apply IH.
Qed.

Lemma first_index_app_in x l l' : In x l → first_index x (l ++ l') = first_index x l.
Proof.
  induction l as [|y l IH]; simpl; [done|].
  intros Hin. destruct (decide (y = x)) as [|Hne]; [done|].
  destruct Hin as [|Hin]; [done|]. by rewrite IH.
Qed.

Lemma first_index_app_new x l l' :
  ¬ In x l → first_index x (l ++ x :: l') = length l.
Proof.
  induction l as [|y l IH]; simpl.
  - intros _. by rewrite decide_True.
  - intros Hnotin. rewrite decide_False by (intros ->; apply Hnotin; by left).
    rewrite IH; [done|]. intros Hin. apply Hnotin. by right.
Qed.

End FirstIndex.

(** *** The registry *)

Lemma registry_get_in (reg : SpecRegistry) (k : string) (a : AnnotationSpec) :
  registry_get reg k = Some a → In (k, a) reg.
Proof.
  induction reg as [|[k' a'] reg IH]; simpl; [done|].
  destruct (String.eqb_spec k' k) as [->|Hne].
  - intros [= ->]. by left.
  - intros H. right. by apply IH.
Qed.

Lemma registry_get_none (reg : SpecRegistry) (k : string) :
  registry_get reg k = None → ¬ In k (List.map fst reg).
Proof.
  induction reg as [|[k' a'] reg IH]; simpl; [by intros _ []|].
  destruct (String.eqb_spec k' k) as [->|Hne]; [done|].
  intros H [?|Hin]; [done|]. by apply IH.
Qed.

Lemma registry_get_some (reg : SpecRegistry) (k : string) (a : AnnotationSpec) :
  In (k, a) reg → is_Some (registry_get reg k).
Proof.
  induction reg as [|[k' a'] reg IH]; simpl; [done|].
  destruct (String.eqb_spec k' k) as [->|Hne]; [by eexists|].
  intros [[= -> ->]|Hin]; [done|]. by apply IH.
Qed.

Lemma registry_get_snoc (reg : SpecRegistry) (k : string) (a : AnnotationSpec) :
  registry_get reg k = None → registry_get (reg ++ [(k, a)]) k = Some a.
Proof.
  induction reg as [|[k' a'] reg IH]; simpl.
  - by rewrite String.eqb_refl.
  - destruct (String.eqb_spec k' k) as [->|Hne]; [done|]. apply IH.
Qed.

Lemma registry_get_app_l (reg : SpecRegistry) (k k' : string) (a : AnnotationSpec) :
  is_Some (registry_get reg k) → registry_get (reg ++ [(k', a)]) k = registry_get reg k.
Proof.
  induction reg as [|[k0 a0] reg IH]; simpl; [by intros [? ?]|].
  destruct (String.eqb k0 k); [done|]. apply IH.
Qed.

Lemma registry_invariant_old (ns : list Node) (n : Node) (k : string) :
  In (Some k) (List.map node_key ns) →
  first_index (Some k) (List.map node_key (ns ++ [n])) = first_index (Some k) (List.map node_key ns)
  ∧ (ns ++ [n]) !! first_index (Some k) (List.map node_key ns)
    = ns !! first_index (Some k) (List.map node_key ns).
Proof.
  intros Hin. rewrite List.map_app. split; [by apply first_index_app_in|].
  apply lookup_app_l. pose proof (first_index_lt _ _ Hin) as Hlt.
  by rewrite List.length_map in Hlt.
Qed.

Lemma registry_invariant_keep (ns : list Node) (n : Node) (reg : SpecRegistry) :
  (∀ k, node_key n = Some k → is_Some (registry_get reg k)) →
  registry_invariant ns reg → registry_invariant (ns ++ [n]) reg.
Proof.
  intros Hn (Hentries & Hmet & Horder). split; [|split].
  - intros k a Hin. destruct (Hentries k a Hin) as (Hk & Hid & HK & n0 & Hn0 & Hspec).
    destruct (registry_invariant_old ns n k HK) as [Hfi Hlook].
    split; [done|]. split; [done|]. split.
    + rewrite List.map_app. apply List.in_or_app. by left.
    + exists n0. by rewrite Hfi, Hlook.
  - intros k. rewrite List.map_app. intros [Hin|[Hin|[]]]%List.in_app_or.
    + by apply Hmet.
    + by apply Hn.
  - intros i j ka a kb b Hi Hj Hij.
    destruct (Hentries ka a) as (_ & _ & HKa & _);
      [by eapply list_elem_of_In, list_elem_of_lookup_2|].
    destruct (Hentries kb b) as (_ & _ & HKb & _);
      [by eapply list_elem_of_In, list_elem_of_lookup_2|].
    rewrite (proj1 (registry_invariant_old ns n ka HKa)).
    rewrite (proj1 (registry_invariant_old ns n kb HKb)). by eapply Horder.
Qed.

Lemma registry_invariant_new (ns : list Node) (n : Node) (reg : SpecRegistry)
    (spec : Obj Json) :
  spec_of_node n = Some spec →
  registry_get reg (spec_key spec) = None →
  registry_invariant ns reg →
  registry_invariant (ns ++ [n])
    (reg ++ [(spec_key spec, mkAnnotationSpec spec (Utils.stringHash (spec_key spec)))]).
Proof.
  intros Hspec Hnew (Hentries & Hmet & Horder).
  set (key := spec_key spec) in *.
  assert (Hkey : node_key n = Some key) by (unfold node_key; by rewrite Hspec).
  assert (Hfresh : ¬ In (Some key) (List.map node_key ns)).
  { intros Hin. destruct (Hmet key Hin) as [a Ha]. congruence. }
  assert (Hfi : first_index (Some key) (List.map node_key (ns ++ [n])) = length ns).
  { rewrite List.map_app. simpl. rewrite Hkey.
    rewrite first_index_app_new by done. apply List.length_map. }
  assert (Hold : ∀ k a, In (k, a) reg →
            (first_index (Some k) (List.map node_key (ns ++ [n])) < length ns)%nat).
  { intros k a Hin. destruct (Hentries k a Hin) as (_ & _ & HK & _).
    rewrite (proj1 (registry_invariant_old ns n k HK)).
    pose proof (first_index_lt _ _ HK) as Hlt. by rewrite List.length_map in Hlt. }
  split; [|split].
  - intros k a [Hin|[[= <- <-]|[]]]%List.in_app_or.
    + destruct (Hentries k a Hin) as (Hk & Hid & HK & n0 & Hn0 & Hspec0).
      destruct (registry_invariant_old ns n k HK) as [Hfi' Hlook].
      split; [done|]. split; [done|]. split.
      * rewrite List.map_app. apply List.in_or_app. by left.
      * exists n0. by rewrite Hfi', Hlook.
    + split; [done|]. split; [done|]. split.
      * rewrite List.map_app. apply List.in_or_app. right. simpl. left. done.
      * exists n. rewrite Hfi. split; [|done].
        rewrite lookup_app_r by done. by rewrite Nat.sub_diag.
  - intros k. rewrite List.map_app. intros [Hin|[Hin|[]]]%List.in_app_or.
    + rewrite registry_get_app_l; by apply Hmet.
    + rewrite Hkey in Hin. injection Hin as <-. rewrite registry_get_snoc by done. by eexists.
  - intros i j ka a kb b Hi Hj Hij.
    destruct (decide (j < length reg)%nat) as [Hjlt|Hjge].
    + rewrite lookup_app_l in Hi by lia. rewrite lookup_app_l in Hj by lia.
      destruct (Hentries ka a) as (_ & _ & HKa & _);
        [by eapply list_elem_of_In, list_elem_of_lookup_2|].
      destruct (Hentries kb b) as (_ & _ & HKb & _);
        [by eapply list_elem_of_In, list_elem_of_lookup_2|].
      rewrite (proj1 (registry_invariant_old ns n ka HKa)).
      rewrite (proj1 (registry_invariant_old ns n kb HKb)). by eapply Horder.
    + pose proof (lookup_lt_Some _ _ _ Hj) as Hjlen.
      rewrite length_app in Hjlen. simpl in Hjlen.
      assert (j = length reg) as -> by lia.
      rewrite lookup_app_r in Hj by done. rewrite Nat.sub_diag in Hj.
      injection Hj as <- <-. rewrite Hfi.
      rewrite lookup_app_l in Hi by lia.
      eapply Hold. by eapply list_elem_of_In, list_elem_of_lookup_2.
Qed.

(** The registry after the walk over [ns], from the empty registry. *)
Lemma collect_fold_registry (ns : list Node) (context : MolstarLoadingContext) :
  registry_invariant ns (collect_fold ns ([], context)).1.
Proof.
  induction ns as [|n ns IH] using rev_ind.
  - split; [|split]; simpl; [by intros ? ? []|by intros ? []|].
    intros i j ka a kb b Hi. by rewrite lookup_nil in Hi.
  - rewrite collect_fold_snoc.
    destruct (collect_fold ns ([], context)) as [reg ctx]. simpl in IH.
    unfold collect_node.
    destruct (spec_of_node n) as [spec|] eqn:Hspec.
    + unfold registry_default.
      destruct (registry_get reg (spec_key spec)) as [a|] eqn:Hget; simpl.
      * apply registry_invariant_keep; [|done].
        intros k Hk. unfold node_key in Hk. rewrite Hspec in Hk. injection Hk as <-.
        by eexists.
      * by apply registry_invariant_new.
    + simpl. apply registry_invariant_keep; [|done].
      intros k Hk. unfold node_key in Hk. by rewrite Hspec in Hk.
Qed.

(** The registry holds, under the canonical string of the spec of a node
    passed, an entry whose id is the hash of that string. *)
Lemma collect_fold_registered (ns : list Node) (context : MolstarLoadingContext)
    (n : Node) (spec : Obj Json) :
  In n ns → spec_of_node n = Some spec →
  ∃ a, registry_get (collect_fold ns ([], context)).1 (spec_key spec) = Some a
       ∧ id a = Utils.stringHash (spec_key spec).
Proof.
  intros Hn Hspec.
  destruct (collect_fold_registry ns context) as (Hentries & Hmet & _).
  destruct (Hmet (spec_key spec)) as [a Ha].
  { apply List.in_map_iff. exists n. split; [|done]. unfold node_key. by rewrite Hspec. }
  exists a. split; [done|]. by destruct (Hentries _ _ (registry_get_in _ _ _ Ha)) as (_ & ? & _).
Qed.

(** The annotation map after the walk over [ns]: every node passed that
    refers to an annotation is mapped to the hash of the canonical string of
    its spec. *)
Lemma collect_fold_annotationMap (ns : list Node) (context : MolstarLoadingContext)
    (n : Node) (spec : Obj Json) :
  List.NoDup (List.map ref ns) →
  In n ns → spec_of_node n = Some spec →
  ∃ m, annotationMap (collect_fold ns ([], context)).2 = Some m
       ∧ m !! ref n = Some (Utils.stringHash (spec_key spec)).
Proof.
  revert n spec. induction ns as [|n0 ns IH] using rev_ind; intros n spec Hnd Hn Hspec.
  { destruct Hn. }
  rewrite List.map_app in Hnd. simpl in Hnd.
  assert (Hnd' : List.NoDup (List.map ref ns)) by (by apply List.NoDup_app_remove_r in Hnd).
  assert (Hfresh : ∀ n', In n' ns → ref n' ≠ ref n0).
  { intros n' Hn' Heq. apply (NoDup_app_disjoint _ _ (ref n0) Hnd); [|by left].
    rewrite <- Heq. by apply List.in_map. }
  pose proof (collect_fold_registered (ns ++ [n0]) context n0) as Hreg.
  rewrite collect_fold_snoc in Hreg |- *.
  destruct (collect_fold ns ([], context)) as [reg ctx] eqn:Hfold.
  unfold collect_node in Hreg |- *.
  apply List.in_app_or in Hn as [Hn|[<-|[]]].
  - (* an earlier node keeps its entry *)
    destruct (IH n spec Hnd' Hn Hspec) as (m & Hm & Hlookup). simpl in Hm.
    destruct (spec_of_node n0) as [spec0|]; simpl.
    + eexists. split; [done|]. rewrite Hm. simpl.
      rewrite lookup_insert_ne; [done|]. intros Heq. by apply (Hfresh n Hn).
    + by exists m.
  - (* the node just passed *)
    specialize (Hreg spec ltac:(apply List.in_or_app; right; by left) Hspec).
    rewrite Hspec in Hreg |- *. simpl in Hreg |- *.
    destruct Hreg as (a & Ha & Hid).
    eexists. split; [done|]. rewrite lookup_insert_eq, Ha. by rewrite Hid.
Qed.

Lemma same_annotation_params_spec (n1 n2 : Node) :
  same_annotation_params n1 n2 → spec_of_node n1 = spec_of_node n2.
Proof.
  intros (Huri & Hsource & Hfields). unfold spec_of_node. rewrite Huri, Hsource.
  unfold annotation_fields in Hfields.
  repeat match goal with
         | H : Forall _ (_ :: _) |- _ => apply List.Forall_cons_iff in H as [? H]
         end.
  by repeat match goal with H : get_prop (params n1) _ = _ |- _ => rewrite H; clear H end.
Qed.

(** C8: the distinct annotation specs are returned in the order of the first
    encounter in the walk: one spec precedes another exactly when the first
    node with its canonical string is visited before the first node with the
    canonical string of the other.  Every spec returned is the spec of the
    first node with its canonical string, and the spec of every node of the
    tree is among them. *)
Theorem collectAnnotationReferences_first_encounter_order
    (tree : Node) (context : MolstarLoadingContext) :
  let specs := (collectAnnotationReferences tree context).1 in
  (∀ (i j : nat) a b, specs !! i = Some a → specs !! j = Some b →
     (i < j)%nat ↔ (first_visit tree a < first_visit tree b)%nat)
  ∧ (∀ a, In a specs →
       ∃ n, nodes tree !! first_visit tree a = Some n
            ∧ spec_of_node n = Some (spec_props a))
  ∧ (∀ n spec, In n (nodes tree) → spec_of_node n = Some spec →
       ∃ a, In a specs ∧ spec_key (spec_props a) = spec_key spec).
Proof.
  rewrite collectAnnotationReferences_fold. simpl.
  destruct (collect_fold_registry (nodes tree) context) as (Hentries & Hmet & Horder).
  set (reg := (collect_fold (nodes tree) ([], context)).1) in *.
  unfold Object_values, first_visit.
  assert (Hentry : ∀ (i : nat) a, List.map snd reg !! i = Some a →
            reg !! i = Some (spec_key (spec_props a), a)).
  { intros i a Hi. change (List.map snd reg) with (snd <$> reg) in Hi.
    apply list_lookup_fmap_Some in Hi as ([k a'] & Ha & Hi). simpl in Ha. subst a'.
    destruct (Hentries k a) as (-> & _); [by eapply list_elem_of_In, list_elem_of_lookup_2|].
    done. }
  split; [|split].
  - intros i j a b Hi%Hentry Hj%Hentry. split.
    + intros Hij. by eapply Horder.
    + intros Hfirst. destruct (Nat.lt_total i j) as [Hlt|[->|Hgt]]; [done| |].
      * assert (a = b) as -> by congruence. lia.
      * pose proof (Horder _ _ _ _ _ _ Hj Hi Hgt). lia.
  - intros a ([k a'] & Ha & Hin)%List.in_map_iff. simpl in Ha. subst a'.
    destruct (Hentries k a Hin) as (-> & _ & _ & n & Hn & Hspec). by exists n.
  - intros n spec Hn Hspec. destruct (Hmet (spec_key spec)) as [a Ha].
    { apply List.in_map_iff. exists n. split; [|done]. unfold node_key. by rewrite Hspec. }
    apply registry_get_in in Ha. exists a. split.
    + apply List.in_map_iff. by exists (spec_key spec, a).
    + by destruct (Hentries _ _ Ha) as (<- & _).
Qed.

(** C2, as the code has it: a node that refers to an annotation is mapped to
    the hash ([stringHash]) of the canonical string of its spec; two nodes
    whose annotation parameters agree field for field are mapped to the same
    id; and two nodes are mapped to different ids exactly when the hashes of
    their canonical strings differ. *)
Theorem collectAnnotationReferences_ids (tree : Node) (context : MolstarLoadingContext)
    (n1 n2 : Node) (spec1 spec2 : Obj Json) :
  distinct_refs tree →
  In n1 (nodes tree) → In n2 (nodes tree) →
  spec_of_node n1 = Some spec1 → spec_of_node n2 = Some spec2 →
  ∃ m, annotationMap (collectAnnotationReferences tree context).2 = Some m
       ∧ m !! ref n1 = Some (Utils.stringHash (Utils.canonicalJsonString (JObj spec1)))
       ∧ m !! ref n2 = Some (Utils.stringHash (Utils.canonicalJsonString (JObj spec2)))
       ∧ (same_annotation_params n1 n2 → m !! ref n1 = m !! ref n2)
       ∧ (m !! ref n1 = m !! ref n2
          ↔ Utils.stringHash (Utils.canonicalJsonString (JObj spec1))
            = Utils.stringHash (Utils.canonicalJsonString (JObj spec2))).
Proof.
  intros Hnd Hn1 Hn2 Hspec1 Hspec2. rewrite collectAnnotationReferences_fold. simpl.
  destruct (collect_fold_annotationMap _ context n1 spec1 Hnd Hn1 Hspec1) as (m & Hm & H1).
  destruct (collect_fold_annotationMap _ context n2 spec2 Hnd Hn2 Hspec2) as (m' & Hm' & H2).
  rewrite Hm in Hm'. injection Hm' as <-.
  exists m. unfold spec_key in *. split; [done|]. split; [done|]. split; [done|]. split.
  - intros Hsame%same_annotation_params_spec.
    assert (spec1 = spec2) as -> by congruence. by rewrite H1, H2.
  - rewrite H1, H2. split; [by intros [= ?]|by intros ->].
Qed.

Lemma annotated_root_distinct_refs : distinct_refs annotated_root.
Proof. solve_distinct_refs. Qed.

Example annotated_specs_ids : List.map id annotated_specs = ["8b363277"; "642571ed"].
Proof. vm_compute. reflexivity. Qed.

Lemma collectAnnotationReferences_first_encounter_order_witness :
  (0 < 1)%nat
  ↔ (first_visit annotated_root (default no_spec (annotated_specs !! 0%nat))
     < first_visit annotated_root (default no_spec (annotated_specs !! 1%nat)))%nat.
Proof.
  apply (proj1 (collectAnnotationReferences_first_encounter_order annotated_root empty_context)
           0%nat 1%nat); reflexivity.
Defined.

Lemma collectAnnotationReferences_ids_witness :
  ∃ m, annotationMap (collectAnnotationReferences annotated_root empty_context).2 = Some m
       ∧ m !! ref annotated_color = m !! ref annotated_label.
Proof.
  destruct (collectAnnotationReferences_ids annotated_root empty_context
              annotated_color annotated_label _ _ annotated_root_distinct_refs
              ltac:(simpl; tauto) ltac:(simpl; tauto) eq_refl eq_refl)
    as (m & Hm & _ & _ & Hsame & _).
  exists m. split; [exact Hm|]. apply Hsame.
  split; [reflexivity|]. split; [reflexivity|]. repeat constructor.
Defined.

(** C2, as stated, fails on two nodes whose annotations differ in the
    category name only: their canonical strings differ, and both nodes are
    given the same id. *)
Lemma collectAnnotationReferences_id_collision :
  get_prop (params category_a) "category_name" = Some (JStr "charges_a")
  ∧ get_prop (params category_b) "category_name" = Some (JStr "charges_b")
  ∧ bool_decide (node_key category_a = node_key category_b) = false
  ∧ (annotationMap (collectAnnotationReferences categories_root empty_context).2
       ≫= fun m => m !! ref category_a) = Some "7ed1da70"
  ∧ (annotationMap (collectAnnotationReferences categories_root empty_context).2
       ≫= fun m => m !! ref category_b) = Some "7ed1da70".
Proof. vm_compute. done. Qed.

(** ** Own properties: reading, assigning and listing *)

(** Membership in a list with one more element. *)
Ltac not_in_cons := rewrite elem_of_cons; intros [?|?]; [congruence | tauto].
Ltac in_cons_head := apply elem_of_cons; left; reflexivity.
Ltac in_cons_tail := apply elem_of_cons; right; assumption.

(** The canonical numeral of a number is the key itself: two array indices
    with one number are one key. *)
Lemma array_index_numeral (key : string) (n : Z) :
  array_index key = Some n → number_to_string n = key ∧ 0 ≤ n < 2 ^ 32 - 1.
Proof.
  unfold array_index. destruct key as [|c rest]; [discriminate|].
  assert (Hdigits : ∀ s acc m, 0 ≤ acc → digits_value acc s = Some m → 0 ≤ m).
  { induction s as [|d s IH]; simpl; intros acc m Hacc.
    - intros [= <-]. assumption.
    - unfold is_digit. destruct (Z.leb_spec 48 (charCode d)); [|discriminate].
      destruct (Z.leb_spec (charCode d) 57); [|discriminate]. simpl.
      apply IH. lia. }
  destruct (digits_value 0 (String c rest)) as [m|] eqn:Hvalue; [|discriminate].
  destruct (String.eqb_spec (number_to_string m) (String c rest)) as [Heq|]; [|discriminate].
  destruct (Z.ltb_spec m (2 ^ 32 - 1)); [|discriminate].
  intros [= <-]. split; [assumption|]. split; [|assumption].
  apply (Hdigits (String c rest) 0 m); [lia | exact Hvalue].
Qed.

Lemma array_index_inj (k1 k2 : string) (n : Z) :
  array_index k1 = Some n → array_index k2 = Some n → k1 = k2.
Proof.
  intros H1 H2. apply array_index_numeral in H1 as [<- _].
  apply array_index_numeral in H2 as [<- _]. reflexivity.
Qed.

Section PropertyFacts.

Context {V : Type}.
Implicit Types (obj : Obj V) (key : string) (value : option V).

Lemma eqb_sym_string (a b : string) : String.eqb a b = String.eqb b a.
Proof.
  destruct (String.eqb_spec a b) as [->|Hne].
  - symmetry. apply String.eqb_refl.
  - symmetry. apply String.eqb_neq. congruence.
Qed.

Lemma hasOwn_In obj key : hasOwn obj key = true ↔ In key (Object_keys obj).
Proof.
  unfold hasOwn. rewrite List.existsb_exists. split.
  - intros (k & Hin & Heq). apply String.eqb_eq in Heq. congruence.
  - intros Hin. exists key. split; [assumption | apply String.eqb_refl].
Qed.

Lemma hasOwn_false obj key : hasOwn obj key = false ↔ ¬ In key (Object_keys obj).
Proof.
  rewrite <- hasOwn_In. destruct (hasOwn obj key); split; congruence.
Qed.

Lemma hasOwn_cons (k : string) value obj key :
  hasOwn ((k, value) :: obj) key = String.eqb k key || hasOwn obj key.
Proof. unfold hasOwn. simpl. rewrite (eqb_sym_string key k). reflexivity. Qed.

Lemma get_prop_not_own obj key : hasOwn obj key = false → get_prop obj key = None.
Proof.
  rewrite hasOwn_false. induction obj as [|[k v] rest IH]; simpl; [reflexivity|].
  intros Hnot. destruct (String.eqb_spec k key) as [->|Hne]; [tauto|].
  apply IH. tauto.
Qed.

Lemma get_prop_app obj1 obj2 key :
  get_prop (obj1 ++ obj2) key
  = if hasOwn obj1 key then get_prop obj1 key else get_prop obj2 key.
Proof.
  induction obj1 as [|[k v] rest IH]; simpl; [reflexivity|].
  rewrite hasOwn_cons. destruct (String.eqb k key); simpl; [reflexivity | exact IH].
Qed.

(** *** One assignment *)

Lemma get_prop_update_prop obj key value key' :
  hasOwn obj key = true →
  get_prop (update_prop obj key value) key'
  = if String.eqb key key' then value else get_prop obj key'.
Proof.
  induction obj as [|[k v] rest IH]; [discriminate|].
  rewrite hasOwn_cons. simpl.
  destruct (String.eqb_spec k key) as [->|Hne]; simpl.
  - intros _. destruct (String.eqb key key'); reflexivity.
  - intros Hown. rewrite (IH Hown). destruct (String.eqb_spec k key') as [->|Hne'].
    + rewrite (proj2 (String.eqb_neq key key')) by congruence. reflexivity.
    + reflexivity.
Qed.

Lemma Object_keys_update_prop obj key value :
  Object_keys (update_prop obj key value) = Object_keys obj.
Proof.
  unfold Object_keys. induction obj as [|[k v] rest IH]; simpl; [reflexivity|].
  destruct (String.eqb k key); simpl; [reflexivity|]. rewrite IH. reflexivity.
Qed.

Lemma get_prop_insert_index (n : Z) obj key value key' :
  hasOwn obj key = false →
  get_prop (insert_index n key value obj) key'
  = if String.eqb key key' then value else get_prop obj key'.
Proof.
  induction obj as [|[k v] rest IH]; [reflexivity|].
  rewrite hasOwn_cons, orb_false_iff. intros [Hne Hown]. apply String.eqb_neq in Hne.
  cbn [insert_index].
  destruct (array_index k) as [m|]; [destruct (m <? n)|]; cbn [get_prop]; try reflexivity.
  rewrite (IH Hown). destruct (String.eqb_spec k key') as [->|Hne'].
  - rewrite (proj2 (String.eqb_neq key key')) by congruence. reflexivity.
  - reflexivity.
Qed.

Lemma insert_index_permutation (n : Z) obj key value :
  Permutation (insert_index n key value obj) ((key, value) :: obj).
Proof.
  induction obj as [|[k v] rest IH]; [reflexivity|]. cbn [insert_index].
  destruct (array_index k) as [m|]; [destruct (m <? n)|]; try reflexivity.
  rewrite IH. apply perm_swap.
Qed.

Lemma get_prop_define_prop obj key value key' :
  hasOwn obj key = false →
  get_prop (define_prop obj key value) key'
  = if String.eqb key key' then value else get_prop obj key'.
Proof.
  intros Hown. unfold define_prop. destruct (array_index key) as [n|].
  - apply get_prop_insert_index. assumption.
  - rewrite get_prop_app. simpl. destruct (String.eqb_spec key key') as [<-|Hne].
    + rewrite Hown. reflexivity.
    + destruct (hasOwn obj key') eqn:Hown'; [reflexivity|].
      symmetry. apply get_prop_not_own. assumption.
Qed.

Lemma define_prop_permutation obj key value :
  Permutation (define_prop obj key value) ((key, value) :: obj).
Proof.
  unfold define_prop. destruct (array_index key) as [n|].
  - apply insert_index_permutation.
  - symmetry. apply Permutation_cons_append.
Qed.

Lemma get_prop_set_prop obj key value key' :
  get_prop (set_prop obj key value) key'
  = if String.eqb key key' then value else get_prop obj key'.
Proof.
  unfold set_prop. destruct (hasOwn obj key) eqn:Hown.
  - apply get_prop_update_prop. assumption.
  - apply get_prop_define_prop. assumption.
Qed.

(** The keys after an assignment: those before it, and the key assigned if
    it was none of them. *)
Lemma Object_keys_set_prop obj key value :
  Permutation (Object_keys (set_prop obj key value))
    (if hasOwn obj key then Object_keys obj else key :: Object_keys obj).
Proof.
  unfold set_prop. destruct (hasOwn obj key).
  - rewrite Object_keys_update_prop. reflexivity.
  - unfold Object_keys. rewrite define_prop_permutation. reflexivity.
Qed.

Lemma hasOwn_set_prop obj key value key' :
  hasOwn (set_prop obj key value) key' = String.eqb key key' || hasOwn obj key'.
Proof.
  apply eq_true_iff_eq. rewrite orb_true_iff, !hasOwn_In, String.eqb_eq.
  pose proof (Object_keys_set_prop obj key value) as Hperm.
  destruct (hasOwn obj key) eqn:Hown.
  - apply hasOwn_In in Hown. split.
    + intros Hin. right. eapply Permutation_in; eassumption.
    + intros [<-|Hin]; (eapply Permutation_in; [symmetry; eassumption|]); assumption.
  - split.
    + intros Hin. apply (Permutation_in _ Hperm) in Hin. simpl in Hin. tauto.
    + intros Hin. apply (Permutation_in _ (Permutation_sym Hperm)). simpl. tauto.
Qed.

Lemma NoDup_keys_set_prop obj key value :
  List.NoDup (Object_keys obj) → List.NoDup (Object_keys (set_prop obj key value)).
Proof.
  intros Hnd. pose proof (Object_keys_set_prop obj key value) as Hperm.
  apply (Permutation_NoDup (Permutation_sym Hperm)).
  destruct (hasOwn obj key) eqn:Hown; [assumption|].
  constructor; [|assumption]. apply hasOwn_false. assumption.
Qed.

(** *** The order of the keys *)

Lemma ordered_from_weaken (lower lower' : Z) (keys : list string) :
  lower' ≤ lower → ordered_from lower keys = true → ordered_from lower' keys = true.
Proof.
  intros Hle. destruct keys as [|key rest]; [reflexivity|]. simpl.
  destruct (array_index key) as [n|]; [|tauto].
  rewrite !andb_true_iff, !Z.leb_le. intros [Hn Hrest]. split; [lia | assumption].
Qed.

Lemma ordered_from_names (lower : Z) (keys : list string) :
  List.forallb (fun k => negb (is_index k)) keys = true → ordered_from lower keys = true.
Proof.
  destruct keys as [|key rest]; [reflexivity|]. simpl. unfold is_index at 1.
  destruct (array_index key); [discriminate|]. tauto.
Qed.

Lemma ordered_from_name_last (lower : Z) (keys : list string) (key : string) :
  is_index key = false →
  ordered_from lower keys = true → ordered_from lower (keys ++ [key]) = true.
Proof.
  intros Hname. revert lower. induction keys as [|k rest IH]; intros lower; simpl.
  - unfold is_index in Hname. destruct (array_index key); [discriminate | reflexivity].
  - destruct (array_index k) as [n|].
    + rewrite !andb_true_iff. intros [Hn Hrest]. split; [assumption | apply IH; assumption].
    + intros Hrest. rewrite List.forallb_app, Hrest. simpl. rewrite Hname. reflexivity.
Qed.

Lemma ordered_from_insert_index (lower n : Z) obj key value :
  array_index key = Some n → lower ≤ n → hasOwn obj key = false →
  ordered_from lower (Object_keys obj) = true →
  ordered_from lower (Object_keys (insert_index n key value obj)) = true.
Proof.
  intros Hkey. revert lower. induction obj as [|[k v] rest IH]; intros lower Hn.
  - intros _ _. simpl. rewrite Hkey. apply andb_true_iff.
    split; [apply Z.leb_le; lia | reflexivity].
  - rewrite hasOwn_cons, orb_false_iff. intros [Hne Hown]. apply String.eqb_neq in Hne.
    cbn [insert_index Object_keys List.map fst ordered_from].
    destruct (array_index k) as [m|] eqn:Hk.
    + rewrite andb_true_iff, Z.leb_le. intros [Hm Hrest].
      destruct (Z.ltb_spec m n) as [Hlt|Hge].
      * cbn [List.map fst ordered_from]. rewrite Hk.
        apply andb_true_iff. split; [apply Z.leb_le; assumption|].
        apply IH; [lia | assumption | assumption].
      * assert (n ≠ m).
        { intros ->. apply Hne. apply (array_index_inj k key m); assumption. }
        cbn [List.map fst ordered_from]. rewrite Hkey, Hk.
        rewrite !andb_true_iff, !Z.leb_le. repeat split; [lia | lia | assumption].
    + intros Hrest. cbn [List.map fst ordered_from]. rewrite Hkey, Hk.
      rewrite andb_true_iff, Z.leb_le. split; [lia | assumption].
Qed.

Lemma name_keys_insert_index (n : Z) obj key value :
  is_index key = true →
  name_keys (Object_keys (insert_index n key value obj)) = name_keys (Object_keys obj).
Proof.
  intros Hkey. unfold name_keys, Object_keys.
  induction obj as [|[k v] rest IH]; cbn [insert_index].
  - simpl. rewrite Hkey. reflexivity.
  - destruct (array_index k) as [m|]; [destruct (m <? n)|].
    + simpl. rewrite IH. reflexivity.
    + cbn [List.map List.filter fst]. rewrite Hkey. reflexivity.
    + cbn [List.map List.filter fst]. rewrite Hkey. reflexivity.
Qed.

(** An assignment keeps the keys in order; a key that is new and no array
    index is listed last among the keys that are none. *)
Lemma indices_first_set_prop obj key value :
  indices_first (Object_keys obj) → indices_first (Object_keys (set_prop obj key value)).
Proof.
  unfold indices_first, set_prop. intros Hordered.
  destruct (hasOwn obj key) eqn:Hown.
  - rewrite Object_keys_update_prop. assumption.
  - unfold define_prop. destruct (array_index key) as [n|] eqn:Hkey.
    + apply ordered_from_insert_index; try assumption.
      apply array_index_numeral in Hkey. lia.
    + unfold Object_keys. rewrite List.map_app. apply ordered_from_name_last; [|assumption].
      unfold is_index. simpl. rewrite Hkey. reflexivity.
Qed.

Lemma name_keys_set_prop obj key value :
  name_keys (Object_keys (set_prop obj key value))
  = if hasOwn obj key || is_index key then name_keys (Object_keys obj)
    else name_keys (Object_keys obj) ++ [key].
Proof.
  unfold set_prop. destruct (hasOwn obj key) eqn:Hown; simpl.
  - rewrite Object_keys_update_prop. reflexivity.
  - unfold define_prop, is_index. destruct (array_index key) as [n|] eqn:Hkey.
    + apply name_keys_insert_index. unfold is_index. rewrite Hkey. reflexivity.
    + unfold name_keys, Object_keys. rewrite List.map_app, List.filter_app. simpl.
      unfold is_index at 2. rewrite Hkey. reflexivity.
Qed.

(** A property that may stand last in the order is put there. *)
Lemma set_prop_last obj key value :
  hasOwn obj key = false → indices_first (Object_keys (obj ++ [(key, value)])) →
  set_prop obj key value = obj ++ [(key, value)].
Proof.
  unfold indices_first, set_prop, define_prop. intros -> Hordered.
  destruct (array_index key) as [n|] eqn:Hkey; [|reflexivity].
  revert Hordered. generalize 0. induction obj as [|[k v] rest IH]; intros lower; [reflexivity|].
  cbn [app Object_keys List.map fst ordered_from insert_index].
  destruct (array_index k) as [m|] eqn:Hk.
  - rewrite andb_true_iff. intros [_ Hrest].
    assert (Hlt : m < n).
    { clear -Hrest Hkey. revert Hrest. generalize m. unfold Object_keys.
      induction rest as [|[k' v'] rest IH]; intros m'; simpl.
      - rewrite Hkey, andb_true_iff, Z.leb_le. lia.
      - destruct (array_index k') as [m''|] eqn:Hk'.
        + rewrite andb_true_iff, Z.leb_le. intros [Hle Hrest]. apply IH in Hrest. lia.
        + rewrite List.map_app, List.forallb_app, andb_true_iff. simpl.
          unfold is_index at 2. rewrite Hkey. intros [_ [=]]. }
    destruct (Z.ltb_spec m n); [|lia]. f_equal. apply (IH (m + 1)). assumption.
  - unfold Object_keys. rewrite List.map_app, List.forallb_app, andb_true_iff. simpl.
    unfold is_index at 2. rewrite Hkey. intros [_ [=]].
Qed.

(** *** A series of assignments *)

Lemma set_all_snoc (assignments : list (string * option V)) (kv : string * option V) obj :
  set_all (assignments ++ [kv]) obj = set_prop (set_all assignments obj) kv.1 kv.2.
Proof. unfold set_all. rewrite List.fold_left_app. reflexivity. Qed.

(** Reading after a series of assignments gives the value assigned last. *)
Lemma get_prop_set_all (assignments : list (string * option V)) obj key :
  get_prop (set_all assignments obj) key = get_prop (List.rev assignments ++ obj) key.
Proof.
  revert obj. induction assignments as [|[k v] rest IH]; intros obj; [reflexivity|].
  change (set_all ((k, v) :: rest) obj) with (set_all rest (set_prop obj k v)).
  rewrite IH. cbn [List.rev]. rewrite <- List.app_assoc, !get_prop_app. cbn [app].
  destruct (hasOwn (List.rev rest) key); [reflexivity|].
  rewrite get_prop_set_prop, hasOwn_cons. simpl.
  destruct (String.eqb k key); reflexivity.
Qed.

Lemma hasOwn_set_all (assignments : list (string * option V)) obj key :
  hasOwn (set_all assignments obj) key = true
  ↔ In key (List.map fst assignments) ∨ hasOwn obj key = true.
Proof.
  revert obj. induction assignments as [|[k v] rest IH]; intros obj; simpl; [tauto|].
  change (set_all ((k, v) :: rest) obj) with (set_all rest (set_prop obj k v)).
  rewrite IH, hasOwn_set_prop, orb_true_iff, String.eqb_eq. tauto.
Qed.

Lemma indices_first_set_all (assignments : list (string * option V)) obj :
  indices_first (Object_keys obj) → indices_first (Object_keys (set_all assignments obj)).
Proof.
  revert obj. induction assignments as [|[k v] rest IH]; intros obj Hordered; [assumption|].
  apply IH. apply indices_first_set_prop. assumption.
Qed.

Lemma NoDup_keys_set_all (assignments : list (string * option V)) obj :
  List.NoDup (Object_keys obj) → List.NoDup (Object_keys (set_all assignments obj)).
Proof.
  revert obj. induction assignments as [|[k v] rest IH]; intros obj Hnd; [assumption|].
  apply IH. apply NoDup_keys_set_prop. assumption.
Qed.

(** Assignments at pairwise distinct new keys: the object lists the new keys
    that are no array indices in the order of the assignments. *)
Lemma keys_set_all_distinct (assignments : list (string * option V)) obj :
  List.NoDup (Object_keys obj ++ List.map fst assignments) →
  Permutation (Object_keys (set_all assignments obj))
    (Object_keys obj ++ List.map fst assignments)
  ∧ name_keys (Object_keys (set_all assignments obj))
    = name_keys (Object_keys obj) ++ name_keys (List.map fst assignments).
Proof.
  revert obj. induction assignments as [|[k v] rest IH]; intros obj Hnd.
  - simpl. rewrite !app_nil_r. split; reflexivity.
  - change (set_all ((k, v) :: rest) obj) with (set_all rest (set_prop obj k v)).
    assert (Hown : hasOwn obj k = false).
    { apply hasOwn_false. intros Hin.
      apply (NoDup_app_disjoint _ _ k Hnd Hin). left. reflexivity. }
    pose proof (Object_keys_set_prop obj k v) as Hperm. rewrite Hown in Hperm.
    destruct (IH (set_prop obj k v)) as [IHperm IHnames].
    { apply (Permutation_NoDup (l := Object_keys obj ++ k :: List.map fst rest));
        [|exact Hnd].
      rewrite Hperm. simpl. symmetry. apply Permutation_middle. }
    split.
    + rewrite IHperm, Hperm. simpl. apply Permutation_middle.
    + rewrite IHnames, name_keys_set_prop, Hown. simpl.
      unfold name_keys at 4. simpl. fold (name_keys (List.map fst rest)).
      destruct (is_index k); simpl; [reflexivity|]. rewrite <- List.app_assoc. reflexivity.
Qed.

(** Assigning the properties of an object, in their order, to an empty
    object gives the object again. *)
Lemma set_all_round_trip obj :
  List.NoDup (Object_keys obj) → indices_first (Object_keys obj) → set_all obj [] = obj.
Proof.
  induction obj as [|[k v] rest IH] using rev_ind; intros Hnd Hordered; [reflexivity|].
  unfold Object_keys in Hnd. rewrite List.map_app in Hnd. simpl in Hnd.
  rewrite set_all_snoc. rewrite IH.
  - apply set_prop_last; [|assumption].
    apply hasOwn_false. intros Hin.
    apply (NoDup_app_disjoint _ _ k Hnd Hin). left. reflexivity.
  - apply NoDup_app_remove_r in Hnd. assumption.
  - unfold indices_first, Object_keys in *. rewrite List.map_app in Hordered.
    clear -Hordered. revert Hordered. generalize 0.
    induction (List.map fst rest) as [|k' ks IHk]; intros lower; simpl; [reflexivity|].
    destruct (array_index k') as [m|].
    + rewrite !andb_true_iff. intros [Hm Hrest]. split; [assumption | eapply IHk; eassumption].
    + rewrite List.forallb_app, andb_true_iff. tauto.
Qed.

End PropertyFacts.

(** *** Assignments to an object literal *)

Section AssignFacts.

Context {V : Type} (keeps_accessor : option V → bool).
Implicit Types (obj : Built V) (key : string) (value : option V).

(** At every key but '__proto__' an assignment sets the own property. *)
Lemma get_prop_assign obj key value key' :
  key' ≠ "__proto__" →
  get_prop (properties (assign keeps_accessor obj key value)) key'
  = if String.eqb key key' then value else get_prop (properties obj) key'.
Proof.
  intros Hkey'. unfold assign.
  destruct (String.eqb_spec key "__proto__") as [->|Hne]; cbn [andb].
  - rewrite (proj2 (String.eqb_neq "__proto__" key')) by congruence.
    destruct (negb _ && _); cbn [properties]; [reflexivity|].
    rewrite get_prop_set_prop, (proj2 (String.eqb_neq "__proto__" key')) by congruence.
    reflexivity.
  - apply get_prop_set_prop.
Qed.

Lemma hasOwn_assign obj key value key' :
  key' ≠ "__proto__" →
  hasOwn (properties (assign keeps_accessor obj key value)) key'
  = String.eqb key key' || hasOwn (properties obj) key'.
Proof.
  intros Hkey'. unfold assign.
  destruct (String.eqb_spec key "__proto__") as [->|Hne]; cbn [andb].
  - rewrite (proj2 (String.eqb_neq "__proto__" key')) by congruence.
    destruct (negb _ && _); cbn [properties]; [reflexivity|].
    rewrite hasOwn_set_prop, (proj2 (String.eqb_neq "__proto__" key')) by congruence.
    reflexivity.
  - apply hasOwn_set_prop.
Qed.

Lemma get_prop_assign_all (assignments : list (string * option V)) obj key :
  key ≠ "__proto__" →
  get_prop (properties (assign_all keeps_accessor assignments obj)) key
  = get_prop (set_all assignments (properties obj)) key.
Proof.
  intros Hkey. revert obj. induction assignments as [|[k v] rest IH] using rev_ind;
    intros obj; [reflexivity|].
  unfold assign_all. rewrite List.fold_left_app. simpl.
  fold (assign_all keeps_accessor rest obj).
  rewrite get_prop_assign by assumption. rewrite set_all_snoc, get_prop_set_prop. simpl.
  rewrite IH. reflexivity.
Qed.

Lemma hasOwn_assign_all (assignments : list (string * option V)) obj key :
  key ≠ "__proto__" →
  hasOwn (properties (assign_all keeps_accessor assignments obj)) key
  = hasOwn (set_all assignments (properties obj)) key.
Proof.
  intros Hkey. revert obj. induction assignments as [|[k v] rest IH] using rev_ind;
    intros obj; [reflexivity|].
  unfold assign_all. rewrite List.fold_left_app. simpl.
  fold (assign_all keeps_accessor rest obj).
  rewrite hasOwn_assign by assumption. rewrite set_all_snoc, hasOwn_set_prop. simpl.
  rewrite IH. reflexivity.
Qed.

(** While the accessor is inherited and no key comes twice, the assignment at
    '__proto__' is the only one that sets no own property. *)
Lemma assign_all_distinct (assignments : list (string * option V)) obj :
  List.NoDup (List.map fst assignments) →
  hasOwn (properties obj) "__proto__" = false → inherits_proto_accessor obj = true →
  properties (assign_all keeps_accessor assignments obj)
  = set_all (own_assignments assignments) (properties obj).
Proof.
  revert obj. induction assignments as [|[k v] rest IH]; intros obj Hnd Hown Hacc;
    [reflexivity|].
  apply List.NoDup_cons_iff in Hnd as [Hk Hnd].
  change (assign_all keeps_accessor ((k, v) :: rest) obj)
    with (assign_all keeps_accessor rest (assign keeps_accessor obj k v)).
  unfold own_assignments. cbn [List.filter fst].
  destruct (String.eqb_spec k "__proto__") as [->|Hne]; cbn [negb].
  - (* the accessor takes the value; no later assignment is at '__proto__' *)
    assert (Hstep : properties (assign keeps_accessor obj "__proto__" v) = properties obj).
    { unfold assign. rewrite Hown, Hacc. reflexivity. }
    assert (Hrest : ∀ o : Built V,
              properties (assign_all keeps_accessor rest o)
              = set_all (own_assignments rest) (properties o)).
    { clear -Hk. induction rest as [|[k' v'] rest IHr]; intros o; [reflexivity|].
      simpl in Hk.
      change (assign_all keeps_accessor ((k', v') :: rest) o)
        with (assign_all keeps_accessor rest (assign keeps_accessor o k' v')).
      rewrite IHr by tauto. unfold own_assignments. cbn [List.filter fst].
      destruct (String.eqb_spec k' "__proto__") as [->|Hne']; [tauto|]. cbn [negb].
      change (set_all ((k', v') :: ?l) ?o') with (set_all l (set_prop o' k' v')).
      unfold assign. rewrite (proj2 (String.eqb_neq k' "__proto__")) by assumption.
      reflexivity. }
    rewrite Hrest, Hstep. reflexivity.
  - change (set_all ((k, v) :: ?l) ?o') with (set_all l (set_prop o' k v)).
    assert (Hstep : assign keeps_accessor obj k v
                    = mkBuilt (set_prop (properties obj) k v) (inherits_proto_accessor obj)).
    { unfold assign. rewrite (proj2 (String.eqb_neq k "__proto__")) by assumption.
      reflexivity. }
    rewrite Hstep. rewrite IH; [reflexivity | assumption | | assumption].
    simpl. rewrite hasOwn_set_prop, Hown, orb_false_r. apply String.eqb_neq. assumption.
Qed.

End AssignFacts.

(** ** Canonical strings *)

Section CanonicalFacts.

Lemma insert_sorted_perm (k : string) (ks : list string) :
  Permutation (Utils.insert_sorted k ks) (k :: ks).
Proof.
  induction ks as [|k' ks IH]; simpl; [done|].
  destruct (String.leb k k'); [done|]. rewrite IH. apply perm_swap.
Qed.

Lemma sort_strings_perm (ks : list string) : Permutation (Utils.sort_strings ks) ks.
Proof.
  induction ks as [|k ks IH]; simpl; [done|].
  rewrite insert_sorted_perm. by constructor.
Qed.

Lemma insert_sorted_sorted (k : string) (ks : list string) :
  Sorted String.le ks → Sorted String.le (Utils.insert_sorted k ks).
Proof.
  induction ks as [|k' ks IH]; intros Hs; simpl.
  - by repeat constructor.
  - destruct (String.leb k k') eqn:Hle.
    + constructor; [done|]. constructor. unfold String.le. by rewrite Hle.
    + assert (Hge : String.le k' k).
      { destruct (total String.le k k') as [H|H]; [|done].
        unfold String.le in H. by rewrite Hle in H. }
      apply Sorted_inv in Hs as [Hs Hhd]. constructor; [by apply IH|].
      destruct ks as [|k'' ks]; simpl; [by constructor|].
      destruct (String.leb k k''); constructor; [done|]. by inversion Hhd.
Qed.

Lemma sort_strings_sorted (ks : list string) : Sorted String.le (Utils.sort_strings ks).
Proof.
  induction ks as [|k ks IH]; simpl; [constructor|]. by apply insert_sorted_sorted.
Qed.

Lemma strongly_sorted_filter {A : Type} (R : A → A → Prop) (P : A → bool) (l : list A) :
  StronglySorted R l → StronglySorted R (List.filter P l).
Proof.
  induction 1 as [|x l Hs IH Hall]; simpl; [constructor|].
  destruct (P x); [|done]. constructor; [done|].
  rewrite List.Forall_forall in Hall |- *. intros y [Hy _]%List.filter_In. by apply Hall.
Qed.

Lemma flat_map_filter {A B : Type} (g : A → list B) (P : A → bool) (l : list A) :
  (∀ x, P x = false → g x = []) →
  List.flat_map g l = List.flat_map g (List.filter P l).
Proof.
  intros Hg. induction l as [|x l IH]; simpl; [done|].
  destruct (P x) eqn:HP; simpl; [by rewrite IH|]. by rewrite (Hg x HP).
Qed.

Lemma get_prop_in_keys {V : Type} (obj : Obj V) (key : string) (v : V) :
  get_prop obj key = Some v → In key (Object_keys obj).
Proof.
  induction obj as [|[k w] obj IH]; simpl; [done|].
  destruct (String.eqb_spec k key) as [->|Hne]; [by left|].
  intros H. right. by apply IH.
Qed.

Lemma kept_keys_unique {V : Type} (obj1 obj2 : Obj V) :
  List.NoDup (Object_keys obj1) → List.NoDup (Object_keys obj2) →
  (∀ key, bound V obj1 key = bound V obj2 key) →
  List.filter (kept V obj1) (Utils.sort_strings (Object_keys obj1))
  = List.filter (kept V obj1) (Utils.sort_strings (Object_keys obj2)).
Proof.
  intros Hnd1 Hnd2 Hsame.
  apply (StronglySorted_unique String.le).
  - apply strongly_sorted_filter, Sorted_StronglySorted; [apply _|apply sort_strings_sorted].
  - apply strongly_sorted_filter, Sorted_StronglySorted; [apply _|apply sort_strings_sorted].
  - apply NoDup_Permutation.
    + apply NoDup_ListNoDup, List.NoDup_filter.
      eapply Permutation_NoDup; [symmetry; apply sort_strings_perm|done].
    + apply NoDup_ListNoDup, List.NoDup_filter.
      eapply Permutation_NoDup; [symmetry; apply sort_strings_perm|done].
    + intros key. rewrite !list_elem_of_In, !List.filter_In.
      assert (Hin : ∀ (obj : Obj V),
                bound V obj key = true → In key (Utils.sort_strings (Object_keys obj))).
      { intros obj Hb. unfold bound in Hb.
        destruct (get_prop obj key) as [v|] eqn:Hget; [|done].
        eapply Permutation_in; [symmetry; apply sort_strings_perm|].
        by eapply get_prop_in_keys. }
      unfold kept.
      split; intros [_ Hb]; (split; [|done]); apply andb_prop in Hb as [Hb _]; apply Hin;
        [by rewrite <- Hsame|done].
Qed.

(** The loop of [sortObjectKeys] as a series of assignments: one for every
    key, in sorted order, that is bound to a value and is not '__proto__'. *)
Lemma sortObjectKeys_assignments {V : Type} (obj : Obj V) :
  Utils.sortObjectKeys obj
  = set_all (List.map (fun key => (key, get_prop obj key))
               (List.filter (kept V obj) (Utils.sort_strings (Object_keys obj)))) [].
Proof.
  unfold Utils.sortObjectKeys. generalize (Utils.sort_strings (Object_keys obj)).
  generalize (@nil (string * option V)).
  intros acc keys. revert acc. induction keys as [|key keys IH]; intros acc; [done|].
  cbn [List.fold_left List.filter]. rewrite IH. unfold kept at 2, bound.
  destruct (get_prop obj key) as [value|] eqn:Hget; [|done].
  destruct (String.eqb key "__proto__"); [done|]. simpl. by rewrite Hget.
Qed.

(** Two objects with distinct keys and the same value, or [undefined], under
    every key have the same sorted copy: neither the order of the keys nor
    a key bound to [undefined] shows in it. *)
Lemma sortObjectKeys_key_order {V : Type} (obj1 obj2 : Obj V) :
  List.NoDup (Object_keys obj1) → List.NoDup (Object_keys obj2) →
  (∀ key, get_prop obj1 key = get_prop obj2 key) →
  Utils.sortObjectKeys obj1 = Utils.sortObjectKeys obj2.
Proof.
  intros Hnd1 Hnd2 Hsame. rewrite !sortObjectKeys_assignments.
  assert (Hbound : ∀ key, bound V obj1 key = bound V obj2 key).
  { intros key. unfold bound. by rewrite Hsame. }
  assert (Hkept : ∀ key, kept V obj1 key = kept V obj2 key).
  { intros key. unfold kept. by rewrite Hbound. }
  rewrite (kept_keys_unique obj1 obj2 Hnd1 Hnd2 Hbound).
  rewrite (List.filter_ext _ _ Hkept). f_equal.
  apply List.map_ext. intros key. by rewrite Hsame.
Qed.

Lemma get_prop_printed (fields : Obj Json) (key : string) :
  get_prop (List.map (fun kv => (kv.1, option_map Utils.canonicalJsonString kv.2)) fields) key
  = option_map Utils.canonicalJsonString (get_prop fields key).
Proof.
  induction fields as [|[k v] fields IH]; simpl; [done|].
  by destruct (String.eqb k key).
Qed.

Lemma canonicalJsonString_object (fields : Obj Json) :
  Utils.canonicalJsonString (JObj fields) =
    "{" +:+ String.concat ","
              (Utils.print_members
                 (Utils.sortObjectKeys
                    (List.map (fun kv => (kv.1, option_map Utils.canonicalJsonString kv.2))
                       fields)))
        +:+ "}".
Proof. reflexivity. Qed.

(** [canonicalJsonString] is independent from object key order and undefined
    properties: two objects with distinct keys whose values under every key
    have the same canonical string, or are both [undefined], have the same
    canonical string. *)
Lemma canonicalJsonString_key_order (fields1 fields2 : Obj Json) :
  List.NoDup (Object_keys fields1) → List.NoDup (Object_keys fields2) →
  (∀ key, option_map Utils.canonicalJsonString (get_prop fields1 key)
          = option_map Utils.canonicalJsonString (get_prop fields2 key)) →
  Utils.canonicalJsonString (JObj fields1) = Utils.canonicalJsonString (JObj fields2).
Proof.
  intros Hnd1 Hnd2 Hsame. rewrite !canonicalJsonString_object.
  f_equal. f_equal. f_equal. f_equal.
  apply sortObjectKeys_key_order.
  - unfold Object_keys. by rewrite List.map_map.
  - unfold Object_keys. by rewrite List.map_map.
  - intros key. by rewrite !get_prop_printed.
Qed.

End CanonicalFacts.

Example canonicalJsonString_documented_example :
  Utils.canonicalJsonString
    (JObj [("a", Some (JNum 1)); ("b", None);
           ("c", Some (JObj [("d", Some (JArr [])); ("e", Some JNull)]))])
  = Utils.canonicalJsonString
      (JObj [("c", Some (JObj [("e", Some JNull); ("d", Some (JArr []))]));
             ("a", Some (JNum 1))]).
Proof. reflexivity. Qed.

(** ** Hashes of 32 bits collide *)

Lemma bounded_search (f : nat → nat) (v n : nat) :
  (∃ i, (i ≤ n)%nat ∧ f i = v) ∨ (∀ i, (i ≤ n)%nat → f i ≠ v).
Proof.
  induction n as [|n [(i & Hi & Hv)|Hnone]].
  - destruct (decide (f 0%nat = v)) as [Hv|Hv].
    + left. exists 0%nat. by split.
    + right. intros i Hi. by replace i with 0%nat by lia.
  - left. exists i. split; [lia|done].
  - destruct (decide (f (S n) = v)) as [Hv|Hv].
    + left. exists (S n). by split.
    + right. intros i Hi. destruct (decide (i = S n)) as [->|]; [done|]. apply Hnone. lia.
Qed.

(** Pigeons and holes: [N + 1] numbers below [N] are not all different. *)
Lemma pigeonhole (N : nat) (f : nat → nat) :
  (∀ i, (i ≤ N)%nat → (f i < N)%nat) →
  ∃ i j, (i < j)%nat ∧ (j ≤ N)%nat ∧ f i = f j.
Proof.
  revert f. induction N as [|N IH]; intros f Hf.
  - specialize (Hf 0%nat (le_n _)). lia.
  - destruct (bounded_search f (f (S N)) N) as [(i & Hi & Hv)|Hnone].
    + exists i, (S N). split; [lia|]. by split.
    + set (g := fun i => if (f i <? f (S N))%nat then f i else (f i - 1)%nat).
      destruct (IH g) as (i & j & Hij & Hj & Hg).
      * intros i Hi. unfold g.
        pose proof (Hf i ltac:(lia)). pose proof (Hf (S N) ltac:(lia)).
        pose proof (Hnone i Hi). destruct (Nat.ltb_spec (f i) (f (S N))); lia.
      * exists i, j. split; [done|]. split; [lia|]. unfold g in Hg.
        pose proof (Hnone i ltac:(lia)). pose proof (Hnone j ltac:(lia)).
        destruct (Nat.ltb_spec (f i) (f (S N))), (Nat.ltb_spec (f j) (f (S N))); lia.
Qed.

Lemma escape_string_letters (n : nat) : escape_string (letters n) = letters n.
Proof. induction n as [|n IH]; simpl; [done|]. by rewrite IH. Qed.

Lemma length_letters (n : nat) : String.length (letters n) = n.
Proof. induction n as [|n IH]; simpl; [done|]. by rewrite IH. Qed.

Lemma string_length_append (s1 s2 : string) :
  String.length (s1 +:+ s2) = (String.length s1 + String.length s2)%nat.
Proof. induction s1 as [|c s1 IH]; simpl; [done|]. by rewrite IH. Qed.

(** The canonical string of the spec of a node that names a category grows
    with the name. *)
Lemma node_key_of_letters_length (n : nat) :
  ∃ key, node_key (node_of_category (letters n)) = Some key
         ∧ String.length key = (110 + n)%nat.
Proof.
  eexists. split; [reflexivity|].
  cbv -[escape_string String.append String.length Nat.add letters].
  rewrite escape_string_letters.
  repeat (progress (rewrite ?string_length_append; cbn [String.length])).
  rewrite length_letters. simpl. lia.
Qed.

(** Whatever function of strings the library hashes with, two nodes with
    different annotation specs exist whose canonical strings have the same
    hash of 32 bits, hence the same id. *)
Lemma every_hash_collides (hash : string → Z) :
  ∃ category1 category2 key1 key2,
    node_key (node_of_category category1) = Some key1
    ∧ node_key (node_of_category category2) = Some key2
    ∧ key1 ≠ key2
    ∧ Utils.ToUint32 (hash key1) = Utils.ToUint32 (hash key2).
Proof.
  set (key := fun n => default "" (node_key (node_of_category (letters n)))).
  assert (Hkey : ∀ n, node_key (node_of_category (letters n)) = Some (key n)
                      ∧ String.length (key n) = (110 + n)%nat).
  { intros n. destruct (node_key_of_letters_length n) as (k & Hk & Hlen).
    unfold key. rewrite Hk. done. }
  assert (Hpos : 0 < 2 ^ 32) by done.
  set (B := 2 ^ 32) in *.
  destruct (pigeonhole (Z.to_nat B) (fun n => Z.to_nat (Utils.ToUint32 (hash (key n)))))
    as (i & j & Hij & _ & Hsame).
  { intros i _. unfold Utils.ToUint32. fold B.
    pose proof (Z.mod_pos_bound (hash (key i)) B Hpos) as [? ?].
    by apply Z2Nat.inj_lt. }
  exists (letters i), (letters j), (key i), (key j).
  split; [apply Hkey|]. split; [apply Hkey|]. split.
  - intros Heq. pose proof (proj2 (Hkey i)) as Hi. pose proof (proj2 (Hkey j)) as Hj.
    rewrite Heq in Hi. lia.
  - unfold Utils.ToUint32 in *. fold B in Hsame |- *.
    pose proof (Z.mod_pos_bound (hash (key i)) B Hpos) as [? ?].
    pose proof (Z.mod_pos_bound (hash (key j)) B Hpos) as [? ?].
    by apply Z2Nat.inj.
Qed.

(** ** Objects as records: picking, omitting and building *)

Section BuiltFacts.

Context {V : Type} (keeps_accessor : option V → bool).

Lemma own_keys_fst (assignments : list (string * option V)) :
  List.map fst (own_assignments assignments) = own_keys (List.map fst assignments).
Proof.
  unfold own_assignments, own_keys.
  induction assignments as [|[k v] rest IH]; simpl; [reflexivity|].
  destruct (String.eqb k "__proto__"); simpl; rewrite IH; reflexivity.
Qed.

Lemma ordered_from_filter (P : string → bool) (lower : Z) (keys : list string) :
  ordered_from lower keys = true → ordered_from lower (List.filter P keys) = true.
Proof.
  revert lower. induction keys as [|key rest IH]; intros lower; [reflexivity|].
  cbn [ordered_from List.filter]. destruct (array_index key) as [n|] eqn:Hkey.
  - rewrite andb_true_iff, Z.leb_le. intros [Hn Hrest]. destruct (P key).
    + cbn [ordered_from]. rewrite Hkey, andb_true_iff, Z.leb_le. split; [assumption|].
      apply IH. assumption.
    + apply (ordered_from_weaken (n + 1)); [lia|]. apply IH. assumption.
  - intros Hnames.
    assert (Hfiltered : List.forallb (fun k => negb (is_index k)) (List.filter P rest) = true).
    { apply List.forallb_forall. intros k Hk. apply List.filter_In in Hk as [Hk _].
      revert k Hk. apply List.forallb_forall. assumption. }
    destruct (P key).
    + cbn [ordered_from]. rewrite Hkey. assumption.
    + apply ordered_from_names. assumption.
Qed.

(** An own property comes from an assignment at its key. *)
Lemma hasOwn_assign_all_assigned (assignments : list (string * option V)) (obj : Built V)
    (key : string) :
  hasOwn (properties (assign_all keeps_accessor assignments obj)) key = true →
  In key (List.map fst assignments) ∨ hasOwn (properties obj) key = true.
Proof.
  revert obj. induction assignments as [|[k v] rest IH]; intros obj; [tauto|].
  change (assign_all keeps_accessor ((k, v) :: rest) obj)
    with (assign_all keeps_accessor rest (assign keeps_accessor obj k v)).
  intros Hown. apply IH in Hown as [Hin|Hown]; [left; right; assumption|].
  unfold assign in Hown. destruct (_ && _ && _); cbn [properties] in Hown.
  - right. assumption.
  - rewrite hasOwn_set_prop, orb_true_iff, String.eqb_eq in Hown.
    destruct Hown as [<-|Hown]; [left; left; reflexivity | right; assumption].
Qed.

(** What a series of assignments at pairwise distinct keys builds from an
    object literal: an own property for every key but '__proto__', in the
    order of JavaScript. *)
Lemma built_from_distinct_keys (assignments : list (string * option V)) :
  List.NoDup (List.map fst assignments) →
  properties (assign_all keeps_accessor assignments empty_object)
  = set_all (own_assignments assignments) []
  ∧ hasOwn (properties (assign_all keeps_accessor assignments empty_object)) "__proto__" = false
  ∧ Permutation (Object_keys (properties (assign_all keeps_accessor assignments empty_object)))
      (own_keys (List.map fst assignments))
  ∧ indices_first (Object_keys (properties (assign_all keeps_accessor assignments empty_object)))
  ∧ name_keys (Object_keys (properties (assign_all keeps_accessor assignments empty_object)))
    = name_keys (own_keys (List.map fst assignments))
  ∧ (indices_first (List.map fst assignments) →
     properties (assign_all keeps_accessor assignments empty_object)
     = own_assignments assignments).
Proof.
  intros Hnd.
  assert (Hown : List.NoDup (List.map fst (own_assignments assignments))).
  { rewrite own_keys_fst. apply List.NoDup_filter. assumption. }
  rewrite (assign_all_distinct keeps_accessor assignments empty_object Hnd eq_refl eq_refl).
  cbn [properties empty_object].
  destruct (keys_set_all_distinct (own_assignments assignments) []) as [Hperm Hnames];
    [exact Hown|].
  simpl in Hperm, Hnames. rewrite own_keys_fst in Hperm, Hnames.
  split; [reflexivity|]. split; [|split; [exact Hperm|split; [|split; [exact Hnames|]]]].
  - apply not_true_is_false. rewrite hasOwn_set_all, own_keys_fst.
    intros [Hin|Hin]; [|discriminate Hin].
    apply List.filter_In in Hin as [_ Hin]. discriminate Hin.
  - apply indices_first_set_all. reflexivity.
  - intros Hordered. apply set_all_round_trip; [exact Hown|].
    unfold Object_keys. rewrite own_keys_fst. apply ordered_from_filter. assumption.
Qed.

(** The value read at a key from a list of properties whose values are given
    by their keys. *)
Lemma get_prop_graph (f : string → option V) (keys : list string) (key : string) :
  get_prop (List.map (fun k => (k, f k)) keys) key
  = if bool_decide (key ∈ keys) then f key else None.
Proof.
  induction keys as [|k keys IH]; simpl; [reflexivity|].
  destruct (String.eqb_spec k key) as [->|Hne].
  - rewrite bool_decide_eq_true_2 by in_cons_head. reflexivity.
  - rewrite IH. destruct (bool_decide_reflect (key ∈ keys)) as [Hin|Hnin].
    + rewrite bool_decide_eq_true_2 by in_cons_tail. reflexivity.
    + rewrite bool_decide_eq_false_2 by not_in_cons. reflexivity.
Qed.

(** Reading after the assignments [obj[k] = f(k)] for the keys of a list. *)
Lemma get_prop_assign_graph (f : string → option V) (keys : list string) (key : string) :
  key ≠ "__proto__" →
  get_prop
    (properties (assign_all keeps_accessor (List.map (fun k => (k, f k)) keys) empty_object))
    key
  = if bool_decide (key ∈ keys) then f key else None.
Proof.
  intros Hkey. rewrite get_prop_assign_all, get_prop_set_all by assumption.
  rewrite app_nil_r, <- List.map_rev, get_prop_graph.
  destruct (bool_decide_reflect (key ∈ keys)) as [Hin|Hnin].
  - rewrite bool_decide_eq_true_2; [reflexivity|].
    apply list_elem_of_In, List.in_rev. rewrite List.rev_involutive.
    apply list_elem_of_In. assumption.
  - rewrite bool_decide_eq_false_2; [reflexivity|].
    intros Hin. apply Hnin. apply list_elem_of_In, List.in_rev, list_elem_of_In. assumption.
Qed.

(** A key that is not assigned is no own property. *)
Lemma get_prop_not_assigned (assignments : list (string * option V)) (key : string) :
  ¬ In key (List.map fst assignments) →
  get_prop (properties (assign_all keeps_accessor assignments empty_object)) key = None.
Proof.
  intros Hnin. apply get_prop_not_own. apply not_true_is_false. intros Hown.
  apply hasOwn_assign_all_assigned in Hown as [Hin|Hown]; [tauto | discriminate Hown].
Qed.

End BuiltFacts.

Section ObjectFacts.

Context {V : Type} (keeps_accessor : option V → bool).
Implicit Types (obj result : Obj V) (key : string) (value : option V).

Lemma get_prop_delete_prop obj key key' :
  get_prop (delete_prop obj key) key'
  = if String.eqb key key' then None else get_prop obj key'.
Proof.
  unfold delete_prop. induction obj as [|[k v] rest IH]; simpl.
  - destruct (String.eqb key key'); reflexivity.
  - destruct (String.eqb_spec k key) as [->|Hne]; simpl.
    + rewrite IH. destruct (String.eqb key key'); reflexivity.
    + rewrite IH. destruct (String.eqb_spec k key') as [->|Hne'].
      * rewrite (proj2 (String.eqb_neq key key')) by congruence. reflexivity.
      * reflexivity.
Qed.

Lemma Object_keys_delete_prop obj key :
  Object_keys (delete_prop obj key)
  = List.filter (fun k => negb (String.eqb k key)) (Object_keys obj).
Proof.
  unfold delete_prop, Object_keys. induction obj as [|[k v] rest IH]; simpl; [reflexivity|].
  destruct (String.eqb k key); simpl; rewrite IH; reflexivity.
Qed.

(** *** [pickObjectKeys] *)

(** The loop of [pickObjectKeys] as a series of assignments. *)
Lemma pickObjectKeys_assignments obj (keys : list string) :
  Utils.pickObjectKeys keeps_accessor obj keys
  = properties
      (assign_all keeps_accessor
         (List.map (fun key => (key, get_prop obj key)) (List.filter (hasOwn obj) keys))
         empty_object).
Proof.
  unfold Utils.pickObjectKeys. f_equal. generalize (@empty_object V).
  induction keys as [|key keys IH]; intros built; [reflexivity|].
  cbn [List.fold_left List.filter]. rewrite IH.
  destruct (hasOwn obj key); reflexivity.
Qed.

Lemma picked_keys obj (keys : list string) :
  List.map fst (List.map (fun key => (key, get_prop obj key)) (List.filter (hasOwn obj) keys))
  = List.filter (hasOwn obj) keys.
Proof. rewrite List.map_map. simpl. apply List.map_id. Qed.

(** The own properties of the object picked, at every key but '__proto__'. *)
Lemma pickObjectKeys_reads (obj : Obj V) (keys : list string) (key : string) :
  key ≠ "__proto__" →
  (hasOwn (Utils.pickObjectKeys keeps_accessor obj keys) key = true
   ↔ In key keys ∧ hasOwn obj key = true)
  ∧ (In key keys →
     get_prop (Utils.pickObjectKeys keeps_accessor obj keys) key = get_prop obj key).
Proof.
  intros Hkey. rewrite pickObjectKeys_assignments.
  assert (Hget : get_prop
                   (properties
                      (assign_all keeps_accessor
                         (List.map (fun key => (key, get_prop obj key))
                            (List.filter (hasOwn obj) keys)) empty_object)) key
                 = if bool_decide (key ∈ List.filter (hasOwn obj) keys)
                   then get_prop obj key else None)
    by (apply get_prop_assign_graph; assumption).
  split.
  - rewrite hasOwn_assign_all, hasOwn_set_all, picked_keys, List.filter_In by assumption.
    split; [intros [Hin|Hin]; [assumption | discriminate Hin] | tauto].
  - intros Hin. rewrite Hget. destruct (hasOwn obj key) eqn:Hown.
    + rewrite bool_decide_eq_true_2; [reflexivity|].
      apply list_elem_of_In, List.filter_In. tauto.
    + rewrite (get_prop_not_own obj key Hown). destruct (bool_decide _); reflexivity.
Qed.

(** X1 ([pickObjectKeys]).  At every key but '__proto__' the object picked
    from [obj] by [keys] has an own property exactly when the key is among
    [keys] and an own property of [obj], with the value it has in [obj] (a
    property bound to [undefined] is kept as such); a key not among [keys]
    is no own property of it.  When the keys are pairwise distinct, an own
    property '__proto__' of [obj] is not copied: the assignment goes to the
    accessor of [Object.prototype].  The object then lists the keys picked
    as JavaScript does: the array indices first, in ascending order, then
    the others in the order of [keys], which is the order of [keys] itself
    when [keys] lists array indices first and in ascending order. *)
Theorem pickObjectKeys_own_properties (obj : Obj V) (keys : list string) :
  (∀ key, key ≠ "__proto__" →
     (hasOwn (Utils.pickObjectKeys keeps_accessor obj keys) key = true
      ↔ In key keys ∧ hasOwn obj key = true)
     ∧ (In key keys →
        get_prop (Utils.pickObjectKeys keeps_accessor obj keys) key = get_prop obj key))
  ∧ (∀ key, ¬ In key keys → get_prop (Utils.pickObjectKeys keeps_accessor obj keys) key = None)
  ∧ (List.NoDup keys →
     hasOwn (Utils.pickObjectKeys keeps_accessor obj keys) "__proto__" = false
     ∧ Permutation (Object_keys (Utils.pickObjectKeys keeps_accessor obj keys))
         (own_keys (List.filter (hasOwn obj) keys))
     ∧ indices_first (Object_keys (Utils.pickObjectKeys keeps_accessor obj keys))
     ∧ name_keys (Object_keys (Utils.pickObjectKeys keeps_accessor obj keys))
       = name_keys (own_keys (List.filter (hasOwn obj) keys))
     ∧ (indices_first keys →
        Object_keys (Utils.pickObjectKeys keeps_accessor obj keys)
        = own_keys (List.filter (hasOwn obj) keys))).
Proof.
  split; [intros key Hkey; apply pickObjectKeys_reads; assumption|].
  rewrite pickObjectKeys_assignments. split.
  - intros key Hnin. apply get_prop_not_assigned. rewrite picked_keys, List.filter_In. tauto.
  - intros Hnd.
    destruct (built_from_distinct_keys keeps_accessor
                (List.map (fun key => (key, get_prop obj key)) (List.filter (hasOwn obj) keys)))
      as (_ & Hproto & Hperm & Hordered & Hnames & Hsame).
    { rewrite picked_keys. apply List.NoDup_filter. assumption. }
    rewrite picked_keys in Hperm, Hnames, Hsame.
    split; [exact Hproto|]. split; [exact Hperm|]. split; [exact Hordered|].
    split; [exact Hnames|].
    intros Hkeys. rewrite Hsame by (apply ordered_from_filter; exact Hkeys).
    unfold Object_keys. rewrite own_keys_fst, picked_keys. reflexivity.
Qed.

(** *** [omitObjectKeys] *)

Lemma omit_fold_get (omitKeys : list string) result key :
  get_prop (List.fold_left (fun result key => delete_prop result key) omitKeys result) key
  = if bool_decide (key ∈ omitKeys) then None else get_prop result key.
Proof.
  revert result. induction omitKeys as [|k ks IH]; intros result; simpl.
  - reflexivity.
  - rewrite IH, get_prop_delete_prop.
    destruct (bool_decide_reflect (key ∈ ks)) as [Hin|Hnin].
    + rewrite bool_decide_eq_true_2 by in_cons_tail. reflexivity.
    + destruct (String.eqb_spec k key) as [->|Hne].
      * rewrite bool_decide_eq_true_2 by in_cons_head. reflexivity.
      * rewrite bool_decide_eq_false_2 by not_in_cons. reflexivity.
Qed.

Lemma omit_fold_keys (omitKeys : list string) result :
  Object_keys (List.fold_left (fun result key => delete_prop result key) omitKeys result)
  = List.filter (fun k => negb (bool_decide (k ∈ omitKeys))) (Object_keys result).
Proof.
  revert result. induction omitKeys as [|k ks IH]; intros result; simpl.
  - induction (Object_keys result) as [|x xs IHx]; simpl; [reflexivity|].
    rewrite <- IHx. reflexivity.
  - rewrite IH, Object_keys_delete_prop.
    induction (Object_keys result) as [|x xs IHx]; simpl; [reflexivity|].
    destruct (String.eqb_spec x k) as [->|Hne]; simpl.
    + rewrite (bool_decide_eq_true_2 (k ∈ k :: ks)) by in_cons_head. simpl.
      exact IHx.
    + destruct (bool_decide_reflect (x ∈ ks)) as [Hin|Hnin]; simpl.
      * rewrite (bool_decide_eq_true_2 (x ∈ k :: ks)) by in_cons_tail. simpl.
        exact IHx.
      * rewrite (bool_decide_eq_false_2 (x ∈ k :: ks)) by not_in_cons.
        simpl. rewrite IHx. reflexivity.
Qed.


(** For one list of keys [pickObjectKeys] and [omitObjectKeys] split an
    object: every own property of [obj] but '__proto__' is an own property
    of exactly one of the two results, and reading a key from the picked
    part, else from the rest, gives what [obj] gives. *)
Lemma pick_and_omit_split_object (obj : Obj V) (keys : list string) (key : string) :
  key ≠ "__proto__" →
  hasOwn obj key
  = xorb (hasOwn (Utils.pickObjectKeys keeps_accessor obj keys) key)
         (hasOwn (Utils.omitObjectKeys obj keys) key)
  ∧ hasOwn (Utils.pickObjectKeys keeps_accessor obj keys) key
    && hasOwn (Utils.omitObjectKeys obj keys) key = false
  ∧ get_prop obj key
    = (if hasOwn (Utils.pickObjectKeys keeps_accessor obj keys) key
       then get_prop (Utils.pickObjectKeys keeps_accessor obj keys) key
       else get_prop (Utils.omitObjectKeys obj keys) key).
Proof.
  intros Hkey.
  destruct (pickObjectKeys_reads obj keys key Hkey) as [Hown Hget].
  assert (Hrest : hasOwn (Utils.omitObjectKeys obj keys) key
                  = negb (bool_decide (key ∈ keys)) && hasOwn obj key).
  { unfold Utils.omitObjectKeys. apply eq_true_iff_eq.
    rewrite andb_true_iff, negb_true_iff, !hasOwn_In, omit_fold_keys.
    rewrite List.filter_In, negb_true_iff, bool_decide_eq_false, list_elem_of_In. tauto. }
  assert (Hpick : hasOwn (Utils.pickObjectKeys keeps_accessor obj keys) key
                  = bool_decide (key ∈ keys) && hasOwn obj key).
  { apply eq_true_iff_eq. rewrite Hown, andb_true_iff, bool_decide_eq_true, list_elem_of_In.
    tauto. }
  rewrite Hrest, Hpick.
  destruct (bool_decide_reflect (key ∈ keys)) as [Hin|Hnin];
    destruct (hasOwn obj key) eqn:Hobj; simpl; repeat split; try reflexivity.
  - symmetry. apply Hget. apply list_elem_of_In. assumption.
  - unfold Utils.omitObjectKeys. rewrite omit_fold_get, bool_decide_eq_true_2 by assumption.
    apply get_prop_not_own. assumption.
  - unfold Utils.omitObjectKeys. rewrite omit_fold_get, bool_decide_eq_false_2 by assumption.
    reflexivity.
  - unfold Utils.omitObjectKeys. rewrite omit_fold_get, bool_decide_eq_false_2 by assumption.
    reflexivity.
Qed.

(** *** [objectFromKeysAndValues] *)

(** The loop of [objectFromKeysAndValues] as a series of assignments. *)
Lemma objectFromKeysAndValues_assignments (keys : list string) (i : nat)
    (values : list (option V)) (built : Built V) :
  Utils.objectFromKeysAndValues_from keeps_accessor keys i values built
  = assign_all keeps_accessor (zipped_from keys i values) built.
Proof.
  revert i built. induction keys as [|key keys IH]; intros i built; [reflexivity|].
  cbn [Utils.objectFromKeysAndValues_from zipped_from]. rewrite IH. reflexivity.
Qed.

Lemma zipped_keys (keys : list string) (i : nat) (values : list (option V)) :
  List.map fst (zipped_from keys i values) = keys.
Proof.
  revert i. induction keys as [|key keys IH]; intros i; simpl; [reflexivity|].
  rewrite IH. reflexivity.
Qed.

Lemma zipped_lookup (keys : list string) (i j : nat) (values : list (option V)) key :
  keys !! j = Some key →
  zipped_from keys i values !! j = Some (key, mjoin (values !! (i + j)%nat)).
Proof.
  revert i j. induction keys as [|k keys IH]; intros i j; [discriminate|].
  destruct j as [|j]; simpl.
  - intros [= ->]. rewrite Nat.add_0_r. reflexivity.
  - intros Hj. replace (i + S j)%nat with (S i + j)%nat by lia. apply IH. assumption.
Qed.

Lemma zipped_drop (keys : list string) (i j : nat) (values : list (option V)) :
  drop j (zipped_from keys i values) = zipped_from (drop j keys) (i + j) values.
Proof.
  revert i j. induction keys as [|k keys IH]; intros i j.
  - destruct j; reflexivity.
  - destruct j as [|j]; simpl.
    + rewrite Nat.add_0_r. reflexivity.
    + rewrite IH. f_equal. lia.
Qed.

(** Zipping the keys of an object with its values gives its properties. *)
Lemma zipped_properties (done rest : Obj V) :
  zipped_from (Object_keys rest) (length done) (List.map snd (done ++ rest)) = rest.
Proof.
  revert done. induction rest as [|[k v] rest IH]; intros done; [reflexivity|].
  cbn [Object_keys List.map fst zipped_from]. f_equal.
  - f_equal. rewrite List.map_app, lookup_app_r by (rewrite List.length_map; lia).
    rewrite List.length_map, Nat.sub_diag. reflexivity.
  - specialize (IH (done ++ [(k, v)])). rewrite <- List.app_assoc in IH.
    rewrite length_app in IH. simpl in IH. rewrite Nat.add_1_r in IH. exact IH.
Qed.

(** The value read at a key that a series of assignments sets last at a
    given position. *)
Lemma get_prop_last_assignment (assignments : list (string * option V)) (j : nat)
    key value :
  assignments !! j = Some (key, value) →
  ¬ In key (List.map fst (drop (S j) assignments)) →
  get_prop (List.rev assignments) key = value.
Proof.
  intros Hj Hlast.
  rewrite <- (take_drop_middle assignments j (key, value) Hj).
  rewrite List.rev_app_distr. cbn [List.rev]. rewrite <- List.app_assoc, get_prop_app.
  assert (Hown : hasOwn (List.rev (drop (S j) assignments)) key = false).
  { apply hasOwn_false. unfold Object_keys. rewrite List.map_rev, <- List.in_rev.
    assumption. }
  rewrite Hown. simpl. rewrite String.eqb_refl. reflexivity.
Qed.

(** X3 ([objectFromKeysAndValues]).  Reading a key other than '__proto__'
    from the object built gives the value at the index of the last
    occurrence of the key in [keys] ([undefined] when [values] is shorter);
    a key not among [keys] is no own property.  When the keys are pairwise
    distinct, no property '__proto__' is created (the assignment goes to the
    accessor of [Object.prototype]), and the object lists the other keys as
    JavaScript does: the array indices first, in ascending order, then the
    rest in the order of [keys].  Zipping the keys and the values of an
    object without own property '__proto__' gives that object back, which is
    what [promiseAllObj] relies on. *)
Theorem objectFromKeysAndValues_zips (keys : list string) (values : list (option V)) :
  (∀ (i : nat) key, key ≠ "__proto__" → keys !! i = Some key → ¬ In key (drop (S i) keys) →
     get_prop (Utils.objectFromKeysAndValues keeps_accessor keys values) key
     = mjoin (values !! i))
  ∧ (∀ key, ¬ In key keys →
       get_prop (Utils.objectFromKeysAndValues keeps_accessor keys values) key = None)
  ∧ (List.NoDup keys →
     hasOwn (Utils.objectFromKeysAndValues keeps_accessor keys values) "__proto__" = false
     ∧ Permutation (Object_keys (Utils.objectFromKeysAndValues keeps_accessor keys values))
         (own_keys keys)
     ∧ indices_first (Object_keys (Utils.objectFromKeysAndValues keeps_accessor keys values))
     ∧ name_keys (Object_keys (Utils.objectFromKeysAndValues keeps_accessor keys values))
       = name_keys (own_keys keys)
     ∧ (indices_first keys →
        Object_keys (Utils.objectFromKeysAndValues keeps_accessor keys values)
        = own_keys keys))
  ∧ (∀ obj : Obj V,
       List.NoDup (Object_keys obj) → indices_first (Object_keys obj) →
       hasOwn obj "__proto__" = false →
       Utils.objectFromKeysAndValues keeps_accessor (Object_keys obj) (List.map snd obj)
       = obj).
Proof.
  unfold Utils.objectFromKeysAndValues. split; [|split; [|split]].
  - intros i key Hkey Hi Hlast. rewrite objectFromKeysAndValues_assignments.
    rewrite get_prop_assign_all, get_prop_set_all, app_nil_r by assumption.
    apply (get_prop_last_assignment _ i).
    + apply (zipped_lookup keys 0 i values key Hi).
    + rewrite zipped_drop, zipped_keys. assumption.
  - intros key Hnin. rewrite objectFromKeysAndValues_assignments.
    apply get_prop_not_assigned. rewrite zipped_keys. assumption.
  - intros Hnd. rewrite objectFromKeysAndValues_assignments.
    destruct (built_from_distinct_keys keeps_accessor (zipped_from keys 0 values))
      as (_ & Hproto & Hperm & Hordered & Hnames & Hsame).
    { rewrite zipped_keys. assumption. }
    rewrite zipped_keys in Hperm, Hnames, Hsame.
    split; [exact Hproto|]. split; [exact Hperm|]. split; [exact Hordered|].
    split; [exact Hnames|].
    intros Hkeys. rewrite Hsame by exact Hkeys.
    unfold Object_keys. rewrite own_keys_fst, zipped_keys. reflexivity.
  - intros obj Hnd Hordered Hproto. rewrite objectFromKeysAndValues_assignments.
    pose proof (zipped_properties [] obj) as Hzip. simpl in Hzip. rewrite Hzip.
    destruct (built_from_distinct_keys keeps_accessor obj) as (_ & _ & _ & _ & _ & Hsame);
      [exact Hnd|].
    rewrite (Hsame Hordered). unfold own_assignments.
    apply hasOwn_false in Hproto. unfold Object_keys in Hproto. clear -Hproto.
    induction obj as [|[k v] rest IH]; simpl in *; [reflexivity|].
    destruct (String.eqb_spec k "__proto__") as [->|Hne]; [tauto|]. simpl.
    rewrite IH by tauto. reflexivity.
Qed.

(** *** [mapArrToObj] and [mapObjToObj] *)

Lemma mapped_keys {VIn : Type} (f : string → option VIn) (keys : list string) :
  List.map fst (List.map (fun key => (key, f key)) keys) = keys.
Proof. rewrite List.map_map. simpl. apply List.map_id. Qed.

Lemma mapArrToObj_assignments (array : list string) (getValue : string → option V) :
  Utils.mapArrToObj keeps_accessor array getValue
  = properties
      (assign_all keeps_accessor (List.map (fun key => (key, getValue key)) array)
         empty_object).
Proof.
  unfold Utils.mapArrToObj, assign_all. f_equal. generalize (@empty_object V).
  induction array as [|key array IH]; intros built; [reflexivity|]. simpl. apply IH.
Qed.

Lemma mapObjToObj_assignments {VIn : Type} (obj : Obj VIn)
    (getValue : string → option VIn → option V) :
  Utils.mapObjToObj keeps_accessor obj getValue
  = Utils.mapArrToObj keeps_accessor (Object_keys obj)
      (fun key => getValue key (get_prop obj key)).
Proof. reflexivity. Qed.

Lemma mapArrToObj_reads (array : list string) (getValue : string → option V) :
  (∀ key, key ≠ "__proto__" → In key array →
     get_prop (Utils.mapArrToObj keeps_accessor array getValue) key = getValue key)
  ∧ (∀ key, ¬ In key array →
       get_prop (Utils.mapArrToObj keeps_accessor array getValue) key = None)
  ∧ (List.NoDup array →
     hasOwn (Utils.mapArrToObj keeps_accessor array getValue) "__proto__" = false
     ∧ Permutation (Object_keys (Utils.mapArrToObj keeps_accessor array getValue))
         (own_keys array)
     ∧ indices_first (Object_keys (Utils.mapArrToObj keeps_accessor array getValue))
     ∧ name_keys (Object_keys (Utils.mapArrToObj keeps_accessor array getValue))
       = name_keys (own_keys array)
     ∧ (indices_first array →
        Object_keys (Utils.mapArrToObj keeps_accessor array getValue) = own_keys array)).
Proof.
  rewrite mapArrToObj_assignments. split; [|split].
  - intros key Hkey Hin. rewrite get_prop_assign_graph by assumption.
    rewrite bool_decide_eq_true_2 by (apply list_elem_of_In; assumption). reflexivity.
  - intros key Hnin. apply get_prop_not_assigned. rewrite mapped_keys. assumption.
  - intros Hnd.
    destruct (built_from_distinct_keys keeps_accessor
                (List.map (fun key => (key, getValue key)) array))
      as (_ & Hproto & Hperm & Hordered & Hnames & Hsame).
    { rewrite mapped_keys. assumption. }
    rewrite mapped_keys in Hperm, Hnames, Hsame.
    split; [exact Hproto|]. split; [exact Hperm|]. split; [exact Hordered|].
    split; [exact Hnames|].
    intros Hkeys. rewrite Hsame by exact Hkeys.
    unfold Object_keys. rewrite own_keys_fst, mapped_keys. reflexivity.
Qed.

End ObjectFacts.

(** Picking the keys 'b', '__proto__', '1' and 'c' from an object with the
    own properties '1', 'a', 'b' and '__proto__'. *)
Lemma pickObjectKeys_own_properties_witness :
  hasOwn
    (Utils.pickObjectKeys Json_keeps_accessor
       [("1", Some (JNum 1)); ("a", Some (JNum 0)); ("b", Some (JNum 2));
        ("__proto__", Some (JObj []))]
       ["b"; "__proto__"; "1"; "c"]) "__proto__" = false
  ∧ indices_first
      (Object_keys
         (Utils.pickObjectKeys Json_keeps_accessor
            [("1", Some (JNum 1)); ("a", Some (JNum 0)); ("b", Some (JNum 2));
             ("__proto__", Some (JObj []))]
            ["b"; "__proto__"; "1"; "c"])).
Proof.
  destruct (pickObjectKeys_own_properties Json_keeps_accessor
              [("1", Some (JNum 1)); ("a", Some (JNum 0)); ("b", Some (JNum 2));
               ("__proto__", Some (JObj []))]
              ["b"; "__proto__"; "1"; "c"]) as (_ & _ & Hdistinct).
  destruct Hdistinct as (Hproto & _ & Hordered & _).
  - apply NoDup_ListNoDup; apply (bool_decide_unpack _); vm_compute; exact I.
  - split; assumption.
Defined.

Example pickObjectKeys_index_first :
  Utils.pickObjectKeys Json_keeps_accessor
    [("1", Some (JNum 1)); ("a", Some (JNum 0)); ("b", Some (JNum 2));
     ("__proto__", Some (JObj []))]
    ["b"; "__proto__"; "1"; "c"]
  = [("1", Some (JNum 1)); ("b", Some (JNum 2))].
Proof. reflexivity. Qed.

(** Zipping the keys 'x', '2', 'x' and '1' with three values: the second
    value of 'x' takes the place of the first, and '1' gets [undefined]. *)
Lemma objectFromKeysAndValues_zips_witness :
  get_prop
    (Utils.objectFromKeysAndValues Json_keeps_accessor ["x"; "2"; "x"; "1"]
       [Some (JNum 1); Some (JNum 2); Some (JNum 3)]) "x" = Some (JNum 3)
  ∧ Utils.objectFromKeysAndValues Json_keeps_accessor ["1"; "2"; "x"]
      [None; Some (JNum 2); Some (JNum 3)]
    = [("1", None); ("2", Some (JNum 2)); ("x", Some (JNum 3))].
Proof.
  split.
  - apply (proj1 (objectFromKeysAndValues_zips Json_keeps_accessor ["x"; "2"; "x"; "1"]
                    [Some (JNum 1); Some (JNum 2); Some (JNum 3)]) 2%nat "x").
    + discriminate.
    + reflexivity.
    + simpl. intros [H|[]]. discriminate H.
  - apply (proj2 (proj2 (proj2 (objectFromKeysAndValues_zips Json_keeps_accessor [] [])))
             [("1", None); ("2", Some (JNum 2)); ("x", Some (JNum 3))]).
    + apply NoDup_ListNoDup; apply (bool_decide_unpack _); vm_compute; exact I.
    + reflexivity.
    + reflexivity.
Defined.

Example objectFromKeysAndValues_index_first :
  Utils.objectFromKeysAndValues Json_keeps_accessor ["x"; "2"; "x"; "1"]
    [Some (JNum 1); Some (JNum 2); Some (JNum 3)]
  = [("1", None); ("2", Some (JNum 2)); ("x", Some (JNum 3))].
Proof. reflexivity. Qed.

(** X4 ([mapArrToObj] and [mapObjToObj]).  At every key [k] of the array but
    '__proto__' the object built from an array of keys has the own property
    [getValue(k)]; a key not in the array is no own property of it.  For
    pairwise distinct keys no property '__proto__' is created (the
    assignment goes to the accessor of [Object.prototype]), and the keys are
    listed as JavaScript does: the array indices first, in ascending order,
    then the others in the order of the array.  The object built from an
    object has, but for '__proto__', the keys of that object in the same
    order, with the own property [getValue(k, obj[k])] at each of them. *)
Theorem mapArrToObj_mapObjToObj_comprehensions {VIn VOut : Type}
    (keeps_accessor : option VOut → bool) :
  (∀ (array : list string) (getValue : string → option VOut),
     (∀ key, key ≠ "__proto__" → In key array →
        get_prop (Utils.mapArrToObj keeps_accessor array getValue) key = getValue key)
     ∧ (∀ key, ¬ In key array →
          get_prop (Utils.mapArrToObj keeps_accessor array getValue) key = None)
     ∧ (List.NoDup array →
        hasOwn (Utils.mapArrToObj keeps_accessor array getValue) "__proto__" = false
        ∧ Permutation (Object_keys (Utils.mapArrToObj keeps_accessor array getValue))
            (own_keys array)
        ∧ indices_first (Object_keys (Utils.mapArrToObj keeps_accessor array getValue))
        ∧ name_keys (Object_keys (Utils.mapArrToObj keeps_accessor array getValue))
          = name_keys (own_keys array)
        ∧ (indices_first array →
           Object_keys (Utils.mapArrToObj keeps_accessor array getValue)
           = own_keys array)))
  ∧ (∀ (obj : Obj VIn) (getValue : string → option VIn → option VOut),
       List.NoDup (Object_keys obj) → indices_first (Object_keys obj) →
       Object_keys (Utils.mapObjToObj keeps_accessor obj getValue)
       = own_keys (Object_keys obj)
       ∧ (∀ key, key ≠ "__proto__" → hasOwn obj key = true →
            get_prop (Utils.mapObjToObj keeps_accessor obj getValue) key
            = getValue key (get_prop obj key))
       ∧ (∀ key, hasOwn obj key = false →
            get_prop (Utils.mapObjToObj keeps_accessor obj getValue) key = None)).
Proof.
  split.
  - intros array getValue. apply mapArrToObj_reads.
  - intros obj getValue Hnd Hordered. rewrite mapObjToObj_assignments.
    destruct (mapArrToObj_reads keeps_accessor (Object_keys obj)
                (fun key => getValue key (get_prop obj key))) as (Hin & Hnot & Hkeys).
    destruct (Hkeys Hnd) as (_ & _ & _ & _ & Hsame).
    split; [exact (Hsame Hordered)|]. split.
    + intros key Hkey Hown. apply Hin; [assumption|]. apply hasOwn_In. assumption.
    + intros key Hown. apply Hnot. apply hasOwn_false. assumption.
Qed.

(** A record of a person, as in the documentation of the module, with one
    more property under an array index. *)
Lemma mapArrToObj_mapObjToObj_comprehensions_witness :
  Object_keys
    (Utils.mapObjToObj (fun _ : option string => true)
       [("7", Some (JNum 7)); ("name", Some (JStr "Bob")); ("age", Some (JNum 42))]
       (fun key value => Some (Utils.canonicalJsonString (default JNull value))))
  = ["7"; "name"; "age"]
  ∧ Object_keys
      (Utils.mapArrToObj Json_keeps_accessor ["b"; "10"; "__proto__"; "9"; "a"]
         (fun key => Some (JStr key)))
    = ["9"; "10"; "b"; "a"].
Proof.
  split.
  - apply (proj2 (mapArrToObj_mapObjToObj_comprehensions (VIn := Json)
                    (fun _ : option string => true))
             [("7", Some (JNum 7)); ("name", Some (JStr "Bob")); ("age", Some (JNum 42))]
             (fun key value => Some (Utils.canonicalJsonString (default JNull value)))).
    + apply NoDup_ListNoDup; apply (bool_decide_unpack _); vm_compute; exact I.
    + reflexivity.
  - reflexivity.
Defined.

(** ** Arrays: ranges, sorting, slices and filters *)

(** An integer up to [2^53] in absolute value is a binary64 number. *)
Lemma round_binary64_exact (z : Z) : - 2 ^ 53 ≤ z ≤ 2 ^ 53 → Utils.round_binary64 z = z.
Proof.
  intros Hz. unfold Utils.round_binary64.
  destruct (Z.leb_spec (Z.abs z) (2 ^ 53)); [reflexivity | lia].
Qed.

(** Rounding an integer above [2^53] gives no less than [2^52]. *)
Lemma round_binary64_large (z : Z) : 2 ^ 53 < z → 2 ^ 52 ≤ Utils.round_binary64 z.
Proof.
  intros Hz. unfold Utils.round_binary64.
  destruct (Z.leb_spec (Z.abs z) (2 ^ 53)) as [Hsmall|_]; [lia|].
  rewrite Z.abs_eq, Z.sgn_pos, Z.mul_1_l by lia.
  pose proof (Z.log2_spec z ltac:(lia)) as [Hlow _].
  assert (Hlog : 53 ≤ Z.log2 z).
  { apply Z.log2_le_pow2; lia. }
  set (ulp := 2 ^ (Z.log2 z - 52)) in *.
  assert (Hulp : 0 < ulp) by (apply Z.pow_pos_nonneg; lia).
  assert (Hpow : 2 ^ Z.log2 z = 2 ^ 52 * ulp).
  { unfold ulp. rewrite <- Z.pow_add_r by lia. f_equal. lia. }
  assert (Hq : 2 ^ 52 ≤ z / ulp).
  { apply Z.div_le_lower_bound; lia. }
  destruct ((2 * (z mod ulp) <? ulp) || ((2 * (z mod ulp) =? ulp) && Z.even (z / ulp))); nia.
Qed.

(** Rounding keeps the sign. *)
Lemma round_binary64_negative (z : Z) : z ≤ 0 → Utils.round_binary64 z ≤ 0.
Proof.
  intros Hz. unfold Utils.round_binary64.
  destruct (Z.leb_spec (Z.abs z) (2 ^ 53)) as [_|Hlarge]; [assumption|].
  set (ulp := 2 ^ (Z.log2 (Z.abs z) - 52)).
  assert (Hulp : 0 ≤ ulp) by (apply Z.pow_nonneg; lia).
  assert (Hq : 0 ≤ Z.abs z / ulp).
  { apply Z.div_pos; [lia|]. apply Z.pow_pos_nonneg; [lia|].
    assert (53 ≤ Z.log2 (Z.abs z)) by (apply Z.log2_le_pow2; lia). lia. }
  assert (Hsgn : Z.sgn z = -1) by (apply Z.sgn_neg; lia). rewrite Hsgn.
  destruct ((2 * (Z.abs z mod ulp) <? ulp)
            || ((2 * (Z.abs z mod ulp) =? ulp) && Z.even (Z.abs z / ulp))); nia.
Qed.

(** X5 ([range]).  For integers [start] and [end] up to [2^53] in absolute
    value, among which the arithmetic of the host is exact,
    [range(start, end)] is the list of the integers from [start] up to, not
    including, [end], in increasing order: it is empty when [end <= start].
    A span above [2^32 - 1] is refused by the array constructor.  [range(n)]
    is [range(0, n)]. *)
Theorem range_half_open_interval (start end_ : Z) :
  - 2 ^ 53 ≤ start ≤ 2 ^ 53 → - 2 ^ 53 ≤ end_ ≤ 2 ^ 53 →
  (end_ - start ≤ Utils.max_array_length →
   ∃ xs, Utils.range start (Some end_) = Ok xs
         ∧ Z.of_nat (length xs) = Z.max (end_ - start) 0
         ∧ (∀ i : nat, (i < length xs)%nat → xs !! i = Some (start + Z.of_nat i))
         ∧ (∀ x, In x xs ↔ start ≤ x < end_))
  ∧ (Utils.max_array_length < end_ - start →
     ∃ e, Utils.range start (Some end_) = Throw e)
  ∧ Utils.range end_ None = Utils.range 0 (Some end_).
Proof.
  intros Hstart Hend. unfold Utils.range. split; [|split; [|reflexivity]].
  - intros Hspan. unfold Utils.max_array_length in *.
    assert (Hlength : Z.max (Utils.round_binary64 (end_ - start)) 0 = Z.max (end_ - start) 0).
    { destruct (Z.le_gt_cases 0 (end_ - start)) as [Hpos|Hneg].
      - rewrite round_binary64_exact by lia. reflexivity.
      - pose proof (round_binary64_negative (end_ - start)). lia. }
    rewrite Hlength.
    destruct (Z.ltb_spec (2 ^ 32 - 1) (Z.max (end_ - start) 0)) as [Hbig|_]; [lia|].
    assert (Hexact : ∀ i : nat, (i < Z.to_nat (Z.max (end_ - start) 0))%nat →
              Utils.round_binary64 (start + Z.of_nat i) = start + Z.of_nat i).
    { intros i Hi. apply round_binary64_exact. lia. }
    eexists. split; [reflexivity|]. split; [|split].
    + rewrite List.length_map, List.length_seq. lia.
    + intros i Hi. rewrite List.length_map, List.length_seq in Hi.
      rewrite list_lookup_fmap. rewrite lookup_seq_lt by assumption. simpl.
      rewrite Hexact by assumption. reflexivity.
    + intros x. rewrite List.in_map_iff. split.
      * intros (i & <- & Hi). apply List.in_seq in Hi. rewrite Hexact by lia. lia.
      * intros [Hlo Hhi]. exists (Z.to_nat (x - start)). split.
        -- rewrite Hexact by lia. lia.
        -- apply List.in_seq. lia.
  - intros Hbig. unfold Utils.max_array_length in *.
    assert (Hlength : 2 ^ 32 - 1 < Z.max (Utils.round_binary64 (end_ - start)) 0).
    { destruct (Z.le_gt_cases (end_ - start) (2 ^ 53)) as [Hsmall|Hlarge].
      - rewrite round_binary64_exact by lia. lia.
      - pose proof (round_binary64_large _ Hlarge). lia. }
    destruct (Z.ltb_spec (2 ^ 32 - 1) (Z.max (Utils.round_binary64 (end_ - start)) 0));
      [eauto | lia].
Qed.

Lemma range_half_open_interval_witness :
  ∃ xs, Utils.range 2 (Some 5) = Ok xs
        ∧ (∀ x, In x xs ↔ 2 ≤ x < 5)
        ∧ ∃ e, Utils.range (- 2 ^ 32) (Some 0) = Throw e.
Proof.
  destruct (range_half_open_interval 2 5 ltac:(lia) ltac:(lia)) as (Hlist & _ & _).
  destruct (Hlist ltac:(unfold Utils.max_array_length; lia)) as (xs & Hxs & _ & _ & Hin).
  exists xs. split; [exact Hxs|]. split; [exact Hin|].
  apply (range_half_open_interval (- 2 ^ 32) 0 ltac:(lia) ltac:(lia)).
  unfold Utils.max_array_length. lia.
Defined.

(** Beyond [2^53] the sums are rounded: a number comes twice and another is
    left out. *)
Example range_beyond_exact_integers :
  Utils.range (2 ^ 53) (Some (2 ^ 53 + 4))
  = Ok [2 ^ 53; 2 ^ 53; 2 ^ 53 + 2; 2 ^ 53 + 4].
Proof. reflexivity. Qed.

(** *** [sortIfNeeded] with any comparison function *)

Section SortAnyFacts.

Context {T : Type} `{Undefinable T} (compareFn : T → T → Z).

Lemma sort_insert_permutation (x : T) (l : list T) :
  Permutation (Utils.sort_insert compareFn x l) (x :: l).
Proof.
  induction l as [|y l IH]; simpl; [reflexivity|].
  destruct (0 <? compareFn x y); [|reflexivity].
  rewrite IH. apply perm_swap.
Qed.

Lemma insertion_sort_permutation (l : list T) :
  Permutation (List.fold_right (Utils.sort_insert compareFn) [] l) l.
Proof.
  induction l as [|x l IH]; simpl; [reflexivity|].
  rewrite sort_insert_permutation. constructor. exact IH.
Qed.

Lemma defined_and_undefined (l : list T) :
  Permutation (List.filter (fun x => negb (is_undefined x)) l ++ List.filter is_undefined l) l.
Proof.
  induction l as [|x l IH]; simpl; [reflexivity|].
  destruct (is_undefined x); simpl.
  - rewrite <- Permutation_middle. constructor. exact IH.
  - constructor. exact IH.
Qed.

Lemma Array_sort_permutation (l : list T) : Permutation (Utils.Array_sort compareFn l) l.
Proof.
  unfold Utils.Array_sort. rewrite insertion_sort_permutation. apply defined_and_undefined.
Qed.

Lemma has_descent_in_order (l : list T) :
  Utils.has_descent compareFn l = false ↔ Sorted (in_order compareFn) l.
Proof.
  unfold in_order. induction l as [|a [|b l] IH].
  - split; [constructor | reflexivity].
  - split; [repeat constructor | reflexivity].
  - change (Utils.has_descent compareFn (a :: b :: l))
      with ((0 <? compareFn a b) || Utils.has_descent compareFn (b :: l)).
    rewrite orb_false_iff, IH, Z.ltb_ge. split.
    + intros [Hab Hs]. constructor; [assumption | constructor; assumption].
    + intros Hs. apply Sorted_inv in Hs as [Hs Hhd]. inversion Hhd; subst. tauto.
Qed.

Hypothesis compareFn_consistent : consistent_comparator compareFn.

(** Of two defined elements one may come before the other. *)
Lemma comparator_total (a b : T) :
  defined a → defined b → 0 < compareFn a b → compareFn b a ≤ 0.
Proof using compareFn_consistent.
  intros Ha Hb Hab. destruct (Z.lt_ge_cases 0 (compareFn b a)) as [Hba|Hba]; [|assumption].
  pose proof (comparator_trans_gt compareFn compareFn_consistent a b a Ha Hb Ha Hab Hba).
  pose proof (comparator_refl compareFn compareFn_consistent a Ha). lia.
Qed.

Lemma sort_insert_in_order (x : T) (l : list T) :
  defined x → List.Forall defined l →
  Sorted (in_order compareFn) l → Sorted (in_order compareFn) (Utils.sort_insert compareFn x l).
Proof using compareFn_consistent.
  unfold in_order. induction l as [|y l IH]; intros Hx Hl Hs; simpl.
  - repeat constructor.
  - apply List.Forall_cons_iff in Hl as [Hy Hl].
    destruct (Z.ltb_spec 0 (compareFn x y)) as [Hlt|Hge].
    + apply Sorted_inv in Hs as [Hs Hhd]. constructor; [apply IH; assumption|].
      destruct l as [|z l]; simpl.
      * constructor. apply comparator_total; assumption.
      * destruct (Z.ltb_spec 0 (compareFn x z)); constructor.
        -- inversion Hhd; subst. assumption.
        -- apply comparator_total; assumption.
    + constructor; [assumption | constructor; assumption].
Qed.

Lemma insertion_sort_in_order (l : list T) :
  List.Forall defined l →
  Sorted (in_order compareFn) (List.fold_right (Utils.sort_insert compareFn) [] l).
Proof using compareFn_consistent.
  induction l as [|x l IH]; intros Hl; simpl; [constructor|].
  apply List.Forall_cons_iff in Hl as [Hx Hl].
  apply sort_insert_in_order; [assumption| |apply IH; assumption].
  apply List.Forall_forall. intros y Hy.
  apply (Permutation_in _ (insertion_sort_permutation l)) in Hy.
  revert y Hy. apply List.Forall_forall. assumption.
Qed.

Lemma filter_defined (l : list T) :
  List.Forall defined (List.filter (fun x => negb (is_undefined x)) l).
Proof.
  apply List.Forall_forall. intros x Hx. apply List.filter_In in Hx as [_ Hx].
  apply negb_true_iff in Hx. exact Hx.
Qed.

Lemma filter_all_defined (l : list T) :
  List.Forall defined l →
  List.filter (fun x => negb (is_undefined x)) l = l ∧ List.filter is_undefined l = [].
Proof.
  induction 1 as [|x l Hx Hl [IH1 IH2]]; simpl; [split; reflexivity|].
  rewrite Hx. simpl. rewrite IH1, IH2. split; reflexivity.
Qed.

End SortAnyFacts.

(** X6 ([sortIfNeeded]).  The result is a rearrangement of the array.  An
    array in which no element must come after its successor is returned as
    it is, wherever its [undefined] elements stand.  Any other array is
    sorted: its defined elements come first, and for a consistent comparison
    function each of them may come before its successor; its [undefined]
    elements, which the sort does not hand to the comparison function, come
    last.  So an array without [undefined] elements is in order after the
    call. *)
Theorem sortIfNeeded_in_order {T : Type} `{Undefinable T} (compareFn : T → T → Z)
    (array : list T) :
  consistent_comparator compareFn →
  Permutation (Utils.sortIfNeeded array compareFn) array
  ∧ (Sorted (in_order compareFn) array → Utils.sortIfNeeded array compareFn = array)
  ∧ (¬ Sorted (in_order compareFn) array →
     ∃ sorted,
       Utils.sortIfNeeded array compareFn = sorted ++ List.filter is_undefined array
       ∧ Sorted (in_order compareFn) sorted
       ∧ Permutation sorted (List.filter (fun x => negb (is_undefined x)) array))
  ∧ (List.Forall defined array →
     Sorted (in_order compareFn) (Utils.sortIfNeeded array compareFn)).
Proof.
  intros Hconsistent. unfold Utils.sortIfNeeded.
  destruct (Utils.has_descent compareFn array) eqn:Hdescent.
  - split; [apply Array_sort_permutation|].
    split; [intros Hs; apply has_descent_in_order in Hs; congruence|].
    split.
    + intros _. eexists. split; [reflexivity|].
      split; [|apply insertion_sort_permutation].
      apply insertion_sort_in_order; [assumption | apply filter_defined].
    + intros Hall. unfold Utils.Array_sort.
      destruct (filter_all_defined array Hall) as [-> ->]. rewrite app_nil_r.
      apply insertion_sort_in_order; assumption.
  - apply has_descent_in_order in Hdescent.
    split; [reflexivity|]. split; [reflexivity|].
    split; [intros Hnot; contradiction | intros _; assumption].
Qed.

Lemma compare_optional_consistent : consistent_comparator compare_optional.
Proof.
  split.
  - intros [a|] Ha; [simpl; lia | discriminate Ha].
  - intros [a|] [b|] Ha Hb; try discriminate; simpl; lia.
  - intros [a|] [b|] [c|] Ha Hb Hc; try discriminate; simpl; lia.
  - intros [a|] [b|] [c|] Ha Hb Hc; try discriminate; simpl; lia.
  - intros [a|] [b|] [c|] Ha Hb Hc; try discriminate; simpl; lia.
Qed.

(** The array [1, undefined, 0]: the check finds no descent at its first two
    pairs of neighbours, as a comparison with [undefined] gives [NaN]; the
    array [2, 1, undefined, 0] is sorted, to [0, 1, 2, undefined]. *)
Lemma sortIfNeeded_in_order_witness :
  Utils.sortIfNeeded [Some 1; None; Some 0] compare_optional = [Some 1; None; Some 0]
  ∧ ∃ sorted,
      Utils.sortIfNeeded [Some 2; Some 1; None; Some 0] compare_optional = sorted ++ [None]
      ∧ Sorted (in_order compare_optional) sorted.
Proof.
  split.
  - apply (sortIfNeeded_in_order compare_optional [Some 1; None; Some 0]
             compare_optional_consistent).
    repeat constructor; unfold in_order; simpl; lia.
  - destruct (sortIfNeeded_in_order compare_optional [Some 2; Some 1; None; Some 0]
                compare_optional_consistent) as (_ & _ & Hsorted & _).
    destruct Hsorted as (sorted & Heq & Hs & _).
    + intros Hs. apply Sorted_inv in Hs as [_ Hhd]. inversion Hhd as [|? ? Hle]; subst.
      unfold in_order in Hle. simpl in Hle. lia.
    + exists sorted. split; assumption.
Defined.

Example sortIfNeeded_undefined_last :
  Utils.sortIfNeeded [Some 2; Some 1; None; Some 0] compare_optional
  = [Some 0; Some 1; Some 2; None].
Proof. reflexivity. Qed.

(** *** [takeWhile], [takeFromWhile] and [filterInPlace] *)

Section SliceFacts.

Context {T : Type} (undefined : T).

Implicit Types (array : list T) (predicate : T → bool).

Lemma array_at_nat array (i : nat) (x : T) :
  array !! i = Some x → Utils.array_at undefined array (Z.of_nat i) = x.
Proof.
  intros Hx. unfold Utils.array_at, Utils.array_get.
  destruct (Z.ltb_spec (Z.of_nat i) 0); [lia|].
  rewrite Nat2Z.id, Hx. reflexivity.
Qed.

Lemma Array_slice_nat array (i j : nat) :
  (i ≤ j ≤ length array)%nat →
  Utils.Array_slice array (Z.of_nat i) (Z.of_nat j) = take (j - i) (drop i array).
Proof.
  intros Hij. unfold Utils.Array_slice, Utils.relative_index.
  destruct (Z.ltb_spec (Z.of_nat i) 0); [lia|].
  destruct (Z.ltb_spec (Z.of_nat j) 0); [lia|].
  rewrite !Z.min_l by lia. rewrite !Nat2Z.id. reflexivity.
Qed.

(** The loop stops behind the longest run of elements that fulfil the
    predicate. *)
Lemma advance_while_run predicate (run rest before : list T) (fuel : nat) :
  Forall (fun x => predicate x = true) run →
  (∀ x, head rest = Some x → predicate x = false) →
  (length run + length rest ≤ fuel)%nat →
  Utils.advance_while undefined fuel (before ++ run ++ rest) predicate (Z.of_nat (length before))
  = Z.of_nat (length before + length run).
Proof.
  revert before fuel. induction run as [|x run IH]; intros before fuel Hrun Hrest Hfuel.
  - simpl. rewrite Nat.add_0_r. destruct fuel as [|fuel]; [reflexivity|]. simpl.
    destruct rest as [|y rest].
    + rewrite (app_nil_r before).
      destruct (Z.ltb_spec (Z.of_nat (length before)) (Z.of_nat (length before))); [lia|].
      reflexivity.
    + rewrite (array_at_nat _ _ y).
      * rewrite (Hrest y eq_refl), andb_false_r. reflexivity.
      * rewrite lookup_app_r by lia. rewrite Nat.sub_diag. reflexivity.
  - destruct fuel as [|fuel]; [simpl in Hfuel; lia|]. simpl.
    apply Forall_cons in Hrun as [Hx Hrun].
    rewrite (array_at_nat _ _ x).
    + rewrite Hx, andb_true_r.
      destruct (Z.ltb_spec (Z.of_nat (length before))
                  (Z.of_nat (length (before ++ x :: run ++ rest)))) as [_|Hge].
      * specialize (IH (before ++ [x]) fuel Hrun Hrest).
        rewrite <- app_assoc in IH. simpl in IH.
        rewrite length_app in IH. simpl in IH.
        replace (Z.of_nat (length before) + 1) with (Z.of_nat (length before + 1)) by lia.
        rewrite IH by (simpl in Hfuel; lia). f_equal. lia.
      * rewrite length_app in Hge. simpl in Hge. lia.
    + rewrite lookup_app_r by lia. rewrite Nat.sub_diag. reflexivity.
Qed.

(** Every list splits into its longest run of elements that fulfil a
    predicate and the rest. *)
Lemma longest_run predicate (l : list T) :
  ∃ run rest, l = run ++ rest ∧ Forall (fun x => predicate x = true) run
              ∧ ∀ x, head rest = Some x → predicate x = false.
Proof.
  induction l as [|x l (run & rest & -> & Hrun & Hrest)].
  - exists [], []. repeat split; [constructor | discriminate].
  - destruct (predicate x) eqn:Hx.
    + exists (x :: run), rest. repeat split; [constructor; assumption | assumption].
    + exists [], (x :: run ++ rest). repeat split; [constructor|].
      intros y [= <-]. assumption.
Qed.

Lemma takeWhile_from_nat array predicate (fromIndex : nat) (run rest : list T) :
  drop fromIndex array = run ++ rest →
  Forall (fun x => predicate x = true) run →
  (∀ x, head rest = Some x → predicate x = false) →
  Utils.takeWhile undefined array predicate (Z.of_nat fromIndex) = run.
Proof.
  intros Hdrop Hrun Hrest. unfold Utils.takeWhile, Utils.while_fuel.
  destruct (decide (fromIndex ≤ length array)%nat) as [Hle|Hgt].
  - pose proof (take_drop fromIndex array) as Harray. rewrite Hdrop in Harray.
    assert (Hbefore : length (take fromIndex array) = fromIndex) by (rewrite length_take; lia).
    remember (take fromIndex array) as before eqn:Heq. clear Heq Hdrop Hle.
    subst array fromIndex.
    rewrite advance_while_run; [|assumption|assumption|rewrite !length_app; lia].
    rewrite Array_slice_nat by (rewrite !length_app; lia).
    rewrite drop_app_length.
    replace (length before + length run - length before)%nat with (length run) by lia.
    apply take_app_length.
  - assert (Hnil : run = []).
    { rewrite drop_ge in Hdrop by lia. symmetry in Hdrop.
      apply app_eq_nil in Hdrop as [-> _]. reflexivity. }
    subst run. replace (Z.to_nat (Z.of_nat (length array) - Z.of_nat fromIndex)) with O by lia.
    simpl. unfold Utils.Array_slice. rewrite Nat.sub_diag. reflexivity.
Qed.

Lemma findIndex_from_found predicate (before after : list T) (x : T) (i : Z) :
  Forall (fun y => predicate y = false) before → predicate x = true →
  Utils.findIndex_from predicate (before ++ x :: after) i = i + Z.of_nat (length before).
Proof.
  revert i. induction before as [|y before IH]; intros i Hbefore Hx; simpl.
  - rewrite Hx. lia.
  - apply Forall_cons in Hbefore as [Hy Hbefore]. rewrite Hy, IH by assumption. lia.
Qed.

Lemma findIndex_from_none predicate (l : list T) (i : Z) :
  Forall (fun y => predicate y = false) l → Utils.findIndex_from predicate l i = -1.
Proof.
  revert i. induction l as [|y l IH]; intros i Hl; simpl; [reflexivity|].
  apply Forall_cons in Hl as [Hy Hl]. rewrite Hy. apply IH. assumption.
Qed.

(** The loop of [filterInPlace]: the elements kept so far are at the front,
    the elements still to read at the back, and what lies between is
    garbage. *)
Lemma filterInPlace_loop_spec predicate (remaining kept junk : list T) :
  ∃ junk',
    Utils.filterInPlace_loop undefined predicate (length remaining)
      (length kept + length junk) (length kept) (kept ++ junk ++ remaining)
    = (length (kept ++ List.filter predicate remaining),
       (kept ++ List.filter predicate remaining) ++ junk').
Proof.
  revert kept junk. induction remaining as [|x remaining IH]; intros kept junk.
  - exists junk. simpl. rewrite !app_nil_r. reflexivity.
  - assert (Hread : Utils.array_get undefined (kept ++ junk ++ x :: remaining)
                      (length kept + length junk) = x).
    { unfold Utils.array_get. rewrite lookup_app_r by lia.
      rewrite lookup_app_r by lia.
      replace (length kept + length junk - length kept - length junk)%nat with O by lia.
      reflexivity. }
    cbn [length Utils.filterInPlace_loop List.filter]. rewrite Hread.
    destruct (predicate x) eqn:Hx.
    + assert (Hwrite : Utils.array_set undefined (kept ++ junk ++ x :: remaining) (length kept) x
                       = (kept ++ [x]) ++ tail (junk ++ [x]) ++ remaining).
      { unfold Utils.array_set. rewrite !length_app. simpl.
        destruct (decide _) as [_|Hge]; [|lia].
        replace (length kept) with (length kept + 0)%nat at 1 by lia.
        rewrite insert_app_r, <- app_assoc. f_equal.
        destruct junk as [|j junk]; simpl; [reflexivity|].
        rewrite <- app_assoc. reflexivity. }
      rewrite Hwrite.
      destruct (IH (kept ++ [x]) (tail (junk ++ [x]))) as [junk' Hloop].
      assert (Hjunk : length (tail (junk ++ [x])) = length junk).
      { destruct junk; simpl; [reflexivity|]. rewrite length_app. simpl. lia. }
      rewrite length_app, Hjunk in Hloop. simpl in Hloop.
      replace (S (length kept + length junk)) with (length kept + 1 + length junk)%nat by lia.
      replace (S (length kept)) with (length kept + 1)%nat by lia.
      rewrite Hloop. exists junk'. rewrite <- !app_assoc. reflexivity.
    + destruct (IH kept (junk ++ [x])) as [junk' Hloop].
      rewrite length_app in Hloop. simpl in Hloop.
      rewrite <- app_assoc in Hloop. simpl in Hloop.
      replace (S (length kept + length junk)) with (length kept + (length junk + 1))%nat by lia.
      rewrite Hloop. exists junk'. reflexivity.
Qed.

End SliceFacts.

(** X7 ([takeWhile]).  From a non-negative index on, [takeWhile] returns the
    longest run of consecutive elements that fulfil the predicate: what it
    returns is followed in the array by an element that fails the predicate
    or by the end of the array.  From an index behind the end it returns the
    empty array. *)
Theorem takeWhile_longest_run {T : Type} (undefined : T) (array : list T)
    (whilePredicate : T → bool) (fromIndex : nat) :
  let taken := Utils.takeWhile undefined array whilePredicate (Z.of_nat fromIndex) in
  (∃ rest, drop fromIndex array = taken ++ rest
           ∧ ∀ x, head rest = Some x → whilePredicate x = false)
  ∧ Forall (fun x => whilePredicate x = true) taken
  ∧ ((length array ≤ fromIndex)%nat → taken = []).
Proof.
  intros taken.
  destruct (longest_run whilePredicate (drop fromIndex array))
    as (run & rest & Hdrop & Hrun & Hrest).
  assert (Htaken : taken = run).
  { apply (takeWhile_from_nat undefined array whilePredicate fromIndex run rest); assumption. }
  rewrite Htaken. repeat split.
  - exists rest. split; assumption.
  - assumption.
  - intros Hlen. rewrite drop_ge in Hdrop by lia.
    symmetry in Hdrop. apply app_eq_nil in Hdrop as [-> _]. reflexivity.
Qed.

(** X8 ([takeFromWhile]).  [takeFromWhile] returns the longest run of
    elements fulfilling [whilePredicate] that starts at the first element
    fulfilling [fromPredicate]; the run is empty when that first element
    fails [whilePredicate] itself, and when no element fulfils
    [fromPredicate]. *)
Theorem takeFromWhile_run_from_first {T : Type} (undefined : T) (array : list T)
    (fromPredicate whilePredicate : T → bool) :
  let taken := Utils.takeFromWhile undefined array fromPredicate whilePredicate in
  (Forall (fun x => fromPredicate x = false) array → taken = [])
  ∧ (∀ before x after,
       array = before ++ x :: after →
       Forall (fun y => fromPredicate y = false) before → fromPredicate x = true →
       (∃ rest, x :: after = taken ++ rest
                ∧ ∀ y, head rest = Some y → whilePredicate y = false)
       ∧ Forall (fun y => whilePredicate y = true) taken
       ∧ (whilePredicate x = false → taken = [])).
Proof.
  intros taken. subst taken. unfold Utils.takeFromWhile, Utils.Array_findIndex. split.
  - intros Hnone. rewrite findIndex_from_none by assumption. reflexivity.
  - intros before x after -> Hbefore Hx.
    rewrite findIndex_from_found by assumption. rewrite Z.add_0_l.
    destruct (Z.ltb_spec (Z.of_nat (length before)) 0) as [Hneg|_]; [lia|].
    fold (Utils.takeWhile undefined (before ++ x :: after) whilePredicate
            (Z.of_nat (length before))).
    destruct (longest_run whilePredicate (x :: after)) as (run & rest & Hsplit & Hrun & Hrest).
    rewrite (takeWhile_from_nat undefined _ whilePredicate (length before) run rest);
      [|rewrite drop_app_length; assumption|assumption|assumption].
    repeat split.
    + exists rest. split; assumption.
    + assumption.
    + intros Hfail. destruct run as [|y run]; [reflexivity|].
      injection Hsplit as <- _. apply Forall_cons in Hrun as [Hy _]. congruence.
Qed.

(** The example of the documentation of [takeFromWhile]. *)
Example takeFromWhile_documented_example :
  Utils.takeFromWhile 0 [1; 2; 3; 4; 6; 2; 5; 6] (fun x => 4 <=? x) (fun x => x mod 2 =? 0)
  = [4; 6; 2].
Proof. reflexivity. Qed.

(** X9 ([filterInPlace]).  The array returned holds the elements of the
    original array that fulfil the predicate, in their original order, and
    nothing else: its length is the number of those elements. *)
Theorem filterInPlace_keeps_fulfilling {T : Type} (undefined : T) (array : list T)
    (predicate : T → bool) :
  Utils.filterInPlace undefined array predicate = List.filter predicate array.
Proof.
  unfold Utils.filterInPlace.
  destruct (filterInPlace_loop_spec undefined predicate array [] []) as [junk' Hloop].
  simpl in Hloop. rewrite Hloop.
  unfold Utils.array_set_length. rewrite take_app_length.
  replace (length (List.filter predicate array) - length (List.filter predicate array ++ junk'))%nat
    with O by (rewrite length_app; lia).
  simpl. apply app_nil_r.
Qed.

(** *** [MultiMap] and [NumberMap] *)

Section MultiMapFacts.

Context {K : Type} `{Countable K} {V : Type}.

Lemma MultiMap_add_lookup (this : gmap K (list V)) (key key' : K) (value : V) :
  Utils.MultiMap.add this key value !! key'
  = if decide (key = key') then Some (default [] (this !! key) ++ [value]) else this !! key'.
Proof.
  unfold Utils.MultiMap.add.
  destruct (decide (key = key')) as [<-|Hne].
  - rewrite lookup_insert_eq. f_equal. f_equal.
    destruct (bool_decide_reflect (is_Some (this !! key))) as [_|Hnone]; [reflexivity|].
    rewrite lookup_insert_eq. simpl.
    destruct (this !! key) eqn:Hthis; [|reflexivity]. exfalso. apply Hnone. eauto.
  - rewrite lookup_insert_ne by assumption.
    destruct (bool_decide (is_Some (this !! key))); [reflexivity|].
    rewrite lookup_insert_ne by assumption. reflexivity.
Qed.

Lemma MultiMap_adds_lookup (calls : list (K * V)) (this : gmap K (list V)) (key : K) :
  List.fold_left (fun this kv => Utils.MultiMap.add this kv.1 kv.2) calls this !! key
  = match values_added calls key with
    | [] => this !! key
    | added => Some (default [] (this !! key) ++ added)
    end.
Proof.
  unfold values_added.
  revert this. induction calls as [|[k v] calls IH]; intros this; simpl; [reflexivity|].
  rewrite IH, MultiMap_add_lookup.
  destruct (bool_decide_reflect (k = key)) as [->|Hne]; simpl.
  - rewrite decide_True by reflexivity. simpl.
    destruct (List.map snd _) as [|a added]; [reflexivity|].
    rewrite <- app_assoc. reflexivity.
  - rewrite decide_False by assumption. reflexivity.
Qed.

End MultiMapFacts.

(** X10 ([MultiMap.add]).  After a series of calls of [add] on an empty map,
    a key reads the array of the values added to it, in the order of the
    calls, and a key nothing was added to has no entry: no entry holds an
    empty array. *)
Theorem MultiMap_add_groups_by_key {K : Type} `{Countable K} {V : Type}
    (calls : list (K * V)) (key : K) :
  let this := List.fold_left (fun this kv => Utils.MultiMap.add this kv.1 kv.2) calls ∅ in
  (this !! key = None ↔ ¬ In key (List.map fst calls))
  ∧ (∀ values, this !! key = Some values → values = values_added calls key ∧ values ≠ []).
Proof.
  intros this. subst this. rewrite MultiMap_adds_lookup, lookup_empty. simpl.
  assert (Hadded : values_added calls key = [] ↔ ¬ In key (List.map fst calls)).
  { unfold values_added. induction calls as [|[k v] calls IH]; simpl; [tauto|].
    destruct (bool_decide_reflect (k = key)) as [->|Hne]; simpl.
    - split; [discriminate | tauto].
    - rewrite IH. tauto. }
  destruct (values_added calls key) as [|a added] eqn:Hvalues.
  - split; [tauto | discriminate].
  - split.
    + split; [discriminate|]. intros Hnin. apply Hadded in Hnin. discriminate.
    + intros values [= <-]. split; [reflexivity | discriminate].
Qed.

Section NumberMapFacts.

Context {V : Type}.

Lemma array_get_set_hole (a : list (option V)) (i j : nat) (value : option V) :
  Utils.array_get None (Utils.array_set None a i value) j
  = if decide (i = j) then value else Utils.array_get None a j.
Proof.
  unfold Utils.array_get, Utils.array_set.
  destruct (decide (i < length a)%nat) as [Hlt|Hge].
  - destruct (decide (i = j)) as [<-|Hne].
    + rewrite list_lookup_insert_eq by assumption. reflexivity.
    + rewrite list_lookup_insert_ne by assumption. reflexivity.
  - destruct (decide (j < length a)%nat) as [Hj|Hj].
    + rewrite lookup_app_l by assumption. rewrite decide_False by lia. reflexivity.
    + rewrite lookup_app_r by lia. rewrite (lookup_ge_None_2 a j) by lia. simpl.
      destruct (decide (j - length a < i - length a)%nat) as [Hin|Hout].
      * rewrite lookup_app_l by (rewrite length_replicate; assumption).
        rewrite lookup_replicate_2 by assumption. rewrite decide_False by lia. reflexivity.
      * rewrite lookup_app_r by (rewrite length_replicate; lia). rewrite length_replicate.
        destruct (decide (i = j)) as [<-|Hne].
        -- rewrite Nat.sub_diag. reflexivity.
        -- destruct (j - length a - (i - length a))%nat as [|d] eqn:Hd; [lia|]. reflexivity.
Qed.

End NumberMapFacts.

(** X11 ([NumberMap]).  A key reads the value last set for it, be it kept in
    the array or in the inner map, and setting a key changes no other key;
    a map as constructed reads [undefined] at every key.  The constructor
    refuses a negative limit. *)
Theorem NumberMap_get_after_set {V : Type} (this : Utils.NumberMap.t V) (key key' : Z)
    (value : V) :
  Utils.NumberMap.get (Utils.NumberMap.set this key value) key'
  = (if decide (key = key') then Some value else Utils.NumberMap.get this key')
  ∧ (∀ limit fresh, Utils.NumberMap.new limit = Ok fresh →
       0 ≤ limit ∧ Utils.NumberMap.get (V := V) fresh key = None)
  ∧ (∀ limit, limit < 0 → ∃ e, Utils.NumberMap.new (V := V) limit = Throw e).
Proof.
  repeat split.
  - unfold Utils.NumberMap.get, Utils.NumberMap.set.
    destruct ((0 <=? key) && (key <? Utils.NumberMap.limit this)) eqn:Hkey; simpl.
    + apply andb_true_iff in Hkey as [Hlo Hhi]. apply Z.leb_le in Hlo. apply Z.ltb_lt in Hhi.
      destruct ((0 <=? key') && (key' <? Utils.NumberMap.limit this)) eqn:Hkey'.
      * apply andb_true_iff in Hkey' as [Hlo' Hhi']. apply Z.leb_le in Hlo'.
        rewrite array_get_set_hole.
        destruct (decide (key = key')) as [->|Hne].
        -- rewrite decide_True by reflexivity. reflexivity.
        -- rewrite decide_False by lia. reflexivity.
      * rewrite decide_False; [reflexivity|]. intros ->.
        rewrite andb_false_iff, Z.leb_gt, Z.ltb_ge in Hkey'. lia.
    + destruct ((0 <=? key') && (key' <? Utils.NumberMap.limit this)) eqn:Hkey'.
      * rewrite decide_False; [reflexivity|]. intros ->. congruence.
      * destruct (decide (key = key')) as [->|Hne].
        -- apply lookup_insert_eq.
        -- apply lookup_insert_ne. assumption.
  - unfold Utils.NumberMap.new in H.
    destruct ((limit <? 0) || _) eqn:Hlimit in H; [discriminate|].
    apply orb_false_iff in Hlimit as [Hneg _]. apply Z.ltb_ge in Hneg. assumption.
  - unfold Utils.NumberMap.new in H.
    destruct ((limit <? 0) || _) eqn:Hlimit in H; [discriminate|].
    injection H as <-. unfold Utils.NumberMap.get. simpl.
    destruct ((0 <=? key) && (key <? limit)) eqn:Hkey; [|apply lookup_empty].
    unfold Utils.array_get.
    destruct (replicate (Z.to_nat limit) None !! Z.to_nat key) as [x|] eqn:Hx; [|reflexivity].
    apply lookup_replicate in Hx as [-> _]. reflexivity.
  - intros limit Hneg. unfold Utils.NumberMap.new.
    destruct (Z.ltb_spec limit 0); [|lia]. simpl. eauto.
Qed.

(** ** Distinct values, defined values, hashes and colours *)

(** Distinct keys of a given object, by computation. *)
Ltac solve_distinct_keys :=
  apply NoDup_ListNoDup; apply (bool_decide_unpack _); vm_compute; exact I.

Section DistinctFacts.

Implicit Types (seen : gset string) (values result : list Json).

Lemma distinct_fold seen values result :
  (List.fold_left Utils.distinct_step values (seen, result)).2
  = result ++ distinct_from seen values.
Proof.
  revert seen result. induction values as [|value rest IH]; intros seen result; simpl.
  - rewrite (app_nil_r result). reflexivity.
  - destruct (bool_decide (Utils.canonicalJsonString value ∈ seen)).
    + apply IH.
    + rewrite IH, <- app_assoc. reflexivity.
Qed.

Lemma distinct_unfold values : Utils.distinct values = distinct_from ∅ values.
Proof. unfold Utils.distinct. apply (distinct_fold ∅ values []). Qed.

Lemma distinct_from_sublist seen values : sublist (distinct_from seen values) values.
Proof.
  revert seen. induction values as [|value rest IH]; intros seen; simpl.
  - constructor.
  - destruct (bool_decide _).
    + apply sublist_cons. apply IH.
    + apply sublist_skip. apply IH.
Qed.

Lemma distinct_from_fresh seen values (r : Json) :
  In r (distinct_from seen values) → Utils.canonicalJsonString r ∉ seen.
Proof.
  revert seen. induction values as [|value rest IH]; intros seen; simpl; [tauto|].
  destruct (bool_decide_reflect (Utils.canonicalJsonString value ∈ seen)) as [Hin|Hnin].
  - apply IH.
  - intros [<-|Hr]; [assumption|]. apply IH in Hr. set_solver.
Qed.

Lemma distinct_from_nodup seen values :
  List.NoDup (canonical_strings (distinct_from seen values)).
Proof.
  unfold canonical_strings.
  revert seen. induction values as [|value rest IH]; intros seen; simpl; [constructor|].
  destruct (bool_decide _); [apply IH|].
  simpl. constructor; [|apply IH].
  intros Hin. apply List.in_map_iff in Hin as (r & Heq & Hr).
  apply distinct_from_fresh in Hr. rewrite Heq in Hr. set_solver.
Qed.

Lemma distinct_from_covers seen values (v : Json) :
  In v values →
  Utils.canonicalJsonString v ∈ seen
  ∨ In (Utils.canonicalJsonString v) (canonical_strings (distinct_from seen values)).
Proof.
  unfold canonical_strings.
  revert seen. induction values as [|value rest IH]; intros seen; simpl; [tauto|].
  destruct (bool_decide_reflect (Utils.canonicalJsonString value ∈ seen)) as [Hin|Hnin].
  - intros [<-|Hv]; [left; assumption | apply IH; assumption].
  - intros [<-|Hv]; [right; left; reflexivity|].
    destruct (IH ({[Utils.canonicalJsonString value]} ∪ seen) Hv) as [Hseen|Hlater].
    + apply elem_of_union in Hseen as [Hsame|Hseen]; [|left; assumption].
      apply elem_of_singleton in Hsame. right. left. symmetry. assumption.
    + right. right. assumption.
Qed.

Lemma distinct_from_first seen values (r : Json) :
  In r (distinct_from seen values) →
  ∃ i : nat, values !! i = Some r
    ∧ ∀ (j : nat) v, (j < i)%nat → values !! j = Some v →
        Utils.canonicalJsonString v ≠ Utils.canonicalJsonString r.
Proof.
  revert seen. induction values as [|value rest IH]; intros seen; simpl; [tauto|].
  destruct (bool_decide_reflect (Utils.canonicalJsonString value ∈ seen)) as [Hin|Hnin].
  - intros Hr. pose proof (distinct_from_fresh _ _ _ Hr) as Hfresh.
    destruct (IH seen Hr) as (i & Hi & Hbefore).
    exists (S i). split; [assumption|].
    intros [|j] v Hj Hv; simpl in Hv.
    + injection Hv as <-. intros Heq. rewrite Heq in Hin. tauto.
    + apply (Hbefore j); [lia | assumption].
  - intros [<-|Hr].
    + exists O. split; [reflexivity|]. intros j v Hj. lia.
    + pose proof (distinct_from_fresh _ _ _ Hr) as Hfresh.
      destruct (IH _ Hr) as (i & Hi & Hbefore).
      exists (S i). split; [assumption|].
      intros [|j] v Hj Hv; simpl in Hv.
      * injection Hv as <-. intros Heq. apply Hfresh. rewrite <- Heq. set_solver.
      * apply (Hbefore j); [lia | assumption].
Qed.

Lemma distinct_from_idempotent seen values :
  distinct_from seen (distinct_from seen values) = distinct_from seen values.
Proof.
  assert (Hgen : ∀ values seen seen',
             seen' ⊆ seen →
             (∀ r, In r (distinct_from seen values) → Utils.canonicalJsonString r ∉ seen') →
             distinct_from seen' (distinct_from seen values) = distinct_from seen values).
  { clear. induction values as [|value rest IH]; intros seen seen' Hsub Hfresh; simpl in *.
    - reflexivity.
    - destruct (bool_decide_reflect (Utils.canonicalJsonString value ∈ seen)) as [Hin|Hnin].
      + apply IH; assumption.
      + simpl. rewrite bool_decide_eq_false_2 by (apply Hfresh; left; reflexivity).
        f_equal. apply IH; [apply union_mono_l; assumption|].
        intros r Hr. pose proof (distinct_from_fresh _ _ _ Hr) as Hnew.
        intros Hin. apply Hnew. apply elem_of_union in Hin as [Hin|Hin].
        * apply elem_of_union. left. assumption.
        * apply elem_of_union. right. apply Hsub. assumption. }
  apply Hgen; [reflexivity|]. intros r. apply distinct_from_fresh.
Qed.

End DistinctFacts.

(** X12 ([distinct]).  The values returned are values of the input in their
    original order, no two of them have the same canonical string, every
    value of the input has the canonical string of one of them, and each is
    the first value of the input with its canonical string.  Applying
    [distinct] twice changes nothing more. *)
Theorem distinct_keeps_first_of_each (values : list Json) :
  let result := Utils.distinct values in
  sublist result values
  ∧ List.NoDup (canonical_strings result)
  ∧ (∀ v, In v values → In (Utils.canonicalJsonString v) (canonical_strings result))
  ∧ (∀ r, In r result →
       ∃ i : nat, values !! i = Some r
         ∧ ∀ (j : nat) v, (j < i)%nat → values !! j = Some v →
             Utils.canonicalJsonString v ≠ Utils.canonicalJsonString r)
  ∧ Utils.distinct result = result.
Proof.
  intros result. subst result. rewrite !distinct_unfold. repeat split.
  - apply distinct_from_sublist.
  - apply distinct_from_nodup.
  - intros v Hv. destruct (distinct_from_covers ∅ values v Hv) as [Hseen|Hin]; [|assumption].
    set_solver.
  - intros r. apply distinct_from_first.
  - apply distinct_from_idempotent.
Qed.

(** X13 ([canonicalJsonString] of objects).  Two objects with pairwise
    distinct keys have the same canonical string whenever under every key
    their values have the same canonical string or are both [undefined] or
    missing: neither the order of the keys nor a property bound to
    [undefined] shows in the string.  As the values are compared by their
    canonical strings, this holds at every depth of nesting; [distinct]
    then keeps one of two such objects only. *)
Theorem canonicalJsonString_ignores_key_order (fields1 fields2 : Obj Json) :
  List.NoDup (Object_keys fields1) → List.NoDup (Object_keys fields2) →
  (∀ key, option_map Utils.canonicalJsonString (get_prop fields1 key)
          = option_map Utils.canonicalJsonString (get_prop fields2 key)) →
  Utils.canonicalJsonString (JObj fields1) = Utils.canonicalJsonString (JObj fields2)
  ∧ Utils.distinct [JObj fields1; JObj fields2] = [JObj fields1].
Proof.
  intros Hnd1 Hnd2 Hsame.
  assert (Heq : Utils.canonicalJsonString (JObj fields1)
                = Utils.canonicalJsonString (JObj fields2)).
  { rewrite !canonicalJsonString_object.
    f_equal. f_equal. f_equal. f_equal.
    apply sortObjectKeys_key_order.
    - unfold Object_keys. rewrite List.map_map. exact Hnd1.
    - unfold Object_keys. rewrite List.map_map. exact Hnd2.
    - intros key. rewrite !get_prop_printed. apply Hsame. }
  split; [exact Heq|].
  rewrite distinct_unfold. cbn [distinct_from].
  rewrite bool_decide_eq_false_2 by set_solver.
  rewrite <- Heq. rewrite bool_decide_eq_true_2 by set_solver. reflexivity.
Qed.

(** The example of the documentation of [distinct]. *)
Lemma canonicalJsonString_ignores_key_order_witness :
  Utils.canonicalJsonString
    (JObj [("a", Some (JNum 1)); ("b", None);
           ("c", Some (JObj [("d", Some (JArr [])); ("e", Some JNull)]))])
  = Utils.canonicalJsonString
      (JObj [("c", Some (JObj [("e", Some JNull); ("d", Some (JArr []))]));
             ("a", Some (JNum 1))]).
Proof.
  apply (canonicalJsonString_ignores_key_order
           [("a", Some (JNum 1)); ("b", None);
            ("c", Some (JObj [("d", Some (JArr [])); ("e", Some JNull)]))]
           [("c", Some (JObj [("e", Some JNull); ("d", Some (JArr []))]));
            ("a", Some (JNum 1))]).
  - solve_distinct_keys.
  - solve_distinct_keys.
  - intros key. cbn [get_prop].
    destruct (String.eqb_spec "a" key) as [<-|Ha]; [reflexivity|].
    destruct (String.eqb_spec "b" key) as [<-|Hb]; [reflexivity|].
    destruct (String.eqb_spec "c" key) as [<-|Hc]; reflexivity.
Defined.

(** *** [sortObjectKeys] *)

(** The keys at which [sortObjectKeys] sets a property, in the order of the
    assignments. *)
Lemma sorted_kept_keys {V : Type} (obj : Obj V) :
  List.NoDup (Object_keys obj) →
  List.NoDup (List.filter (kept V obj) (Utils.sort_strings (Object_keys obj)))
  ∧ StronglySorted String.le (List.filter (kept V obj) (Utils.sort_strings (Object_keys obj)))
  ∧ ∀ key, In key (List.filter (kept V obj) (Utils.sort_strings (Object_keys obj)))
           ↔ key ≠ "__proto__" ∧ bound V obj key = true.
Proof.
  intros Hnd. split; [|split].
  - apply List.NoDup_filter.
    eapply Permutation_NoDup; [symmetry; apply sort_strings_perm | assumption].
  - apply strongly_sorted_filter, Sorted_StronglySorted; [apply _ | apply sort_strings_sorted].
  - intros key. rewrite List.filter_In. unfold kept.
    rewrite andb_true_iff, negb_true_iff, String.eqb_neq. split; [tauto|].
    intros [Hkey Hbound]. split; [|tauto].
    eapply Permutation_in; [symmetry; apply sort_strings_perm|].
    unfold bound in Hbound. destruct (get_prop obj key) as [value|] eqn:Hget; [|discriminate].
    eapply get_prop_in_keys. eassumption.
Qed.

(** X14 ([sortObjectKeys]).  The copy has exactly the own properties of
    [obj] whose value is not [undefined], each with its value, except a
    property '__proto__', which goes to the accessor of [Object.prototype]
    and is no own property of the copy.  It lists the keys that are array
    indices first, in ascending order of their numbers, and the other keys
    after them in ascending order of the strings. *)
Theorem sortObjectKeys_sorted_defined {V : Type} (obj : Obj V) :
  List.NoDup (Object_keys obj) →
  (∀ key, key ≠ "__proto__" → get_prop (Utils.sortObjectKeys obj) key = get_prop obj key)
  ∧ (∀ key, hasOwn (Utils.sortObjectKeys obj) key = true
            ↔ key ≠ "__proto__" ∧ bound V obj key = true)
  ∧ List.NoDup (Object_keys (Utils.sortObjectKeys obj))
  ∧ indices_first (Object_keys (Utils.sortObjectKeys obj))
  ∧ StronglySorted String.le (name_keys (Object_keys (Utils.sortObjectKeys obj))).
Proof.
  intros Hnd. rewrite sortObjectKeys_assignments.
  destruct (sorted_kept_keys obj Hnd) as (Hdistinct & Hsorted & Hkept).
  set (keys := List.filter (kept V obj) (Utils.sort_strings (Object_keys obj))) in *.
  assert (Hkeys : List.map fst (List.map (fun key => (key, get_prop obj key)) keys) = keys).
  { rewrite List.map_map. simpl. apply List.map_id. }
  split; [|split; [|split; [|split]]].
  - intros key Hkey. rewrite get_prop_set_all, app_nil_r, <- List.map_rev.
    rewrite (get_prop_graph (fun key => get_prop obj key)).
    destruct (bool_decide_reflect (key ∈ List.rev keys)) as [Hin|Hnin]; [reflexivity|].
    destruct (get_prop obj key) as [value|] eqn:Hget; [|reflexivity].
    exfalso. apply Hnin. apply list_elem_of_In. rewrite <- List.in_rev. apply Hkept.
    split; [assumption|]. unfold bound. rewrite Hget. reflexivity.
  - intros key. rewrite hasOwn_set_all, Hkeys, Hkept.
    split; [intros [H|H]; [assumption | discriminate H] | tauto].
  - apply NoDup_keys_set_all. constructor.
  - apply indices_first_set_all. reflexivity.
  - destruct (keys_set_all_distinct (List.map (fun key => (key, get_prop obj key)) keys) [])
      as [_ Hnames].
    { simpl. rewrite Hkeys. assumption. }
    rewrite Hnames, Hkeys. simpl. apply strongly_sorted_filter. assumption.
Qed.

(** An object with two array indices, a property bound to [undefined] and a
    property '__proto__' of its own. *)
Lemma sortObjectKeys_sorted_defined_witness :
  Object_keys
    (Utils.sortObjectKeys
       [("9", Some 9); ("10", Some 10); ("b", Some 2); ("c", None); ("__proto__", Some 0);
        ("a", Some 1)])
  = ["9"; "10"; "a"; "b"]
  ∧ StronglySorted String.le
      (name_keys
         (Object_keys
            (Utils.sortObjectKeys
               [("9", Some 9); ("10", Some 10); ("b", Some 2); ("c", None);
                ("__proto__", Some 0); ("a", Some 1)]))).
Proof.
  split; [reflexivity|].
  apply (sortObjectKeys_sorted_defined
           [("9", Some 9); ("10", Some 10); ("b", Some 2); ("c", None); ("__proto__", Some 0);
            ("a", Some 1)]).
  solve_distinct_keys.
Defined.

(** *** [isDefined], [isAnyDefined] and [filterDefined] *)

(** X15 ([filterDefined] and [isAnyDefined]).  [filterDefined] keeps, in
    their order, exactly the elements that [isDefined] accepts, so that
    nothing [undefined] or [null] is left; [isAnyDefined] holds of the same
    values exactly when something is left. *)
Theorem filterDefined_keeps_defined (elements : list (option Json)) :
  Utils.filterDefined elements = List.filter Utils.isDefined elements
  ∧ Forall (fun x => x ≠ None ∧ x ≠ Some JNull) (Utils.filterDefined elements)
  ∧ (Utils.isAnyDefined elements = true ↔ Utils.filterDefined elements ≠ [])
  ∧ (Utils.isAnyDefined elements = false ↔ Utils.filterDefined elements = []).
Proof.
  assert (Hfilter : Utils.filterDefined elements = List.filter Utils.isDefined elements).
  { unfold Utils.filterDefined. apply List.filter_ext. intros [[]|]; reflexivity. }
  assert (Hnone : Utils.isAnyDefined elements = false ↔ Utils.filterDefined elements = []).
  { rewrite Hfilter. unfold Utils.isAnyDefined. clear Hfilter.
    induction elements as [|x xs IH]; simpl; [tauto|].
    destruct (Utils.isDefined x); simpl; [split; discriminate | exact IH]. }
  split; [exact Hfilter|]. split; [|split; [|exact Hnone]].
  - rewrite Hfilter. apply List.Forall_forall. intros x Hx.
    apply List.filter_In in Hx as [_ Hx]. split; intros ->; discriminate.
  - split.
    + intros Hany Hnil. apply Hnone in Hnil. congruence.
    + intros Hleft. destruct (Utils.isAnyDefined elements) eqn:Hany; [reflexivity|].
      exfalso. apply Hleft, Hnone. reflexivity.
Qed.

(** *** [stringHash] *)

Section HashFacts.

Lemma hex_digit_lower (d : Z) : 0 ≤ d < 16 → lower_hex_digit (hex_digit d) = true.
Proof.
  intros Hd.
  assert (Hcases : d = 0 ∨ d = 1 ∨ d = 2 ∨ d = 3 ∨ d = 4 ∨ d = 5 ∨ d = 6 ∨ d = 7 ∨ d = 8
                   ∨ d = 9 ∨ d = 10 ∨ d = 11 ∨ d = 12 ∨ d = 13 ∨ d = 14 ∨ d = 15) by lia.
  repeat (destruct Hcases as [->|Hcases]; [reflexivity|]). subst d. reflexivity.
Qed.

Lemma toString16_aux_digits (fuel : nat) (n : Z) (acc : string) (k : nat) :
  0 ≤ n < 16 ^ Z.of_nat k → (1 ≤ k ≤ fuel)%nat →
  (String.length acc + 1 ≤ String.length (toString16_aux fuel n acc) ≤ String.length acc + k)%nat
  ∧ (List.forallb lower_hex_digit (list_ascii_of_string acc) = true →
     List.forallb lower_hex_digit (list_ascii_of_string (toString16_aux fuel n acc)) = true).
Proof.
  revert n acc k. induction fuel as [|fuel IH]; intros n acc k Hn Hk; [lia|].
  cbn [toString16_aux].
  assert (Hdigit : lower_hex_digit (hex_digit (n mod 16)) = true).
  { apply hex_digit_lower. apply Z.mod_pos_bound. lia. }
  destruct (Z.eqb_spec (n / 16) 0) as [Hzero|Hmore].
  - split; [simpl; lia|]. intros Hacc. simpl. rewrite Hdigit, Hacc. reflexivity.
  - assert (Hk2 : (2 ≤ k)%nat).
    { destruct k as [|[|k]]; [lia| |lia]. exfalso. apply Hmore.
      apply Z.div_small. simpl in Hn. lia. }
    assert (Hdiv : 0 ≤ n / 16 < 16 ^ Z.of_nat (k - 1)).
    { split; [apply Z.div_pos; lia|]. apply Z.div_lt_upper_bound; [lia|].
      replace (16 * 16 ^ Z.of_nat (k - 1)) with (16 ^ Z.of_nat k); [lia|].
      replace (Z.of_nat k) with (Z.succ (Z.of_nat (k - 1))) by lia.
      rewrite Z.pow_succ_r by lia. reflexivity. }
    destruct (IH (n / 16) (String (hex_digit (n mod 16)) acc) (k - 1)%nat Hdiv) as [Hlen Hall];
      [lia|].
    split; [simpl in Hlen; lia|]. intros Hacc. apply Hall. simpl. rewrite Hdigit, Hacc.
    reflexivity.
Qed.

Lemma padStart_length (s : string) (len : nat) (fill : ascii) :
  (String.length s ≤ len)%nat → String.length (padStart s len fill) = len.
Proof.
  intros Hs. unfold padStart. rewrite string_length_append.
  assert (Hfill : ∀ m : nat,
             String.length (String.concat "" (List.repeat (String fill "") m)) = m).
  { induction m as [|[|m] IHm]; [reflexivity|reflexivity|].
    change (List.repeat (String fill "") (S (S m)))
      with (String fill "" :: List.repeat (String fill "") (S m)).
    cbn [String.concat]. change (List.repeat (String fill "") (S m))
      with (String fill "" :: List.repeat (String fill "") m) at 1.
    cbn [String.concat] in IHm |- *.
    rewrite !string_length_append. simpl String.length at 1 2.
    change (String fill "" :: List.repeat (String fill "") m)
      with (List.repeat (String fill "") (S m)).
    rewrite IHm. lia. }
  rewrite Hfill. lia.
Qed.

Lemma hashString_from_evens (n : nat) (h : Z) (s : string) :
  (String.length s ≤ n)%nat → Utils.hashString_from h s = hash_every h (evens s).
Proof.
  revert h s. induction n as [|n IH]; intros h s Hlen.
  - destruct s; [reflexivity | simpl in Hlen; lia].
  - destruct s as [|c [|c' rest]]; [reflexivity | reflexivity |].
    cbn [Utils.hashString_from evens hash_every]. apply IH. simpl in Hlen. lia.
Qed.

End HashFacts.

(** *** The shape of a hash *)

Lemma list_ascii_of_string_append (s1 s2 : string) :
  list_ascii_of_string (s1 +:+ s2) = list_ascii_of_string s1 ++ list_ascii_of_string s2.
Proof.
  induction s1 as [|c s1 IH]; simpl; [reflexivity|]. rewrite <- IH. reflexivity.
Qed.

Lemma concat_repeat_chars (fill : ascii) (m : nat) :
  list_ascii_of_string (String.concat "" (List.repeat (String fill "") m)) = List.repeat fill m.
Proof.
  induction m as [|m IH]; [reflexivity|]. destruct m as [|m]; [reflexivity|].
  change (String.concat "" (List.repeat (String fill "") (S (S m))))
    with (String fill (String.concat "" (List.repeat (String fill "") (S m)))).
  cbn [list_ascii_of_string]. rewrite IH. reflexivity.
Qed.

Lemma padStart_digits (s : string) (len : nat) :
  List.forallb lower_hex_digit (list_ascii_of_string s) = true →
  List.forallb lower_hex_digit (list_ascii_of_string (padStart s len "0")) = true.
Proof.
  intros Hs. unfold padStart.
  rewrite list_ascii_of_string_append, List.forallb_app, Hs, andb_true_r.
  rewrite concat_repeat_chars.
  induction (len - String.length s)%nat as [|m IH]; [reflexivity|].
  simpl. exact IH.
Qed.

Lemma stringHash_shape (input : string) :
  String.length (Utils.stringHash input) = 8%nat
  ∧ List.forallb lower_hex_digit (list_ascii_of_string (Utils.stringHash input)) = true.
Proof.
  unfold Utils.stringHash, toString16.
  assert (Hrange : 0 ≤ Utils.ToUint32 (Utils.hashString input) < 16 ^ Z.of_nat 8).
  { unfold Utils.ToUint32. change (16 ^ Z.of_nat 8) with (2 ^ 32).
    apply Z.mod_pos_bound. reflexivity. }
  destruct (toString16_aux_digits 16 _ "" 8 Hrange) as [Hlen Hall]; [lia|].
  change (String.length "") with O in Hlen.
  split.
  - apply padStart_length. lia.
  - apply padStart_digits, Hall. reflexivity.
Qed.

Lemma stringHash_nonempty (input : string) : String.eqb (Utils.stringHash input) "" = false.
Proof.
  apply String.eqb_neq. intros Hempty.
  pose proof (proj1 (stringHash_shape input)) as Hlen.
  rewrite Hempty in Hlen. discriminate Hlen.
Qed.

(** X16 ([stringHash]).  The hash of any string is a string of exactly
    eight characters, each a digit of a lower-case hexadecimal numeral; in
    particular it is never the empty string, which the loading helpers
    would take for a missing annotation id. *)
Theorem stringHash_eight_hex_digits (input : string) :
  String.length (Utils.stringHash input) = 8%nat
  ∧ List.forallb lower_hex_digit (list_ascii_of_string (Utils.stringHash input)) = true
  ∧ Utils.stringHash input ≠ "".
Proof.
  destruct (stringHash_shape input) as [Hlen Hdigits].
  split; [exact Hlen|]. split; [exact Hdigits|].
  apply String.eqb_neq, stringHash_nonempty.
Qed.

(** X17 ([stringHash] and the host's [hashString]).  The hash reads the
    characters at the even positions of its input only: two strings that
    agree there have the same hash, whatever stands at the odd positions,
    and a last character at an odd position does not count at all. *)
Theorem stringHash_reads_even_positions (input1 input2 : string) :
  evens input1 = evens input2 → Utils.stringHash input1 = Utils.stringHash input2.
Proof.
  intros Hevens. unfold Utils.stringHash, Utils.hashString.
  rewrite (hashString_from_evens (String.length input1) 0 input1) by reflexivity.
  rewrite (hashString_from_evens (String.length input2) 0 input2) by reflexivity.
  rewrite Hevens. reflexivity.
Qed.

Lemma stringHash_reads_even_positions_witness :
  Utils.stringHash "spanish inquisition" = Utils.stringHash "s-a-i-h-i-q-i-i-i-n"
  ∧ Utils.stringHash "ab" = Utils.stringHash "a".
Proof.
  split.
  - apply (stringHash_reads_even_positions "spanish inquisition" "s-a-i-h-i-q-i-i-i-n").
    reflexivity.
  - apply (stringHash_reads_even_positions "ab" "a"). reflexivity.
Defined.

(** *** Hexadecimal colours *)

Section HexColorFacts.

Variable ColorNames : string → option Utils.Color.

Ltac by_cases_of_char c :=
  destruct c as [[] [] [] [] [] [] [] []]; vm_compute; try reflexivity; try discriminate.

Lemma is_hex_digit_lower_char (c : ascii) :
  Utils.is_hex_digit (Utils.lower_char c) = Utils.is_hex_digit c.
Proof. by_cases_of_char c. Qed.

Lemma hex_value_lower_char (c : ascii) :
  Utils.is_hex_digit c = true → Utils.hex_value (Utils.lower_char c) = Utils.hex_value c.
Proof. by_cases_of_char c. Qed.

Lemma lower_char_idempotent (c : ascii) :
  Utils.lower_char (Utils.lower_char c) = Utils.lower_char c.
Proof. by_cases_of_char c. Qed.

Lemma hex_value_range (c : ascii) :
  Utils.is_hex_digit c = true → 0 ≤ Utils.hex_value c ≤ 15.
Proof.
  destruct c as [[] [] [] [] [] [] [] []]; vm_compute; try discriminate;
    intros _; split; discriminate.
Qed.

Lemma toLowerCase_idempotent (s : string) :
  Utils.toLowerCase (Utils.toLowerCase s) = Utils.toLowerCase s.
Proof.
  induction s as [|c s IH]; simpl; [reflexivity|].
  rewrite lower_char_idempotent, IH. reflexivity.
Qed.

Lemma toLowerCase_length (s : string) : String.length (Utils.toLowerCase s) = String.length s.
Proof. induction s as [|c s IH]; simpl; [reflexivity|]. rewrite IH. reflexivity. Qed.

Lemma toLowerCase_hex_digits (s : string) :
  List.forallb Utils.is_hex_digit (list_ascii_of_string (Utils.toLowerCase s))
  = List.forallb Utils.is_hex_digit (list_ascii_of_string s).
Proof.
  induction s as [|c s IH]; simpl; [reflexivity|].
  rewrite is_hex_digit_lower_char, IH. reflexivity.
Qed.

Lemma lower_char_hash (c : ascii) : Utils.lower_char c = "#"%char ↔ c = "#"%char.
Proof.
  split; [|intros ->; reflexivity].
  destruct c as [[] [] [] [] [] [] [] []]; vm_compute; intros H; congruence.
Qed.

Lemma isHexColorString_toLowerCase (s : string) :
  Utils.isHexColorString (Utils.toLowerCase s) = Utils.isHexColorString s.
Proof.
  unfold Utils.isHexColorString, Utils.hexColorRegex_test.
  destruct s as [|c digits]; [reflexivity|].
  cbn [Utils.toLowerCase].
  destruct (Ascii.eqb_spec c "#") as [->|Hc].
  - change (Utils.lower_char "#") with "#"%char. cbv iota beta.
    rewrite toLowerCase_hex_digits, toLowerCase_length. reflexivity.
  - assert (Hlower : Utils.lower_char c ≠ "#"%char) by (rewrite lower_char_hash; exact Hc).
    transitivity false.
    + destruct (Utils.lower_char c) as [[] [] [] [] [] [] [] []]; try reflexivity.
      exfalso. apply Hlower. reflexivity.
    + destruct c as [[] [] [] [] [] [] [] []]; try reflexivity.
      exfalso. apply Hc. reflexivity.
Qed.

(** A hexadecimal colour string is a hash sign and three or six
    hexadecimal digits. *)
Lemma isHexColorString_digits (s : string) :
  Utils.isHexColorString s = true →
  (∃ d1 d2 d3, s = String "#" (String d1 (String d2 (String d3 "")))
     ∧ Utils.is_hex_digit d1 = true ∧ Utils.is_hex_digit d2 = true
     ∧ Utils.is_hex_digit d3 = true)
  ∨ (∃ d1 d2 d3 d4 d5 d6,
       s = String "#" (String d1 (String d2 (String d3 (String d4 (String d5 (String d6 ""))))))
       ∧ Utils.is_hex_digit d1 = true ∧ Utils.is_hex_digit d2 = true
       ∧ Utils.is_hex_digit d3 = true ∧ Utils.is_hex_digit d4 = true
       ∧ Utils.is_hex_digit d5 = true ∧ Utils.is_hex_digit d6 = true).
Proof.
  unfold Utils.isHexColorString, Utils.hexColorRegex_test.
  destruct s as [|c digits]; [discriminate|].
  destruct (Ascii.eqb_spec c "#") as [->|Hc].
  2:{ intros H. exfalso.
      destruct c as [[] [] [] [] [] [] [] []]; try discriminate H. apply Hc. reflexivity. }
  cbv iota beta. intros H. apply andb_prop in H as [Hall Hlen].
  destruct digits as [|d1 [|d2 [|d3 [|d4 [|d5 [|d6 [|d7 rest]]]]]]]; try discriminate Hlen.
  - left. exists d1, d2, d3. simpl in Hall.
    destruct (Utils.is_hex_digit d1), (Utils.is_hex_digit d2), (Utils.is_hex_digit d3);
      try discriminate Hall. repeat split.
  - right. exists d1, d2, d3, d4, d5, d6. simpl in Hall.
    destruct (Utils.is_hex_digit d1), (Utils.is_hex_digit d2), (Utils.is_hex_digit d3),
      (Utils.is_hex_digit d4), (Utils.is_hex_digit d5), (Utils.is_hex_digit d6);
      try discriminate Hall. repeat split.
Qed.

Lemma fromHexStyle_six (d1 d2 d3 d4 d5 d6 : ascii) :
  Utils.is_hex_digit d1 = true → Utils.is_hex_digit d2 = true → Utils.is_hex_digit d3 = true →
  Utils.is_hex_digit d4 = true → Utils.is_hex_digit d5 = true → Utils.is_hex_digit d6 = true →
  Utils.Color_fromHexStyle
    (String "#" (String d1 (String d2 (String d3 (String d4 (String d5 (String d6 "")))))))
  = Some (hex6_value d1 d2 d3 d4 d5 d6).
Proof.
  intros H1 H2 H3 H4 H5 H6. unfold Utils.Color_fromHexStyle. cbv iota beta.
  cbn [Utils.parse_hex_prefix]. rewrite H1. cbn [Utils.parse_hex_prefix]. rewrite H2.
  cbn [Utils.parse_hex_prefix]. rewrite H3. cbn [Utils.parse_hex_prefix]. rewrite H4.
  cbn [Utils.parse_hex_prefix]. rewrite H5. cbn [Utils.parse_hex_prefix]. rewrite H6.
  cbn [Utils.parse_hex_prefix default]. f_equal.
Qed.

Lemma hexColorRegex_six (d1 d2 d3 d4 d5 d6 : ascii) :
  Utils.is_hex_digit d1 = true → Utils.is_hex_digit d2 = true → Utils.is_hex_digit d3 = true →
  Utils.is_hex_digit d4 = true → Utils.is_hex_digit d5 = true → Utils.is_hex_digit d6 = true →
  Utils.isHexColorString
    (String "#" (String d1 (String d2 (String d3 (String d4 (String d5 (String d6 "")))))))
  = true.
Proof.
  intros H1 H2 H3 H4 H5 H6. unfold Utils.isHexColorString, Utils.hexColorRegex_test.
  cbv iota beta. simpl. rewrite H1, H2, H3, H4, H5, H6. reflexivity.
Qed.

Lemma hexColorRegex_three (d1 d2 d3 : ascii) :
  Utils.is_hex_digit d1 = true → Utils.is_hex_digit d2 = true → Utils.is_hex_digit d3 = true →
  Utils.isHexColorString (String "#" (String d1 (String d2 (String d3 "")))) = true.
Proof.
  intros H1 H2 H3. unfold Utils.isHexColorString, Utils.hexColorRegex_test.
  cbv iota beta. simpl. rewrite H1, H2, H3. reflexivity.
Qed.

Lemma decodeColor_six (d1 d2 d3 d4 d5 d6 : ascii) :
  Utils.is_hex_digit d1 = true → Utils.is_hex_digit d2 = true → Utils.is_hex_digit d3 = true →
  Utils.is_hex_digit d4 = true → Utils.is_hex_digit d5 = true → Utils.is_hex_digit d6 = true →
  Utils.decodeColor ColorNames
    (Some (String "#" (String d1 (String d2 (String d3 (String d4 (String d5 (String d6 ""))))))))
  = Some (Utils.color_number (hex6_value d1 d2 d3 d4 d5 d6)).
Proof.
  intros H1 H2 H3 H4 H5 H6. unfold Utils.decodeColor.
  rewrite hexColorRegex_six by assumption. cbv iota beta.
  rewrite fromHexStyle_six by assumption. reflexivity.
Qed.

Lemma decodeColor_three (d1 d2 d3 : ascii) :
  Utils.is_hex_digit d1 = true → Utils.is_hex_digit d2 = true → Utils.is_hex_digit d3 = true →
  Utils.decodeColor ColorNames (Some (String "#" (String d1 (String d2 (String d3 "")))))
  = Some (Utils.color_number (hex6_value d1 d1 d2 d2 d3 d3)).
Proof.
  intros H1 H2 H3. unfold Utils.decodeColor.
  rewrite hexColorRegex_three by assumption. cbv iota beta.
  rewrite fromHexStyle_six by assumption. reflexivity.
Qed.

Lemma hex6_value_range (d1 d2 d3 d4 d5 d6 : ascii) :
  Utils.is_hex_digit d1 = true → Utils.is_hex_digit d2 = true → Utils.is_hex_digit d3 = true →
  Utils.is_hex_digit d4 = true → Utils.is_hex_digit d5 = true → Utils.is_hex_digit d6 = true →
  0 ≤ hex6_value d1 d2 d3 d4 d5 d6 ≤ 0xffffff.
Proof.
  intros H1 H2 H3 H4 H5 H6. unfold hex6_value.
  pose proof (hex_value_range d1 H1). pose proof (hex_value_range d2 H2).
  pose proof (hex_value_range d3 H3). pose proof (hex_value_range d4 H4).
  pose proof (hex_value_range d5 H5). pose proof (hex_value_range d6 H6). lia.
Qed.

Lemma hex6_value_lower_char (d1 d2 d3 d4 d5 d6 : ascii) :
  Utils.is_hex_digit d1 = true → Utils.is_hex_digit d2 = true → Utils.is_hex_digit d3 = true →
  Utils.is_hex_digit d4 = true → Utils.is_hex_digit d5 = true → Utils.is_hex_digit d6 = true →
  hex6_value (Utils.lower_char d1) (Utils.lower_char d2) (Utils.lower_char d3)
    (Utils.lower_char d4) (Utils.lower_char d5) (Utils.lower_char d6)
  = hex6_value d1 d2 d3 d4 d5 d6.
Proof.
  intros H1 H2 H3 H4 H5 H6. unfold hex6_value.
  rewrite !hex_value_lower_char by assumption. reflexivity.
Qed.

End HexColorFacts.

(** X18 ([decodeColor], [isHexColorString], [HexColor]).  A string that
    [isHexColorString] accepts, which are the strings [HexColor] returns,
    decodes to the number its digits spell, between 0 and 0xFFFFFF,
    whatever the table of colour names holds; the short form of three
    digits decodes as the long form with every digit doubled.  [HexColor]
    throws on every other string. *)
Theorem decodeColor_hex_string_value (ColorNames : string → option Utils.Color) (s : string) :
  Utils.isHexColorString s = true →
  Utils.HexColor s = Ok s
  ∧ ∃ c : Utils.Color, Utils.decodeColor ColorNames (Some s) = Some (Utils.color_number c)
      ∧ 0 ≤ c ≤ 0xffffff
      ∧ (∀ d1 d2 d3, s = String "#" (String d1 (String d2 (String d3 ""))) →
           c = hex6_value d1 d1 d2 d2 d3 d3
           ∧ Utils.decodeColor ColorNames
               (Some (String "#" (String d1 (String d1 (String d2 (String d2
                        (String d3 (String d3 ""))))))))
             = Some (Utils.color_number c))
      ∧ (∀ d1 d2 d3 d4 d5 d6,
           s = String "#" (String d1 (String d2 (String d3 (String d4 (String d5
                 (String d6 "")))))) →
           c = hex6_value d1 d2 d3 d4 d5 d6).
Proof.
  intros Hhex. split.
  { unfold Utils.HexColor. rewrite Hhex. reflexivity. }
  destruct (isHexColorString_digits s Hhex)
    as [(d1 & d2 & d3 & -> & H1 & H2 & H3)
       |(d1 & d2 & d3 & d4 & d5 & d6 & -> & H1 & H2 & H3 & H4 & H5 & H6)].
  - exists (hex6_value d1 d1 d2 d2 d3 d3).
    split; [apply decodeColor_three; assumption|].
    split; [apply hex6_value_range; assumption|].
    split.
    + intros ? ? ? [= <- <- <-]. split; [reflexivity|]. apply decodeColor_six; assumption.
    + intros ? ? ? ? ? ? [=].
  - exists (hex6_value d1 d2 d3 d4 d5 d6).
    split; [apply decodeColor_six; assumption|].
    split; [apply hex6_value_range; assumption|].
    split.
    + intros ? ? ? [=].
    + intros ? ? ? ? ? ? [= <- <- <- <- <- <-]. reflexivity.
Qed.

Lemma decodeColor_hex_string_value_witness :
  ∃ c : Utils.Color,
    Utils.decodeColor sample_ColorNames (Some "#f0f") = Some (Utils.color_number c)
    ∧ 0 ≤ c ≤ 0xffffff.
Proof.
  destruct (decodeColor_hex_string_value sample_ColorNames "#f0f" eq_refl)
    as (_ & c & Hc & Hrange & _).
  exists c. split; assumption.
Defined.

(** X19 ([decodeColor]).  Decoding does not depend on the case of the
    letters A to Z of the string, for a hexadecimal colour as for a colour
    name: a string and its lower-case form decode alike. *)
Theorem decodeColor_ignores_case (ColorNames : string → option Utils.Color) (s : string) :
  Utils.decodeColor ColorNames (Some (Utils.toLowerCase s))
  = Utils.decodeColor ColorNames (Some s).
Proof.
  destruct (Utils.isHexColorString s) eqn:Hhex.
  - destruct (isHexColorString_digits s Hhex)
      as [(d1 & d2 & d3 & -> & H1 & H2 & H3)
         |(d1 & d2 & d3 & d4 & d5 & d6 & -> & H1 & H2 & H3 & H4 & H5 & H6)].
    + cbn [Utils.toLowerCase]. change (Utils.lower_char "#") with "#"%char.
      rewrite !decodeColor_three by (rewrite ?is_hex_digit_lower_char; assumption).
      rewrite hex6_value_lower_char by assumption. reflexivity.
    + cbn [Utils.toLowerCase]. change (Utils.lower_char "#") with "#"%char.
      rewrite !decodeColor_six by (rewrite ?is_hex_digit_lower_char; assumption).
      rewrite hex6_value_lower_char by assumption. reflexivity.
  - rewrite !decodeColor_not_hex by (rewrite ?isHexColorString_toLowerCase; assumption).
    rewrite toLowerCase_idempotent. reflexivity.
Qed.

(** ** Walks in document order *)

Lemma app_eq_split {A : Type} (l1 l2 before after : list A) (x : A) :
  l1 ++ l2 = before ++ x :: after →
  (∃ after1, l1 = before ++ x :: after1 ∧ after = after1 ++ l2)
  ∨ (∃ before2, before = l1 ++ before2 ∧ l2 = before2 ++ x :: after).
Proof.
  revert before. induction l1 as [|a l1 IH]; intros before Heq; simpl in Heq.
  - right. exists before. split; [reflexivity | assumption].
  - destruct before as [|b before]; simpl in Heq.
    + injection Heq as -> <-. left. exists l1. split; reflexivity.
    + injection Heq as -> Heq. destruct (IH before Heq) as [(a1 & -> & ->)|(b2 & -> & ->)].
      * left. exists a1. split; reflexivity.
      * right. exists b2. split; reflexivity.
Qed.

(** A walk hands a node to the callback after it has handed it the parent
    of the node. *)
Lemma visits_pre_parent_before (t : Node) (parent : option Node)
    (before after : list (Node * option Node)) (n q : Node) :
  visits_pre t parent = before ++ (n, Some q) :: after →
  parent = Some q ∨ In q (List.map fst before).
Proof.
  revert parent before after n q.
  induction t as [r k ps cs IH] using Node_ind. intros parent before after n q.
  cbn [visits_pre]. destruct before as [|b before]; simpl.
  - intros [= <- ->]. left. reflexivity.
  - intros [= <- Hrest]. right.
    generalize dependent (mkNode r k ps cs). intros t Hrest.
    assert (Hcs : q = t ∨ In q (List.map fst before));
      [|destruct Hcs as [->|Hcs]; [left; reflexivity | right; assumption]].
    revert before Hrest. induction IH as [|c cs' Hc _ IHcs]; intros before Hrest.
    + destruct before; discriminate Hrest.
    + simpl in Hrest. apply app_eq_split in Hrest as [(a1 & Hc1 & _)|(b2 & -> & Hrest)].
      * destruct (Hc _ _ _ _ _ Hc1) as [[= ->]|Hin]; [left; reflexivity | right; assumption].
      * destruct (IHcs b2 Hrest) as [->|Hin]; [left; reflexivity|].
        right. rewrite List.map_app. apply in_or_app. right. assumption.
Qed.

Lemma visits_pre_parents_first (root : Node) : parents_first (visits_pre root None).
Proof.
  intros before n q after Heq.
  destruct (visits_pre_parent_before root None before after n q Heq) as [Hnone|Hin];
    [discriminate Hnone | assumption].
Qed.

Lemma visited_refs_nodes (t : Node) (parent : option Node) :
  visited_refs (visits_pre t parent) = List.map ref (nodes t).
Proof.
  unfold visited_refs. rewrite <- (visits_pre_nodes t parent), List.map_map. reflexivity.
Qed.

Section RunFacts.

Context {S : Type}.

(** A walk whose callback returns at every visit returns, and what holds
    at the start and is kept by every visit holds at the end. *)
Lemma run_visits_all (f : @visitor S) (J : list (Node * option Node) → S → Prop)
    (vs : list (Node * option Node)) (s0 : S) :
  J [] s0 →
  (∀ seen v rest s, vs = seen ++ v :: rest → J seen s →
     ∃ s', f v.1 v.2 s = Done s' ∧ J (seen ++ [v]) s') →
  ∃ s, run_visits f vs s0 = Done s ∧ J vs s.
Proof.
  intros Hstart Hstep.
  assert (Hgen : ∀ rest seen s, vs = seen ++ rest → J seen s →
            ∃ s', run_visits f rest s = Done s' ∧ J vs s').
  { induction rest as [|[n p] rest IH]; intros seen s Hvs HJ.
    - exists s. rewrite (app_nil_r seen) in Hvs. subst seen. split; [reflexivity | assumption].
    - destruct (Hstep seen (n, p) rest s Hvs HJ) as (s' & Hf & HJ').
      simpl in Hf. simpl. rewrite Hf. simpl.
      apply (IH (seen ++ [(n, p)])); [|assumption].
      rewrite <- app_assoc. assumption. }
  apply (Hgen vs [] s0); [reflexivity | assumption].
Qed.

(** A walk that throws throws at one visit, after the visits before it
    returned; nothing is visited after it. *)
Lemma run_visits_thrown (f : @visitor S) (vs : list (Node * option Node)) (s0 s : S)
    (e : string) :
  run_visits f vs s0 = Thrown s e →
  ∃ seen v rest s1, vs = seen ++ v :: rest ∧ run_visits f seen s0 = Done s1
                    ∧ f v.1 v.2 s1 = Thrown s e.
Proof.
  revert s0. induction vs as [|[n p] vs IH]; intros s0; simpl; [discriminate|].
  destruct (f n p s0) as [s1|s1 e1] eqn:Hf; simpl.
  - intros Hrun. destruct (IH s1 Hrun) as (seen & v & rest & s2 & -> & Hseen & Hv).
    exists ((n, p) :: seen), v, rest, s2. split; [reflexivity|]. split; [|assumption].
    simpl. rewrite Hf. simpl. assumption.
  - intros [= -> ->]. exists [], (n, p), vs, s0. split; [reflexivity|].
    split; [reflexivity | assumption].
Qed.

End RunFacts.

(** ** Nearest representations: the walk down *)

Lemma makeNearestReprMap_fold (root : Node) :
  makeNearestReprMap root = down_fold (visits_pre root None) (nearestReprMap_up root).
Proof.
  unfold makeNearestReprMap, dfs. rewrite dfs_pre_visits, run_visits_pure. reflexivity.
Qed.

Lemma down_fold_snoc (vs : list (Node * option Node)) (v : Node * option Node)
    (m : gmap nat Node) :
  down_fold (vs ++ [v]) m = propagate_down v.1 v.2 (down_fold vs m).
Proof. unfold down_fold. rewrite List.fold_left_app. reflexivity. Qed.

Lemma propagate_down_other (n : Node) (p : option Node) (m : gmap nat Node) (k : nat) :
  k ≠ ref n → propagate_down n p m !! k = m !! k.
Proof.
  intros Hk. unfold propagate_down. destruct p as [q|]; [|reflexivity].
  destruct (m !! ref q); [|reflexivity].
  apply lookup_insert_ne. congruence.
Qed.

Lemma propagate_down_self (n : Node) (p : option Node) (m : gmap nat Node) :
  propagate_down n p m !! ref n
  = match p with
    | Some q => match m !! ref q with
                | Some r => Some r
                | None => m !! ref n
                end
    | None => m !! ref n
    end.
Proof.
  unfold propagate_down. destruct p as [q|]; [|reflexivity].
  destruct (m !! ref q); [|reflexivity]. apply lookup_insert_eq.
Qed.

Lemma down_fold_other (vs : list (Node * option Node)) (m : gmap nat Node) (k : nat) :
  ¬ In k (visited_refs vs) → down_fold vs m !! k = m !! k.
Proof.
  unfold visited_refs.
  induction vs as [|v vs IH] using rev_ind; intros Hk; [reflexivity|].
  rewrite down_fold_snoc. rewrite List.map_app, in_app_iff in Hk. simpl in Hk.
  rewrite propagate_down_other by (intros ->; tauto). apply IH. tauto.
Qed.

Lemma down_fold_values (P : Node → Prop) (vs : list (Node * option Node))
    (m : gmap nat Node) :
  (∀ k r, m !! k = Some r → P r) → ∀ k r, down_fold vs m !! k = Some r → P r.
Proof.
  intros Hm. induction vs as [|[n p] vs IH] using rev_ind; [exact Hm|].
  intros k r. rewrite down_fold_snoc. cbn [fst snd].
  destruct (decide (k = ref n)) as [->|Hne].
  - rewrite propagate_down_self. destruct p as [q|]; [|apply IH].
    destruct (down_fold vs m !! ref q) as [r'|] eqn:Hq; [|apply IH].
    intros [= <-]. apply (IH _ _ Hq).
  - rewrite propagate_down_other by assumption. apply IH.
Qed.

(** What the walk down leaves at the nodes it visits, when it visits no
    node twice and every parent before its children. *)
Lemma down_fold_spec (vs : list (Node * option Node)) (m0 : gmap nat Node) :
  List.NoDup (visited_refs vs) → parents_first vs →
  ∀ n p, In (n, p) vs →
    down_fold vs m0 !! ref n
    = match p with
      | Some q => match down_fold vs m0 !! ref q with
                  | Some r => Some r
                  | None => m0 !! ref n
                  end
      | None => m0 !! ref n
      end.
Proof.
  unfold visited_refs.
  induction vs as [|[n' p'] vs IH] using rev_ind; intros Hnd Hfirst n p Hin; [destruct Hin|].
  rewrite List.map_app in Hnd. simpl in Hnd.
  assert (Hnew : ¬ In (ref n') (List.map (fun v => ref v.1) vs)).
  { intros Hn'. apply (NoDup_app_disjoint _ _ (ref n') Hnd Hn'). left. reflexivity. }
  assert (Hnd' : List.NoDup (List.map (fun v => ref v.1) vs)).
  { apply List.NoDup_app_remove_r in Hnd. assumption. }
  assert (Hfirst' : parents_first vs).
  { intros before n0 q after ->. apply (Hfirst before n0 q (after ++ [(n', p')])).
    rewrite <- app_assoc. reflexivity. }
  assert (Hparent : ∀ n0 q, In (n0, Some q) (vs ++ [(n', p')]) → ref q ≠ ref n').
  { intros n0 q Hn0 Heq. apply Hnew. rewrite <- Heq.
    apply List.in_split in Hn0 as (before & after & Hsplit).
    assert (Hq : In q (List.map fst before)) by (apply (Hfirst _ _ _ _ Hsplit)).
    assert (Hbefore : ∃ tail, vs = before ++ tail).
    { destruct after as [|a after] using rev_ind.
      - apply app_inj_tail in Hsplit as [-> _]. exists []. symmetry. apply app_nil_r.
      - clear IHafter. rewrite app_comm_cons, app_assoc in Hsplit.
        apply app_inj_tail in Hsplit as [-> _]. exists ((n0, Some q) :: after). reflexivity. }
    destruct Hbefore as [tail ->].
    rewrite List.map_app. apply in_or_app. left.
    apply List.in_map_iff in Hq as ([q' pq] & <- & Hq).
    apply (List.in_map (fun v => ref v.1) _ _ Hq). }
  rewrite !down_fold_snoc. cbn [fst snd].
  apply in_app_or in Hin as [Hin|[[= -> ->]|[]]].
  - assert (Hne : ref n ≠ ref n').
    { intros Heq. apply Hnew. rewrite <- Heq.
      apply (List.in_map (fun v => ref v.1) _ _ Hin). }
    rewrite propagate_down_other by assumption.
    rewrite (IH Hnd' Hfirst' n p Hin). destruct p as [q|]; [|reflexivity].
    rewrite (propagate_down_other n' p' _ (ref q)); [reflexivity|].
    apply (Hparent n q). apply in_or_app. left. assumption.
  - rewrite propagate_down_self. rewrite (down_fold_other vs m0 (ref n)) by assumption.
    destruct p as [q|]; [|reflexivity].
    rewrite (propagate_down_other n (Some q) _ (ref q)); [reflexivity|].
    apply (Hparent n q). apply in_or_app. right. left. reflexivity.
Qed.

Lemma nearestReprMap_up_lookup (root n : Node) :
  distinct_refs root → In n (nodes root) → nearestReprMap_up root !! ref n = nearest_below n.
Proof.
  intros Hnd Hn. rewrite nearestReprMap_up_fold.
  destruct (up_subtree root None ∅ Hnd) as (Hin & _); [done | done |]. apply Hin. assumption.
Qed.

Lemma nearestReprMap_up_outside (root : Node) (k : nat) :
  distinct_refs root → ¬ In k (List.map ref (nodes root)) → nearestReprMap_up root !! k = None.
Proof.
  intros Hnd Hk. rewrite nearestReprMap_up_fold.
  destruct (up_subtree root None ∅ Hnd) as (_ & Hout & _); [done | done |].
  rewrite Hout; [apply lookup_empty | assumption | discriminate].
Qed.

Lemma reaches_in_nodes (n r : Node) :
  reaches_within_structure n r → kind r = "representation" ∧ In r (nodes n).
Proof.
  induction 1 as [n Hk|n c r Hc _ _ [Hk Hr]].
  - split; [assumption|]. destruct n. left. reflexivity.
  - split; [assumption|]. destruct n as [rf k ps cs]. simpl in Hc |- *. right.
    apply List.in_flat_map. exists c. split; assumption.
Qed.

Lemma nodes_of_node_in_tree (t n x : Node) : In n (nodes t) → In x (nodes n) → In x (nodes t).
Proof.
  revert n x. induction t as [r k ps cs IH] using Node_ind. intros n x.
  cbn [nodes]. intros [<-|Hn] Hx.
  - exact Hx.
  - right. apply List.in_flat_map in Hn as (c & Hc & Hn).
    apply List.in_flat_map. exists c. split; [assumption|].
    rewrite List.Forall_forall in IH. apply (IH c Hc n x); assumption.
Qed.

(** X20 ([makeNearestReprMap], the walk down).  In the map returned, the
    root has the entry the walk up gave it, and every other node has the
    entry of its parent whenever the parent has one, whatever the node is
    and whatever the walk up gave it; only under a parent without entry
    does a node keep the entry of the walk up.  So all nodes below a node
    with an entry share its representation, a representation node
    included. *)
Theorem makeNearestReprMap_inherits_from_parent (root : Node) :
  distinct_refs root →
  let final := makeNearestReprMap root in
  final !! ref root = nearest_below root
  ∧ (∀ parent node, In parent (nodes root) → In node (getChildren parent) →
       final !! ref node = match final !! ref parent with
                           | Some repr => Some repr
                           | None => nearest_below node
                           end)
  ∧ (∀ parent node repr, In parent (nodes root) → In node (getChildren parent) →
       final !! ref parent = Some repr → final !! ref node = Some repr).
Proof.
  intros Hnd final. subst final. rewrite makeNearestReprMap_fold.
  assert (Hvisits : List.NoDup (visited_refs (visits_pre root None))).
  { rewrite visited_refs_nodes. exact Hnd. }
  pose proof (down_fold_spec (visits_pre root None) (nearestReprMap_up root) Hvisits
                (visits_pre_parents_first root)) as Hspec.
  assert (Hchild : ∀ parent node, In parent (nodes root) → In node (getChildren parent) →
            down_fold (visits_pre root None) (nearestReprMap_up root) !! ref node
            = match down_fold (visits_pre root None) (nearestReprMap_up root) !! ref parent with
              | Some repr => Some repr
              | None => nearest_below node
              end).
  { intros parent node Hparent Hnode.
    rewrite (Hspec node (Some parent)) by (apply visits_pre_child; assumption).
    rewrite nearestReprMap_up_lookup; [reflexivity | assumption |].
    apply (child_in_nodes root parent node); assumption. }
  split; [|split].
  - rewrite (Hspec root None) by (destruct root; left; reflexivity).
    apply nearestReprMap_up_lookup; [assumption|]. destruct root. left. reflexivity.
  - exact Hchild.
  - intros parent node repr Hparent Hnode Hentry.
    rewrite (Hchild parent node Hparent Hnode), Hentry. reflexivity.
Qed.

Lemma makeNearestReprMap_inherits_from_parent_witness :
  makeNearestReprMap uneven_root !! ref near_representation = Some deep_representation
  ∧ makeNearestReprMap example_root !! ref example_color = Some example_representation.
Proof.
  split.
  - assert (Hnd : distinct_refs uneven_root) by solve_distinct_refs.
    destruct (makeNearestReprMap_inherits_from_parent uneven_root Hnd) as (_ & _ & Hinherit).
    apply (Hinherit second_component near_representation);
      [simpl; tauto | left; reflexivity | vm_compute; reflexivity].
  - destruct (makeNearestReprMap_inherits_from_parent example_root example_root_distinct_refs)
      as (_ & _ & Hinherit).
    apply (Hinherit example_representation example_color);
      [simpl; tauto | left; reflexivity | vm_compute; reflexivity].
Defined.

Lemma nearest_entry_is_representation (root : Node) (k : nat) (repr : Node) :
  distinct_refs root → makeNearestReprMap root !! k = Some repr →
  In k (List.map ref (nodes root)) ∧ kind repr = "representation" ∧ In repr (nodes root).
Proof.
  intros Hnd Hk.
  assert (Hup : ∀ k repr, nearestReprMap_up root !! k = Some repr →
            kind repr = "representation" ∧ In repr (nodes root)).
  { clear k repr Hk. intros k repr Hk.
    destruct (List.in_dec Nat.eq_dec k (List.map ref (nodes root))) as [Hin|Hout].
    - apply List.in_map_iff in Hin as (n & <- & Hn).
      rewrite (nearestReprMap_up_lookup root n Hnd Hn) in Hk.
      apply nearest_below_reaches, reaches_in_nodes in Hk as [Hkind Hbelow].
      split; [assumption|]. apply (nodes_of_node_in_tree root n repr); assumption.
    - rewrite (nearestReprMap_up_outside root k Hnd Hout) in Hk. discriminate Hk. }
  rewrite makeNearestReprMap_fold in Hk. split.
  - destruct (List.in_dec Nat.eq_dec k (List.map ref (nodes root))) as [Hin|Hout];
      [assumption|]. exfalso.
    rewrite down_fold_other in Hk by (rewrite visited_refs_nodes; assumption).
    rewrite (nearestReprMap_up_outside root k Hnd Hout) in Hk. discriminate Hk.
  - apply (down_fold_values
             (fun r => kind r = "representation" ∧ In r (nodes root)) _ _ Hup k repr Hk).
Qed.

(** X21 ([makeNearestReprMap], what the map holds).  Every entry of the map
    belongs to a node of the tree, and its value is a representation node of
    the tree; a tree without representation nodes gives the empty map. *)
Theorem makeNearestReprMap_entries (root : Node) :
  distinct_refs root →
  (∀ k repr, makeNearestReprMap root !! k = Some repr →
     In k (List.map ref (nodes root))
     ∧ kind repr = "representation" ∧ In repr (nodes root))
  ∧ ((∀ n, In n (nodes root) → kind n ≠ "representation") → makeNearestReprMap root = ∅).
Proof.
  intros Hnd. split.
  - intros k repr. apply nearest_entry_is_representation. assumption.
  - intros Hnone. apply map_empty. intros k.
    destruct (makeNearestReprMap root !! k) as [repr|] eqn:Hk; [|reflexivity].
    destruct (nearest_entry_is_representation root k repr Hnd Hk) as (_ & Hkind & Hin).
    exfalso. apply (Hnone repr Hin Hkind).
Qed.

Lemma makeNearestReprMap_entries_witness :
  In (ref example_color) (List.map ref (nodes example_root))
  ∧ kind example_representation = "representation"
  ∧ In example_representation (nodes example_root).
Proof.
  destruct (makeNearestReprMap_entries example_root example_root_distinct_refs)
    as [Hentries _].
  apply (Hentries (ref example_color) example_representation).
  vm_compute. reflexivity.
Defined.

(** ** Loading a tree: complete runs and failing runs *)

Section LoadTreeMoreFacts.

Context {U Sel C : Type}.
Variable loadingActions : @LoadingActions U Sel C.
Variable msRoot : Sel.

Implicit Types (st : @load_state U Sel C) (v : Node * option Node).

Lemma in_seen_parent_seen (vs seen rest : list (Node * option Node)) v (n q : Node) :
  parents_first vs → vs = seen ++ v :: rest → In (n, Some q) seen → In q (List.map fst seen).
Proof.
  intros Hfirst Hvs Hin. apply List.in_split in Hin as (before & after & ->).
  rewrite <- app_assoc in Hvs. simpl in Hvs.
  pose proof (Hfirst _ _ _ _ Hvs) as Hq.
  rewrite List.map_app. apply in_or_app. left. assumption.
Qed.

Lemma fresh_ref (vs seen rest : list (Node * option Node)) v (x : Node) :
  List.NoDup (visited_refs vs) → vs = seen ++ v :: rest → In x (List.map fst seen) →
  ref x ≠ ref v.1.
Proof.
  unfold visited_refs. intros Hnd -> Hx Heq.
  rewrite List.map_app in Hnd. simpl in Hnd.
  apply (NoDup_app_disjoint _ _ (ref x) Hnd).
  - apply List.in_map_iff in Hx as ([x' px] & <- & Hx).
    apply (List.in_map (fun v => ref v.1) _ _ Hx).
  - left. symmetry. assumption.
Qed.

(** One visit of a run in which every action returns a selector. *)
Lemma load_node_loads (vs seen rest : list (Node * option Node)) v st :
  List.NoDup (visited_refs vs) → parents_first vs →
  always_loads loadingActions v.1 →
  vs = seen ++ v :: rest → loading_invariant msRoot seen st →
  ∃ st', load_node loadingActions msRoot v.1 v.2 st = Done st'
         ∧ loading_invariant msRoot (seen ++ [v]) st'.
Proof.
  intros Hnd Hfirst (action & Haction & Hreturns) Hvs (Hcalls & Hnodes & Hparents & Hroots).
  destruct v as [n p]. cbn [fst snd] in *.
  assert (Hparent : ∃ msParent, msParent_of (mapping st) msRoot p = Some msParent
                      ∧ match p with
                        | Some q => mapping st !! ref q = Some (Some msParent)
                        | None => msParent = msRoot
                        end).
  { destruct p as [q|]; [|exists msRoot; split; reflexivity].
    assert (Hq : In q (List.map fst seen)).
    { apply (Hfirst seen n q rest). assumption. }
    apply List.in_map_iff in Hq as ([q' pq] & Heq & Hq). simpl in Heq. subst q'.
    destruct (Hnodes q pq Hq) as [msParent Hentry]. exists msParent.
    split; [|assumption]. unfold msParent_of, mapping_get. rewrite Hentry. reflexivity. }
  destruct Hparent as (msParent & HmsParent & Hentry).
  destruct (Hreturns (update st) msParent (context st)) as (u' & c' & msNode & Hreturned).
  unfold load_node. rewrite Haction, HmsParent, Hreturned.
  eexists. split; [reflexivity|].
  assert (Hold : ∀ x, In x (List.map fst seen) →
            <[ref n := Some msNode]> (mapping st) !! ref x = mapping st !! ref x).
  { intros x Hx. apply lookup_insert_ne. symmetry.
    apply (fresh_ref _ _ _ _ x Hnd Hvs Hx). }
  unfold loading_invariant. cbn [trace mapping]. repeat split.
  - rewrite List.map_app. apply Forall2_app; [assumption|].
    constructor; [|constructor]. exists msParent. reflexivity.
  - intros n0 p0 Hin. apply in_app_or in Hin as [Hin|[[= -> ->]|[]]].
    + destruct (decide (ref n0 = ref n)) as [->|Hne].
      * exists msNode. apply lookup_insert_eq.
      * rewrite lookup_insert_ne by congruence. apply (Hnodes n0 p0 Hin).
    + exists msNode. apply lookup_insert_eq.
  - intros n0 q0 Hin. apply in_app_or in Hin as [Hin|[[= -> ->]|[]]].
    + destruct (Hparents n0 q0 Hin) as (sel & Hsel & Hcall). exists sel. split.
      * rewrite Hold; [assumption|]. apply (in_seen_parent_seen _ _ _ _ _ _ Hfirst Hvs Hin).
      * apply in_or_app. left. assumption.
    + exists msParent. split.
      * rewrite Hold; [assumption|]. apply (Hfirst seen n0 q0 rest). assumption.
      * apply in_or_app. right. left. reflexivity.
  - intros n0 Hin. apply in_app_or in Hin as [Hin|[[= -> ->]|[]]].
    + apply in_or_app. left. apply Hroots. assumption.
    + apply in_or_app. right. left. subst msParent. reflexivity.
Qed.

(** A visit that throws is the call of an action that throws. *)
Lemma load_node_thrown (n : Node) (p : option Node) st st' (e : string) :
  load_node loadingActions msRoot n p st = Thrown st' e →
  ∃ action msParent,
    loadingActions (kind n) = Some action
    ∧ action (update st) msParent n (context st) = Raised (update st') (context st') e
    ∧ trace st' = trace st ++ [ActionCalled (ref n) msParent]
    ∧ mapping st' = mapping st.
Proof.
  unfold load_node.
  destruct (loadingActions (kind n)) as [action|]; [|discriminate].
  destruct (msParent_of (mapping st) msRoot p) as [msParent|]; [|discriminate].
  destruct (action (update st) msParent n (context st)) as [u' c' msNode|u' c' e'] eqn:Hcall;
    [discriminate|].
  intros [= <- <-]. exists action, msParent. cbn [update context trace mapping].
  repeat split. assumption.
Qed.

End LoadTreeMoreFacts.

(** X22 ([loadTree], a complete run).  When the kind of every node has an
    action that returns a selector, [loadTree] returns, having called an
    action on every node of the tree exactly once, in document order: on
    the root with the selector of the root of the state, and on every other
    node with the selector its parent's action returned. *)
Theorem loadTree_loads_every_node {U Sel C : Type}
    (toRoot_selector : U → Sel) (delete_children : U → Sel → U) (commit : U → U)
    (built : U) (tree : Node) (loadingActions : @LoadingActions U Sel C) (ctx : C)
    (deletePrevious : bool) :
  distinct_refs tree →
  (∀ n, In n (nodes tree) → always_loads loadingActions n) →
  ∃ st,
    loadTree toRoot_selector delete_children commit built tree loadingActions ctx
      deletePrevious = Done st
    ∧ Forall2 is_call_on (trace st) (nodes tree)
    ∧ In (ActionCalled (ref tree) (toRoot_selector built)) (trace st)
    ∧ (∀ parent node, In parent (nodes tree) → In node (getChildren parent) →
         ∃ msParent, mapping st !! ref parent = Some (Some msParent)
                     ∧ In (ActionCalled (ref node) msParent) (trace st)).
Proof.
  intros Hnd Hloads. unfold loadTree, dfs. rewrite dfs_pre_visits.
  set (msRoot := toRoot_selector built).
  set (s0 := mkLoadState ∅ _ ctx []).
  assert (Hvisits : List.NoDup (visited_refs (visits_pre tree None))).
  { rewrite visited_refs_nodes. exact Hnd. }
  destruct (run_visits_all (load_node loadingActions msRoot) (loading_invariant msRoot)
              (visits_pre tree None) s0) as (st & Hrun & Hcalls & Hnodes & Hparents & Hroots).
  - unfold loading_invariant. simpl. repeat split.
    + constructor.
    + intros n p [].
    + intros n q [].
    + intros n [].
  - intros seen v rest s Hvs HJ.
    apply (load_node_loads loadingActions msRoot (visits_pre tree None) seen rest v s);
      try assumption.
    + apply visits_pre_parents_first.
    + apply Hloads. rewrite <- (visits_pre_nodes tree None), Hvs.
      rewrite List.map_app. apply in_or_app. right. left. reflexivity.
  - rewrite Hrun. simpl. eexists. split; [reflexivity|]. cbn [trace mapping].
    rewrite (visits_pre_nodes tree None) in Hcalls.
    split; [exact Hcalls|]. split.
    + apply Hroots. destruct tree. left. reflexivity.
    + intros parent node Hparent Hnode. apply Hparents.
      apply visits_pre_child; assumption.
Qed.

Lemma loadTree_loads_every_node_witness :
  ∃ st, sample_loadTree loaded_root = Done st
        ∧ Forall2 is_call_on (trace st) (nodes loaded_root).
Proof.
  destruct (loadTree_loads_every_node (fun _ => 0%nat) (fun update _ => update)
              (fun update => update) 0%nat loaded_root sample_actions tt true)
    as (st & Hrun & Hcalls & _).
  - solve_distinct_refs.
  - intros n [<-|[<-|[]]]; eexists; (split; [reflexivity|]); intros u msParent c; eauto.
  - exists st. split; assumption.
Defined.

(** X23 ([loadTree], a failing run).  [loadTree] throws only what an action
    throws, with the error of the action: the failing call is the last thing
    the run does, so that no later node is visited, and the changes are left
    as the failing action left them, uncommitted. *)
Theorem loadTree_throws_what_action_throws {U Sel C : Type}
    (toRoot_selector : U → Sel) (delete_children : U → Sel → U) (commit : U → U)
    (built : U) (tree : Node) (loadingActions : @LoadingActions U Sel C) (ctx : C)
    (deletePrevious : bool) (st : @load_state U Sel C) (e : string) :
  loadTree toRoot_selector delete_children commit built tree loadingActions ctx deletePrevious
  = Thrown st e →
  ∃ node action msParent u c events,
    In node (nodes tree)
    ∧ loadingActions (kind node) = Some action
    ∧ action u msParent node c = Raised (update st) (context st) e
    ∧ trace st = events ++ [ActionCalled (ref node) msParent]
    ∧ (length events < length (nodes tree))%nat.
Proof.
  unfold loadTree, dfs. rewrite dfs_pre_visits.
  destruct (run_visits _ _ _) as [s|s e'] eqn:Hrun; simpl; [discriminate|].
  intros [= -> ->].
  apply run_visits_thrown in Hrun as (seen & [n p] & rest & s1 & Hvs & Hseen & Hthrown).
  cbn [fst snd] in Hthrown.
  apply load_node_thrown in Hthrown as (action & msParent & Haction & Hraised & Htrace & _).
  exists n, action, msParent, (update s1), (context s1), (trace s1).
  split.
  { rewrite <- (visits_pre_nodes tree None), Hvs, List.map_app.
    apply in_or_app. right. left. reflexivity. }
  split; [assumption|]. split; [assumption|]. split; [assumption|].
  assert (Hlen : (length (trace s1) ≤ length seen)%nat).
  { clear -Hseen. set (s0 := mkLoadState _ _ _ _) in Hseen.
    assert (Hgen : ∀ vs (s s' : @load_state U Sel C),
              run_visits (load_node loadingActions (toRoot_selector built)) vs s = Done s' →
              (length (trace s') ≤ length (trace s) + length vs)%nat).
    { induction vs as [|[n' p'] vs IH]; intros s s'; simpl.
      - intros [= <-]. lia.
      - destruct (load_node loadingActions (toRoot_selector built) n' p' s) as [s2|s2 e2] eqn:Hn;
          simpl; [|discriminate].
        intros Hrest. apply IH in Hrest.
        assert (Hstep : (length (trace s2) ≤ S (length (trace s)))%nat).
        { unfold load_node in Hn.
          destruct (loadingActions (kind n')) as [a|]; [|injection Hn as <-; lia].
          destruct (msParent_of _ _ _) as [ms|].
          - destruct (a _ _ _ _); [|discriminate]. injection Hn as <-. simpl.
            rewrite length_app. simpl. lia.
          - injection Hn as <-. simpl. rewrite length_app. simpl. lia. }
        lia. }
    apply Hgen in Hseen. simpl in Hseen. lia. }
  rewrite <- (visits_pre_nodes tree None), Hvs, List.length_map, length_app. simpl. lia.
Qed.

Lemma loadTree_throws_what_action_throws_witness :
  ∃ st node action msParent u c events,
    failing_loadTree loaded_root = Thrown st "download failed"
    ∧ In node (nodes loaded_root)
    ∧ failing_actions (kind node) = Some action
    ∧ action u msParent node c = Raised (update st) (context st) "download failed"
    ∧ trace st = events ++ [ActionCalled (ref node) msParent].
Proof.
  eexists.
  destruct (loadTree_throws_what_action_throws (fun _ => 0%nat) (fun update _ => update)
              (fun update => (100 + update)%nat) 0%nat loaded_root failing_actions tt true
              _ "download failed" eq_refl)
    as (node & action & msParent & u & c & events & Hnode & Haction & Hraised & Htrace & _).
  exists node, action, msParent, u, c, events.
  split; [reflexivity|]. repeat split; assumption.
Defined.

(** ** Annotation references and what reads them *)

Lemma registry_keys_distinct (ns : list Node) (reg : SpecRegistry) :
  registry_invariant ns reg → List.NoDup (List.map fst reg).
Proof.
  intros (_ & _ & Horder). apply NoDup_ListNoDup, NoDup_alt. intros i j k Hi Hj.
  apply list_lookup_fmap_Some in Hi as ([ki a] & Hki & Hi).
  apply list_lookup_fmap_Some in Hj as ([kj b] & Hkj & Hj).
  simpl in Hki, Hkj. subst ki kj.
  destruct (Nat.lt_trichotomy i j) as [Hlt|[Heq|Hgt]]; [|assumption|].
  - pose proof (Horder i j k a k b Hi Hj Hlt). lia.
  - pose proof (Horder j i k b k a Hj Hi Hgt). lia.
Qed.

Lemma registry_keys_of_specs (ns : list Node) (reg : SpecRegistry) :
  registry_invariant ns reg →
  List.map (fun a => spec_key (spec_props a)) (Object_values reg) = List.map fst reg.
Proof.
  intros (Hentries & _ & _). unfold Object_values. rewrite List.map_map.
  apply List.map_ext_in. intros [k a] Hin.
  destruct (Hentries k a Hin) as (-> & _). reflexivity.
Qed.

Lemma collect_fold_none (ns : list Node) (st : SpecRegistry * MolstarLoadingContext) :
  (∀ n, In n ns → spec_of_node n = None) → collect_fold ns st = st.
Proof.
  unfold collect_fold. revert st. induction ns as [|n ns IH]; intros st Hnone; [reflexivity|].
  simpl. unfold collect_node at 2. destruct st as [reg ctx].
  rewrite (Hnone n) by (left; reflexivity). apply IH.
  intros n' Hn'. apply Hnone. right. assumption.
Qed.

Lemma collect_fold_nearestReprMap (ns : list Node)
    (st : SpecRegistry * MolstarLoadingContext) :
  nearestReprMap (collect_fold ns st).2 = nearestReprMap st.2.
Proof.
  unfold collect_fold. revert st. induction ns as [|n ns IH]; intros st; [reflexivity|].
  simpl. rewrite IH. unfold collect_node. destruct st as [reg ctx].
  destruct (spec_of_node n); reflexivity.
Qed.

(** After the references are collected, a node of the tree that refers to
    an annotation is mapped to the id of one of the specs returned, which
    is the spec filed under the canonical string of the spec of the node. *)
Lemma collected_reference (tree : Node) (context : MolstarLoadingContext) (n : Node)
    (spec : Obj Json) :
  distinct_refs tree → In n (nodes tree) → spec_of_node n = Some spec →
  ∃ a, In a (collectAnnotationReferences tree context).1
       ∧ spec_key (spec_props a) = spec_key spec
       ∧ id a = Utils.stringHash (spec_key spec)
       ∧ annotationMap_get (collectAnnotationReferences tree context).2 n = Some (id a).
Proof.
  intros Hnd Hn Hspec. rewrite collectAnnotationReferences_fold. cbn [fst snd].
  destruct (collect_fold_registered (nodes tree) context n spec Hn Hspec) as (a & Hget & Hid).
  destruct (collect_fold_annotationMap (nodes tree) context n spec Hnd Hn Hspec)
    as (m & Hm & Hlookup).
  destruct (collect_fold_registry (nodes tree) context) as (Hentries & _ & _).
  apply registry_get_in in Hget.
  destruct (Hentries _ _ Hget) as (Hkey & _).
  exists a. split; [|split; [|split]].
  - unfold Object_values. apply List.in_map_iff. exists (spec_key spec, a).
    split; [reflexivity | assumption].
  - symmetry. assumption.
  - assumption.
  - unfold annotationMap_get. rewrite Hm, Hlookup, Hid. reflexivity.
Qed.

(** X24 ([collectAnnotationReferences], the specs returned).  No two of the
    specs returned have the same canonical string, and each carries the
    hash of its canonical string as its id.  The walk leaves the map of
    nearest representations of the context alone, and on a tree without a
    node that refers to an annotation it returns no spec and leaves the
    whole context as it is: an [annotationMap] that is [undefined] stays
    so. *)
Theorem collectAnnotationReferences_distinct_specs (tree : Node)
    (context : MolstarLoadingContext) :
  let specs := (collectAnnotationReferences tree context).1 in
  let context' := (collectAnnotationReferences tree context).2 in
  List.NoDup (List.map (fun a => spec_key (spec_props a)) specs)
  ∧ (∀ a, In a specs → id a = Utils.stringHash (spec_key (spec_props a)))
  ∧ nearestReprMap context' = nearestReprMap context
  ∧ ((∀ n, In n (nodes tree) → spec_of_node n = None) →
     specs = [] ∧ context' = context).
Proof.
  intros specs context'. subst specs context'.
  rewrite collectAnnotationReferences_fold. cbn [fst snd].
  pose proof (collect_fold_registry (nodes tree) context) as Hreg.
  split; [|split; [|split]].
  - rewrite (registry_keys_of_specs _ _ Hreg). apply (registry_keys_distinct _ _ Hreg).
  - intros a Ha. unfold Object_values in Ha. apply List.in_map_iff in Ha as ([k a'] & <- & Hin).
    destruct Hreg as (Hentries & _ & _).
    destruct (Hentries k a' Hin) as (Hk & Hid & _). simpl. rewrite <- Hk. assumption.
  - apply (collect_fold_nearestReprMap (nodes tree) ([], context)).
  - intros Hnone. rewrite (collect_fold_none (nodes tree) ([], context) Hnone).
    split; reflexivity.
Qed.

(** *** Tooltips that refer to annotations *)

Lemma distinct_from_in (seen : gset string) (values : list Json) (r : Json) :
  In r (distinct_from seen values) → In r values.
Proof.
  revert seen. induction values as [|value rest IH]; intros seen; simpl; [tauto|].
  destruct (bool_decide _).
  - intros Hr. right. apply (IH seen Hr).
  - intros [<-|Hr]; [left; reflexivity | right; apply (IH _ Hr)].
Qed.

Lemma collect_annotation_tooltip_pushes (context : MolstarLoadingContext) (n : Node)
    (p : option Node) (collected : list Json) :
  collect_annotation_tooltip context n p collected = collected ++ pushed_tooltips context n.
Proof.
  unfold pushed_tooltips, collect_annotation_tooltip.
  destruct (_ || _); [|symmetry; apply app_nil_r].
  destruct (annotationMap_get context n) as [annotationId|]; [|symmetry; apply app_nil_r].
  destruct (negb _); [reflexivity | symmetry; apply app_nil_r].
Qed.

Lemma collectAnnotationTooltips_unfold (tree : Node) (context : MolstarLoadingContext) :
  collectAnnotationTooltips tree context
  = distinct_from ∅ (List.flat_map (pushed_tooltips context) (nodes tree)).
Proof.
  unfold collectAnnotationTooltips, dfs.
  rewrite dfs_pre_visits, run_visits_pure, distinct_unfold. cbn [final_state]. f_equal.
  rewrite <- (visits_pre_nodes tree None).
  assert (Hgen : ∀ vs collected,
            List.fold_left (fun s v => collect_annotation_tooltip context v.1 v.2 s) vs collected
            = collected ++ List.flat_map (pushed_tooltips context) (List.map fst vs)).
  { induction vs as [|[n p] vs IH]; intros collected; simpl.
    - symmetry. apply app_nil_r.
    - rewrite IH, collect_annotation_tooltip_pushes, <- app_assoc. reflexivity. }
  apply (Hgen _ []).
Qed.

Lemma annotation_tooltip_has_spec (n : Node) :
  is_annotation_tooltip n = true → ∃ spec, spec_of_node n = Some spec.
Proof.
  unfold is_annotation_tooltip, spec_of_node. intros Hkind.
  apply orb_true_iff in Hkind as [Hkind|Hkind]; apply String.eqb_eq in Hkind;
    rewrite Hkind; eexists; reflexivity.
Qed.

(** X25 ([collectAnnotationTooltips] after [collectAnnotationReferences]).
    With the context that [collectAnnotationReferences] leaves for the same
    tree, every tooltip returned is the pair of the id of one of the specs
    returned and the field name of a tooltip node of the tree that refers to
    that spec; every such node is met by a tooltip with the same canonical
    string; and no two tooltips returned have the same canonical string. *)
Theorem collectAnnotationTooltips_after_references (tree : Node)
    (context : MolstarLoadingContext) :
  distinct_refs tree →
  let specs := (collectAnnotationReferences tree context).1 in
  let tooltips :=
    collectAnnotationTooltips tree (collectAnnotationReferences tree context).2 in
  List.NoDup (canonical_strings tooltips)
  ∧ (∀ t, In t tooltips →
       ∃ n a, In n (nodes tree) ∧ is_annotation_tooltip n = true ∧ In a specs
              ∧ node_key n = Some (spec_key (spec_props a))
              ∧ t = tooltip_entry (id a) n)
  ∧ (∀ n, In n (nodes tree) → is_annotation_tooltip n = true →
       ∃ t a, In t tooltips ∧ In a specs
              ∧ node_key n = Some (spec_key (spec_props a))
              ∧ Utils.canonicalJsonString t
                = Utils.canonicalJsonString (tooltip_entry (id a) n)).
Proof.
  intros Hnd specs tooltips. subst specs tooltips.
  rewrite collectAnnotationTooltips_unfold.
  set (context' := (collectAnnotationReferences tree context).2).
  assert (Hpushed : ∀ n, In n (nodes tree) → is_annotation_tooltip n = true →
            ∃ a, In a (collectAnnotationReferences tree context).1
                 ∧ node_key n = Some (spec_key (spec_props a))
                 ∧ pushed_tooltips context' n = [tooltip_entry (id a) n]).
  { intros n Hn Hkind. destruct (annotation_tooltip_has_spec n Hkind) as [spec Hspec].
    destruct (collected_reference tree context n spec Hnd Hn Hspec)
      as (a & Ha & Hkey & Hid & Hget).
    exists a. split; [assumption|]. split.
    - unfold node_key. rewrite Hspec, Hkey. reflexivity.
    - unfold pushed_tooltips, collect_annotation_tooltip.
      fold (is_annotation_tooltip n). rewrite Hkind. unfold context'. rewrite Hget.
      rewrite Hid at 1. rewrite stringHash_nonempty. reflexivity. }
  assert (Hothers : ∀ n, is_annotation_tooltip n = false → pushed_tooltips context' n = []).
  { intros n Hkind. unfold pushed_tooltips, collect_annotation_tooltip.
    fold (is_annotation_tooltip n). rewrite Hkind. reflexivity. }
  split; [apply distinct_from_nodup|]. split.
  - intros t Ht. apply distinct_from_in in Ht.
    apply List.in_flat_map in Ht as (n & Hn & Ht).
    destruct (is_annotation_tooltip n) eqn:Hkind.
    + destruct (Hpushed n Hn Hkind) as (a & Ha & Hkey & Hpush).
      rewrite Hpush in Ht. destruct Ht as [<-|[]].
      exists n, a. repeat split; assumption.
    + rewrite (Hothers n Hkind) in Ht. destruct Ht.
  - intros n Hn Hkind. destruct (Hpushed n Hn Hkind) as (a & Ha & Hkey & Hpush).
    assert (Hin : In (tooltip_entry (id a) n)
                    (List.flat_map (pushed_tooltips context') (nodes tree))).
    { apply List.in_flat_map. exists n. split; [assumption|]. rewrite Hpush. left. reflexivity. }
    destruct (distinct_from_covers ∅ _ _ Hin) as [Hseen|Hcovered].
    { apply elem_of_empty in Hseen. destruct Hseen. }
    unfold canonical_strings in Hcovered.
    apply List.in_map_iff in Hcovered as (t & Heq & Ht).
    exists t, a. repeat split; assumption.
Qed.

Lemma collectAnnotationTooltips_after_references_witness :
  canonical_strings
    (collectAnnotationTooltips tooltips_root
       (collectAnnotationReferences tooltips_root empty_context).2)
  = ["{" +:+ quote "annotationId" +:+ ":" +:+ quote "dbf5320e" +:+ ","
         +:+ quote "fieldName" +:+ ":" +:+ quote "tooltip" +:+ "}";
     "{" +:+ quote "annotationId" +:+ ":" +:+ quote "dbf5320e" +:+ ","
         +:+ quote "fieldName" +:+ ":" +:+ quote "note" +:+ "}"]
  ∧ List.NoDup
      (canonical_strings
         (collectAnnotationTooltips tooltips_root
            (collectAnnotationReferences tooltips_root empty_context).2)).
Proof.
  split; [vm_compute; reflexivity|].
  apply (collectAnnotationTooltips_after_references tooltips_root empty_context).
  solve_distinct_refs.
Defined.

(** ** Props of representations, labels, transforms and tooltips *)

Section ThemeAfterReferences.

Context {Expression Bundle Script FieldValues : Type}.

Variable ColorNames : string → option Utils.Color.
Variable DefaultColor : string.
Variable NoColor : Utils.Color.
Variable rowToExpression : Json → Expression.
Variable rowsToExpression : list Json → Expression.

Local Abbreviation colorThemeForNode :=
  (colorThemeForNode (FieldValues := FieldValues) (Bundle := Bundle) (Script := Script)
     ColorNames DefaultColor NoColor rowToExpression rowsToExpression).
Local Abbreviation componentPropsFromSelector :=
  (componentPropsFromSelector (FieldValues := FieldValues) (Bundle := Bundle)
     (Script := Script) rowToExpression rowsToExpression).

Lemma annotation_color_theme (n : Node) (context : MolstarLoadingContext)
    (annotationId : string) :
  kind n = "color_from_uri" ∨ kind n = "color_from_source" →
  annotationMap_get context n = Some annotationId →
  String.eqb annotationId "" = false →
  colorThemeForNode (Some n) context
  = AnnotationColor annotationId (string_param (params n) "field_name") NoColor.
Proof.
  intros Hkind Hget Hnonempty.
  assert (Hcolor : is_color_kind n = true).
  { unfold is_color_kind. destruct Hkind as [->| ->]; reflexivity. }
  assert (Hfrom : String.eqb (kind n) "color_from_uri"
                  || String.eqb (kind n) "color_from_source" = true).
  { destruct Hkind as [->| ->]; reflexivity. }
  rewrite colorThemeForNode_color_child by assumption.
  unfold color_theme_of_color_node. rewrite Hfrom.
  unfold annotationMap_get in Hget. rewrite Hget, Hnonempty. reflexivity.
Qed.

(** X26 ([colorThemeForNode] after [collectAnnotationReferences]).  With
    the context that [collectAnnotationReferences] leaves for the tree, the
    theme of a colour node that refers to an annotation is the annotation
    theme for the id of the spec returned for that annotation, never a
    uniform colour; a representation whose only colour child is such a node
    takes that theme. *)
Theorem colorThemeForNode_after_references (tree : Node) (context : MolstarLoadingContext)
    (n : Node) :
  distinct_refs tree → In n (nodes tree) →
  kind n = "color_from_uri" ∨ kind n = "color_from_source" →
  let context' := (collectAnnotationReferences tree context).2 in
  ∃ a, In a (collectAnnotationReferences tree context).1
       ∧ node_key n = Some (spec_key (spec_props a))
       ∧ colorThemeForNode (Some n) context'
         = AnnotationColor (id a) (string_param (params n) "field_name") NoColor
       ∧ ∀ representation,
           kind representation = "representation" →
           List.filter is_color_kind (getChildren representation) = [n] →
           colorThemeForNode (Some representation) context'
           = AnnotationColor (id a) (string_param (params n) "field_name") NoColor.
Proof.
  intros Hnd Hn Hkind context'.
  assert (Hspec : ∃ spec, spec_of_node n = Some spec).
  { unfold spec_of_node. destruct Hkind as [->| ->]; eexists; reflexivity. }
  destruct Hspec as [spec Hspec].
  destruct (collected_reference tree context n spec Hnd Hn Hspec)
    as (a & Ha & Hkey & Hid & Hget).
  assert (Htheme : colorThemeForNode (Some n) context'
                   = AnnotationColor (id a) (string_param (params n) "field_name") NoColor).
  { apply annotation_color_theme; [assumption | assumption|].
    rewrite Hid. apply stringHash_nonempty. }
  exists a. split; [assumption|]. split.
  { unfold node_key. rewrite Hspec, Hkey. reflexivity. }
  split; [exact Htheme|].
  intros representation Hrepr Hchildren.
  rewrite colorThemeForNode_representation_cases by assumption.
  rewrite Hchildren.
  assert (Hwhole : appliesColorToWholeRepr n = true).
  { unfold appliesColorToWholeRepr. destruct Hkind as [->| ->]; reflexivity. }
  rewrite Hwhole. exact Htheme.
Qed.

(** X27 ([labelFromXProps] with the map of [makeNearestReprMap]).  A label
    takes the colour theme of the representation the map gives for it, which
    is a representation node of the same tree; a label without entry in the
    map takes the uniform theme with an [undefined] colour value, not the
    default colour. *)
Theorem labelFromXProps_theme_of_nearest (root node : Node)
    (annotations : option (gmap nat string)) :
  distinct_refs root →
  let context := mkContext annotations (Some (makeNearestReprMap root)) in
  let props :=
    labelFromXProps (FieldValues := FieldValues) (Bundle := Bundle) (Script := Script)
      ColorNames DefaultColor NoColor rowToExpression rowsToExpression node context in
  label_annotationId props = annotationMap_get context node
  ∧ (∀ repr, makeNearestReprMap root !! ref node = Some repr →
       kind repr = "representation" ∧ In repr (nodes root)
       ∧ label_colorTheme props = colorThemeForNode (Some repr) context)
  ∧ (makeNearestReprMap root !! ref node = None → label_colorTheme props = Uniform None).
Proof.
  intros Hnd context props. subst props. unfold labelFromXProps.
  cbn [label_annotationId label_colorTheme nearestReprMap context].
  split; [reflexivity|]. split.
  - intros repr Hrepr.
    destruct (nearest_entry_is_representation root (ref node) repr Hnd Hrepr)
      as (_ & Hkind & Hin).
    split; [assumption|]. split; [assumption|]. rewrite Hrepr. reflexivity.
  - intros Hnone. rewrite Hnone. reflexivity.
Qed.

(** X28 ([componentPropsFromSelector], [isSelectorAll],
    [appliesColorToWholeRepr]).  The selector of a component is the selector
    of the whole structure exactly when the selector parameter is missing or
    is the string 'all'; and a colour node applies to the whole
    representation exactly when its selector parameter translates to that
    selector, a [null] parameter apart, which applies to the whole
    representation and translates to an expression. *)
Theorem componentPropsFromSelector_whole_structure (selector : option Json) :
  (isSelectorAll (componentPropsFromSelector selector) = true
   ↔ selector = None ∨ selector = Some (JStr "all"))
  ∧ (∀ c, kind c = "color" → get_prop (params c) "selector" = selector →
       selector ≠ Some JNull →
       appliesColorToWholeRepr c = isSelectorAll (componentPropsFromSelector selector))
  ∧ (∀ c, kind c = "color" → get_prop (params c) "selector" = Some JNull →
       appliesColorToWholeRepr c = true
       ∧ isSelectorAll (componentPropsFromSelector (Some JNull)) = false).
Proof.
  split; [|split].
  - destruct selector as [[| b | n | s | xs | fields]|]; cbn;
      try (split; [discriminate | intros [H|H]; discriminate H]).
    + rewrite String.eqb_eq. split.
      * intros ->. right. reflexivity.
      * intros [H|[= ->]]; [discriminate H | reflexivity].
    + split; [intros _; left; reflexivity | reflexivity].
  - intros c Hkind Hselector Hnotnull. unfold appliesColorToWholeRepr.
    rewrite Hkind, Hselector. change (String.eqb "color" "color") with true. cbv iota.
    destruct selector as [[| b | n | s | xs | fields]|]; try reflexivity.
    exfalso. apply Hnotnull. reflexivity.
  - intros c Hkind Hselector. unfold appliesColorToWholeRepr.
    rewrite Hkind, Hselector. split; reflexivity.
Qed.

End ThemeAfterReferences.

Lemma colorThemeForNode_after_references_witness :
  ∃ a, In a (collectAnnotationReferences annotated_component empty_context).1
       ∧ sample_colorThemeForNode (Some annotated_representation)
           (collectAnnotationReferences annotated_component empty_context).2
         = AnnotationColor (id a) (Some "color") 0.
Proof.
  destruct (colorThemeForNode_after_references (Expression := unit) (Bundle := unit)
              (Script := unit) (FieldValues := unit) sample_ColorNames "white" 0
              (fun _ => tt) (fun _ => tt) annotated_component empty_context
              colored_by_annotation) as (a & Ha & _ & _ & Hrepr).
  - solve_distinct_refs.
  - simpl. tauto.
  - left. reflexivity.
  - exists a. split; [assumption|]. apply Hrepr; reflexivity.
Defined.

Lemma labelFromXProps_theme_of_nearest_witness :
  label_colorTheme
    (labelFromXProps (Expression := unit) (Bundle := unit) (Script := unit)
       (FieldValues := unit) sample_ColorNames "white" 0 (fun _ => tt) (fun _ => tt)
       annotated_label_node (mkContext None (Some (makeNearestReprMap annotated_component))))
  = sample_colorThemeForNode (Some annotated_representation)
      (mkContext None (Some (makeNearestReprMap annotated_component))).
Proof.
  assert (Hnd : distinct_refs annotated_component) by solve_distinct_refs.
  destruct (labelFromXProps_theme_of_nearest (Expression := unit) (Bundle := unit)
              (Script := unit) (FieldValues := unit) sample_ColorNames "white" 0
              (fun _ => tt) (fun _ => tt) annotated_component annotated_label_node None Hnd)
    as (_ & Hrepr & _).
  apply (Hrepr annotated_representation). vm_compute. reflexivity.
Defined.

(** *** [transformProps] *)

Section TransformPropsFacts.

Variable isRotationAndTranslation : list float → bool.
Variable number_array_param : Obj Json → string → option (list float).

Local Abbreviation matrix_of :=
  (transform_matrix isRotationAndTranslation number_array_param).

Lemma transform_ok_valid (rotation translation : option (list float)) (m : list float) :
  transformFromRotationTranslation isRotationAndTranslation rotation translation = Ok m →
  isRotationAndTranslation m = true.
Proof.
  unfold transformFromRotationTranslation.
  destruct (present_and_length_not rotation 9); [discriminate|].
  destruct (present_and_length_not translation 3); [discriminate|].
  destruct (isRotationAndTranslation _) eqn:Hvalid; [|discriminate].
  intros [= <-]. exact Hvalid.
Qed.

Lemma transformProps_loop_ok (transforms : list Node) (collected props : list (list float)) :
  transformProps_loop isRotationAndTranslation number_array_param transforms collected
  = Ok props
  ↔ ∃ matrices, props = collected ++ matrices
                ∧ Forall2 (fun t m => matrix_of t = Ok m) transforms matrices.
Proof.
  revert collected. induction transforms as [|t ts IH]; intros collected; simpl.
  - split.
    + intros [= <-]. exists []. split; [symmetry; apply app_nil_r | constructor].
    + intros (ms & -> & Hms). inversion Hms; subst. rewrite (app_nil_r collected). reflexivity.
  - fold (matrix_of t). destruct (matrix_of t) as [m|e] eqn:Ht.
    + rewrite IH. split.
      * intros (ms & -> & Hms). exists (m :: ms). rewrite <- app_assoc. split; [reflexivity|].
        constructor; assumption.
      * intros (ms & -> & Hms). inversion Hms as [|? m' ? ms' Hm Hrest]; subst.
        rewrite Ht in Hm. injection Hm as <-. exists ms'.
        rewrite <- app_assoc. split; [reflexivity | assumption].
    + split; [discriminate|]. intros (ms & _ & Hms).
      inversion Hms as [|? m' ? ms' Hm Hrest]; subst. rewrite Ht in Hm. discriminate Hm.
Qed.

Lemma transformProps_loop_throw (transforms : list Node) (collected : list (list float))
    (e : TransformError) :
  transformProps_loop isRotationAndTranslation number_array_param transforms collected
  = Throw e
  ↔ ∃ before t after, transforms = before ++ t :: after
                      ∧ Forall (fun t' => ∃ m, matrix_of t' = Ok m) before
                      ∧ matrix_of t = Throw e.
Proof.
  revert collected. induction transforms as [|t ts IH]; intros collected; simpl.
  - split; [discriminate|]. intros (before & t & after & Heq & _).
    destruct before; discriminate Heq.
  - fold (matrix_of t). destruct (matrix_of t) as [m|e'] eqn:Ht.
    + rewrite IH. split.
      * intros (before & t' & after & -> & Hbefore & Ht').
        exists (t :: before), t', after. split; [reflexivity|].
        split; [constructor; eauto | assumption].
      * intros (before & t' & after & Heq & Hbefore & Ht').
        destruct before as [|b before]; simpl in Heq.
        -- injection Heq as <- <-. rewrite Ht in Ht'. discriminate Ht'.
        -- injection Heq as <- ->. apply Forall_cons in Hbefore as [_ Hbefore].
           exists before, t', after. split; [reflexivity|]. split; assumption.
    + split.
      * intros [= <-]. exists [], t, ts. split; [reflexivity|]. split; [constructor | assumption].
      * intros (before & t' & after & Heq & Hbefore & Ht').
        destruct before as [|b before]; simpl in Heq.
        -- injection Heq as <- <-. rewrite Ht in Ht'. injection Ht' as ->. reflexivity.
        -- injection Heq as <- ->. apply Forall_cons in Hbefore as [[m Hm] _].
           rewrite Ht in Hm. discriminate Hm.
Qed.

(** X29 ([transformProps]).  [transformProps] returns one matrix for every
    transform node among the children of the node, in their order, each the
    matrix of the rotation and translation of its node and each accepted by
    the validity test of the host; it returns the empty array when there is
    no transform node, and it throws exactly when the parameters of some
    transform node are refused, with the error of the first such node. *)
Theorem transformProps_one_matrix_per_transform (node : Node) :
  let transforms := transform_children node in
  let returned := transformProps isRotationAndTranslation number_array_param node in
  (∀ props, returned = Ok props
            ↔ Forall2 (fun t m => matrix_of t = Ok m) transforms props)
  ∧ (∀ props, returned = Ok props →
       length props = length transforms
       ∧ Forall (fun m => isRotationAndTranslation m = true) props)
  ∧ (∀ e, returned = Throw e
          ↔ ∃ before t after, transforms = before ++ t :: after
                              ∧ Forall (fun t' => ∃ m, matrix_of t' = Ok m) before
                              ∧ matrix_of t = Throw e)
  ∧ (transforms = [] → returned = Ok []).
Proof.
  intros transforms returned. subst transforms returned.
  unfold transformProps. fold (transform_children node).
  assert (Hok : ∀ props,
            transformProps_loop isRotationAndTranslation number_array_param
              (transform_children node) [] = Ok props
            ↔ Forall2 (fun t m => matrix_of t = Ok m) (transform_children node) props).
  { intros props. rewrite transformProps_loop_ok. split.
    - intros (ms & -> & Hms). exact Hms.
    - intros Hms. exists props. split; [reflexivity | assumption]. }
  split; [exact Hok|]. split; [|split].
  - intros props Hprops. apply Hok in Hprops. split.
    + symmetry. apply (Forall2_length _ _ _ Hprops).
    + clear Hok. induction Hprops as [|t m ts ms Hm _ IH]; constructor; [|assumption].
      apply (transform_ok_valid _ _ _ Hm).
  - intros e. apply transformProps_loop_throw.
  - intros ->. reflexivity.
Qed.

End TransformPropsFacts.

Example transformProps_sample :
  transformProps Mat4.isRotationAndTranslation sample_number_array_param transformed_structure
  = Ok [translation_by_1_2_3].
Proof. vm_compute. reflexivity. Qed.

(** *** [collectInlineTooltips] *)

Section InlineTooltipFacts.

Context {Expression Bundle Script : Type}.

Variable rowToExpression : Json → Expression.
Variable rowsToExpression : list Json → Expression.

Local Abbreviation Tooltip := (@InlineTooltip Expression Bundle Script).
Local Abbreviation pushed :=
  (pushed_inline (Bundle := Bundle) (Script := Script) rowToExpression rowsToExpression).
Local Abbreviation under_component :=
  (tooltip_under_component (Bundle := Bundle) (Script := Script)
     rowToExpression rowsToExpression).

Lemma collect_inline_tooltip_pushes (context : MolstarLoadingContext)
    (v : Node * option Node) (collected : list Tooltip) :
  collect_inline_tooltip (Bundle := Bundle) (Script := Script)
    rowToExpression rowsToExpression context v.1 v.2 collected
  = collected ++ pushed context v.
Proof.
  unfold pushed_inline, collect_inline_tooltip. destruct v as [n [p|]]; cbn [fst snd].
  - destruct (String.eqb (kind n) "tooltip"); [|symmetry; apply app_nil_r].
    destruct (String.eqb (kind p) "component"); [reflexivity|].
    destruct (_ || _); [|symmetry; apply app_nil_r].
    destruct (component_annotationId _); [|symmetry; apply app_nil_r].
    destruct (component_fieldName _); [reflexivity | symmetry; apply app_nil_r].
  - destruct (String.eqb (kind n) "tooltip"); symmetry; apply app_nil_r.
Qed.

Lemma collectInlineTooltips_unfold (tree : Node) (context : MolstarLoadingContext) :
  collectInlineTooltips (Bundle := Bundle) (Script := Script)
    rowToExpression rowsToExpression tree context
  = List.flat_map (pushed context) (visits_pre tree None).
Proof.
  unfold collectInlineTooltips, dfs. rewrite dfs_pre_visits, run_visits_pure.
  cbn [final_state].
  assert (Hgen : ∀ vs (collected : list Tooltip),
            List.fold_left
              (fun s v => collect_inline_tooltip (Bundle := Bundle) (Script := Script)
    rowToExpression rowsToExpression context
                            v.1 v.2 s) vs collected
            = collected ++ List.flat_map (pushed context) vs).
  { induction vs as [|v vs IH]; intros collected; simpl.
    - symmetry. apply app_nil_r.
    - rewrite IH, collect_inline_tooltip_pushes, <- app_assoc. reflexivity. }
  apply (Hgen _ []).
Qed.

(** What one visit pushes. *)
Lemma pushed_inline_cases (context : MolstarLoadingContext) (node : Node)
    (parent : option Node) (t : Tooltip) :
  In t (pushed context (node, parent)) →
  ∃ p, parent = Some p ∧ kind node = "tooltip"
       ∧ tooltip_text t = string_param (params node) "text"
       ∧ ((kind p = "component" ∧ t = under_component node p)
          ∨ (is_annotation_component p = true
             ∧ ∃ annotationId fieldName,
                 annotationMap_get context p = Some annotationId
                 ∧ string_param (params p) "field_name" = Some fieldName
                 ∧ tooltip_selector t
                   = SelAnnotation annotationId fieldName
                       (component_fieldValues (componentFromXProps p context)))).
Proof.
  unfold pushed_inline, collect_inline_tooltip. cbn [fst snd].
  destruct (String.eqb_spec (kind node) "tooltip") as [Hnode|_]; [|intros []].
  destruct parent as [p|]; [|intros []].
  intros Ht. exists p. split; [reflexivity|]. split; [assumption|]. revert Ht.
  destruct (String.eqb_spec (kind p) "component") as [Hp|_].
  - intros [<-|[]]. split; [reflexivity|]. left. split; [assumption | reflexivity].
  - fold (is_annotation_component p).
    destruct (is_annotation_component p) eqn:Hannotation; [|intros []].
    unfold componentFromXProps. cbn [component_annotationId component_fieldName
                                       component_fieldValues].
    destruct (annotationMap_get context p) as [annotationId|] eqn:Hid; [|intros []].
    destruct (string_param (params p) "field_name") as [fieldName|] eqn:Hfield; [|intros []].
    intros [<-|[]]. split; [reflexivity|]. right. split; [reflexivity|].
    exists annotationId, fieldName. repeat split.
Qed.

(** X30 ([collectInlineTooltips]).  Every tooltip node whose parent is a
    component node gives an inline tooltip with its text and the selector of
    the component.  Every inline tooltip returned stems from a tooltip node
    whose parent is a component node or a component defined by an annotation
    that has an annotation id and a field name; a tooltip node anywhere else
    is ignored, and so is, in a context without annotation map, every
    tooltip under a component defined by an annotation. *)
Theorem collectInlineTooltips_under_components (tree : Node)
    (context : MolstarLoadingContext) :
  let tooltips := collectInlineTooltips (Bundle := Bundle) (Script := Script)
    rowToExpression rowsToExpression tree context in
  (∀ parent node, In parent (nodes tree) → In node (getChildren parent) →
     kind node = "tooltip" → kind parent = "component" →
     In (under_component node parent) tooltips)
  ∧ (∀ t, In t tooltips →
       ∃ parent node, In parent (nodes tree) ∧ In node (getChildren parent)
         ∧ kind node = "tooltip"
         ∧ tooltip_text t = string_param (params node) "text"
         ∧ ((kind parent = "component" ∧ t = under_component node parent)
            ∨ (is_annotation_component parent = true
               ∧ ∃ annotationId fieldName,
                   annotationMap_get context parent = Some annotationId
                   ∧ string_param (params parent) "field_name" = Some fieldName
                   ∧ tooltip_selector t
                     = SelAnnotation annotationId fieldName
                         (component_fieldValues (componentFromXProps parent context)))))
  ∧ (annotationMap context = None →
     ∀ t, In t tooltips →
       ∃ parent node, kind parent = "component" ∧ t = under_component node parent).
Proof.
  intros tooltips. subst tooltips. rewrite collectInlineTooltips_unfold.
  assert (Hfrom : ∀ t, In t (List.flat_map (pushed context) (visits_pre tree None)) →
            ∃ parent node, In parent (nodes tree) ∧ In node (getChildren parent)
              ∧ In t (pushed context (node, Some parent))).
  { intros t Ht. apply List.in_flat_map in Ht as ([node parent] & Hvisit & Ht).
    destruct (pushed_inline_cases context node parent t Ht) as (p & -> & _).
    destruct (visits_pre_parent tree None node (Some p) Hvisit)
      as [[_ Hnone]|(q & [= <-] & Hq & Hchild)]; [discriminate Hnone|].
    exists p, node. repeat split; assumption. }
  split; [|split].
  - intros parent node Hparent Hnode Hkind Hcomponent.
    apply List.in_flat_map. exists (node, Some parent).
    split; [apply visits_pre_child; assumption|].
    unfold pushed_inline, collect_inline_tooltip. cbn [fst snd].
    rewrite Hkind, Hcomponent. left. reflexivity.
  - intros t Ht. destruct (Hfrom t Ht) as (parent & node & Hparent & Hnode & Hpushed).
    destruct (pushed_inline_cases context node (Some parent) t Hpushed)
      as (p & [= <-] & Hkind & Htext & Hcases).
    exists parent, node. repeat split; assumption.
  - intros Hnomap t Ht. destruct (Hfrom t Ht) as (parent & node & _ & _ & Hpushed).
    destruct (pushed_inline_cases context node (Some parent) t Hpushed)
      as (p & [= <-] & _ & _ & [[Hcomponent ->]|(_ & id' & _ & Hid & _)]).
    + exists parent, node. split; [assumption | reflexivity].
    + unfold annotationMap_get in Hid. rewrite Hnomap in Hid. discriminate Hid.
Qed.

End InlineTooltipFacts.

Example collectInlineTooltips_sample :
  collectInlineTooltips (Bundle := unit) (Script := unit) (fun _ => tt) (fun _ => tt)
    tooltip_structure empty_context
  = [mkInlineTooltip (Some "active site") (SelStatic "ligand")].
Proof. reflexivity. Qed.
